(** * tRPC Explorer: router discovery and procedure analysis

    A shallow embedding of the parser of the VS Code tRPC explorer
    ([src/parser.ts] and [src/parserProcedureAnalysis.ts]) together with the
    properties of its specification.

    The TypeScript compiler API, Node's [fs] and [path] modules and the regular
    expression engine are the environment of the program.  Their results are
    data of the model: a file system maps absolute POSIX paths to parsed
    files, a syntax tree is a value of type [Node], and the answers of the
    type checker are functions stored in a [TypeCheckerContext].  Strings are
    sequences of 8-bit code units. *)

From Stdlib Require Import Ascii String.
From stdpp Require Import gmap strings pretty list.
From Equations Require Import Equations.

Local Open Scope stdpp_scope.

(** ** JavaScript strings *)

(** [Boolean(s)]: a string is truthy when it is not empty. *)
Definition truthy (s : string) : bool :=
  match s with
  | EmptyString => false
  | String _ _ => true
  end.

(** [Boolean(x)] for [x : string | undefined]. *)
Definition truthy_opt (o : option string) : bool :=
  match o with
  | Some s => truthy s
  | None => false
  end.

(** [s.startsWith(p)]. *)
Definition startsWith (s p : string) : bool := String.prefix p s.

Fixpoint dropWhile (f : ascii → bool) (s : string) : string :=
  match s with
  | EmptyString => EmptyString
  | String c s' => if f c then dropWhile f s' else s
  end.

Fixpoint takeWhile (f : ascii → bool) (s : string) : string :=
  match s with
  | EmptyString => EmptyString
  | String c s' => if f c then String c (takeWhile f s') else EmptyString
  end.

Fixpoint string_drop (n : nat) (s : string) : string :=
  match n, s with
  | 0, _ => s
  | S n', String _ s' => string_drop n' s'
  | S _, EmptyString => EmptyString
  end.

(** [s.slice(n)] for [0 <= n]. *)
Definition slice_from (s : string) (n : nat) : string := string_drop n s.

(** [s.trim()], on the white space of the ASCII range. *)
Definition trim (s : string) : string :=
  String.rev (dropWhile Ascii.is_space (String.rev (dropWhile Ascii.is_space s))).

(** All white space removed, as [replace] with the global pattern for runs
    of white space does. *)
Fixpoint removeWhitespace (s : string) : string :=
  match s with
  | EmptyString => EmptyString
  | String c s' =>
      if Ascii.is_space c then removeWhitespace s' else String c (removeWhitespace s')
  end.

(** [s.split(sep)] for a one-character separator: never the empty list. *)
Fixpoint split_on (sep : ascii) (s : string) : list string :=
  match s with
  | EmptyString => [EmptyString]
  | String c s' =>
      if Ascii.eqb c sep then EmptyString :: split_on sep s'
      else match split_on sep s' with
           | [] => [String c EmptyString]
           | p :: ps => String c p :: ps
           end
  end.

(** [parts.join(sep)]. *)
Fixpoint join (sep : string) (parts : list string) : string :=
  match parts with
  | [] => EmptyString
  | [p] => p
  | p :: ps => p +:+ sep +:+ join sep ps
  end.

(** [Array.from(new Set(l))]: duplicates removed, first occurrences kept in
    order. *)
Fixpoint uniqueStrings_go (seen : list string) (l : list string) : list string :=
  match l with
  | [] => []
  | x :: l' =>
      if bool_decide (x ∈ seen) then uniqueStrings_go seen l'
      else x :: uniqueStrings_go (x :: seen) l'
  end.

Definition uniqueStrings (l : list string) : list string := uniqueStrings_go [] l.

(** The replacement of a final star by nothing: one star at the very end is
    removed. *)
Definition stripTrailingStar (s : string) : string :=
  match String.rev s with
  | String "*"%char r => String.rev r
  | _ => s
  end.

(** The character classes of the identifier pattern of [resolveSchemaText]:
    letters, underscore and dollar; and these with the digits. *)
Definition isIdentStart (c : ascii) : bool :=
  let n := nat_of_ascii c in
  ((65 <=? n) && (n <=? 90)) || ((97 <=? n) && (n <=? 122))
  || Ascii.eqb c "_"%char || Ascii.eqb c "$"%char.

Definition isIdentPart (c : ascii) : bool :=
  isIdentStart c || ((48 <=? nat_of_ascii c) && (nat_of_ascii c <=? 57)).

(** The match of the identifier pattern of [resolveSchemaText], an identifier
    start character, then identifier characters, then anything: the two
    groups are the longest identifier at the start and all that follows. *)
Definition matchIdentifier (s : string) : option (string * string) :=
  match s with
  | String c _ =>
      if isIdentStart c
      then Some (takeWhile isIdentPart s, dropWhile isIdentPart s)
      else None
  | EmptyString => None
  end.

(** ** Paths

    Node's [path] module on absolute POSIX paths, the paths VS Code hands to
    the extension.  A path that is not absolute is read from the root. *)

Definition isSlash (c : ascii) : bool := Ascii.eqb c "/"%char.

(** The segments of a path once [.], [..] and empty segments are resolved;
    [acc] holds the segments so far, the last one first. *)
Fixpoint normalizeSegments (acc : list string) (segs : list string) : list string :=
  match segs with
  | [] => rev acc
  | seg :: segs' =>
      if String.eqb seg EmptyString || String.eqb seg "." then normalizeSegments acc segs'
      else if String.eqb seg ".." then normalizeSegments (tail acc) segs'
      else normalizeSegments (seg :: acc) segs'
  end.

Definition normalizeAbsolute (p : string) : string :=
  "/" +:+ join "/" (normalizeSegments [] (split_on "/"%char p)).

(** [path.resolve(from, to)]. *)
Definition path_resolve (from to : string) : string :=
  if startsWith to "/" then normalizeAbsolute to
  else normalizeAbsolute (from +:+ "/" +:+ to).

(** [path.join(a, b)]. *)
Definition path_join (a b : string) : string := normalizeAbsolute (a +:+ "/" +:+ b).

(** [path.dirname(p)]: the path up to its last segment, [/] above the first
    one. *)
Definition path_dirname (p : string) : string :=
  let r := dropWhile isSlash (String.rev p) in
  let r' := dropWhile isSlash (dropWhile (λ c, negb (isSlash c)) r) in
  match r' with
  | EmptyString => "/"
  | _ => String.rev r'
  end.

(** [path.parse(dir).root] of an absolute path. *)
Definition path_root : string := "/".

(** ** Syntax trees

    The part of the TypeScript syntax tree that the parser inspects.  Every
    node carries what the program reads from its position in the file: its
    source text [getText()], its offsets [getStart()] and [getEnd()], and the
    line of its start. *)

Record NodeInfo : Type := mkInfo {
  info_text : string;
  info_start : nat;
  info_end : nat;
  info_line : nat
}.

Inductive Modifier : Type := ExportKeyword | DeclareKeyword | OtherModifier.

Record ImportSpecifier : Type := mkImportSpecifier {
  spec_propertyName : option string;
  spec_name : string
}.

Inductive NamedImportBindings : Type :=
| NamedImports (elements : list ImportSpecifier)
| NamespaceImport (name : string).

Record ImportClause : Type := mkImportClause {
  clause_name : option string;
  clause_namedBindings : option NamedImportBindings
}.

#[warnings="-register-all"] Inductive Node : Type :=
| Identifier (i : NodeInfo) (text : string)
| PrivateIdentifier (i : NodeInfo)
| StringLiteral (i : NodeInfo) (text : string)
| NumericLiteral (i : NodeInfo) (text : string)
| NoSubstitutionTemplateLiteral (i : NodeInfo)
| TemplateExpression (i : NodeInfo) (spans : list Node)
| TrueKeyword (i : NodeInfo)
| FalseKeyword (i : NodeInfo)
| NullKeyword (i : NodeInfo)
| ComputedPropertyName (i : NodeInfo) (expression : Node)
| PropertyAccessExpression (i : NodeInfo) (expression name : Node)
| CallExpression (i : NodeInfo) (expression : Node) (arguments : list Node)
| NewExpression (i : NodeInfo) (expression : Node) (arguments : list Node)
| ParenthesizedExpression (i : NodeInfo) (expression : Node)
| AsExpression (i : NodeInfo) (expression : Node)
| SatisfiesExpression (i : NodeInfo) (expression : Node)
| NonNullExpression (i : NodeInfo) (expression : Node)
| ConditionalExpression (i : NodeInfo) (condition whenTrue whenFalse : Node)
| ArrayLiteralExpression (i : NodeInfo) (elements : list Node)
| SpreadElement (i : NodeInfo) (expression : Node)
| ObjectLiteralExpression (i : NodeInfo) (properties : list Node)
| PropertyAssignment (i : NodeInfo) (name initializer : Node)
| ShorthandPropertyAssignment (i : NodeInfo) (name : Node)
| SpreadAssignment (i : NodeInfo) (expression : Node)
| MethodDeclaration (i : NodeInfo) (name : Node) (rest : list Node)
| ArrowFunction (i : NodeInfo) (parameters : list Node) (body : Node)
| FunctionExpression (i : NodeInfo) (parameters : list Node) (body : Node)
| Block (i : NodeInfo) (statements : list Node)
| ReturnStatement (i : NodeInfo) (expression : option Node)
| VariableDeclaration (i : NodeInfo) (name : Node) (initializer : option Node)
| TypeAliasDeclaration (i : NodeInfo) (modifiers : list Modifier) (name type : Node)
| TypeQuery (i : NodeInfo) (exprName : Node)
| ImportDeclaration (i : NodeInfo) (importClause : option ImportClause)
    (moduleSpecifier : string)
| OtherFunctionLike (i : NodeInfo) (children : list Node)
| OtherNode (i : NodeInfo) (children : list Node).

Definition nodeInfo (n : Node) : NodeInfo :=
  match n with
  | Identifier i _ | PrivateIdentifier i | StringLiteral i _ | NumericLiteral i _
  | NoSubstitutionTemplateLiteral i | TemplateExpression i _ | TrueKeyword i
  | FalseKeyword i | NullKeyword i | ComputedPropertyName i _
  | PropertyAccessExpression i _ _ | CallExpression i _ _ | NewExpression i _ _
  | ParenthesizedExpression i _ | AsExpression i _ | SatisfiesExpression i _
  | NonNullExpression i _ | ConditionalExpression i _ _ _
  | ArrayLiteralExpression i _ | SpreadElement i _ | ObjectLiteralExpression i _
  | PropertyAssignment i _ _ | ShorthandPropertyAssignment i _
  | SpreadAssignment i _ | MethodDeclaration i _ _ | ArrowFunction i _ _
  | FunctionExpression i _ _ | Block i _ | ReturnStatement i _
  | VariableDeclaration i _ _ | TypeAliasDeclaration i _ _ _ | TypeQuery i _
  | ImportDeclaration i _ _ | OtherFunctionLike i _ | OtherNode i _ => i
  end.

Definition getText (n : Node) : string := info_text (nodeInfo n).
Definition getStart (n : Node) : nat := info_start (nodeInfo n).
Definition getEnd (n : Node) : nat := info_end (nodeInfo n).

(** [sourceFile.getLineAndCharacterOfPosition(node.getStart()).line + 1]. *)
Definition lineOf (n : Node) : nat := info_line (nodeInfo n) + 1.

(** [ts.forEachChild]: the children of a node, in source order. *)
Definition forEachChild (n : Node) : list Node :=
  match n with
  | Identifier _ _ | PrivateIdentifier _ | StringLiteral _ _ | NumericLiteral _ _
  | NoSubstitutionTemplateLiteral _ | TrueKeyword _ | FalseKeyword _
  | NullKeyword _ | ImportDeclaration _ _ _ => []
  | TemplateExpression _ l | ArrayLiteralExpression _ l
  | ObjectLiteralExpression _ l | Block _ l | OtherFunctionLike _ l
  | OtherNode _ l => l
  | ComputedPropertyName _ e | ParenthesizedExpression _ e | AsExpression _ e
  | SatisfiesExpression _ e | NonNullExpression _ e | SpreadElement _ e
  | ShorthandPropertyAssignment _ e | SpreadAssignment _ e | TypeQuery _ e => [e]
  | PropertyAccessExpression _ e n | PropertyAssignment _ e n => [e; n]
  | TypeAliasDeclaration _ _ e n => [e; n]
  | CallExpression _ e l | NewExpression _ e l | MethodDeclaration _ e l => e :: l
  | ConditionalExpression _ c t f => [c; t; f]
  | ArrowFunction _ ps b | FunctionExpression _ ps b => ps ++ [b]
  | ReturnStatement _ o => option_list o
  | VariableDeclaration _ n o => n :: option_list o
  end.

(** A recursive visitor, [function visit(node) { ...; ts.forEachChild(node,
    visit) }]: the callback [f] updates the state at a node and tells whether
    the visitor goes on into the children of the node. *)
Section Visit.
Context {State : Type} (f : Node → State → State * bool).

Fixpoint visit (n : Node) (s : State) : State :=
  let visits := fix visits (l : list Node) (s : State) : State :=
    match l with
    | [] => s
    | c :: l' => visits l' (visit c s)
    end in
  let '(s1, descend) := f n s in
  if descend then
    match n with
    | Identifier _ _ | PrivateIdentifier _ | StringLiteral _ _
    | NumericLiteral _ _ | NoSubstitutionTemplateLiteral _ | TrueKeyword _
    | FalseKeyword _ | NullKeyword _ | ImportDeclaration _ _ _ => s1
    | TemplateExpression _ l | ArrayLiteralExpression _ l
    | ObjectLiteralExpression _ l | Block _ l | OtherFunctionLike _ l
    | OtherNode _ l => visits l s1
    | ComputedPropertyName _ e | ParenthesizedExpression _ e | AsExpression _ e
    | SatisfiesExpression _ e | NonNullExpression _ e | SpreadElement _ e
    | ShorthandPropertyAssignment _ e | SpreadAssignment _ e
    | TypeQuery _ e => visit e s1
    | PropertyAccessExpression _ e n' | PropertyAssignment _ e n' =>
        visit n' (visit e s1)
    | TypeAliasDeclaration _ _ e n' => visit n' (visit e s1)
    | CallExpression _ e l | NewExpression _ e l | MethodDeclaration _ e l =>
        visits l (visit e s1)
    | ConditionalExpression _ c t e => visit e (visit t (visit c s1))
    | ArrowFunction _ ps b | FunctionExpression _ ps b => visit b (visits ps s1)
    | ReturnStatement _ o =>
        match o with Some e => visit e s1 | None => s1 end
    | VariableDeclaration _ n' o =>
        match o with Some e => visit e (visit n' s1) | None => visit n' s1 end
    end
  else s1.

(** The visitor on a list of nodes, one after the other. *)
Definition visitAll (l : list Node) (s : State) : State :=
  fold_left (λ s c, visit c s) l s.

End Visit.

(** A parsed file, [ts.createSourceFile(...)]: its top-level statements. *)
Record SourceFile : Type := mkSourceFile {
  statements : list Node
}.

(** ** The file system, the type checker and the state of the process *)

(** [compilerOptions] of a configuration file, as far as it is read. *)
Record TsConfigJson : Type := mkTsConfigJson {
  json_paths : option (list (string * list string));
  json_baseUrl : option string
}.

(** [TsConfigPaths] of [src/lib/types.ts]; [paths] lists the entries of the
    object in the order of [Object.entries]. *)
Record TsConfigPaths : Type := mkTsConfigPaths {
  paths : list (string * list string);
  baseUrl : string
}.

(** What reading a file gives: its parse as a TypeScript source, and its
    parse as a configuration file once comments are stripped ([None] when
    [JSON.parse] or the access to its options throws). *)
Record FileData : Type := mkFileData {
  file_source : SourceFile;
  file_json : option TsConfigJson
}.

Inductive FsEntry : Type :=
| File (d : FileData)
| Directory.

(** The answers of a TypeScript program and its checker, per file and span
    of a node: the text of the type of the node ([typeToString] after
    [findNodeByRange] and [getTypeAtLocation]), its text through
    [typeToDisplayString], and [resolveEnumType] of a name. *)
Record TypeCheckerContext : Type := mkTypeCheckerContext {
  typeTextAt : string → nat → nat → option string;
  displayTextAt : string → nat → nat → option string;
  resolveEnumType : string → option string
}.

Inductive LogLevel : Type := DEBUG | INFO | WARN | ERROR.

(** The module-level caches of the two parser modules, and the calls made to
    the logger so far (the latest first). *)
Record World : Type := mkWorld {
  tsConfigPathsCache : gmap string (option TsConfigPaths);
  enumResolutionCache : gmap string (option string);
  nearestTsConfigPathCache : gmap string (option string);
  typeCheckerContextCache : gmap string (option TypeCheckerContext);
  logged : list (LogLevel * string)
}.

Definition set_tsConfigPathsCache (c : gmap string (option TsConfigPaths)) (w : World) : World :=
  mkWorld c (enumResolutionCache w) (nearestTsConfigPathCache w)
    (typeCheckerContextCache w) (logged w).

Definition set_enumResolutionCache (c : gmap string (option string)) (w : World) : World :=
  mkWorld (tsConfigPathsCache w) c (nearestTsConfigPathCache w)
    (typeCheckerContextCache w) (logged w).

Definition set_nearestTsConfigPathCache (c : gmap string (option string)) (w : World) : World :=
  mkWorld (tsConfigPathsCache w) (enumResolutionCache w) c
    (typeCheckerContextCache w) (logged w).

Definition set_typeCheckerContextCache (c : gmap string (option TypeCheckerContext))
    (w : World) : World :=
  mkWorld (tsConfigPathsCache w) (enumResolutionCache w)
    (nearestTsConfigPathCache w) c (logged w).

Definition log (level : LogLevel) (msg : string) (w : World) : World :=
  mkWorld (tsConfigPathsCache w) (enumResolutionCache w)
    (nearestTsConfigPathCache w) (typeCheckerContextCache w)
    ((level, msg) :: logged w).

(** Code that reads and writes the caches and logs: a state monad. *)
Definition St (A : Type) : Type := World → A * World.

Definition St_ret {A : Type} (a : A) : St A := λ w, (a, w).

Definition St_bind {A B : Type} (m : St A) (k : A → St B) : St B :=
  λ w, let '(a, w') := m w in k a w'.

Notation "'let!' x := m 'in' k" := (St_bind m (λ x, k))
  (at level 10, x pattern, m at level 100, k at level 200).

Definition logDebug (msg : string) : St unit := λ w, (tt, log DEBUG msg w).
Definition logWarning (msg : string) : St unit := λ w, (tt, log WARN msg w).
Definition logInfo (msg : string) : St unit := λ w, (tt, log INFO msg w).

(** The environment of the parser: the files on disk, unchanged while the
    parser runs; the TypeScript compiler, which builds the program of a
    configuration file for a target file or fails; and the regular expression
    engine on the patterns of the analysis. *)
Record Environment : Type := mkEnvironment {
  (** The entry at each path. *)
  env_fs : gmap string FsEntry;
  (** [createTypeCheckerContext(tsConfigPath, targetFilePath)]. *)
  env_createTypeCheckerContext : string → string → option TypeCheckerContext;
  (** [guessInputFieldTypeFromSchema]: the primitive name captured after the
      field name, a colon and [z.] in a schema text. *)
  env_matchFieldPrimitive : string → string → option string;
  (** Whether [.optional(], and whether [.nullable(], follows the field name
      in the schema text. *)
  env_matchFieldOptional : string → string → bool;
  env_matchFieldNullable : string → string → bool;
  (** [resolveEnumAliasesInText]: the matches of the enum pattern in a text,
      from left to right, each with the text before it, the match and the
      captured name; and the text after the last match. *)
  env_matchEnumAliases : string → list (string * string * option string) * string;
  (** [extractTopLevelObjectFieldType(objectText, fieldName)]. *)
  env_extractTopLevelObjectFieldType : string → string → option string;
  (** [sanitizeTypeText(typeText)]. *)
  env_sanitizeTypeText : option string → option string
}.

Section Parser.

Variable env : Environment.

#[warnings="-notation-for-abbreviation"] Local Notation fs := (env_fs env).
#[warnings="-notation-for-abbreviation"] Local Notation createTypeCheckerContext :=
  (env_createTypeCheckerContext env).
#[warnings="-notation-for-abbreviation"] Local Notation matchFieldPrimitive :=
  (env_matchFieldPrimitive env).
#[warnings="-notation-for-abbreviation"] Local Notation matchFieldOptional :=
  (env_matchFieldOptional env).
#[warnings="-notation-for-abbreviation"] Local Notation matchFieldNullable :=
  (env_matchFieldNullable env).
#[warnings="-notation-for-abbreviation"] Local Notation matchEnumAliases :=
  (env_matchEnumAliases env).
#[warnings="-notation-for-abbreviation"] Local Notation extractTopLevelObjectFieldType :=
  (env_extractTopLevelObjectFieldType env).
#[warnings="-notation-for-abbreviation"] Local Notation sanitizeTypeText :=
  (env_sanitizeTypeText env).

(** [fs.existsSync(p)]. *)
Definition existsSync (p : string) : bool :=
  match fs !! p with Some _ => true | None => false end.

(** [fs.existsSync(p) && fs.statSync(p).isFile()]. *)
Definition isFile (p : string) : bool :=
  match fs !! p with Some (File _) => true | _ => false end.

(** ** Module resolver *)

(** [resolveFile]: the first candidate that is a file. *)
Definition resolveFile_candidates (base : string) : list string :=
  [ base;
    base +:+ ".ts";
    base +:+ ".tsx";
    path_join base "index.ts";
    path_join base "index.tsx" ].

Definition resolveFile (base : string) : option string :=
  find isFile (resolveFile_candidates base).

(** The body of the [while] loop of [getTsConfigPaths], from directory
    [dir] upwards; [fuel] bounds the number of directories above [dir]. *)
Fixpoint getTsConfigPaths_from (fuel : nat) (dir : string) : St (option TsConfigPaths) :=
  λ w,
  if String.eqb dir path_root
  then (None, set_tsConfigPathsCache (<[dir := None]> (tsConfigPathsCache w)) w)
  else
    match tsConfigPathsCache w !! dir with
    | Some cached => (cached, w)
    | None =>
        let tsConfigPath := path_join dir "tsconfig.json" in
        match fs !! tsConfigPath with
        | Some entry =>
            let parsed :=
              match entry with
              | File d => file_json d
              | Directory => None
              end in
            match parsed with
            | Some {| json_paths := Some paths; json_baseUrl := b |} =>
                let baseUrl := path_resolve dir (default "." b) in
                let result := mkTsConfigPaths paths baseUrl in
                (Some result,
                 log DEBUG ("Found tsconfig with paths at " +:+ tsConfigPath)
                   (set_tsConfigPathsCache
                      (<[dir := Some result]> (tsConfigPathsCache w)) w))
            | Some {| json_paths := None |} =>
                (None,
                 set_tsConfigPathsCache (<[dir := None]> (tsConfigPathsCache w)) w)
            | None =>
                let w1 := log WARN ("Invalid tsconfig.json at " +:+ tsConfigPath) w in
                (None,
                 set_tsConfigPathsCache (<[dir := None]> (tsConfigPathsCache w1)) w1)
            end
        | None =>
            match fuel with
            | S fuel' => getTsConfigPaths_from fuel' (path_dirname dir) w
            | 0 =>
                (None,
                 set_tsConfigPathsCache (<[dir := None]> (tsConfigPathsCache w)) w)
            end
        end
    end.

Definition getTsConfigPaths (fromFilePath : string) : St (option TsConfigPaths) :=
  let dir := path_dirname fromFilePath in
  getTsConfigPaths_from (String.length dir) dir.

(** The inner loop of [resolveImport], over the substitutions of one
    pattern. *)
Fixpoint resolveImport_mappings (baseUrl rest : string) (mappings : list string)
    : option string :=
  match mappings with
  | [] => None
  | mapping :: mappings' =>
      let mappedPath := stripTrailingStar mapping +:+ rest in
      let resolved := resolveFile (path_resolve baseUrl mappedPath) in
      if truthy_opt resolved then resolved
      else resolveImport_mappings baseUrl rest mappings'
  end.

(** The outer loop of [resolveImport], over the entries of [paths]. *)
Fixpoint resolveImport_paths (baseUrl specifier : string)
    (entries : list (string * list string)) : option string :=
  match entries with
  | [] => None
  | (pattern, mappings) :: entries' =>
      let prefixStr := stripTrailingStar pattern in
      if negb (startsWith specifier prefixStr)
      then resolveImport_paths baseUrl specifier entries'
      else
        let rest := slice_from specifier (String.length prefixStr) in
        match resolveImport_mappings baseUrl rest mappings with
        | Some resolved => Some resolved
        | None => resolveImport_paths baseUrl specifier entries'
        end
  end.

Definition resolveImport (specifier fromFilePath : string) : St (option string) :=
  if startsWith specifier "."
  then St_ret (resolveFile (path_resolve (path_dirname fromFilePath) specifier))
  else
    let! tsConfigPaths := getTsConfigPaths fromFilePath in
    match tsConfigPaths with
    | None => St_ret None
    | Some cfg => St_ret (resolveImport_paths (baseUrl cfg) specifier (paths cfg))
    end.


(** ** Import bindings *)

Record ImportInfo : Type := mkImportInfo {
  moduleSpecifier : string;
  importName : string;
  isDefault : bool
}.

Definition getImports_elements (moduleSpecifier : string)
    (elements : list ImportSpecifier) (result : gmap string ImportInfo)
    : gmap string ImportInfo :=
  fold_left
    (λ result spec,
       let localName := spec_name spec in
       let importedName := default localName (spec_propertyName spec) in
       <[localName := mkImportInfo moduleSpecifier importedName false]> result)
    elements result.

Definition getImports_statement (result : gmap string ImportInfo) (stmt : Node)
    : gmap string ImportInfo :=
  match stmt with
  | ImportDeclaration _ (Some clause) moduleSpecifier =>
      let result :=
        match clause_name clause with
        | Some name => <[name := mkImportInfo moduleSpecifier "default" true]> result
        | None => result
        end in
      match clause_namedBindings clause with
      | Some (NamedImports elements) =>
          getImports_elements moduleSpecifier elements result
      | _ => result
      end
  | _ => result
  end.

Definition getImports (sourceFile : SourceFile) : gmap string ImportInfo :=
  fold_left getImports_statement (statements sourceFile) ∅.

(** ** Variable declarations of a file *)

Definition findVariableInitializer_visit (varName : string) (node : Node)
    (result : option string) : option string * bool :=
  if truthy_opt result then (result, false)
  else
    match node with
    | VariableDeclaration _ name (Some initializer) =>
        if String.eqb (getText name) varName
        then (Some (getText initializer), false)
        else (result, true)
    | _ => (result, true)
    end.

Definition findVariableInitializer (sourceFile : SourceFile) (varName : string)
    : option string :=
  visitAll (findVariableInitializer_visit varName) (statements sourceFile) None.

Definition findVariableDeclarationInfo_visit (varName : string) (node : Node)
    (result : option (Node * nat)) : option (Node * nat) * bool :=
  match result with
  | Some _ => (result, false)
  | None =>
      match node with
      | VariableDeclaration _ name (Some initializer) =>
          if String.eqb (getText name) varName
          then (Some (initializer, lineOf node), false)
          else (result, true)
      | _ => (result, true)
      end
  end.

Definition findVariableDeclarationInfo (sourceFile : SourceFile) (varName : string)
    : option (Node * nat) :=
  visitAll (findVariableDeclarationInfo_visit varName) (statements sourceFile) None.

(** [fs.readFileSync] followed by [ts.createSourceFile], of a path that is a
    file. *)
Definition readSourceFile (p : string) : option SourceFile :=
  match fs !! p with
  | Some (File d) => Some (file_source d)
  | _ => None
  end.

(** ** Schema text resolver *)

Record IdentifierResolution : Type := mkIdentifierResolution {
  res_text : string;
  res_filePath : string;
  res_sourceFile : SourceFile;
  res_imports : gmap string ImportInfo
}.

(** [resolveIdentifierFull].  The path that [resolveImport] returns is a
    file, so reading it gives a source file. *)
Definition resolveIdentifierFull (name : string) (sourceFile : SourceFile)
    (imports : gmap string ImportInfo) (filePath : string)
    : St (option IdentifierResolution) :=
  let localDef := findVariableInitializer sourceFile name in
  match localDef with
  | Some (String _ _ as text) =>
      St_ret (Some (mkIdentifierResolution text filePath sourceFile imports))
  | _ =>
      match imports !! name with
      | None => St_ret None
      | Some importInfo =>
          let! resolvedPath := resolveImport (moduleSpecifier importInfo) filePath in
          match resolvedPath with
          | Some (String _ _ as resolvedPath) =>
              match readSourceFile resolvedPath with
              | None => St_ret None
              | Some importSf =>
                  let importImports := getImports importSf in
                  let targetVar :=
                    if isDefault importInfo then name else importName importInfo in
                  match findVariableInitializer importSf targetVar with
                  | Some (String _ _ as definition) =>
                      St_ret (Some (mkIdentifierResolution definition resolvedPath
                                      importSf importImports))
                  | _ => St_ret None
                  end
              end
          | _ => St_ret None
          end
      end
  end.

Equations? resolveSchemaText (schemaText : string) (sourceFile : SourceFile)
    (imports : gmap string ImportInfo) (filePath : string) (depth : nat)
    : St string by wf (6 - depth) lt :=
  resolveSchemaText schemaText sourceFile imports filePath depth
    with decide (5 < depth) := {
    | left _ => St_ret schemaText
    | right _ =>
        let trimmed := trim schemaText in
        if startsWith trimmed "z." || startsWith trimmed "{" then St_ret trimmed
        else
          match matchIdentifier trimmed with
          | None => St_ret trimmed
          | Some (identifier, suffix) =>
              let! resolved :=
                resolveIdentifierFull identifier sourceFile imports filePath in
              match resolved with
              | None => St_ret trimmed
              | Some resolved =>
                  let substituted := res_text resolved +:+ suffix in
                  if startsWith substituted "z." then St_ret substituted
                  else
                    resolveSchemaText substituted (res_sourceFile resolved)
                      (res_imports resolved) (res_filePath resolved) (depth + 1)
              end
          end }.
Proof. lia. Qed.

(** ** Procedure analyzer *)

Inductive ProcedureType : Type := query | mutation | subscription.

Record ProcedureAnalysisResult : Type := mkProcedureAnalysisResult {
  type : ProcedureType;
  inputSchema : option string;
  outputSchema : option string
}.

(** The three method names that end a procedure chain. *)
Definition procedureTypeOfMethod (method : string) : option ProcedureType :=
  if String.eqb method "query" then Some query
  else if String.eqb method "mutation" then Some mutation
  else if String.eqb method "subscription" then Some subscription
  else None.

Definition procedureTypeName (t : ProcedureType) : string :=
  match t with
  | query => "query"
  | mutation => "mutation"
  | subscription => "subscription"
  end.

Fixpoint findMethodInChain (node : Node) (methodName : string) : option string :=
  match node with
  | CallExpression _ (PropertyAccessExpression _ receiver name) arguments =>
      match arguments with
      | argument :: _ =>
          if String.eqb (getText name) methodName
          then Some (getText argument)
          else findMethodInChain receiver methodName
      | [] => findMethodInChain receiver methodName
      end
  | _ => None
  end.

Definition isNonInformativePart (part : string) : bool :=
  String.eqb part "any"
  || String.eqb part "any[]"
  || String.eqb part "unknown"
  || String.eqb part "unknown[]"
  || String.eqb part "{[key:string]:unknown;}"
  || String.eqb part "{[key:string]:unknown}"
  || String.eqb part "{[key:string]:unknown;}".

Definition isNonInformativeInferredType (typeText : string) : bool :=
  let compact := trim (removeWhitespace typeText) in
  if negb (truthy compact) then true
  else
    let parts := split_on "|" compact in
    match parts with
    | [] => true
    | _ => forallb isNonInformativePart parts
    end.

(** [extractTopLevelGenericArg]: the text between the first [<] and the [>]
    that closes it. *)
Fixpoint extractTopLevelGenericArg_scan (depth : nat) (acc : string) (rest : string)
    : option string :=
  match rest with
  | EmptyString => None
  | String ch rest' =>
      if Ascii.eqb ch "<"
      then extractTopLevelGenericArg_scan (S depth) (String ch acc) rest'
      else if Ascii.eqb ch ">"
      then
        match depth with
        | 1 => Some (trim (String.rev acc))
        | _ => extractTopLevelGenericArg_scan (pred depth) (String ch acc) rest'
        end
      else extractTopLevelGenericArg_scan depth (String ch acc) rest'
  end.

Definition extractTopLevelGenericArg (typeText : string) : option string :=
  match dropWhile (λ c, negb (Ascii.eqb c "<")) typeText with
  | EmptyString => None
  | String _ rest => extractTopLevelGenericArg_scan 1 EmptyString rest
  end.

Definition isFunctionLike (node : Node) : bool :=
  match node with
  | ArrowFunction _ _ _ | FunctionExpression _ _ _ | MethodDeclaration _ _ _
  | OtherFunctionLike _ _ => true
  | _ => false
  end.

Definition collectReturnExpressions_visit (node : Node) (returns : list Node)
    : list Node * bool :=
  if isFunctionLike node then (returns, false)
  else
    match node with
    | ReturnStatement _ (Some expression) => (returns ++ [expression], false)
    | _ => (returns, true)
    end.

Definition collectReturnExpressions (resolver : Node) : list Node :=
  match resolver with
  | ArrowFunction _ _ body | FunctionExpression _ _ body =>
      match body with
      | Block _ _ => visit collectReturnExpressions_visit body []
      | _ => [body]
      end
  | _ => []
  end.

Definition primitiveMap (name : string) : option string :=
  if String.eqb name "string" then Some "string"
  else if String.eqb name "number" then Some "number"
  else if String.eqb name "boolean" then Some "boolean"
  else if String.eqb name "date" then Some "Date"
  else if String.eqb name "bigint" then Some "bigint"
  else if String.eqb name "unknown" then Some "unknown"
  else if String.eqb name "any" then Some "any"
  else if String.eqb name "null" then Some "null"
  else if String.eqb name "undefined" then Some "undefined"
  else None.

Definition guessInputFieldTypeFromSchema (inputSchema : option string)
    (fieldName : string) : option string :=
  match inputSchema with
  | Some (String _ _ as inputSchema) =>
      match matchFieldPrimitive inputSchema fieldName with
      | None => None
      | Some base =>
          match primitiveMap base with
          | Some (String _ _ as primitive) =>
              if matchFieldOptional inputSchema fieldName
              then Some (primitive +:+ " | undefined")
              else if matchFieldNullable inputSchema fieldName
              then Some (primitive +:+ " | null")
              else Some primitive
          | _ => None
          end
      end
  | _ => None
  end.

Definition getPropertyNameText (name : Node) : option string :=
  match name with
  | Identifier _ _ | PrivateIdentifier _ => Some (getText name)
  | StringLiteral _ text | NumericLiteral _ text => Some text
  | _ => None
  end.

(** [name.text] of the name of a property access. *)
Definition memberNameText (name : Node) : string :=
  match name with
  | Identifier _ text => text
  | _ => getText name
  end.

(** [unique.length === 1 ? unique[0] : unique.join(" | ")]. *)
Definition joinUnion (unique : list string) : string :=
  match unique with
  | [single] => single
  | _ => join " | " unique
  end.

Fixpoint inferTypeFromExpression (inputSchema : option string) (expr : Node)
    : string :=
  let fromElements := fix fromElements (elements : list Node) : list string :=
    match elements with
    | [] => []
    | SpreadElement _ _ :: elements' => fromElements elements'
    | element :: elements' =>
        let inferred := inferTypeFromExpression inputSchema element in
        if truthy inferred then inferred :: fromElements elements'
        else fromElements elements'
    end in
  let fromProperties :=
    fix fromProperties (properties : list Node) : list string * bool :=
    match properties with
    | [] => ([], false)
    | prop :: properties' =>
        let '(fields, hasSpread) := fromProperties properties' in
        match prop with
        | SpreadAssignment _ _ => (fields, true)
        | PropertyAssignment _ name initializer =>
            match getPropertyNameText name with
            | Some (String _ _ as key) =>
                let valueType := inferTypeFromExpression inputSchema initializer in
                ((key +:+ ": " +:+ valueType +:+ ";") :: fields, hasSpread)
            | _ => (fields, hasSpread)
            end
        | ShorthandPropertyAssignment _ name =>
            ((getText name +:+ ": unknown;") :: fields, hasSpread)
        | MethodDeclaration _ name _ =>
            match getPropertyNameText name with
            | Some (String _ _ as key) =>
                ((key +:+ ": (...args: unknown[]) => unknown;") :: fields, hasSpread)
            | _ => (fields, hasSpread)
            end
        | _ => (fields, hasSpread)
        end
    end in
  match expr with
  | ParenthesizedExpression _ e | AsExpression _ e | SatisfiesExpression _ e
  | NonNullExpression _ e => inferTypeFromExpression inputSchema e
  | PropertyAccessExpression _ receiver name =>
      match receiver with
      | Identifier _ text =>
          if String.eqb text "input"
          then
            match guessInputFieldTypeFromSchema inputSchema (memberNameText name) with
            | Some (String _ _ as guessed) => guessed
            | _ => "unknown"
            end
          else "unknown"
      | _ => "unknown"
      end
  | StringLiteral _ _ | NoSubstitutionTemplateLiteral _ | TemplateExpression _ _ =>
      "string"
  | NumericLiteral _ _ => "number"
  | TrueKeyword _ | FalseKeyword _ => "boolean"
  | NullKeyword _ => "null"
  | Identifier _ _ =>
      if String.eqb (getText expr) "undefined" then "undefined" else "unknown"
  | NewExpression _ (Identifier _ text) _ =>
      if String.eqb text "Date" then "Date" else "unknown"
  | ArrayLiteralExpression _ elements =>
      match elements with
      | [] => "unknown[]"
      | _ =>
          match fromElements elements with
          | [] => "unknown[]"
          | itemTypes => joinUnion (uniqueStrings itemTypes) +:+ "[]"
          end
      end
  | ObjectLiteralExpression _ properties =>
      match properties with
      | [] => "{ }"
      | _ =>
          let '(fields, hasSpread) := fromProperties properties in
          let fields :=
            if hasSpread then fields ++ ["[key: string]: unknown;"] else fields in
          match fields with
          | [] => "{ [key: string]: unknown; }"
          | _ => "{ " +:+ join " " fields +:+ " }"
          end
      end
  | ConditionalExpression _ _ whenTrue whenFalse =>
      let whenTrue := inferTypeFromExpression inputSchema whenTrue in
      let whenFalse := inferTypeFromExpression inputSchema whenFalse in
      if String.eqb whenTrue whenFalse then whenTrue
      else whenTrue +:+ " | " +:+ whenFalse
  | _ => "unknown"
  end.

(** [findNearestTsConfigFile]: the loop from [dir] upwards, the root
    included; [None] when the loop ends without a result. *)
Fixpoint findNearestTsConfigFile_from (fuel : nat) (dir : string)
    : St (option (option string)) :=
  λ w,
  match nearestTsConfigPathCache w !! dir with
  | Some cached => (Some cached, w)
  | None =>
      let tsConfigPath := path_join dir "tsconfig.json" in
      if existsSync tsConfigPath
      then
        (Some (Some tsConfigPath),
         set_nearestTsConfigPathCache
           (<[dir := Some tsConfigPath]> (nearestTsConfigPathCache w)) w)
      else if String.eqb dir path_root then (None, w)
      else
        match fuel with
        | S fuel' => findNearestTsConfigFile_from fuel' (path_dirname dir) w
        | 0 => (None, w)
        end
  end.

Definition findNearestTsConfigFile (fromFilePath : string) : St (option string) :=
  let initialDir := path_dirname fromFilePath in
  let! found := findNearestTsConfigFile_from (String.length initialDir) initialDir in
  match found with
  | Some result => St_ret result
  | None =>
      λ w,
      (None,
       set_nearestTsConfigPathCache
         (<[initialDir := None]> (nearestTsConfigPathCache w)) w)
  end.

Definition getTypeCheckerContext (filePath : string) : St (option TypeCheckerContext) :=
  let! tsConfigPath := findNearestTsConfigFile filePath in
  match tsConfigPath with
  | Some (String _ _ as tsConfigPath) =>
      λ w,
      match typeCheckerContextCache w !! tsConfigPath with
      | Some cached => (cached, w)
      | None =>
          let context := createTypeCheckerContext tsConfigPath filePath in
          let w1 :=
            match context with
            | None =>
                log WARN ("Unable to create type checker context for " +:+ tsConfigPath) w
            | Some _ =>
                log DEBUG ("Created type checker context for " +:+ tsConfigPath) w
            end in
          (context,
           set_typeCheckerContextCache
             (<[tsConfigPath := context]> (typeCheckerContextCache w1)) w1)
      end
  | _ => let! _ := logDebug ("No tsconfig found for " +:+ filePath) in St_ret None
  end.

(** The names that [resolveEnumAliasesInText] never resolves. *)
Definition isBuiltinTypeName (enumName : string) : bool :=
  bool_decide (enumName ∈
    ["Date"; "Map"; "Set"; "Array"; "Promise"; "RegExp"; "Error"; "Buffer";
     "String"; "Number"; "Boolean"; "Object"; "Symbol"; "BigInt"]).

(** The replacement callback of [resolveEnumAliasesInText]. *)
Definition resolveEnumAlias (ctx : TypeCheckerContext) (fullMatch : string)
    (enumName : option string) : St string :=
  match enumName with
  | Some (String _ _ as enumName) =>
      if isBuiltinTypeName enumName then St_ret fullMatch
      else
        λ w,
        match enumResolutionCache w !! enumName with
        | Some cached => (default fullMatch cached, w)
        | None =>
            let resolved := resolveEnumType ctx enumName in
            (default fullMatch resolved,
             set_enumResolutionCache
               (<[enumName := resolved]> (enumResolutionCache w)) w)
        end
  | _ => St_ret fullMatch
  end.

Fixpoint resolveEnumAliases_matches (ctx : TypeCheckerContext)
    (matches : list (string * string * option string)) : St string :=
  match matches with
  | [] => St_ret EmptyString
  | (before, fullMatch, enumName) :: matches' =>
      let! replacement := resolveEnumAlias ctx fullMatch enumName in
      let! rest := resolveEnumAliases_matches ctx matches' in
      St_ret (before +:+ replacement +:+ rest)
  end.

Definition resolveEnumAliasesInText (text : string) (ctx : TypeCheckerContext)
    : St string :=
  let '(matches, after) := matchEnumAliases text in
  let! replaced := resolveEnumAliases_matches ctx matches in
  St_ret (replaced +:+ after).

Definition inferTypeFromTypeChecker (expr : Node) (sourceFile : SourceFile)
    (filePath : string) : St (option string) :=
  let! ctx := getTypeCheckerContext filePath in
  match ctx with
  | None => St_ret None
  | Some ctx =>
      match displayTextAt ctx filePath (getStart expr) (getEnd expr) with
      | None => St_ret None
      | Some typeText =>
          match sanitizeTypeText (Some typeText) with
          | Some (String _ _ as sanitized) =>
              let! resolved := resolveEnumAliasesInText sanitized ctx in
              St_ret (Some resolved)
          | _ => St_ret None
          end
      end
  end.

(** The loop of [inferOutputSchemaFromResolver] over the return
    expressions. *)
Fixpoint inferOutputSchemaFromResolver_types (returnExpressions : list Node)
    (sourceFile : SourceFile) (filePath : string) (inputSchema : option string)
    : St (list string) :=
  match returnExpressions with
  | [] => St_ret []
  | expr :: returnExpressions' =>
      let inferred := inferTypeFromExpression inputSchema expr in
      let! inferred :=
        if negb (truthy inferred) || isNonInformativeInferredType inferred
        then inferTypeFromTypeChecker expr sourceFile filePath
        else St_ret (Some inferred) in
      let! inferredTypes :=
        inferOutputSchemaFromResolver_types returnExpressions' sourceFile filePath
          inputSchema in
      match inferred with
      | Some (String _ _ as inferred) =>
          if negb (isNonInformativeInferredType inferred)
          then St_ret (inferred :: inferredTypes)
          else St_ret inferredTypes
      | _ => St_ret inferredTypes
      end
  end.

Definition inferOutputSchemaFromResolver (node : Node) (sourceFile : SourceFile)
    (filePath : string) (inputSchema : option string) : St (option string) :=
  match node with
  | CallExpression _ _ (resolver :: _) =>
      match resolver with
      | ArrowFunction _ _ _ | FunctionExpression _ _ _ =>
          match collectReturnExpressions resolver with
          | [] => St_ret None
          | returnExpressions =>
              let! inferredTypes :=
                inferOutputSchemaFromResolver_types returnExpressions sourceFile
                  filePath inputSchema in
              match inferredTypes with
              | [] => St_ret None
              | _ =>
                  let unique := uniqueStrings inferredTypes in
                  let! _ :=
                    logDebug ("Inferred output schema(s) from resolver: "
                              +:+ join " | " unique) in
                  St_ret (Some (joinUnion unique))
              end
          end
      | _ => St_ret None
      end
  | _ => St_ret None
  end.

Definition inferSchemasFromProcedureType (node : Node) (sourceFile : SourceFile)
    (filePath : string) : St (option (option string * option string)) :=
  let! ctx := getTypeCheckerContext filePath in
  match ctx with
  | None => St_ret None
  | Some ctx =>
      match typeTextAt ctx filePath (getStart node) (getEnd node) with
      | None => St_ret None
      | Some typeText =>
          match extractTopLevelGenericArg typeText with
          | Some (String _ _ as genericArg) =>
              let inputSchema :=
                sanitizeTypeText (extractTopLevelObjectFieldType genericArg "input") in
              let outputSchema :=
                sanitizeTypeText (extractTopLevelObjectFieldType genericArg "output") in
              if negb (truthy_opt inputSchema) && negb (truthy_opt outputSchema)
              then St_ret None
              else
                match outputSchema with
                | Some (String _ _ as text) =>
                    let! resolved := resolveEnumAliasesInText text ctx in
                    St_ret (Some (inputSchema, Some resolved))
                | _ => St_ret (Some (inputSchema, outputSchema))
                end
          | _ => St_ret None
          end
      end
  end.

(** [if (schema) { schema = resolveSchemaText(schema, ...) }], for the schema
    text found in the chain. *)
Definition resolveExplicitSchema
    (resolveSchemaText :
       string → SourceFile → gmap string ImportInfo → string → St string)
    (schema : option string) (sourceFile : SourceFile)
    (imports : gmap string ImportInfo) (filePath : string) : St (option string) :=
  match schema with
  | Some (String _ _ as text) =>
      let! resolved := resolveSchemaText text sourceFile imports filePath in
      St_ret (Some resolved)
  | _ => St_ret schema
  end.

(** The output of the procedure type wins over the output found so far when
    no output schema is explicit and the type is informative; and the same
    for the input. *)
Definition preferProcedureType (hasExplicit : bool)
    (fromProcedureType : option string) (schema : option string) : option string :=
  match fromProcedureType with
  | Some (String _ _ as inferred) =>
      if negb hasExplicit && negb (isNonInformativeInferredType inferred)
      then Some inferred
      else schema
  | _ => schema
  end.

(** [analyzeProcedureChain]; the schema text resolver is an argument, as in
    the source. *)
Definition analyzeProcedureChain (node : Node) (sourceFile : SourceFile)
    (imports : gmap string ImportInfo) (filePath : string)
    (resolveSchemaText :
       string → SourceFile → gmap string ImportInfo → string → St string)
    : St (option ProcedureAnalysisResult) :=
  match node with
  | CallExpression _ (PropertyAccessExpression _ receiver name) _ =>
      match procedureTypeOfMethod (getText name) with
      | None => St_ret None
      | Some method =>
          let inputSchema := findMethodInChain receiver "input" in
          let outputSchema := findMethodInChain receiver "output" in
          let hasExplicitInput := truthy_opt inputSchema in
          let hasExplicitOutput := truthy_opt outputSchema in
          let! inputSchema :=
            resolveExplicitSchema resolveSchemaText inputSchema sourceFile imports
              filePath in
          let! outputSchema :=
            resolveExplicitSchema resolveSchemaText outputSchema sourceFile imports
              filePath in
          let! outputSchema :=
            if negb (truthy_opt outputSchema)
            then inferOutputSchemaFromResolver node sourceFile filePath inputSchema
            else St_ret outputSchema in
          let! procedureTypeSchemas :=
            inferSchemasFromProcedureType node sourceFile filePath in
          let inputSchema :=
            preferProcedureType hasExplicitInput
              (procedureTypeSchemas ≫= fst) inputSchema in
          let outputSchema :=
            preferProcedureType hasExplicitOutput
              (procedureTypeSchemas ≫= snd) outputSchema in
          St_ret (Some (mkProcedureAnalysisResult method inputSchema outputSchema))
      end
  | _ => St_ret None
  end.

(** ** Router tree builder *)

Inductive TrpcNodeType : Type :=
| router
| file
| procedure (p : ProcedureType).

#[warnings="-register-all"] Inductive TrpcNode : Type :=
  mkTrpcNode (name : string) (type : TrpcNodeType) (children : list TrpcNode)
    (filePath : option string) (line : option nat)
    (inputSchema outputSchema : option string).

Definition node_name (n : TrpcNode) : string :=
  let 'mkTrpcNode name _ _ _ _ _ _ := n in name.
Definition node_type (n : TrpcNode) : TrpcNodeType :=
  let 'mkTrpcNode _ type _ _ _ _ _ := n in type.
Definition node_children (n : TrpcNode) : list TrpcNode :=
  let 'mkTrpcNode _ _ children _ _ _ _ := n in children.
Definition node_filePath (n : TrpcNode) : option string :=
  let 'mkTrpcNode _ _ _ filePath _ _ _ := n in filePath.
Definition node_line (n : TrpcNode) : option nat :=
  let 'mkTrpcNode _ _ _ _ line _ _ := n in line.
Definition node_inputSchema (n : TrpcNode) : option string :=
  let 'mkTrpcNode _ _ _ _ _ inputSchema _ := n in inputSchema.
Definition node_outputSchema (n : TrpcNode) : option string :=
  let 'mkTrpcNode _ _ _ _ _ _ outputSchema := n in outputSchema.

(** [child.name = key]. *)
Definition set_name (key : string) (n : TrpcNode) : TrpcNode :=
  let 'mkTrpcNode _ type children filePath line i o := n in
  mkTrpcNode key type children filePath line i o.

Record ProcedureResolution : Type := mkProcedureResolution {
  proc_type : ProcedureType;
  proc_inputSchema : option string;
  proc_outputSchema : option string;
  proc_filePath : string;
  proc_line : nat
}.

(** How a call of the builder ends: with a result, with the exception of
    [fs.readFileSync] on a directory, or cut off by the bound on the depth
    of the recursion. *)
Inductive Outcome (A : Type) : Type :=
| Done (a : A) (w : World)
| Throw (w : World)
| OutOfFuel.
#[global] Arguments Done {A} a w.
#[global] Arguments Throw {A} w.
#[global] Arguments OutOfFuel {A}.

Definition isRouterCall (call : Node) : bool :=
  match call with
  | CallExpression _ (PropertyAccessExpression _ _ name) _ =>
      String.eqb (getText name) "router"
  | CallExpression _ (Identifier _ _ as callee) _ =>
      String.eqb (getText callee) "router"
      || String.eqb (getText callee) "createTRPCRouter"
  | _ => false
  end.

(** The schema text resolver as [analyzeProcedureChain] calls it, with the
    default [depth = 0]. *)
Definition resolveSchemaText0 (schemaText : string) (sourceFile : SourceFile)
    (imports : gmap string ImportInfo) (filePath : string) : St string :=
  resolveSchemaText schemaText sourceFile imports filePath 0.

Definition resolveIdentifierAsProcedure_imported (varName currentFilePath : string)
    (currentImports : gmap string ImportInfo) : St (option ProcedureResolution) :=
  match currentImports !! varName with
  | None => St_ret None
  | Some importInfo =>
      let! resolvedPath := resolveImport (moduleSpecifier importInfo) currentFilePath in
      match resolvedPath with
      | Some (String _ _ as resolvedPath) =>
          match readSourceFile resolvedPath with
          | None => St_ret None
          | Some importSf =>
              let importImports := getImports importSf in
              let targetVar :=
                if isDefault importInfo then varName else importName importInfo in
              match findVariableDeclarationInfo importSf targetVar with
              | None => St_ret None
              | Some (initializer, line) =>
                  let! importedProc :=
                    analyzeProcedureChain initializer importSf importImports
                      resolvedPath resolveSchemaText0 in
                  match importedProc with
                  | None => St_ret None
                  | Some p =>
                      St_ret (Some (mkProcedureResolution (type p) (inputSchema p)
                                      (outputSchema p) resolvedPath line))
                  end
              end
          end
      | _ => St_ret None
      end
  end.

Definition resolveIdentifierAsProcedure (varName currentFilePath : string)
    (currentSourceFile : SourceFile) (currentImports : gmap string ImportInfo)
    : St (option ProcedureResolution) :=
  match findVariableDeclarationInfo currentSourceFile varName with
  | Some (initializer, line) =>
      let! localProc :=
        analyzeProcedureChain initializer currentSourceFile currentImports
          currentFilePath resolveSchemaText0 in
      match localProc with
      | Some p =>
          St_ret (Some (mkProcedureResolution (type p) (inputSchema p)
                          (outputSchema p) currentFilePath line))
      | None =>
          resolveIdentifierAsProcedure_imported varName currentFilePath currentImports
      end
  | None =>
      resolveIdentifierAsProcedure_imported varName currentFilePath currentImports
  end.

(** The visited set is one object, shared by all the calls of a build: the
    builder takes it and returns it. *)
Definition Build (A : Type) : Type := gset string → World → Outcome (A * gset string).

Section Builder.

(** The recursive call of [parseRouterFromFile]. *)
Variable parseRouterFromFile_rec : string → string → Build (option TrpcNode).

Definition resolveIdentifierAsRouter (varName currentFilePath : string)
    (imports : gmap string ImportInfo) : Build (option TrpcNode) :=
  λ visited w,
  match imports !! varName with
  | Some importInfo =>
      let '(resolved, w1) :=
        resolveImport (moduleSpecifier importInfo) currentFilePath w in
      match resolved with
      | Some (String _ _ as resolved) =>
          let targetVar :=
            if isDefault importInfo then varName else importName importInfo in
          parseRouterFromFile_rec resolved targetVar visited w1
      | _ => parseRouterFromFile_rec currentFilePath varName visited w1
      end
  | None => parseRouterFromFile_rec currentFilePath varName visited w
  end.

(** One turn of the loop of [parseRouterObject]: the nodes that the property
    pushes onto the children of the parent.  [nested] is [parseRouterObject]
    itself, for the object literal of an inline router call. *)
Definition parseRouterProperty
    (nested : Node → string → gmap string ImportInfo → SourceFile → Build (list TrpcNode))
    (prop : Node) (filePath : string) (imports : gmap string ImportInfo)
    (sourceFile : SourceFile) : Build (list TrpcNode) :=
  λ visited w,
  match prop with
  | PropertyAssignment _ name value =>
      let key := getText name in
      let line := lineOf prop in
      let placeholder :=
        mkTrpcNode key router [] (Some filePath) (Some line) None None in
      let '(procInfo, w1) :=
        analyzeProcedureChain value sourceFile imports filePath resolveSchemaText0 w in
      match procInfo with
      | Some p =>
          Done ([mkTrpcNode key (procedure (type p)) [] (Some filePath) (Some line)
                   (inputSchema p) (outputSchema p)], visited) w1
      | None =>
          match value with
          | Identifier _ _ =>
              let '(proc, w2) :=
                resolveIdentifierAsProcedure (getText value) filePath sourceFile
                  imports w1 in
              match proc with
              | Some p =>
                  Done ([mkTrpcNode key (procedure (proc_type p)) []
                           (Some (proc_filePath p)) (Some (proc_line p))
                           (proc_inputSchema p) (proc_outputSchema p)], visited) w2
              | None =>
                  match resolveIdentifierAsRouter (getText value) filePath imports
                          visited w2 with
                  | Done (Some child, visited') w3 =>
                      Done ([set_name key child], visited') w3
                  | Done (None, visited') w3 => Done ([placeholder], visited') w3
                  | Throw w3 => Throw w3
                  | OutOfFuel => OutOfFuel
                  end
              end
          | CallExpression _ _ arguments =>
              if isRouterCall value
              then
                match arguments with
                | (ObjectLiteralExpression _ _ as argument) :: _ =>
                    match nested argument filePath imports sourceFile visited w1 with
                    | Done (children, visited') w' =>
                        Done ([mkTrpcNode key router children (Some filePath)
                                 (Some line) None None], visited') w'
                    | Throw w' => Throw w'
                    | OutOfFuel => OutOfFuel
                    end
                | _ => Done ([placeholder], visited) w1
                end
              else Done ([placeholder], visited) w1
          | _ => Done ([placeholder], visited) w1
          end
      end
  | ShorthandPropertyAssignment _ name =>
      let key := getText name in
      match resolveIdentifierAsRouter key filePath imports visited w with
      | Done (Some child, visited') w' => Done ([set_name key child], visited') w'
      | Done (None, visited') w' => Done ([], visited') w'
      | Throw w' => Throw w'
      | OutOfFuel => OutOfFuel
      end
  | _ => Done ([], visited) w
  end.

(** [parseRouterObject]: the nodes pushed onto the children of the parent,
    in the order of the properties. *)
Fixpoint parseRouterObject (obj : Node) (filePath : string)
    (imports : gmap string ImportInfo) (sourceFile : SourceFile)
    : Build (list TrpcNode) :=
  λ visited w,
  match obj with
  | ObjectLiteralExpression _ properties =>
      (fix loop (properties : list Node) (visited : gset string) (w : World)
         : Outcome (list TrpcNode * gset string) :=
         match properties with
         | [] => Done ([], visited) w
         | prop :: properties' =>
             match parseRouterProperty parseRouterObject prop filePath imports
                     sourceFile visited w with
             | Done (pushed, visited1) w1 =>
                 match loop properties' visited1 w1 with
                 | Done (rest, visited2) w2 => Done (pushed ++ rest, visited2) w2
                 | Throw w2 => Throw w2
                 | OutOfFuel => OutOfFuel
                 end
             | Throw w1 => Throw w1
             | OutOfFuel => OutOfFuel
             end
         end) properties visited w
  | _ => Done ([], visited) w
  end.

(** The visitor of [parseRouterFromFile]: at a declaration of the router
    variable whose initializer is a router call on an object literal, the
    children of the object are added to the root. *)
Definition parseRouterFromFile_visit (routerVarName filePath : string)
    (imports : gmap string ImportInfo) (sourceFile : SourceFile) (node : Node)
    (state : Outcome (list TrpcNode * gset string))
    : Outcome (list TrpcNode * gset string) * bool :=
  match state with
  | Done (children, visited) w =>
      match node with
      | VariableDeclaration _ name (Some (CallExpression _ _ arguments as init)) =>
          if String.eqb (getText name) routerVarName && isRouterCall init
          then
            match arguments with
            | (ObjectLiteralExpression _ _ as arg) :: _ =>
                match parseRouterObject arg filePath imports sourceFile visited w with
                | Done (pushed, visited') w' =>
                    (Done (children ++ pushed, visited') w', true)
                | Throw w' => (Throw w', true)
                | OutOfFuel => (OutOfFuel, true)
                end
            | _ => (state, true)
            end
          else (state, true)
      | _ => (state, true)
      end
  | _ => (state, true)
  end.

End Builder.

Definition clearProcedureAnalysisCaches : St unit :=
  λ w,
  (tt,
   log DEBUG "Cleared procedure analysis caches"
     (set_typeCheckerContextCache ∅
        (set_nearestTsConfigPathCache ∅ (set_enumResolutionCache ∅ w)))).

(** The key of a router variable in the visited set. *)
Definition visitedKey (filePath routerVarName : string) : string :=
  filePath +:+ ":" +:+ routerVarName.

(** [parseRouterFromFile]; [fuel] bounds the depth of its recursion. *)
Fixpoint parseRouterFromFile (fuel : nat) (filePath routerVarName : string)
    : Build (option TrpcNode) :=
  λ visited w,
  match fuel with
  | 0 => OutOfFuel
  | S fuel' =>
      let w :=
        if bool_decide (size visited = 0)
        then snd (clearProcedureAnalysisCaches w)
        else w in
      let key := visitedKey filePath routerVarName in
      if bool_decide (key ∈ visited)
      then
        Done (None, visited)
          (log DEBUG ("parseRouterFromFile: already visited " +:+ key) w)
      else
        match fs !! filePath with
        | None =>
            Done (None, visited)
              (log WARN ("parseRouterFromFile: file not found " +:+ filePath) w)
        | Some Directory =>
            Throw (log DEBUG ("parseRouterFromFile: parsing " +:+ key) w)
        | Some (File d) =>
            let visited := {[key]} ∪ visited in
            let w := log DEBUG ("parseRouterFromFile: parsing " +:+ key) w in
            let sourceFile := file_source d in
            let imports := getImports sourceFile in
            match
              visitAll
                (parseRouterFromFile_visit (parseRouterFromFile fuel')
                   routerVarName filePath imports sourceFile)
                (statements sourceFile) (Done ([], visited) w)
            with
            | Done (children, visited') w' =>
                Done (Some (mkTrpcNode routerVarName router children
                              (Some filePath) None None None), visited') w'
            | Throw w' => Throw w'
            | OutOfFuel => OutOfFuel
            end
        end
  end.

(** ** Root alias probe *)

(** [results.add(name)] on a set kept in insertion order. *)
Definition addResult (name : string) (results : list string) : list string :=
  if bool_decide (name ∈ results) then results else results ++ [name].

Definition findAppRoutersInFile_visit (node : Node) (results : list string)
    : list string * bool :=
  match node with
  | TypeAliasDeclaration _ _ name (TypeQuery _ exprName) =>
      if String.eqb (getText name) "AppRouter"
      then (addResult (getText exprName) results, true)
      else (results, true)
  | _ => (results, true)
  end.

Definition findAppRoutersInFile (filePath : string) : World → Outcome (list string) :=
  λ w,
  match fs !! filePath with
  | None =>
      Done [] (log DEBUG ("findAppRoutersInFile: file does not exist: " +:+ filePath) w)
  | Some Directory => Throw w
  | Some (File d) =>
      Done (visitAll findAppRoutersInFile_visit (statements (file_source d)) []) w
  end.

Definition findAppRouterInFile (filePath : string) : World → Outcome (option string) :=
  λ w,
  match findAppRoutersInFile filePath w with
  | Done matches w' => Done (head matches) w'
  | Throw w' => Throw w'
  | OutOfFuel => OutOfFuel
  end.

End Parser.

(** * Traversal order

    The nodes of a tree in the order in which a visitor that always goes on
    into the children meets them. *)

Definition collectNode (n : Node) (acc : list Node) : list Node * bool :=
  (acc ++ [n], true).

Definition preorder (n : Node) : list Node := visit collectNode n [].

Definition allNodes (sourceFile : SourceFile) : list Node :=
  flat_map preorder (statements sourceFile).

(** * The statements of the specification that the code does not meet

    Definitions that follow the words of the specification, to compare with
    the definitions above, which follow the code. *)

(** Specification of the module resolver: among the entries whose pattern
    prefix (the pattern up to its wildcard) starts the specifier, the one with
    the longest prefix. *)
Fixpoint spec_longestPrefixEntry (specifier : string)
    (entries : list (string * list string)) : option (string * list string) :=
  match entries with
  | [] => None
  | (pattern, mappings) :: entries' =>
      let best := spec_longestPrefixEntry specifier entries' in
      if startsWith specifier (stripTrailingStar pattern)
      then
        match best with
        | Some (pattern', mappings') =>
            if String.length (stripTrailingStar pattern)
               <? String.length (stripTrailingStar pattern')
            then best
            else Some (pattern, mappings)
        | None => Some (pattern, mappings)
        end
      else best
  end.

(** Specification of the module resolver on a specifier that is not relative:
    the entry with the longest prefix is chosen, and the first of its
    substitutions that resolves to a file wins. *)
Definition spec_resolveNonRelative (env : Environment) (cfg : TsConfigPaths)
    (specifier : string) : option string :=
  match spec_longestPrefixEntry specifier (paths cfg) with
  | None => None
  | Some (pattern, mappings) =>
      let rest := slice_from specifier (String.length (stripTrailingStar pattern)) in
      head (omap (λ mapping,
                    resolveFile env
                      (path_resolve (baseUrl cfg) (stripTrailingStar mapping +:+ rest)))
              mappings)
  end.

(** What the code does instead: every substitution of every entry whose
    pattern prefix starts the specifier, in the declared order of the entries
    and of their substitutions. *)
Definition declaredOrderCandidates (env : Environment) (cfg : TsConfigPaths)
    (specifier : string) : list string :=
  flat_map
    (λ '(pattern, mappings),
       let prefixStr := stripTrailingStar pattern in
       if startsWith specifier prefixStr
       then
         omap (λ mapping,
                 resolveFile env
                   (path_resolve (baseUrl cfg)
                      (stripTrailingStar mapping
                       +:+ slice_from specifier (String.length prefixStr))))
           mappings
       else [])
    (paths cfg).

(** Specification of the per-file probe: [n] is named by [node] when [node]
    is an exported type alias whose right-hand side is the type query
    [typeof n]. *)
Definition spec_isExportedTypeofAlias (n : string) (node : Node) : Prop :=
  ∃ i modifiers name j exprName,
    node = TypeAliasDeclaration i modifiers name (TypeQuery j exprName)
    ∧ ExportKeyword ∈ modifiers
    ∧ getText exprName = n.

(** What the code looks for instead: a type alias named [AppRouter], exported
    or not, whose right-hand side is a type query; its target. *)
Definition appRouterTarget (node : Node) : option string :=
  match node with
  | TypeAliasDeclaration _ _ name (TypeQuery _ exprName) =>
      if String.eqb (getText name) "AppRouter" then Some (getText exprName) else None
  | _ => None
  end.

(** Specification of the cycle guard: a property refers to a variable when it
    is the shorthand of its name or assigns the identifier of its name. *)
Definition spec_refersTo (prop : Node) (target : string) : Prop :=
  (∃ i name, prop = ShorthandPropertyAssignment i name ∧ getText name = target)
  ∨ (∃ i name j, prop = PropertyAssignment i name (Identifier j target)
                 ∧ info_text j = target).

(** * One turn of the schema text resolver

    The state of [resolveSchemaText] between two recursive calls, and the
    turn that leads from one call to the next: it exists when the text is
    not a literal, names a variable that resolves, and the text after the
    substitution is not a literal either. *)

Record SchemaContext : Type := mkSchemaContext {
  ctx_sourceFile : SourceFile;
  ctx_imports : gmap string ImportInfo;
  ctx_filePath : string
}.

Definition substituteOnce (env : Environment) (schemaText : string)
    (ctx : SchemaContext) (w : World) : option (string * SchemaContext * World) :=
  let trimmed := trim schemaText in
  if startsWith trimmed "z." || startsWith trimmed "{" then None
  else
    match matchIdentifier trimmed with
    | None => None
    | Some (identifier, suffix) =>
        match resolveIdentifierFull env identifier (ctx_sourceFile ctx)
                (ctx_imports ctx) (ctx_filePath ctx) w with
        | (None, _) => None
        | (Some resolved, w') =>
            let substituted := res_text resolved +:+ suffix in
            if startsWith substituted "z." then None
            else
              Some (substituted,
                    mkSchemaContext (res_sourceFile resolved) (res_imports resolved)
                      (res_filePath resolved),
                    w')
        end
    end.

(** [n] turns in a row. *)
Fixpoint substituteTimes (env : Environment) (n : nat) (schemaText : string)
    (ctx : SchemaContext) (w : World) : option (string * SchemaContext * World) :=
  match n with
  | 0 => Some (schemaText, ctx, w)
  | S n' =>
      match substituteOnce env schemaText ctx w with
      | Some (schemaText', ctx', w') => substituteTimes env n' schemaText' ctx' w'
      | None => None
      end
  end.

(** * The keys and the trace of a build *)

(** The names that a file can hand to the builder: the texts of its nodes and
    the imported names of its import bindings. *)
Definition fileNames (sourceFile : SourceFile) : list string :=
  (getText <$> allNodes sourceFile)
  ++ (importName <$> (map_to_list (getImports sourceFile)).*2).

(** The paths of the files of the file system, and the names of all of
    them. *)
Definition filePaths (env : Environment) : list string :=
  omap (λ '(p, entry), match entry with File _ => Some p | Directory => None end)
    (map_to_list (env_fs env)).

Definition allNames (env : Environment) : list string :=
  flat_map
    (λ '(_, entry),
       match entry with
       | File d => fileNames (file_source d)
       | Directory => []
       end)
    (map_to_list (env_fs env)).

(** The keys of the visited set that a nested call of the builder can ask
    for: a file of the file system with a name of a file. *)
Definition reachableKeys (env : Environment) : gset string :=
  list_to_set
    (flat_map (λ p, (λ v, visitedKey p v) <$> allNames env) (filePaths env)).

(** The calls to the logger that mark the expansion of a key and the
    clearing of the caches. *)
Definition parsingEntry (key : string) : LogLevel * string :=
  (DEBUG, "parseRouterFromFile: parsing " +:+ key).

Definition clearedEntry : LogLevel * string :=
  (DEBUG, "Cleared procedure analysis caches").

#[global] Instance LogLevel_eq_dec : EqDecision LogLevel.
Proof. solve_decision. Defined.

(** How often a key was expanded, and how often the caches were cleared, in
    a list of calls to the logger. *)
Definition expansions (key : string) (entries : list (LogLevel * string)) : nat :=
  length (filter (λ e, e = parsingEntry key) entries).

Definition clearings (entries : list (LogLevel * string)) : nat :=
  length (filter (λ e, e = clearedEntry) entries).

(** The calls to the logger between two states of the process. *)
Definition loggedSince (w w' : World) (new : list (LogLevel * string)) : Prop :=
  logged w' = new ++ logged w.

(** A call to the logger that marks neither an expansion nor a clearing. *)
Definition benign (e : LogLevel * string) : Prop :=
  e ≠ clearedEntry ∧ ∀ key, e ≠ parsingEntry key.

(** A step that marks no expansion and clears no cache. *)
Definition Quiet {A : Type} (m : St A) : Prop :=
  ∀ w, ∃ new, loggedSince w (snd (m w)) new ∧ Forall benign new.

(** The trace of a part of a build that leads from the visited set
    [visited] to [visited']: every key is expanded at most once, the expanded
    keys are the new keys of the visited set, and the caches are not cleared
    when the visited set was not empty. *)
Definition Trace (visited visited' : gset string) (w w' : World) : Prop :=
  ∃ new,
    loggedSince w w' new
    ∧ (∀ key, expansions key new ≤ 1)
    ∧ (∀ key, 0 < expansions key new → key ∈ visited' ∧ key ∉ visited)
    ∧ (visited ≠ ∅ → clearings new = 0).

(** A part of a build that ends with a result. *)
Definition BuildOk {A : Type} (visited : gset string) (w : World)
    (o : Outcome (A * gset string)) : Prop :=
  ∃ a visited' w',
    o = Done (a, visited') w' ∧ visited ⊆ visited' ∧ Trace visited visited' w w'.

(** The state in which a call goes on after its first step. *)
Definition entryWorld (visited : gset string) (w : World) : World :=
  if bool_decide (size visited = 0) then snd (clearProcedureAnalysisCaches w) else w.

(** No cache is cleared between two states of the process: every entry of
    the three caches of the procedure analyzer is kept as it is, and every
    directory of the path-mapping cache keeps an entry. *)
Definition cachesKept (w w' : World) : Prop :=
  dom (tsConfigPathsCache w) ⊆ dom (tsConfigPathsCache w')
  ∧ enumResolutionCache w ⊆ enumResolutionCache w'
  ∧ nearestTsConfigPathCache w ⊆ nearestTsConfigPathCache w'
  ∧ typeCheckerContextCache w ⊆ typeCheckerContextCache w'.

(** A step that clears no cache. *)
Definition Keeps {A : Type} (m : St A) : Prop := ∀ w, cachesKept w (snd (m w)).

(** What a call of the builder owes, for a set [U] of keys and a bound [n]
    on the keys of [U] that are not visited yet: on a path that is not a
    directory, with a key of [U] when the path is a file, the call ends with a
    result. *)
Definition CallOk (env : Environment) (U : gset string)
    (recur : string → string → Build (option TrpcNode)) (n : nat) : Prop :=
  ∀ filePath routerVarName visited w,
    env_fs env !! filePath ≠ Some Directory →
    (isFile env filePath = true → visitedKey filePath routerVarName ∈ U) →
    size (U ∖ visited) < n →
    BuildOk visited w (recur filePath routerVarName visited w).

(** The shapes of the value of a property that the builder recognizes: a
    call of a procedure method, an identifier, a router call. *)
Definition recognizedShape (value : Node) : bool :=
  match value with
  | Identifier _ _ => true
  | CallExpression _ (PropertyAccessExpression _ _ name) _ =>
      match procedureTypeOfMethod (getText name) with
      | Some _ => true
      | None => isRouterCall value
      end
  | CallExpression _ _ _ => isRouterCall value
  | _ => false
  end.

(** The empty collection node that stands for a property. *)
Definition placeholderNode (key filePath : string) (line : nat) : TrpcNode :=
  mkTrpcNode key router [] (Some filePath) (Some line) None None.

(** The pair of a file and a variable that [resolveIdentifierAsRouter] hands
    to the builder for a name: the resolved module of the import binding of
    the name, with the imported name (the name itself for a default
    import), when the name is imported and its module resolves; the current
    file with the name otherwise. *)
Definition routerTarget (env : Environment) (varName currentFilePath : string)
    (imports : gmap string ImportInfo) (w : World) : string * string :=
  match imports !! varName with
  | Some importInfo =>
      match fst (resolveImport env (moduleSpecifier importInfo) currentFilePath w) with
      | Some (String _ _ as resolved) =>
          (resolved, if isDefault importInfo then varName else importName importInfo)
      | _ => (currentFilePath, varName)
      end
  | None => (currentFilePath, varName)
  end.

(** The pair is not expanded: its key is in the visited set, or its file
    does not exist. *)
Definition notExpanded (env : Environment) (visited : gset string)
    (target : string * string) : bool :=
  bool_decide (visitedKey (fst target) (snd target) ∈ visited)
  || negb (existsSync env (fst target)).

(** What a property of an object literal pushes onto the children of its
    parent, in the state of the build at its turn.  A property assignment
    pushes one node, named by its key, and the placeholder when its value
    has none of the recognized shapes.  A shorthand property pushes nothing
    when the pair that its name leads to is not expanded, and otherwise one
    collection node, named by its key, of the file of the pair.  Any other
    property pushes nothing. *)
Definition pushedBy (env : Environment) (filePath : string)
    (imports : gmap string ImportInfo) (visited : gset string) (w : World)
    (prop : Node) (pushed : list TrpcNode) : Prop :=
  match prop with
  | PropertyAssignment _ name value =>
      ∃ child,
        pushed = [child]
        ∧ node_name child = getText name
        ∧ (recognizedShape value = false →
           child = placeholderNode (getText name) filePath (lineOf prop))
  | ShorthandPropertyAssignment _ name =>
      let target := routerTarget env (getText name) filePath imports w in
      if notExpanded env visited target then pushed = []
      else
        ∃ children,
          pushed = [mkTrpcNode (getText name) router children (Some (fst target))
                      None None None]
  | _ => pushed = []
  end.

(** The turns of the loop of [parseRouterObject] over the properties, from
    the state of the build before the first to the state after the last:
    each property with what it pushes in its turn. *)
Inductive pushedInOrder (env : Environment) (fuel : nat) (filePath : string)
    (imports : gmap string ImportInfo) (sourceFile : SourceFile)
    : list Node → gset string → World → list (list TrpcNode)
      → gset string → World → Prop :=
| pushedInOrder_nil (visited : gset string) (w : World) :
    pushedInOrder env fuel filePath imports sourceFile [] visited w [] visited w
| pushedInOrder_cons (prop : Node) (properties : list Node)
    (visited visited1 visited2 : gset string) (w w1 w2 : World)
    (pushed : list TrpcNode) (groups : list (list TrpcNode)) :
    parseRouterProperty env (parseRouterFromFile env fuel)
      (parseRouterObject env (parseRouterFromFile env fuel)) prop filePath imports
      sourceFile visited w
    = Done (pushed, visited1) w1 →
    pushedBy env filePath imports visited w prop pushed →
    pushedInOrder env fuel filePath imports sourceFile properties visited1 w1
      groups visited2 w2 →
    pushedInOrder env fuel filePath imports sourceFile (prop :: properties)
      visited w (pushed :: groups) visited2 w2.

(** The object literal that [parseRouterFromFile] reads at a node: the first
    argument of the router call that initializes the router variable. *)
Definition routerObjectOf (routerVarName : string) (node : Node) : option Node :=
  match node with
  | VariableDeclaration _ name (Some (CallExpression _ _ arguments as init)) =>
      if String.eqb (getText name) routerVarName && isRouterCall init
      then
        match arguments with
        | (ObjectLiteralExpression _ _ as arg) :: _ => Some arg
        | _ => None
        end
      else None
  | _ => None
  end.


(** * The callers of the parser

    Router discovery ([src/parser/routerDiscovery.ts]), the helpers of the
    trees ([src/parser/treeHelpers.ts]), the providers of the tree view and
    of the web view, and the part of the script of the web view that counts
    and escapes. *)

(** ** Counting procedures *)

(** [ProcedureCounts] of [src/lib/types.ts]. *)
Record ProcedureCounts : Type := mkProcedureCounts {
  count_query : nat;
  count_mutation : nat;
  count_subscription : nat
}.

Definition noCounts : ProcedureCounts := mkProcedureCounts 0 0 0.

(** [counts.query += c.query; counts.mutation += c.mutation; ...]. *)
Definition addCounts (counts c : ProcedureCounts) : ProcedureCounts :=
  mkProcedureCounts (count_query counts + count_query c)
    (count_mutation counts + count_mutation c)
    (count_subscription counts + count_subscription c).

(** [counts[type]++] for the type of a procedure. *)
Definition incrementCount (p : ProcedureType) (counts : ProcedureCounts)
    : ProcedureCounts :=
  match p with
  | query =>
      mkProcedureCounts (count_query counts + 1) (count_mutation counts)
        (count_subscription counts)
  | mutation =>
      mkProcedureCounts (count_query counts) (count_mutation counts + 1)
        (count_subscription counts)
  | subscription =>
      mkProcedureCounts (count_query counts) (count_mutation counts)
        (count_subscription counts + 1)
  end.

(** [countProcedures] of [src/parser/treeHelpers.ts]. *)
Fixpoint countProcedures (node : TrpcNode) : ProcedureCounts :=
  let 'mkTrpcNode _ _ children _ _ _ _ := node in
  fold_left
    (λ counts child,
       match node_type child with
       | router | file => addCounts counts (countProcedures child)
       | procedure p => incrementCount p counts
       end)
    children noCounts.

(** ** Router discovery *)

Definition NODE_MODULES_GLOB : string := "**/node_modules/**".

Definition APP_ROUTER_DISPLAY_NAME : string := "AppRouter".

Definition ROUTER_DISCOVERY_PATTERNS : list string :=
  [ "**/root.ts"; "**/trpc.ts"; "**/_app.ts"; "**/server/**/*.ts"; "**/api/**/*.ts" ].

(** The first loop of [discoverAppRouterTrees]: the files of the patterns, a
    file kept at its first occurrence; the state is the set of paths met and
    the candidates so far. *)
Definition addCandidate (state : gset string * list string) (fsPath : string)
    : gset string * list string :=
  let '(discoveredFilePaths, prioritizedCandidates) := state in
  if bool_decide (fsPath ∈ discoveredFilePaths) then state
  else ({[fsPath]} ∪ discoveredFilePaths, prioritizedCandidates ++ [fsPath]).

Section Discovery.

Variable env : Environment.

(** [vscode.workspace.findFiles(pattern, exclude)]: the paths of the files of
    the workspace that match, the workspace being unchanged during a
    discovery. *)
Variable findFiles : string → string → list string.

(** The bound on the depth of the recursion of every build. *)
Variable fuel : nat.

(** The state of the loops over the files: the trees, the keys parsed, the
    caches and the log. *)
Definition Discovery : Type := Outcome (list TrpcNode * gset string).

(** One turn of the loop of [addTreesFromFile] over the names. *)
Definition addTreesFromFile_name (filePath : string) (state : Discovery)
    (varName : string) : Discovery :=
  match state with
  | Done (routerTrees, parsedRouterKeys) w =>
      let key := filePath +:+ ":" +:+ varName in
      if bool_decide (key ∈ parsedRouterKeys) then state
      else
        let parsedRouterKeys := {[key]} ∪ parsedRouterKeys in
        match parseRouterFromFile env fuel filePath varName ∅ w with
        | Done (Some tree, _) w' =>
            Done (routerTrees ++ [set_name APP_ROUTER_DISPLAY_NAME tree],
                  parsedRouterKeys) w'
        | Done (None, _) w' => Done (routerTrees, parsedRouterKeys) w'
        | Throw w' => Throw w'
        | OutOfFuel => OutOfFuel
        end
  | _ => state
  end.

Definition addTreesFromFile (state : Discovery) (filePath : string) : Discovery :=
  match state with
  | Done (routerTrees, parsedRouterKeys) w =>
      match findAppRoutersInFile env filePath w with
      | Done varNames w1 =>
          fold_left (addTreesFromFile_name filePath) varNames
            (Done (routerTrees, parsedRouterKeys) w1)
      | Throw w1 => Throw w1
      | OutOfFuel => OutOfFuel
      end
  | _ => state
  end.

(** The second loop over all the TypeScript files: the candidates of the
    first loop are left out. *)
Definition addTreesFromOtherFile (discoveredFilePaths : gset string)
    (state : Discovery) (fsPath : string) : Discovery :=
  if bool_decide (fsPath ∈ discoveredFilePaths) then state
  else addTreesFromFile state fsPath.

Definition logDiscoveryCount (routerTrees : list TrpcNode) : St unit :=
  logInfo ("Router discovery completed: " +:+ pretty (length routerTrees)
           +:+ " tree(s) found").

Definition discoverAppRouterTrees : World → Outcome (list TrpcNode) :=
  λ w,
  let w := log INFO "Starting discovery of AppRouter trees" w in
  let '(discoveredFilePaths, prioritizedCandidates) :=
    fold_left
      (λ state pattern, fold_left addCandidate (findFiles pattern NODE_MODULES_GLOB) state)
      ROUTER_DISCOVERY_PATTERNS (∅, []) in
  let state := fold_left addTreesFromFile prioritizedCandidates (Done ([], ∅) w) in
  let allTsFiles := findFiles "**/*.ts" NODE_MODULES_GLOB in
  match fold_left (addTreesFromOtherFile discoveredFilePaths) allTsFiles state with
  | Done (routerTrees, _) w' =>
      Done routerTrees (snd (logDiscoveryCount routerTrees w'))
  | Throw w' => Throw w'
  | OutOfFuel => OutOfFuel
  end.

(** ** The tree view *)

(** [TrpcTreeItem] of [src/main/trpcTreeItem.ts], as far as the provider of
    the tree sets it: the node of the item, whether the item can be unfolded
    and whether it has the warning icon in place of the icon of its type. *)
Record TrpcTreeItem : Type := mkTrpcTreeItem {
  item_node : TrpcNode;
  item_collapsible : bool;
  item_warning : bool
}.

(** [new TrpcTreeItem(node)]. *)
Definition newTrpcTreeItem (node : TrpcNode) : TrpcTreeItem :=
  let isCollapsible :=
    match node_type node with
    | router | file => true
    | procedure _ => false
    end in
  mkTrpcTreeItem node isCollapsible false.

(** [createNoResultItem] of [src/parser/noResultItem.ts]. *)
Definition createNoResultItem (text : string) : TrpcTreeItem :=
  let placeholderNode := mkTrpcNode text router [] None None None None in
  mkTrpcTreeItem placeholderNode false true.

(** A [Map] with string keys, its entries in the order of insertion:
    [map.get(key)] and [map.set(key, value)]. *)
Definition mapGet {V : Type} (key : string) (entries : list (string * V)) : option V :=
  snd <$> find (λ entry, String.eqb (fst entry) key) entries.

Fixpoint mapSet {V : Type} (key : string) (value : V) (entries : list (string * V))
    : list (string * V) :=
  match entries with
  | [] => [(key, value)]
  | (key', value') :: entries' =>
      if String.eqb key' key then (key, value) :: entries'
      else (key', value') :: mapSet key value entries'
  end.

(** The loop of [getChildren] that groups the trees by file. *)
Definition groupByFile (trees : list TrpcNode) : list (string * list TrpcNode) :=
  fold_left
    (λ groupedByFile tree,
       let key := default EmptyString (node_filePath tree) in
       let arr := default [] (mapGet key groupedByFile) in
       mapSet key (arr ++ [tree]) groupedByFile)
    trees [].

(** [path.basename(p)]. *)
Definition path_basename (p : string) : string :=
  String.rev (takeWhile (λ c, negb (isSlash c)) (dropWhile isSlash (String.rev p))).

(** The item of one group: the router of a file with one router, and of the
    group without file; a file node over the routers of a file with more. *)
Definition groupItem (entry : string * list TrpcNode) : list TrpcTreeItem :=
  let '(filePath, group) := entry in
  if negb (truthy filePath) || bool_decide (length group = 1)
  then
    match group with
    | first :: _ => [newTrpcTreeItem first]
    | [] => []
    end
  else
    [newTrpcTreeItem
       (mkTrpcNode (path_basename filePath) file group (Some filePath) None None None)].

(** The state of a provider: [cachedTrees]. *)
Definition Provider : Type := option (list TrpcNode).

(** [refresh()] of the two providers, as far as the state goes. *)
Definition provider_refresh (message : string) : Provider → St Provider :=
  λ _, let! _ := logDebug message in St_ret None.

(** [resolveTrees()] of the provider of the tree view. *)
Definition resolveTrees (cachedTrees : Provider)
    : World → Outcome (list TrpcNode * Provider) :=
  λ w,
  match cachedTrees with
  | Some trees =>
      Done (trees, cachedTrees) (log DEBUG "Tree provider returning cached trees" w)
  | None =>
      match discoverAppRouterTrees w with
      | Done trees w' =>
          Done (trees, Some trees)
            (log INFO ("Tree provider discovered " +:+ pretty (length trees)
                       +:+ " tree(s)") w')
      | Throw w' => Throw w'
      | OutOfFuel => OutOfFuel
      end
  end.

(** [getChildren(element)] of the provider of the tree view;
    [workspaceFolders] tells whether a workspace is open. *)
Definition getChildren (workspaceFolders : bool) (element : option TrpcTreeItem)
    (cachedTrees : Provider) : World → Outcome (list TrpcTreeItem * Provider) :=
  λ w,
  if negb workspaceFolders then Done ([], cachedTrees) w
  else
    match element with
    | Some element =>
        Done (map newTrpcTreeItem (node_children (item_node element)), cachedTrees) w
    | None =>
        match resolveTrees cachedTrees w with
        | Done (trees, cachedTrees) w1 =>
            let w2 :=
              log DEBUG ("getChildren: resolved " +:+ pretty (length trees)
                         +:+ " tree(s)") w1 in
            match trees with
            | [] =>
                Done ([createNoResultItem
                         "No AppRouter found. Export type AppRouter = typeof appRouter"],
                      cachedTrees) w2
            | _ => Done (flat_map groupItem (groupByFile trees), cachedTrees) w2
            end
        | Throw w1 => Throw w1
        | OutOfFuel => OutOfFuel
        end
    end.

End Discovery.

(** ** The web view *)

(** [WebviewTrpcNode] of [src/lib/types.ts]. *)
#[warnings="-register-all"] Inductive WebviewTrpcNode : Type :=
  mkWebviewTrpcNode (name : string) (type : TrpcNodeType)
    (filePath : option string) (line : option nat)
    (inputSchema outputSchema prettyInput prettyOutput : option string)
    (children : list WebviewTrpcNode).

Definition webview_type (n : WebviewTrpcNode) : TrpcNodeType :=
  let 'mkWebviewTrpcNode _ type _ _ _ _ _ _ _ := n in type.
Definition webview_children (n : WebviewTrpcNode) : list WebviewTrpcNode :=
  let 'mkWebviewTrpcNode _ _ _ _ _ _ _ _ children := n in children.
Definition webview_prettyInput (n : WebviewTrpcNode) : option string :=
  let 'mkWebviewTrpcNode _ _ _ _ _ _ prettyInput _ _ := n in prettyInput.
Definition webview_prettyOutput (n : WebviewTrpcNode) : option string :=
  let 'mkWebviewTrpcNode _ _ _ _ _ _ _ prettyOutput _ := n in prettyOutput.

(** [looksLikeInlineZodSchema]: the text starts, after white space, with
    [z.]. *)
Definition looksLikeInlineZodSchema (schemaText : option string) : bool :=
  match schemaText with
  | Some (String _ _ as schemaText) =>
      startsWith (dropWhile Ascii.is_space schemaText) "z."
  | _ => false
  end.

Section Webview.

(** [zodExpressionToReadableType] of [src/lib/zodPrettifier.ts], which
    evaluates the expression with the schema library in scope. *)
Variable zodExpressionToReadableType : string → string.

(** [schema && canFormat ? zodExpressionToReadableType(schema) : undefined]. *)
Definition prettySchema (schema : option string) : option string :=
  match schema with
  | Some (String _ _ as text) =>
      if looksLikeInlineZodSchema schema
      then Some (zodExpressionToReadableType text)
      else None
  | _ => None
  end.

Fixpoint mapNodeToWebviewNode (node : TrpcNode) : WebviewTrpcNode :=
  let 'mkTrpcNode name type children filePath line inputSchema outputSchema := node in
  mkWebviewTrpcNode name type filePath line inputSchema outputSchema
    (prettySchema inputSchema) (prettySchema outputSchema)
    (map mapNodeToWebviewNode children).

End Webview.

(** The name of a type of node, the string that the web view receives. *)
Definition nodeTypeName (t : TrpcNodeType) : string :=
  match t with
  | router => "router"
  | file => "file"
  | procedure p => procedureTypeName p
  end.

(** [counts[key] = (counts[key] || 0) + 1] on a record of numbers. *)
Definition incrementKey (key : string) (counts : gmap string nat) : gmap string nat :=
  <[key := default 0 (counts !! key) + 1]> counts.

(** [counts.key += sub.key], for a key that both records have. *)
Definition addKey (key : string) (sub counts : gmap string nat) : gmap string nat :=
  <[key := default 0 (counts !! key) + default 0 (sub !! key)]> counts.

(** [countProcedures] of the script of the web view. *)
Fixpoint webview_countProcedures (node : WebviewTrpcNode) : gmap string nat :=
  let 'mkWebviewTrpcNode _ _ _ _ _ _ _ _ children := node in
  fold_left
    (λ counts child,
       match webview_type child with
       | router =>
           let sub := webview_countProcedures child in
           addKey "subscription" sub (addKey "mutation" sub (addKey "query" sub counts))
       | type => incrementKey (nodeTypeName type) counts
       end)
    children
    (<["subscription" := 0]> (<["mutation" := 0]> (<["query" := 0]> ∅))).

(** [text.replace(pattern, replacement)] for the global pattern of one
    character. *)
Fixpoint replaceAllChar (c : ascii) (replacement : string) (text : string) : string :=
  match text with
  | EmptyString => EmptyString
  | String c' text' =>
      if Ascii.eqb c' c then replacement +:+ replaceAllChar c replacement text'
      else String c' (replaceAllChar c replacement text')
  end.

(** [escapeAttr] of the script of the web view. *)
Definition escapeAttr (text : string) : string :=
  replaceAllChar "<" "&lt;"
    (replaceAllChar "034" "&quot;" (replaceAllChar "&" "&amp;" text)).

(** ** The search of the web view *)

Section Search.

(** [String.prototype.toLowerCase], and the search term of the web view, in
    lower case. *)
Variable toLowerCase : string → string.
Variable searchTerm : string.

(** [text.includes(term)]. *)
Definition includes (text term : string) : bool :=
  match String.index 0 term text with
  | Some _ => true
  | None => false
  end.

(** [pretty?.trim() ? pretty : schema]. *)
Definition displaySchema (pretty schema : option string) : option string :=
  match pretty with
  | Some text => if truthy (trim text) then pretty else schema
  | None => schema
  end.

(** [display?.toLowerCase().includes(searchTerm)]. *)
Definition includesTerm (display : option string) : bool :=
  match display with
  | Some text => includes (toLowerCase text) searchTerm
  | None => false
  end.

(** [matchesSearch] of the script of the web view. *)
Fixpoint matchesSearch (node : WebviewTrpcNode) : bool :=
  let 'mkWebviewTrpcNode name type _ _ inputSchema outputSchema prettyInput
         prettyOutput children := node in
  let displayInput := displaySchema prettyInput inputSchema in
  let displayOutput := displaySchema prettyOutput outputSchema in
  if includes (toLowerCase name) searchTerm then true
  else if includes (toLowerCase (nodeTypeName type)) searchTerm then true
  else if includesTerm displayInput then true
  else if includesTerm displayOutput then true
  else existsb matchesSearch children.

End Search.


(** * Shapes of trees

    The nodes of a tree and the readings of a tree that the properties of
    the views are stated with. *)

(** The nodes of a tree, a node before its children. *)
Fixpoint treeNodes (node : TrpcNode) : list TrpcNode :=
  let 'mkTrpcNode _ _ children _ _ _ _ := node in
  node :: flat_map treeNodes children.

(** The procedures that are counted below a node: the children that are
    procedures, and those counted below the children that are not. *)
Fixpoint countedProcedures (node : TrpcNode) : list ProcedureType :=
  let 'mkTrpcNode _ _ children _ _ _ _ := node in
  flat_map
    (λ child,
       match node_type child with
       | procedure p => [p]
       | _ => countedProcedures child
       end)
    children.

#[global] Instance ProcedureType_eq_dec : EqDecision ProcedureType.
Proof. solve_decision. Defined.

#[global] Instance TrpcNodeType_eq_dec : EqDecision TrpcNodeType.
Proof. solve_decision. Defined.

(** [counts[type]] for the type of a procedure. *)
Definition countOf (p : ProcedureType) (counts : ProcedureCounts) : nat :=
  match p with
  | query => count_query counts
  | mutation => count_mutation counts
  | subscription => count_subscription counts
  end.

(** The record of the web view that holds the counts of a
    [ProcedureCounts]. *)
Definition countsRecord (counts : ProcedureCounts) : gmap string nat :=
  <["subscription" := count_subscription counts]>
    (<["mutation" := count_mutation counts]>
       (<["query" := count_query counts]> ∅)).

(** What [escapeAttr] writes for one character. *)
Definition escapeAttrChar (c : ascii) : string :=
  if Ascii.eqb c "&" then "&amp;"
  else if Ascii.eqb c "034" then "&quot;"
  else if Ascii.eqb c "<" then "&lt;"
  else String c EmptyString.

(** The shape of a node of a tree that the builder returns: the file of
    the node exists; a procedure has no children and a line, counted from 1,
    to go to; a collection has no schemas, and a line counted from 1 when it
    has one; no node is a file node. *)
Definition builtShape (env : Environment) (node : TrpcNode) : bool :=
  match node_filePath node with
  | Some filePath => isFile env filePath
  | None => false
  end
  && match node_type node with
     | router =>
         bool_decide (node_inputSchema node = None)
         && bool_decide (node_outputSchema node = None)
         && match node_line node with
            | Some line => bool_decide (0 < line)
            | None => true
            end
     | file => false
     | procedure _ =>
         match node_children node with [] => true | _ => false end
         && match node_line node with
            | Some line => bool_decide (0 < line)
            | None => false
            end
     end.

(** A tree all of whose nodes have the shape. *)
Definition builtTree (env : Environment) (node : TrpcNode) : Prop :=
  Forall (λ n, builtShape env n = true) (treeNodes node).

(** The kinds of the procedures of a tree. *)
Definition procedureKind (node : TrpcNode) : option ProcedureType :=
  match node_type node with
  | procedure p => Some p
  | _ => None
  end.

(** * The trees of a discovery *)

(** The files that a discovery probes, in its order: the files of the
    priority patterns, each once, then the other TypeScript files. *)
Definition discoveryFiles (findFiles : string → string → list string) : list string :=
  let prioritized :=
    uniqueStrings
      (flat_map (λ pattern, findFiles pattern NODE_MODULES_GLOB)
         ROUTER_DISCOVERY_PATTERNS) in
  prioritized
  ++ filter (λ fsPath, fsPath ∉ prioritized) (findFiles "**/*.ts" NODE_MODULES_GLOB).

(** The names that the probe finds in a file. *)
Definition aliasTargets (env : Environment) (filePath : string) : list string :=
  match env_fs env !! filePath with
  | Some (File d) => uniqueStrings (omap appRouterTarget (allNodes (file_source d)))
  | _ => []
  end.

(** The pairs of a file and a name that a discovery meets, in its order. *)
Definition discoveryTargets (env : Environment)
    (findFiles : string → string → list string) : list (string * string) :=
  flat_map (λ filePath, (λ varName, (filePath, varName)) <$> aliasTargets env filePath)
    (discoveryFiles findFiles).

(** The pairs whose key is met for the first time. *)
Fixpoint freshTargets (seen : gset string) (targets : list (string * string))
    : list (string * string) :=
  match targets with
  | [] => []
  | (filePath, varName) :: targets' =>
      let key := filePath +:+ ":" +:+ varName in
      if bool_decide (key ∈ seen) then freshTargets seen targets'
      else (filePath, varName) :: freshTargets ({[key]} ∪ seen) targets'
  end.

(** The routers that an item of the tree view shows: the router of the
    item, or the routers below a file node. *)
Definition shownTrees (item : TrpcTreeItem) : list TrpcNode :=
  match node_type (item_node item) with
  | file => node_children (item_node item)
  | _ => [item_node item]
  end.

(** A tree of a discovery, from a file: a tree of the builder under the
    display name. *)
Definition discoveredFrom (env : Environment) (filePath : string) (tree : TrpcNode)
    : Prop :=
  node_name tree = APP_ROUTER_DISPLAY_NAME
  ∧ node_type tree = router
  ∧ node_filePath tree = Some filePath
  ∧ node_line tree = None
  ∧ builtTree env tree.

(** Two states of the process with the same caches: between them there are
    calls to the logger only. *)
Definition onlyLogged (w w' : World) : Prop :=
  tsConfigPathsCache w' = tsConfigPathsCache w
  ∧ enumResolutionCache w' = enumResolutionCache w
  ∧ nearestTsConfigPathCache w' = nearestTsConfigPathCache w
  ∧ typeCheckerContextCache w' = typeCheckerContextCache w
  ∧ ∃ new, logged w' = new ++ logged w.

(** The builds of a discovery, from a state of the process to another: for
    each pair of a file and a name, in order, one call of the builder with
    an empty visited set, whose root is a tree of the discovery under the
    display name; the state of the process goes from one build to the next,
    with calls to the logger only in between. *)
Inductive builtInOrder (env : Environment) (fuel : nat)
    : World → list (string * string) → list TrpcNode → World → Prop :=
| builtInOrder_nil (w w' : World) :
    onlyLogged w w' → builtInOrder env fuel w [] [] w'
| builtInOrder_cons (w w0 w1 w2 : World) (filePath varName : string)
    (root : TrpcNode) (visited' : gset string) (targets : list (string * string))
    (trees : list TrpcNode) :
    onlyLogged w w0 →
    parseRouterFromFile env fuel filePath varName ∅ w0 = Done (Some root, visited') w1 →
    builtInOrder env fuel w1 targets trees w2 →
    builtInOrder env fuel w ((filePath, varName) :: targets)
      (set_name APP_ROUTER_DISPLAY_NAME root :: trees) w2.

(** The trees of the tree view: routers, each with the path of its file. *)
Definition viewable (tree : TrpcNode) : Prop :=
  node_type tree = router
  ∧ ∃ filePath, node_filePath tree = Some filePath ∧ filePath ≠ EmptyString.

(** * Import bindings, in the order of the file *)

(** The local names that an import clause binds, each with what it stands
    for: the default import first, then the named imports. *)
Definition clauseBindings (moduleSpecifier : string) (clause : ImportClause)
    : list (string * ImportInfo) :=
  match clause_name clause with
  | Some name => [(name, mkImportInfo moduleSpecifier "default" true)]
  | None => []
  end
  ++ match clause_namedBindings clause with
     | Some (NamedImports elements) =>
         (λ spec,
            (spec_name spec,
             mkImportInfo moduleSpecifier
               (default (spec_name spec) (spec_propertyName spec)) false))
         <$> elements
     | _ => []
     end.

(** The bindings of the import declarations among the statements of a
    file. *)
Definition importBindings (sourceFile : SourceFile) : list (string * ImportInfo) :=
  flat_map
    (λ stmt,
       match stmt with
       | ImportDeclaration _ (Some clause) moduleSpecifier =>
           clauseBindings moduleSpecifier clause
       | _ => []
       end)
    (statements sourceFile).

(** * Declarations and generic arguments *)

(** What a node declares under a name: the initializer and the line of a
    variable declaration of the name that has an initializer. *)
Definition declarationInfo (varName : string) (node : Node) : option (Node * nat) :=
  match node with
  | VariableDeclaration _ name (Some initializer) =>
      if String.eqb (getText name) varName
      then Some (initializer, lineOf node)
      else None
  | _ => None
  end.

(** The depth of the angle brackets at the end of a text read from a depth;
    nothing when a bracket closes one that the text did not open. *)
Fixpoint angleDepth (depth : nat) (s : string) : option nat :=
  match s with
  | EmptyString => Some depth
  | String ch s' =>
      if Ascii.eqb ch "<" then angleDepth (S depth) s'
      else if Ascii.eqb ch ">"
      then match depth with 0 => None | S depth' => angleDepth depth' s' end
      else angleDepth depth s'
  end.

(** The first result of [g] among the nodes of a list of trees, in
    [preorder], unless there is a result already. *)
Definition firstResult {A : Type} (g : Node → option A) (l : list Node)
    (s : option A) : option A :=
  match s with
  | Some a => Some a
  | None => head (omap g (flat_map preorder l))
  end.

(** * The search of the web view *)

(** The nodes of a tree of the web view, a node before its children. *)
Fixpoint webviewNodes (node : WebviewTrpcNode) : list WebviewTrpcNode :=
  let 'mkWebviewTrpcNode _ _ _ _ _ _ _ _ children := node in
  node :: flat_map webviewNodes children.

(** A node matches the search term by itself: by its name, its type, or one
    of the two schemas that the web view displays for it. *)
Definition matchesItself (toLowerCase : string → string) (searchTerm : string)
    (node : WebviewTrpcNode) : bool :=
  let 'mkWebviewTrpcNode name type _ _ inputSchema outputSchema prettyInput
         prettyOutput _ := node in
  includes (toLowerCase name) searchTerm
  || includes (toLowerCase (nodeTypeName type)) searchTerm
  || includesTerm toLowerCase searchTerm (displaySchema prettyInput inputSchema)
  || includesTerm toLowerCase searchTerm (displaySchema prettyOutput outputSchema).

(** * Example projects *)

Module Examples.

Definition info (text : string) : NodeInfo := mkInfo text 0 0 0.
Definition infoAt (text : string) (line : nat) : NodeInfo := mkInfo text 0 0 line.

Definition ident (x : string) : Node := Identifier (info x) x.

Definition emptySource : SourceFile := mkSourceFile [].

Definition sourceEntry (sf : SourceFile) : FsEntry := File (mkFileData sf None).

(** A configuration file with the given path mappings and base URL. *)
Definition tsconfigEntry (paths : list (string * list string))
    (baseUrl : option string) : FsEntry :=
  File (mkFileData emptySource (Some (mkTsConfigJson (Some paths) baseUrl))).

Definition emptyWorld : World := mkWorld ∅ ∅ ∅ ∅ [].

(** An environment without a type checker: no program can be built. *)
Definition envOfFiles (fs : gmap string FsEntry) : Environment :=
  mkEnvironment fs (λ _ _, None) (λ _ _, None) (λ _ _, false) (λ _ _, false)
    (λ text, ([], text)) (λ _ _, None) (λ t, t).

(** The project of the path-mapping scenario of the specification: the
    mapping from [@app/*] to [./src/*] at the root [/root], and the file
    [/root/src/db.ts]. *)
Definition appProject : gmap string FsEntry :=
  <["/root/tsconfig.json" := tsconfigEntry [("@app/*", ["./src/*"])] None]>
  (<["/root/src/db.ts" := sourceEntry emptySource]>
  (<["/root/src" := Directory]>
  (<["/root" := Directory]> ∅))).

(** The same project with [db] as a directory with an index file. *)
Definition appProjectIndex : gmap string FsEntry :=
  <["/root/tsconfig.json" := tsconfigEntry [("@app/*", ["./src/*"])] None]>
  (<["/root/src/db/index.ts" := sourceEntry emptySource]>
  (<["/root/src/db" := Directory]>
  (<["/root/src" := Directory]>
  (<["/root" := Directory]> ∅)))).

(** A project whose mapping table has two patterns that both start the
    specifier [@/lib/x]: the shorter one is declared first. *)
Definition overlapProject : gmap string FsEntry :=
  <["/p/tsconfig.json" :=
      tsconfigEntry [("@/*", ["./a/*"]); ("@/lib/*", ["./b/*"])] None]>
  (<["/p/a/lib/x.ts" := sourceEntry emptySource]>
  (<["/p/b/x.ts" := sourceEntry emptySource]> ∅)).

Definition overlapConfig : TsConfigPaths :=
  mkTsConfigPaths [("@/*", ["./a/*"]); ("@/lib/*", ["./b/*"])] "/p".

(** [export type <alias> = typeof <target>;], or without [export]. *)
Definition typeofAlias (exported : bool) (aliasName target : string) : Node :=
  TypeAliasDeclaration
    (info ((if exported then "export " else EmptyString)
           +:+ "type " +:+ aliasName +:+ " = typeof " +:+ target +:+ ";"))
    (if exported then [ExportKeyword] else [])
    (ident aliasName)
    (TypeQuery (info ("typeof " +:+ target)) (ident target)).

(** A file whose only statement is [export type Api = typeof api;]. *)
Definition apiProject : gmap string FsEntry :=
  {[ "/p/api.ts" := sourceEntry (mkSourceFile [typeofAlias true "Api" "api"]) ]}.

(** A file whose only statement is [type AppRouter = typeof appRouter;]. *)
Definition localAliasProject : gmap string FsEntry :=
  {[ "/p/root.ts" :=
       sourceEntry (mkSourceFile [typeofAlias false "AppRouter" "appRouter"]) ]}.

(** [const <name> = <initializer>;] with the text of the initializer. *)
Definition constDecl (name : string) (initializer : Node) : Node :=
  VariableDeclaration (info (name +:+ " = " +:+ getText initializer)) (ident name)
    (Some initializer).

(** A file with two schema aliases that name each other:
    [const a = b; const b = a;]. *)
Definition aliasLoopFile : SourceFile :=
  mkSourceFile [constDecl "a" (ident "b"); constDecl "b" (ident "a")].

Definition aliasLoopProject : gmap string FsEntry :=
  {[ "/p/schemas.ts" := sourceEntry aliasLoopFile ]}.

(** A chain of six aliases that ends in a literal, and a chain of seven:
    [const s1 = s2; ...; const s6 = z.string();] and
    [const t1 = t2; ...; const t7 = z.string();]. *)
Definition zString : Node :=
  CallExpression (info "z.string()")
    (PropertyAccessExpression (info "z.string") (ident "z") (ident "string")) [].

Definition aliasChainFile : SourceFile :=
  mkSourceFile
    [ constDecl "s1" (ident "s2"); constDecl "s2" (ident "s3");
      constDecl "s3" (ident "s4"); constDecl "s4" (ident "s5");
      constDecl "s5" (ident "s6"); constDecl "s6" zString;
      constDecl "t1" (ident "t2"); constDecl "t2" (ident "t3");
      constDecl "t3" (ident "t4"); constDecl "t4" (ident "t5");
      constDecl "t5" (ident "t6"); constDecl "t6" (ident "t7");
      constDecl "t7" zString ].

(** A procedure whose handler returns an array of a number and a string, in
    a project with a type checker:
    [publicProcedure.query(() => [1, 'a'])] at offsets 30 to 67 of
    [/p/router.ts]. *)
Definition mixedHandler : Node :=
  ArrowFunction (info "() => [1, 'a']") []
    (ArrayLiteralExpression (info "[1, 'a']")
       [NumericLiteral (info "1") "1"; StringLiteral (info "'a'") "a"]).

Definition publicProcedureQuery : Node :=
  PropertyAccessExpression (info "publicProcedure.query") (ident "publicProcedure")
    (ident "query").

Definition mixedCall : Node :=
  CallExpression (mkInfo "publicProcedure.query(() => [1, 'a'])" 30 67 0)
    publicProcedureQuery [mixedHandler].

Definition mixedFile : SourceFile := mkSourceFile [].

(** The type of the call as the checker prints it, and its argument. *)
Definition mixedTypeText : string :=
  "QueryProcedure<{ input: void; output: (string | number)[]; meta: object; }>".

Definition mixedGenericArg : string :=
  "{ input: void; output: (string | number)[]; meta: object; }".

Definition mixedChecker : TypeCheckerContext :=
  mkTypeCheckerContext
    (λ filePath start end_,
       if String.eqb filePath "/p/router.ts" && (start =? 30) && (end_ =? 67)
       then Some mixedTypeText else None)
    (λ _ _ _, None)
    (λ _, None).

(** The environment of the project.  The fields [input] and [output] of the
    argument above are what [extractTopLevelObjectFieldType] finds in it; the
    clean-up leaves both texts as they are, and the enum pattern matches
    nowhere in them. *)
Definition mixedEnv : Environment :=
  mkEnvironment
    (<["/p/tsconfig.json" := File (mkFileData emptySource None)]>
       (<["/p/router.ts" := sourceEntry mixedFile]> ∅))
    (λ tsConfigPath _,
       if String.eqb tsConfigPath "/p/tsconfig.json" then Some mixedChecker else None)
    (λ _ _, None) (λ _ _, false) (λ _ _, false)
    (λ text, ([], text))
    (λ objectText fieldName,
       if String.eqb objectText mixedGenericArg
       then
         if String.eqb fieldName "input" then Some "void"
         else if String.eqb fieldName "output" then Some "(string | number)[]"
         else None
       else None)
    (λ typeText, typeText).

(** [name: value] on the given line, and the shorthand [name]. *)
Definition propertyAt (line : nat) (name : string) (value : Node) : Node :=
  PropertyAssignment (infoAt (name +:+ ": " +:+ getText value) line) (ident name) value.

Definition shorthand (name : string) : Node :=
  ShorthandPropertyAssignment (info name) (ident name).

(** [router({ ...properties })]. *)
Definition routerCall (properties : list Node) : Node :=
  CallExpression (info "router({ ... })") (ident "router")
    [ObjectLiteralExpression (info "{ ... }") properties].

(** The end-to-end scenario of the specification:
    [export type AppRouter = typeof appRouter;] with
    [const appRouter = router({ list: publicProcedure.query(() => 1),
       byId: publicProcedure.input(z.string()).query(() => 1) })]. *)
Definition handlerOne : Node :=
  ArrowFunction (info "() => 1") [] (NumericLiteral (info "1") "1").

Definition listProcedure : Node :=
  CallExpression (info "publicProcedure.query(() => 1)") publicProcedureQuery
    [handlerOne].

Definition byIdProcedure : Node :=
  CallExpression (info "publicProcedure.input(z.string()).query(() => 1)")
    (PropertyAccessExpression (info "publicProcedure.input(z.string()).query")
       (CallExpression (info "publicProcedure.input(z.string())")
          (PropertyAccessExpression (info "publicProcedure.input")
             (ident "publicProcedure") (ident "input"))
          [zString])
       (ident "query"))
    [handlerOne].

Definition scenarioFile : SourceFile :=
  mkSourceFile
    [ typeofAlias true "AppRouter" "appRouter";
      constDecl "appRouter"
        (routerCall [propertyAt 2 "list" listProcedure;
                     propertyAt 3 "byId" byIdProcedure]) ].

Definition scenarioProject : gmap string FsEntry :=
  {[ "/p/root.ts" := sourceEntry scenarioFile ]}.

(** Two collections of one file that name each other by shorthand
    properties: [const a = router({ b }); const b = router({ a });]. *)
Definition mutualFile (a b : string) : SourceFile :=
  mkSourceFile
    [ constDecl a (routerCall [shorthand b]);
      constDecl b (routerCall [shorthand a]) ].

Definition mutualProject : gmap string FsEntry :=
  {[ "/p/mutual.ts" := sourceEntry (mutualFile "a" "b") ]}.

(** The same with property assignments:
    [const a = router({ b: b }); const b = router({ a: a });]. *)
Definition mutualAssignedFile : SourceFile :=
  mkSourceFile
    [ constDecl "a" (routerCall [propertyAt 0 "b" (ident "b")]);
      constDecl "b" (routerCall [propertyAt 1 "a" (ident "a")]) ].

Definition mutualAssignedProject : gmap string FsEntry :=
  {[ "/p/mutual.ts" := sourceEntry mutualAssignedFile ]}.

(** Two collections of two files that import each other:
    [/p/a.ts] is [import { b } from './b'; const a = router({ b });] and
    [/p/b.ts] is [import { a } from './a'; const b = router({ a });]; and
    the same with the property assignments [b: b] and [a: a]. *)
Definition importNamed (name specifier : string) : Node :=
  ImportDeclaration (info ("import { " +:+ name +:+ " } from '" +:+ specifier +:+ "';"))
    (Some (mkImportClause None (Some (NamedImports [mkImportSpecifier None name]))))
    specifier.

Definition crossFile (own other : string) (property : Node) : SourceFile :=
  mkSourceFile
    [ importNamed other ("./" +:+ other); constDecl own (routerCall [property]) ].

Definition crossProject : gmap string FsEntry :=
  <["/p/a.ts" := sourceEntry (crossFile "a" "b" (shorthand "b"))]>
  (<["/p/b.ts" := sourceEntry (crossFile "b" "a" (shorthand "a"))]> ∅).

Definition crossAssignedProject : gmap string FsEntry :=
  <["/p/a.ts" := sourceEntry (crossFile "a" "b" (propertyAt 1 "b" (ident "b")))]>
  (<["/p/b.ts" := sourceEntry (crossFile "b" "a" (propertyAt 1 "a" (ident "a")))]> ∅).

(** A collection with a spread property only:
    [const appRouter = router({ ...others });]. *)
Definition spreadFile : SourceFile :=
  mkSourceFile
    [ constDecl "appRouter"
        (routerCall [SpreadAssignment (info "...others") (ident "others")]) ].

Definition spreadProject : gmap string FsEntry :=
  {[ "/p/root.ts" := sourceEntry spreadFile ]}.

(** A project whose configuration file is gone while the path-mapping cache
    still holds its table: [/p/app/root.ts] is
    [import { b } from '@x/b'; const a = router({ b });] and [/p/lib/b.ts] is
    [const b = router({ hello: publicProcedure.query(() => 1) });]. *)
Definition staleRootFile : SourceFile :=
  mkSourceFile
    [ ImportDeclaration (info "import { b } from '@x/b';")
        (Some (mkImportClause None (Some (NamedImports [mkImportSpecifier None "b"]))))
        "@x/b";
      constDecl "a" (routerCall [shorthand "b"]) ].

Definition staleLibFile : SourceFile :=
  mkSourceFile [constDecl "b" (routerCall [propertyAt 0 "hello" listProcedure])].

Definition staleProject : gmap string FsEntry :=
  <["/p/app/root.ts" := sourceEntry staleRootFile]>
  (<["/p/lib/b.ts" := sourceEntry staleLibFile]> ∅).

Definition staleWorld : World :=
  mkWorld {[ "/p/app" := Some (mkTsConfigPaths [("@x/*", ["./lib/*"])] "/p") ]}
    ∅ ∅ ∅ [].

(** The workspace of the scenario: its one file matches the first priority
    pattern and the pattern of all the TypeScript files. *)
Definition scenarioFindFiles (pattern exclude : string) : list string :=
  if bool_decide (pattern ∈ ["**/root.ts"; "**/*.ts"]) then ["/p/root.ts"] else [].

(** The tree of the scenario, and the tree that a discovery makes of it. *)
Definition scenarioTree : TrpcNode :=
  mkTrpcNode "appRouter" router
    [ mkTrpcNode "list" (procedure query) [] (Some "/p/root.ts") (Some 3) None
        (Some "number");
      mkTrpcNode "byId" (procedure query) [] (Some "/p/root.ts") (Some 4)
        (Some "z.string()") (Some "number") ]
    (Some "/p/root.ts") None None None.

Definition scenarioAppRouter : TrpcNode := set_name "AppRouter" scenarioTree.

(** Three routers of two files. *)
Definition emptyRouter (filePath : string) : TrpcNode :=
  mkTrpcNode "AppRouter" router [] (Some filePath) None None None.

Definition threeRouters : list TrpcNode :=
  [scenarioAppRouter; emptyRouter "/p/admin.ts"; emptyRouter "/p/root.ts"].

End Examples.

(** * Properties *)

(** ** Syntax trees and visitors *)

Lemma visit_unfold {State : Type} (f : Node → State → State * bool)
    (n : Node) (s : State) :
  visit f n s =
    let '(s1, descend) := f n s in
    if descend then visitAll f (forEachChild n) s1 else s1.
Proof.
  assert (Hvs : ∀ l s0,
    (fix visits (l : list Node) (s : State) : State :=
       match l with
       | [] => s
       | c :: l' => visits l' (visit f c s)
       end) l s0 = visitAll f l s0).
  { induction l as [|c l IH]; intros s0; simpl; [done|]. apply IH. }
  destruct n; simpl; destruct (f _ s) as [s1 [|]]; try reflexivity;
    rewrite ?Hvs; unfold visitAll; rewrite ?fold_left_app; try reflexivity;
    match goal with o : option Node |- _ => destruct o; reflexivity end.
Qed.

(** Induction on a node from its children. *)
Lemma Node_children_ind (P : Node → Prop) :
  (∀ n, Forall P (forEachChild n) → P n) → ∀ n, P n.
Proof.
  intros H. fix IH 1. intros n. apply H.
  destruct n; simpl.
  all: try match goal with
        | o : option Node |- _ => destruct o; simpl
        end.
  all: repeat first [apply Forall_nil_2 | apply Forall_cons_2; [apply IH|]].
  all: try (apply Forall_app; split; [|repeat constructor; apply IH]).
  all: match goal with
    | |- Forall _ ?l =>
        induction l as [|c l IHl]; constructor; [apply IH|exact IHl]
    end.
Qed.

Lemma visitAll_cons {State : Type} (f : Node → State → State * bool)
    (n : Node) (l : list Node) (s : State) :
  visitAll f (n :: l) s = visitAll f l (visit f n s).
Proof. reflexivity. Qed.

Lemma visitAll_app {State : Type} (f : Node → State → State * bool)
    (l1 l2 : list Node) (s : State) :
  visitAll f (l1 ++ l2) s = visitAll f l2 (visitAll f l1 s).
Proof. apply fold_left_app. Qed.

Lemma visit_collect (n : Node) (acc : list Node) :
  visit collectNode n acc = acc ++ preorder n.
Proof.
  revert acc. induction n as [n IH] using Node_children_ind. intros acc.
  unfold preorder. rewrite !visit_unfold. simpl.
  assert (Hall : ∀ l, Forall (λ c, ∀ acc, visit collectNode c acc = acc ++ preorder c) l →
    ∀ acc, visitAll collectNode l acc = acc ++ visitAll collectNode l []).
  { clear. induction 1 as [|c l Hc _ IHl]; intros acc.
    - simpl. by rewrite app_nil_r.
    - rewrite !visitAll_cons, Hc, IHl. rewrite (Hc []), (IHl ([] ++ preorder c)).
      simpl. by rewrite app_assoc. }
  rewrite (Hall _ IH (acc ++ [n])), (Hall _ IH [n]). by rewrite <- app_assoc.
Qed.

Lemma visitAll_collect (l : list Node) (acc : list Node) :
  visitAll collectNode l acc = acc ++ flat_map preorder l.
Proof.
  revert acc. induction l as [|c l IH]; intros acc; simpl.
  - by rewrite app_nil_r.
  - rewrite visit_collect, IH. by rewrite <- app_assoc.
Qed.

Lemma preorder_unfold (n : Node) :
  preorder n = n :: flat_map preorder (forEachChild n).
Proof.
  unfold preorder at 1. rewrite visit_unfold. simpl. by rewrite visitAll_collect.
Qed.

(** A visitor that always goes on into the children meets the nodes in
    [preorder]. *)
Lemma visit_preorder {State : Type} (f : Node → State → State * bool) (n : Node) :
  (∀ n s, snd (f n s) = true) →
  ∀ s, visit f n s = fold_left (λ s n, fst (f n s)) (preorder n) s.
Proof.
  intros Hf. induction n as [n IH] using Node_children_ind. intros s.
  rewrite visit_unfold, preorder_unfold. simpl.
  specialize (Hf n s) as Hn. destruct (f n s) as [s1 d]. simpl in Hn. subst d. simpl.
  generalize s1. clear s s1. induction IH as [|c l Hc _ IHl]; intros s; simpl.
  - reflexivity.
  - rewrite fold_left_app, <- Hc. apply IHl.
Qed.

Lemma visitAll_preorder {State : Type} (f : Node → State → State * bool)
    (l : list Node) :
  (∀ n s, snd (f n s) = true) →
  ∀ s, visitAll f l s = fold_left (λ s n, fst (f n s)) (flat_map preorder l) s.
Proof.
  intros Hf. induction l as [|c l IH]; intros s; simpl; [reflexivity|].
  rewrite fold_left_app, <- visit_preorder by done. apply IH.
Qed.

(** The nodes below a node of a tree are nodes of the tree. *)
Lemma preorder_child (n c x : Node) :
  c ∈ forEachChild n → x ∈ preorder c → x ∈ preorder n.
Proof.
  intros Hc Hx. rewrite preorder_unfold. apply elem_of_cons. right.
  apply list_elem_of_In, in_flat_map. exists c. by rewrite <- !list_elem_of_In.
Qed.

Lemma preorder_self (n : Node) : n ∈ preorder n.
Proof. rewrite preorder_unfold. apply elem_of_cons. by left. Qed.

Lemma preorder_trans (n m x : Node) :
  m ∈ preorder n → x ∈ preorder m → x ∈ preorder n.
Proof.
  revert m x. induction n as [n IH] using Node_children_ind. intros m x Hm Hx.
  rewrite preorder_unfold in Hm. apply elem_of_cons in Hm as [->|Hm]; [done|].
  apply list_elem_of_In, in_flat_map in Hm as (c & Hc & Hm).
  apply list_elem_of_In in Hc, Hm.
  apply (preorder_child n c); [done|].
  rewrite Forall_forall in IH. by apply (IH c Hc m).
Qed.

Lemma allNodes_preorder (sourceFile : SourceFile) (n x : Node) :
  n ∈ allNodes sourceFile → x ∈ preorder n → x ∈ allNodes sourceFile.
Proof.
  unfold allNodes. intros Hn Hx.
  apply list_elem_of_In, in_flat_map in Hn as (c & Hc & Hn).
  apply list_elem_of_In, in_flat_map. exists c. split; [done|].
  apply list_elem_of_In. apply (preorder_trans c n); [by apply list_elem_of_In|done].
Qed.

Lemma allNodes_child (sourceFile : SourceFile) (n c : Node) :
  n ∈ allNodes sourceFile → c ∈ forEachChild n → c ∈ allNodes sourceFile.
Proof.
  intros Hn Hc. apply (allNodes_preorder _ n); [done|].
  apply (preorder_child n c); [done|apply preorder_self].
Qed.

(** ** Strings and paths *)

Lemma append_cons (c : ascii) (a b : string) :
  String c a +:+ b = String c (a +:+ b).
Proof. reflexivity. Qed.

Lemma append_empty_l (a : string) : EmptyString +:+ a = a.
Proof. reflexivity. Qed.

Lemma append_assoc (a b c : string) : (a +:+ b) +:+ c = a +:+ (b +:+ c).
Proof.
  induction a as [|x a IH]; [reflexivity|]. by rewrite !append_cons, IH.
Qed.

Lemma append_empty_r (a : string) : a +:+ EmptyString = a.
Proof. induction a as [|x a IH]; [reflexivity|]. by rewrite append_cons, IH. Qed.

Lemma split_on_nonempty (sep : ascii) (s : string) : split_on sep s ≠ [].
Proof.
  destruct s as [|c s]; simpl; [discriminate|].
  destruct (Ascii.eqb c sep); [discriminate|].
  destruct (split_on sep s); discriminate.
Qed.

Lemma split_on_app (sep : ascii) (a b : string) :
  split_on sep (a +:+ String sep b) = split_on sep a ++ split_on sep b.
Proof.
  induction a as [|c a IH]; [rewrite append_empty_l|rewrite append_cons]; simpl.
  - by rewrite Ascii.eqb_refl.
  - destruct (Ascii.eqb c sep); simpl; [by rewrite IH|].
    rewrite IH. pose proof (split_on_nonempty sep a) as Hne.
    destruct (split_on sep a); [done|reflexivity].
Qed.

Lemma normalizeSegments_app (acc l1 l2 : list string) :
  normalizeSegments acc (l1 ++ l2)
  = normalizeSegments (rev (normalizeSegments acc l1)) l2.
Proof.
  revert acc. induction l1 as [|seg l1 IH]; intros acc; simpl.
  - by rewrite rev_involutive.
  - destruct (String.eqb seg EmptyString || String.eqb seg "."); [apply IH|].
    destruct (String.eqb seg ".."); apply IH.
Qed.

Lemma normalizeSegments_acc (acc l : list string) :
  Forall (λ seg, seg ≠ "..") l →
  normalizeSegments acc l = rev acc ++ normalizeSegments [] l.
Proof.
  intros Hl. revert acc. induction Hl as [|seg l Hseg _ IH]; intros acc; simpl.
  - by rewrite app_nil_r.
  - destruct (String.eqb seg EmptyString || String.eqb seg "."); [apply IH|].
    destruct (String.eqb_spec seg ".."); [done|].
    rewrite IH, (IH [seg]). simpl. by rewrite <- app_assoc.
Qed.

Lemma join_app (sep : string) (l1 l2 : list string) :
  l1 ≠ [] → l2 ≠ [] →
  join sep (l1 ++ l2) = join sep l1 +:+ sep +:+ join sep l2.
Proof.
  intros H1 H2. induction l1 as [|x l1 IH]; [done|].
  destruct l1 as [|y l1].
  - simpl. destruct l2; [done|reflexivity].
  - change (join sep ((x :: y :: l1) ++ l2))
      with (x +:+ sep +:+ join sep ((y :: l1) ++ l2)).
    rewrite IH by done.
    change (join sep (x :: y :: l1)) with (x +:+ sep +:+ join sep (y :: l1)).
    by rewrite !append_assoc.
Qed.

(** A path below a normalized absolute directory. *)
Lemma normalizeAbsolute_below (root s : string) :
  normalizeAbsolute root = root → root ≠ "/" →
  Forall (λ seg, seg ≠ "..") (split_on "/" s) →
  normalizeSegments [] (split_on "/" s) ≠ [] →
  normalizeAbsolute (root +:+ "/" +:+ s)
  = root +:+ "/" +:+ join "/" (normalizeSegments [] (split_on "/" s)).
Proof.
  intros Hroot Hne Hs Hs'. unfold normalizeAbsolute in *.
  change (root +:+ "/" +:+ s) with (root +:+ String "/" s).
  rewrite split_on_app, normalizeSegments_app, normalizeSegments_acc by done.
  rewrite rev_involutive.
  destruct (normalizeSegments [] (split_on "/" root)) as [|x l] eqn:HN.
  { vm_compute in Hroot. congruence. }
  rewrite join_app by done.
  rewrite <- Hroot. by rewrite !append_assoc.
Qed.

(** ** Module resolver *)

Section ResolverProperties.

Context (env : Environment).

Lemma find_first {A : Type} (f : A → bool) (l : list A) (x : A) :
  find f l = Some x ↔
  ∃ before after,
    l = before ++ x :: after ∧ f x = true ∧ Forall (λ y, f y = false) before.
Proof.
  induction l as [|y l IH]; simpl.
  - split; [discriminate|]. intros (before & after & Hl & _).
    destruct before; discriminate.
  - destruct (f y) eqn:Hy.
    + split.
      * intros [= ->]. exists [], l. by repeat split.
      * intros (before & after & Hl & Hx & Hbefore).
        destruct before as [|z before]; simpl in Hl.
        -- congruence.
        -- injection Hl as <- _. inversion Hbefore; congruence.
    + rewrite IH. split.
      * intros (before & after & -> & Hx & Hbefore).
        exists (y :: before), after. repeat split; [done|by constructor].
      * intros (before & after & Hl & Hx & Hbefore).
        destruct before as [|z before]; simpl in Hl.
        -- congruence.
        -- injection Hl as <- ->. inversion Hbefore; subst. by exists before, after.
Qed.

Lemma resolveFile_isFile (base c : string) :
  resolveFile env base = Some c → isFile env c = true.
Proof.
  unfold resolveFile. intros H. apply find_first in H. by destruct H as (?&?&?&?&?).
Qed.

Lemma resolveFile_readSourceFile (base c : string) :
  resolveFile env base = Some c → is_Some (readSourceFile env c).
Proof.
  intros H%resolveFile_isFile. unfold isFile, readSourceFile in *.
  destruct (env_fs env !! c) as [[d|]|]; try discriminate. by eexists.
Qed.

Lemma path_resolve_absolute (from to : string) :
  ∃ p, path_resolve from to = String "/" p.
Proof.
  unfold path_resolve, normalizeAbsolute.
  destruct (startsWith to "/"); eexists; reflexivity.
Qed.

Lemma resolveFile_truthy (from to c : string) :
  resolveFile env (path_resolve from to) = Some c → truthy c = true.
Proof.
  destruct (path_resolve_absolute from to) as [p ->].
  unfold resolveFile. intros H. apply find_some in H as [Hin _].
  unfold resolveFile_candidates, path_join, normalizeAbsolute in Hin.
  simpl in Hin. destruct Hin as [<-|[<-|[<-|[<-|[<-|[]]]]]]; reflexivity.
Qed.

Lemma resolveImport_mappings_first (baseUrl rest : string) (mappings : list string) :
  resolveImport_mappings env baseUrl rest mappings
  = head (omap (λ mapping,
                  resolveFile env
                    (path_resolve baseUrl (stripTrailingStar mapping +:+ rest)))
            mappings).
Proof.
  induction mappings as [|mapping mappings IH]; simpl; [reflexivity|].
  destruct (resolveFile env _) as [c|] eqn:Hc; simpl; [|exact IH].
  by rewrite (resolveFile_truthy _ _ _ Hc).
Qed.

Lemma resolveImport_paths_first (cfg : TsConfigPaths) (specifier : string) :
  resolveImport_paths env (baseUrl cfg) specifier (paths cfg)
  = head (declaredOrderCandidates env cfg specifier).
Proof.
  unfold declaredOrderCandidates.
  induction (paths cfg) as [|[pattern mappings] entries IH]; simpl; [reflexivity|].
  destruct (startsWith specifier (stripTrailingStar pattern)); simpl; [|exact IH].
  rewrite resolveImport_mappings_first.
  destruct (omap _ mappings) as [|c l]; simpl; [exact IH|reflexivity].
Qed.

Lemma resolveImport_nonrelative (specifier fromFilePath : string) (w : World) :
  startsWith specifier "." = false →
  fst (resolveImport env specifier fromFilePath w)
  = match fst (getTsConfigPaths env fromFilePath w) with
    | Some cfg => head (declaredOrderCandidates env cfg specifier)
    | None => None
    end.
Proof.
  intros Hrel. unfold resolveImport. rewrite Hrel. unfold St_bind, St_ret.
  destruct (getTsConfigPaths env fromFilePath w) as [[cfg|] w']; simpl; [|reflexivity].
  apply resolveImport_paths_first.
Qed.

(** Whatever [resolveImport] returns is a file. *)
Lemma resolveImport_isFile (specifier fromFilePath c : string) (w : World) :
  fst (resolveImport env specifier fromFilePath w) = Some c → isFile env c = true.
Proof.
  unfold resolveImport. destruct (startsWith specifier ".").
  - simpl. apply resolveFile_isFile.
  - unfold St_bind, St_ret.
    destruct (getTsConfigPaths env fromFilePath w) as [[cfg|] w']; simpl; [|discriminate].
    rewrite resolveImport_paths_first. unfold declaredOrderCandidates.
    intros H. apply head_Some_elem_of in H. apply list_elem_of_In in H.
    apply in_flat_map in H as ([pattern mappings] & _ & H).
    destruct (startsWith specifier (stripTrailingStar pattern)); [|destruct H].
    apply list_elem_of_In, list_elem_of_omap in H as (mapping & _ & H).
    by apply resolveFile_isFile in H.
Qed.

(** C4, as the code has it.  A specifier that is not relative is matched
    against the patterns of the active path-mapping table in the declared
    order of the table: a pattern matches when the specifier starts with the
    pattern without its final star, whatever the length of that prefix.  The
    rest of the specifier is appended to each substitution (without its final
    star) of each matching pattern, and the first of these, in the declared
    order of the patterns and of their substitutions, that resolves to an
    existing file wins. *)
Theorem resolveImport_declared_order
    (specifier fromFilePath : string) (w : World) (cfg : TsConfigPaths)
    (Hnonrelative : startsWith specifier "." = false)
    (Hactive : fst (getTsConfigPaths env fromFilePath w) = Some cfg) :
  fst (resolveImport env specifier fromFilePath w)
  = head (declaredOrderCandidates env cfg specifier).
Proof. rewrite resolveImport_nonrelative by done. by rewrite Hactive. Qed.

(** C5.  [resolveFile] accepts the first of its candidates that is a file:
    the base itself, the base with the extension [.ts] or [.tsx], the file
    [index.ts] or [index.tsx] inside the base.  With the mapping from
    [@app/*] to [./src/*] and the base directory [root], the import of
    [@app/db] is resolved from the base [root/src/db]: to [root/src/db.ts]
    when that is a file (and the base itself is not), else to
    [root/src/db/index.ts] when that is the first candidate that is a
    file. *)
Theorem resolveFile_acceptance_order
    (root fromFilePath : string) (w : World)
    (Hroot : normalizeAbsolute root = root)
    (Hnotslash : root ≠ "/")
    (Hmapping : fst (getTsConfigPaths env fromFilePath w)
                = Some (mkTsConfigPaths [("@app/*", ["./src/*"])] root)) :
  (∀ base c,
     resolveFile env base = Some c ↔
     ∃ before after,
       [ base; base +:+ ".ts"; base +:+ ".tsx";
         path_join base "index.ts"; path_join base "index.tsx" ]
       = before ++ c :: after
       ∧ isFile env c = true ∧ Forall (λ p, isFile env p = false) before)
  ∧ fst (resolveImport env "@app/db" fromFilePath w)
    = find (isFile env)
        [ root +:+ "/src/db"; root +:+ "/src/db.ts"; root +:+ "/src/db.tsx";
          root +:+ "/src/db/index.ts"; root +:+ "/src/db/index.tsx" ]
  ∧ (isFile env (root +:+ "/src/db") = false →
     isFile env (root +:+ "/src/db.ts") = true →
     fst (resolveImport env "@app/db" fromFilePath w) = Some (root +:+ "/src/db.ts"))
  ∧ (isFile env (root +:+ "/src/db") = false →
     isFile env (root +:+ "/src/db.ts") = false →
     isFile env (root +:+ "/src/db.tsx") = false →
     isFile env (root +:+ "/src/db/index.ts") = true →
     fst (resolveImport env "@app/db" fromFilePath w)
     = Some (root +:+ "/src/db/index.ts")).
Proof.
  assert (Hres : fst (resolveImport env "@app/db" fromFilePath w)
    = find (isFile env)
        [ root +:+ "/src/db"; root +:+ "/src/db.ts"; root +:+ "/src/db.tsx";
          root +:+ "/src/db/index.ts"; root +:+ "/src/db/index.tsx" ]).
  { rewrite resolveImport_nonrelative by reflexivity. rewrite Hmapping.
    unfold declaredOrderCandidates. cbn [paths baseUrl flat_map].
    change (startsWith "@app/db" (stripTrailingStar "@app/*")) with true.
    cbn [omap list_omap].
    assert (Hbase : path_resolve root (stripTrailingStar "./src/*"
        +:+ slice_from "@app/db" (String.length (stripTrailingStar "@app/*")))
      = root +:+ "/src/db").
    { change (stripTrailingStar "./src/*"
        +:+ slice_from "@app/db" (String.length (stripTrailingStar "@app/*")))
        with "./src/db".
      unfold path_resolve. change (startsWith "./src/db" "/") with false.
      rewrite normalizeAbsolute_below; [reflexivity|done|done| |].
      - vm_compute. repeat constructor; discriminate.
      - vm_compute. discriminate. }
    rewrite Hbase. unfold resolveFile, resolveFile_candidates, path_join.
    assert (Hjoin : ∀ name,
      Forall (λ seg, seg ≠ "..") (split_on "/" ("src/db/" +:+ name)) →
      normalizeSegments [] (split_on "/" ("src/db/" +:+ name)) ≠ [] →
      normalizeAbsolute ((root +:+ "/src/db") +:+ "/" +:+ name)
      = root +:+ "/" +:+ join "/" (normalizeSegments [] (split_on "/" ("src/db/" +:+ name)))).
    { intros name H1 H2. rewrite <- normalizeAbsolute_below by done.
      f_equal. by rewrite !append_assoc. }
    rewrite (Hjoin "index.ts"), (Hjoin "index.tsx");
      [|vm_compute; repeat constructor; discriminate|vm_compute; discriminate
       |vm_compute; repeat constructor; discriminate|vm_compute; discriminate].
    rewrite !append_assoc.
    destruct (find _ _) as [c|]; reflexivity. }
  split; [|split; [exact Hres|split]].
  - intros base c. apply find_first.
  - intros H0 H1. rewrite Hres. simpl. by rewrite H0, H1.
  - intros H0 H1 H2 H3. rewrite Hres. simpl. by rewrite H0, H1, H2, H3.
Qed.

End ResolverProperties.

(** C5, on a project: with the mapping of [@app/*] to [./src/*] at [/root],
    the import of [@app/db] resolves to [/root/src/db.ts]. *)
Lemma resolveFile_acceptance_order_witness :
  fst (resolveImport (Examples.envOfFiles Examples.appProject) "@app/db"
         "/root/server/x.ts" Examples.emptyWorld)
  = Some "/root/src/db.ts".
Proof.
  refine (proj1 (proj2 (proj2 (resolveFile_acceptance_order
    (Examples.envOfFiles Examples.appProject) "/root" "/root/server/x.ts"
    Examples.emptyWorld _ _ _))) _ _).
  - reflexivity.
  - discriminate.
  - vm_compute. reflexivity.
  - vm_compute. reflexivity.
  - vm_compute. reflexivity.
Defined.

(** C4, on a project: the first declared pattern that matches wins. *)
Lemma resolveImport_declared_order_witness :
  fst (resolveImport (Examples.envOfFiles Examples.overlapProject) "@/lib/x"
         "/p/s/x.ts" Examples.emptyWorld)
  = head (declaredOrderCandidates (Examples.envOfFiles Examples.overlapProject)
            Examples.overlapConfig "@/lib/x").
Proof.
  apply resolveImport_declared_order.
  - reflexivity.
  - vm_compute. reflexivity.
Defined.

(** C4, as the specification has it, fails: the specifier [@/lib/x] starts
    with the prefixes of both [@/*] and [@/lib/*]; the code takes the first
    declared pattern, whose substitution resolves to a file, not the pattern
    with the longest prefix. *)
Lemma resolveImport_longest_prefix_fails :
  ¬ (∀ (env : Environment) (specifier fromFilePath : string) (w : World)
       (cfg : TsConfigPaths),
       startsWith specifier "." = false →
       fst (getTsConfigPaths env fromFilePath w) = Some cfg →
       fst (resolveImport env specifier fromFilePath w)
       = spec_resolveNonRelative env cfg specifier).
Proof.
  intros H.
  specialize (H (Examples.envOfFiles Examples.overlapProject) "@/lib/x" "/p/s/x.ts"
                Examples.emptyWorld Examples.overlapConfig eq_refl).
  assert (Hcfg : fst (getTsConfigPaths (Examples.envOfFiles Examples.overlapProject)
                        "/p/s/x.ts" Examples.emptyWorld)
                 = Some Examples.overlapConfig) by (vm_compute; reflexivity).
  specialize (H Hcfg). vm_compute in H. discriminate.
Qed.

(** ** Procedure analyzer *)

Lemma procedureTypeOfMethod_name (method : string) (t : ProcedureType) :
  procedureTypeOfMethod method = Some t ↔ method = procedureTypeName t.
Proof.
  unfold procedureTypeOfMethod.
  destruct (String.eqb_spec method "query") as [->|Hq];
    [destruct t; simpl; split; congruence|].
  destruct (String.eqb_spec method "mutation") as [->|Hm];
    [destruct t; simpl; split; congruence|].
  destruct (String.eqb_spec method "subscription") as [->|Hs];
    [destruct t; simpl; split; congruence|].
  destruct t; simpl; split; congruence.
Qed.

Lemma procedureTypeOfMethod_None (method : string) :
  procedureTypeOfMethod method = None ↔
  method ∉ ["query"; "mutation"; "subscription"].
Proof.
  rewrite !not_elem_of_cons. unfold procedureTypeOfMethod.
  destruct (String.eqb_spec method "query");
    destruct (String.eqb_spec method "mutation");
    destruct (String.eqb_spec method "subscription");
    split; try congruence; try tauto; intros; repeat split; auto; apply not_elem_of_nil.
Qed.

Section AnalyzerProperties.

Context (env : Environment).

(** The result of [analyzeProcedureChain] on a call of a procedure method,
    from the results of its four steps. *)
Lemma analyzeProcedureChain_steps
    (i j : NodeInfo) (receiver name : Node) (arguments : list Node)
    (sourceFile : SourceFile) (imports : gmap string ImportInfo) (filePath : string)
    (resolve : string → SourceFile → gmap string ImportInfo → string → St string)
    (w : World) (method : ProcedureType) :
  procedureTypeOfMethod (getText name) = Some method →
  let node := CallExpression i (PropertyAccessExpression j receiver name) arguments in
  let explicitInput := findMethodInChain receiver "input" in
  let explicitOutput := findMethodInChain receiver "output" in
  let '(resolvedInput, w1) :=
    resolveExplicitSchema resolve explicitInput sourceFile imports filePath w in
  let '(resolvedOutput, w2) :=
    resolveExplicitSchema resolve explicitOutput sourceFile imports filePath w1 in
  let '(output, w3) :=
    if negb (truthy_opt resolvedOutput)
    then inferOutputSchemaFromResolver env node sourceFile filePath resolvedInput w2
    else (resolvedOutput, w2) in
  let '(fromType, w4) := inferSchemasFromProcedureType env node sourceFile filePath w3 in
  analyzeProcedureChain env node sourceFile imports filePath resolve w
  = (Some (mkProcedureAnalysisResult method
             (preferProcedureType (truthy_opt explicitInput) (fromType ≫= fst)
                resolvedInput)
             (preferProcedureType (truthy_opt explicitOutput) (fromType ≫= snd)
                output)),
     w4).
Proof.
  intros Hmethod. cbv zeta. unfold analyzeProcedureChain. rewrite Hmethod.
  unfold St_bind, St_ret.
  destruct (resolveExplicitSchema resolve (findMethodInChain receiver "input") _ _ _ w)
    as [resolvedInput w1].
  destruct (resolveExplicitSchema resolve (findMethodInChain receiver "output") _ _ _ w1)
    as [resolvedOutput w2].
  destruct (negb (truthy_opt resolvedOutput)).
  - destruct (inferOutputSchemaFromResolver env _ _ _ _ w2) as [output w3].
    destruct (inferSchemasFromProcedureType env _ _ _ w3) as [fromType w4].
    reflexivity.
  - destruct (inferSchemasFromProcedureType env _ _ _ w2) as [fromType w4].
    reflexivity.
Qed.

Lemma preferProcedureType_explicit (fromType schema : option string) :
  preferProcedureType true fromType schema = schema.
Proof. unfold preferProcedureType. by destruct fromType as [[|]|]. Qed.

(** C6.  [analyzeProcedureChain] returns nothing exactly when the node is not
    a call whose callee is a property access to one of the member names
    [query], [mutation] and [subscription]; and on such a call it returns a
    result whose kind is that member name. *)
Theorem analyzeProcedureChain_precondition
    (node : Node) (sourceFile : SourceFile) (imports : gmap string ImportInfo)
    (filePath : string)
    (resolve : string → SourceFile → gmap string ImportInfo → string → St string)
    (w : World) :
  (fst (analyzeProcedureChain env node sourceFile imports filePath resolve w) = None ↔
   ¬ ∃ i j receiver name arguments,
       node = CallExpression i (PropertyAccessExpression j receiver name) arguments
       ∧ getText name ∈ ["query"; "mutation"; "subscription"])
  ∧ (∀ i j receiver name arguments,
       node = CallExpression i (PropertyAccessExpression j receiver name) arguments →
       getText name ∈ ["query"; "mutation"; "subscription"] →
       ∃ result,
         fst (analyzeProcedureChain env node sourceFile imports filePath resolve w)
         = Some result
         ∧ procedureTypeName (type result) = getText name).
Proof.
  assert (Hcall : ∀ i j receiver name arguments,
    node = CallExpression i (PropertyAccessExpression j receiver name) arguments →
    match procedureTypeOfMethod (getText name) with
    | Some t =>
        ∃ result,
          fst (analyzeProcedureChain env node sourceFile imports filePath resolve w)
          = Some result
          ∧ type result = t
    | None =>
        fst (analyzeProcedureChain env node sourceFile imports filePath resolve w) = None
    end).
  { intros i j receiver name arguments Hnode. subst node.
    destruct (procedureTypeOfMethod (getText name)) as [t|] eqn:Ht.
    - pose proof (analyzeProcedureChain_steps i j receiver name arguments sourceFile
                    imports filePath resolve w t Ht) as Hsteps.
      cbv zeta in Hsteps.
      repeat match type of Hsteps with
             | context [let '(_, _) := ?m in _] => destruct m
             end.
      rewrite Hsteps. eexists. split; reflexivity.
    - unfold analyzeProcedureChain. by rewrite Ht. }
  split; [split|].
  - intros Hnone (i & j & receiver & name & arguments & Hnode & Hin).
    specialize (Hcall _ _ _ _ _ Hnode).
    destruct (procedureTypeOfMethod (getText name)) as [t|] eqn:Ht.
    + destruct Hcall as (result & Hres & _). congruence.
    + apply procedureTypeOfMethod_None in Ht. contradiction.
  - intros Hnot.
    destruct node as [| | | | | | | | | | |i callee arguments| | | | | | | | | | | |
                      | | | | | | | | | | |]; try reflexivity.
    destruct callee as [| | | | | | | | | |j receiver name| | | | | | | | | | | | |
                        | | | | | | | | | | |]; try reflexivity.
    specialize (Hcall _ _ _ _ _ eq_refl).
    destruct (procedureTypeOfMethod (getText name)) as [t|] eqn:Ht; [|exact Hcall].
    exfalso. apply Hnot. do 5 eexists. split; [reflexivity|].
    apply procedureTypeOfMethod_name in Ht. rewrite Ht.
    destruct t; simpl; rewrite !elem_of_cons; auto.
  - intros i j receiver name arguments Hnode Hin.
    specialize (Hcall _ _ _ _ _ Hnode).
    destruct (procedureTypeOfMethod (getText name)) as [t|] eqn:Ht.
    + destruct Hcall as (result & Hres & Htype). exists result. split; [exact Hres|].
      apply procedureTypeOfMethod_name in Ht. congruence.
    + apply procedureTypeOfMethod_None in Ht. contradiction.
Qed.

(** C1, as the code has it.  On a call of a procedure method: an explicit
    input schema of the chain, once resolved, is the input of the result; an
    explicit output schema whose resolved text is not empty is the output of
    the result; and when the chain has no explicit output schema, the output
    that the type of the procedure gives is the output of the result
    whenever it is informative, and the output inferred from the return
    expressions of the handler is the output of the result otherwise. *)
Theorem analyzeProcedureChain_precedence
    (i j : NodeInfo) (receiver name : Node) (arguments : list Node)
    (sourceFile : SourceFile) (imports : gmap string ImportInfo) (filePath : string)
    (resolve : string → SourceFile → gmap string ImportInfo → string → St string)
    (w : World) (method : ProcedureType)
    (Hmethod : procedureTypeOfMethod (getText name) = Some method) :
  let node := CallExpression i (PropertyAccessExpression j receiver name) arguments in
  let explicitInput := findMethodInChain receiver "input" in
  let explicitOutput := findMethodInChain receiver "output" in
  let '(resolvedInput, w1) :=
    resolveExplicitSchema resolve explicitInput sourceFile imports filePath w in
  let '(resolvedOutput, w2) :=
    resolveExplicitSchema resolve explicitOutput sourceFile imports filePath w1 in
  let '(structural, w3) :=
    inferOutputSchemaFromResolver env node sourceFile filePath resolvedInput w2 in
  let '(fromType, _) := inferSchemasFromProcedureType env node sourceFile filePath w3 in
  ∃ result,
    fst (analyzeProcedureChain env node sourceFile imports filePath resolve w)
    = Some result
    ∧ type result = method
    ∧ (truthy_opt explicitInput = true → inputSchema result = resolvedInput)
    ∧ (truthy_opt explicitOutput = true → truthy_opt resolvedOutput = true →
       outputSchema result = resolvedOutput)
    ∧ (truthy_opt explicitOutput = false →
       outputSchema result
       = match fromType ≫= snd with
         | Some fromProcedureType =>
             if truthy fromProcedureType
                && negb (isNonInformativeInferredType fromProcedureType)
             then Some fromProcedureType
             else structural
         | None => structural
         end).
Proof.
  pose proof (analyzeProcedureChain_steps i j receiver name arguments sourceFile
                imports filePath resolve w method Hmethod) as Hsteps.
  cbv zeta in *.
  destruct (resolveExplicitSchema resolve (findMethodInChain receiver "input") _ _ _ w)
    as [resolvedInput w1].
  destruct (resolveExplicitSchema resolve (findMethodInChain receiver "output") _ _ _ w1)
    as [resolvedOutput w2] eqn:Hout.
  destruct (inferOutputSchemaFromResolver env _ _ _ _ w2) as [structural w3].
  destruct (truthy_opt resolvedOutput) eqn:Hresolved; cbn [negb] in Hsteps.
  - destruct (inferSchemasFromProcedureType env _ _ _ w2) as [fromType2 w4].
    destruct (inferSchemasFromProcedureType env _ _ _ w3) as [fromType w5].
    rewrite Hsteps. eexists. split; [reflexivity|]. simpl.
    split; [reflexivity|]. split; [|split].
    + intros ->. apply preferProcedureType_explicit.
    + intros -> _. apply preferProcedureType_explicit.
    + intros Hnone. exfalso.
      unfold resolveExplicitSchema in Hout.
      destruct (findMethodInChain receiver "output") as [[|c t]|]; try discriminate.
      * injection Hout as <- <-. discriminate.
      * injection Hout as <- <-. discriminate.
  - destruct (inferSchemasFromProcedureType env _ _ _ w3) as [fromType w4].
    rewrite Hsteps. eexists. split; [reflexivity|]. simpl.
    split; [reflexivity|]. split; [|split].
    + intros ->. apply preferProcedureType_explicit.
    + discriminate.
    + intros ->. unfold preferProcedureType. simpl.
      destruct (fromType ≫= snd) as [[|c t]|]; reflexivity.
Qed.

End AnalyzerProperties.

(** C1, on a procedure without explicit schemas: the result has the kind of
    the method and the output of the type of the procedure. *)
Lemma analyzeProcedureChain_precedence_witness :
  ∃ result,
    fst (analyzeProcedureChain Examples.mixedEnv Examples.mixedCall Examples.mixedFile
           ∅ "/p/router.ts" (resolveSchemaText0 Examples.mixedEnv) Examples.emptyWorld)
    = Some result
    ∧ type result = query
    ∧ outputSchema result = Some "(string | number)[]".
Proof.
  pose proof (analyzeProcedureChain_precedence Examples.mixedEnv
    (mkInfo "publicProcedure.query(() => [1, 'a'])" 30 67 0)
    (Examples.info "publicProcedure.query") (Examples.ident "publicProcedure")
    (Examples.ident "query") [Examples.mixedHandler] Examples.mixedFile ∅
    "/p/router.ts" (resolveSchemaText0 Examples.mixedEnv) Examples.emptyWorld
    query eq_refl) as H.
  vm_compute in H. destruct H as (result & Hresult & Htype & _ & _ & Houtput).
  exists result. split; [exact Hresult|]. split; [exact Htype|].
  exact (Houtput eq_refl).
Defined.

(** C1, as the specification has it, fails: the handler of
    [publicProcedure.query(() => [1, 'a'])] has the informative inferred
    output [number | string[]], and the chain has no explicit schema, yet the
    output of the result is the one of the type of the procedure. *)
Lemma analyzeProcedureChain_structural_first_fails :
  ¬ (∀ (env : Environment) (i j : NodeInfo) (receiver name : Node)
       (arguments : list Node) (sourceFile : SourceFile)
       (imports : gmap string ImportInfo) (filePath : string) (w : World)
       (result : ProcedureAnalysisResult) (structural : string),
       let node :=
         CallExpression i (PropertyAccessExpression j receiver name) arguments in
       findMethodInChain receiver "input" = None →
       findMethodInChain receiver "output" = None →
       fst (analyzeProcedureChain env node sourceFile imports filePath
              (resolveSchemaText0 env) w) = Some result →
       fst (inferOutputSchemaFromResolver env node sourceFile filePath None w)
       = Some structural →
       isNonInformativeInferredType structural = false →
       outputSchema result = Some structural).
Proof.
  intros H.
  specialize (H Examples.mixedEnv
    (mkInfo "publicProcedure.query(() => [1, 'a'])" 30 67 0)
    (Examples.info "publicProcedure.query") (Examples.ident "publicProcedure")
    (Examples.ident "query") [Examples.mixedHandler] Examples.mixedFile ∅
    "/p/router.ts" Examples.emptyWorld
    (mkProcedureAnalysisResult query (Some "void") (Some "(string | number)[]"))
    "number | string[]").
  simpl in H.
  assert (Hfalse : Some "(string | number)[]" = Some "number | string[]");
    [|discriminate].
  apply H; vm_compute; reflexivity.
Qed.

(** ** Root alias probe *)

Lemma uniqueStrings_go_elem (x : string) (seen l : list string) :
  x ∈ uniqueStrings_go seen l ↔ x ∈ l ∧ x ∉ seen.
Proof.
  revert seen. induction l as [|y l IH]; intros seen; simpl.
  - split; [intros H; inversion H|intros [H _]; inversion H].
  - case_bool_decide as Hy.
    + rewrite IH, elem_of_cons. split; [naive_solver|].
      intros [[->|Hx] Hseen]; [done|done].
    + rewrite !elem_of_cons, IH, elem_of_cons. split.
      * intros [->|[Hx Hseen]]; [by split; [left|]|]. split; [by right|].
        intros Hs. apply Hseen. by right.
      * intros [[->|Hx] Hseen]; [by left|].
        destruct (decide (x = y)) as [->|Hne]; [by left|].
        right. split; [done|]. intros [?|?]; done.
Qed.

Lemma uniqueStrings_go_NoDup (seen l : list string) : NoDup (uniqueStrings_go seen l).
Proof.
  revert seen. induction l as [|y l IH]; intros seen; simpl; [constructor|].
  case_bool_decide; [apply IH|]. constructor; [|apply IH].
  rewrite uniqueStrings_go_elem. intros [_ Hy]. apply Hy. by left.
Qed.

Lemma fold_addResult (l acc seen : list string) :
  (∀ x, x ∈ seen ↔ x ∈ acc) →
  fold_left (λ results name, addResult name results) l acc
  = acc ++ uniqueStrings_go seen l.
Proof.
  revert acc seen. induction l as [|y l IH]; intros acc seen Hseen; simpl.
  - by rewrite app_nil_r.
  - unfold addResult at 2. rewrite <- (bool_decide_ext _ _ (Hseen y)).
    case_bool_decide as Hy; [by apply IH|].
    rewrite (IH _ (y :: seen)), <- app_assoc; [reflexivity|].
    intros x. rewrite elem_of_cons, elem_of_app, list_elem_of_singleton, Hseen.
    tauto.
Qed.

Section ProbeProperties.

Context (env : Environment).

Lemma findAppRoutersInFile_visit_target (n : Node) (results : list string) :
  findAppRoutersInFile_visit n results
  = (match appRouterTarget n with
     | Some name => addResult name results
     | None => results
     end, true).
Proof.
  unfold findAppRoutersInFile_visit, appRouterTarget.
  destruct n; try reflexivity.
  match goal with |- context [match ?t with TypeQuery _ _ => _ | _ => _ end] =>
    destruct t; try reflexivity end.
  destruct (String.eqb _ _); reflexivity.
Qed.

Lemma findAppRoutersInFile_visit_fold (l : list Node) (results : list string) :
  visitAll findAppRoutersInFile_visit l results
  = fold_left (λ results name, addResult name results)
      (omap appRouterTarget (flat_map preorder l)) results.
Proof.
  rewrite visitAll_preorder
    by (intros n s; by rewrite findAppRoutersInFile_visit_target).
  generalize (flat_map preorder l). clear l. intros l. revert results.
  induction l as [|n l IH]; intros results; simpl; [reflexivity|].
  rewrite findAppRoutersInFile_visit_target. simpl.
  destruct (appRouterTarget n); simpl; apply IH.
Qed.

(** C8, as the code has it.  The probe of a file returns, without
    duplicates and in the order of their first occurrences, the names [n]
    such that the file contains a type alias named [AppRouter], exported or
    not, whose right-hand side is the type query [typeof n]; and the empty
    list when there is none, or when the file does not exist. *)
Theorem findAppRoutersInFile_AppRouter_aliases (filePath : string) (w : World) :
  match env_fs env !! filePath with
  | None => ∃ w', findAppRoutersInFile env filePath w = Done [] w'
  | Some Directory => findAppRoutersInFile env filePath w = Throw w
  | Some (File d) =>
      ∃ names,
        findAppRoutersInFile env filePath w = Done names w
        ∧ names = uniqueStrings (omap appRouterTarget (allNodes (file_source d)))
        ∧ NoDup names
        ∧ (∀ n, n ∈ names ↔
                ∃ node, node ∈ allNodes (file_source d)
                        ∧ appRouterTarget node = Some n)
        ∧ ((∀ node, node ∈ allNodes (file_source d) → appRouterTarget node = None) →
           names = [])
  end.
Proof.
  unfold findAppRoutersInFile.
  destruct (env_fs env !! filePath) as [[d|]|]; [|reflexivity|by eexists].
  eexists. split; [reflexivity|].
  rewrite findAppRoutersInFile_visit_fold.
  rewrite (fold_addResult _ [] []) by done. simpl. fold (allNodes (file_source d)).
  fold (uniqueStrings (omap appRouterTarget (allNodes (file_source d)))).
  assert (Hmem : ∀ n,
    n ∈ uniqueStrings (omap appRouterTarget (allNodes (file_source d))) ↔
    ∃ node, node ∈ allNodes (file_source d) ∧ appRouterTarget node = Some n).
  { intros n. unfold uniqueStrings. rewrite uniqueStrings_go_elem, list_elem_of_omap.
    split; [tauto|]. intros H. split; [done|]. apply not_elem_of_nil. }
  split; [reflexivity|]. split; [apply uniqueStrings_go_NoDup|].
  split; [exact Hmem|].
  intros Hnone.
  destruct (uniqueStrings _) as [|n names] eqn:Hnames; [reflexivity|].
  assert (Hn : n ∈ n :: names) by (by left).
  apply Hmem in Hn as (node & Hnode & Htarget).
  rewrite (Hnone node Hnode) in Htarget. discriminate.
Qed.

End ProbeProperties.

(** C8, as the specification has it, fails: in a file that contains only
    [export type Api = typeof api;] the probe finds nothing, although [api]
    is the target of an exported alias with a type query. *)
Lemma findAppRoutersInFile_exported_alias_fails :
  ¬ (∀ (env : Environment) (filePath : string) (w : World) (d : FileData),
       env_fs env !! filePath = Some (File d) →
       ∃ names,
         findAppRoutersInFile env filePath w = Done names w
         ∧ ∀ n, n ∈ names ↔
                ∃ node, node ∈ allNodes (file_source d)
                        ∧ spec_isExportedTypeofAlias n node).
Proof.
  intros H.
  destruct (H (Examples.envOfFiles Examples.apiProject) "/p/api.ts"
              Examples.emptyWorld _ eq_refl) as (names & Hrun & Hnames).
  vm_compute in Hrun. injection Hrun as <-.
  assert (Hapi : "api" ∈ @nil string); [|by inversion Hapi].
  apply Hnames. eexists. split.
  - vm_compute. left.
  - unfold spec_isExportedTypeofAlias. do 5 eexists.
    split; [reflexivity|]. split; [by left|reflexivity].
Qed.

(** The probe does not ask for the alias to be exported. *)
Lemma findAppRoutersInFile_local_alias :
  findAppRoutersInFile (Examples.envOfFiles Examples.localAliasProject) "/p/root.ts"
    Examples.emptyWorld
  = Done ["appRouter"] Examples.emptyWorld.
Proof. vm_compute. reflexivity. Qed.

(** ** Schema text resolver *)

Section SchemaProperties.

Context (env : Environment).

(** Beyond depth 5 the text comes back as it is. *)
Lemma resolveSchemaText_beyond (schemaText : string) (ctx : SchemaContext)
    (depth : nat) (w : World) :
  5 < depth →
  resolveSchemaText env schemaText (ctx_sourceFile ctx) (ctx_imports ctx)
    (ctx_filePath ctx) depth w
  = (schemaText, w).
Proof.
  intros Hdepth. rewrite resolveSchemaText_equation_1.
  destruct (decide (5 < depth)); [reflexivity|lia].
Qed.

(** Up to depth 5 a turn leads to the call at the next depth. *)
Lemma resolveSchemaText_turn (schemaText schemaText' : string)
    (ctx ctx' : SchemaContext) (depth : nat) (w w' : World) :
  depth ≤ 5 →
  substituteOnce env schemaText ctx w = Some (schemaText', ctx', w') →
  resolveSchemaText env schemaText (ctx_sourceFile ctx) (ctx_imports ctx)
    (ctx_filePath ctx) depth w
  = resolveSchemaText env schemaText' (ctx_sourceFile ctx') (ctx_imports ctx')
      (ctx_filePath ctx') (depth + 1) w'.
Proof.
  intros Hdepth Hturn. rewrite resolveSchemaText_equation_1.
  destruct (decide (5 < depth)); [lia|].
  unfold substituteOnce in Hturn. simpl.
  destruct (startsWith (trim schemaText) "z." || startsWith (trim schemaText) "{");
    [discriminate|].
  destruct (matchIdentifier (trim schemaText)) as [[identifier suffix]|];
    [|discriminate].
  unfold St_bind.
  destruct (resolveIdentifierFull env identifier _ _ _ w) as [[resolved|] w1];
    [|discriminate].
  destruct (startsWith (res_text resolved +:+ suffix) "z."); [discriminate|].
  by injection Hturn as <- <- <-.
Qed.

Lemma resolveSchemaText_turns (n : nat) (schemaText schemaText' : string)
    (ctx ctx' : SchemaContext) (depth : nat) (w w' : World) :
  depth + n ≤ 6 →
  substituteTimes env n schemaText ctx w = Some (schemaText', ctx', w') →
  resolveSchemaText env schemaText (ctx_sourceFile ctx) (ctx_imports ctx)
    (ctx_filePath ctx) depth w
  = resolveSchemaText env schemaText' (ctx_sourceFile ctx') (ctx_imports ctx')
      (ctx_filePath ctx') (depth + n) w'.
Proof.
  revert schemaText ctx depth w.
  induction n as [|n IH]; intros schemaText ctx depth w Hdepth Hturns; simpl in Hturns.
  - injection Hturns as <- <- <-. by rewrite Nat.add_0_r.
  - destruct (substituteOnce env schemaText ctx w) as [[[text1 ctx1] w1]|] eqn:Hturn;
      [|discriminate].
    erewrite resolveSchemaText_turn; [|lia|exact Hturn].
    erewrite IH; [|lia|exact Hturns]. f_equal. lia.
Qed.

(** C3.  The recursion of [resolveSchemaText] is capped: a call at a depth
    beyond 5 returns its text unchanged, so that from depth 0 at most six
    identifiers are replaced.  For a chain of identifiers that does not reach
    a literal within six turns, the resolver returns the text as accumulated
    after the sixth substitution. *)
Theorem resolveSchemaText_depth_cap
    (schemaText accumulated : string) (ctx ctx' : SchemaContext) (w w' : World)
    (Hchain : substituteTimes env 6 schemaText ctx w = Some (accumulated, ctx', w')) :
  resolveSchemaText env schemaText (ctx_sourceFile ctx) (ctx_imports ctx)
    (ctx_filePath ctx) 0 w
  = (accumulated, w')
  ∧ ∀ text sourceFile imports filePath depth w0,
      5 < depth →
      resolveSchemaText env text sourceFile imports filePath depth w0 = (text, w0).
Proof.
  split.
  - erewrite (resolveSchemaText_turns 6); [|lia|exact Hchain].
    apply resolveSchemaText_beyond. lia.
  - intros text sourceFile imports filePath depth w0 Hdepth.
    apply (resolveSchemaText_beyond text (mkSchemaContext sourceFile imports filePath)).
    exact Hdepth.
Qed.

End SchemaProperties.

(** C3, on two aliases that name each other: the resolver stops after six
    substitutions and returns the text it has then. *)
Lemma resolveSchemaText_depth_cap_witness :
  resolveSchemaText (Examples.envOfFiles Examples.aliasLoopProject) "a.optional()"
    Examples.aliasLoopFile ∅ "/p/schemas.ts" 0 Examples.emptyWorld
  = ("a.optional()", Examples.emptyWorld).
Proof.
  refine (proj1 (resolveSchemaText_depth_cap
    (Examples.envOfFiles Examples.aliasLoopProject) "a.optional()" "a.optional()"
    (mkSchemaContext Examples.aliasLoopFile ∅ "/p/schemas.ts")
    (mkSchemaContext Examples.aliasLoopFile ∅ "/p/schemas.ts")
    Examples.emptyWorld Examples.emptyWorld _)).
  vm_compute. reflexivity.
Defined.

(** A chain of six aliases before the literal is resolved to the literal; of
    a chain of seven, the name of the seventh is left. *)
Lemma resolveSchemaText_six_aliases :
  fst (resolveSchemaText (Examples.envOfFiles ∅) "s1" Examples.aliasChainFile ∅
         "/p/schemas.ts" 0 Examples.emptyWorld) = "z.string()"
  ∧ fst (resolveSchemaText (Examples.envOfFiles ∅) "t1" Examples.aliasChainFile ∅
           "/p/schemas.ts" 0 Examples.emptyWorld) = "t7".
Proof. split; vm_compute; reflexivity. Qed.

(** ** What the steps of the analysis log *)

Lemma expansions_app (key : string) (l1 l2 : list (LogLevel * string)) :
  expansions key (l1 ++ l2) = expansions key l1 + expansions key l2.
Proof. unfold expansions. by rewrite filter_app, length_app. Qed.

Lemma clearings_app (l1 l2 : list (LogLevel * string)) :
  clearings (l1 ++ l2) = clearings l1 + clearings l2.
Proof. unfold clearings. by rewrite filter_app, length_app. Qed.

Lemma benign_expansions (key : string) (new : list (LogLevel * string)) :
  Forall benign new → expansions key new = 0.
Proof.
  unfold expansions. induction 1 as [|e new [_ He] _ IH]; [reflexivity|].
  rewrite filter_cons. destruct (decide (e = parsingEntry key)) as [Heq|_]; [|exact IH].
  by destruct (He key).
Qed.

Lemma benign_clearings (new : list (LogLevel * string)) :
  Forall benign new → clearings new = 0.
Proof.
  unfold clearings. induction 1 as [|e new [He _] _ IH]; [reflexivity|].
  rewrite filter_cons. destruct (decide (e = clearedEntry)) as [Heq|_]; [done|exact IH].
Qed.

Lemma loggedSince_refl (w : World) : loggedSince w w [].
Proof. reflexivity. Qed.

Lemma loggedSince_trans (w w1 w2 : World) (new1 new2 : list (LogLevel * string)) :
  loggedSince w w1 new1 → loggedSince w1 w2 new2 → loggedSince w w2 (new2 ++ new1).
Proof. unfold loggedSince. intros H1 H2. by rewrite H2, H1, app_assoc. Qed.

(** A message of the logger that is neither of the two marks. *)
Ltac benign_entry :=
  split; [|intros ?]; unfold clearedEntry, parsingEntry;
  let H := fresh in intros H; vm_compute in H; discriminate H.

Lemma Quiet_ret {A : Type} (a : A) : Quiet (St_ret a).
Proof. intros w. exists []. by split. Qed.

Lemma Quiet_bind {A B : Type} (m : St A) (k : A → St B) :
  Quiet m → (∀ a, Quiet (k a)) → Quiet (St_bind m k).
Proof.
  intros Hm Hk w. unfold St_bind.
  destruct (Hm w) as (new1 & Hlog1 & Hnew1).
  destruct (m w) as [a w1]. simpl in Hlog1.
  destruct (Hk a w1) as (new2 & Hlog2 & Hnew2).
  exists (new2 ++ new1). split; [by eapply loggedSince_trans|].
  apply Forall_app. by split.
Qed.

(** A step that leaves the log as it is. *)
Lemma Quiet_silent {A : Type} (m : St A) :
  (∀ w, logged (snd (m w)) = logged w) → Quiet m.
Proof. intros H w. exists []. split; [apply H|constructor]. Qed.

(** A step that logs one benign message, or nothing. *)
Lemma Quiet_one {A : Type} (m : St A) :
  (∀ w, logged (snd (m w)) = logged w
        ∨ ∃ e, benign e ∧ logged (snd (m w)) = e :: logged w) →
  Quiet m.
Proof.
  intros H w. destruct (H w) as [Hw|(e & He & Hw)].
  - exists []. split; [exact Hw|constructor].
  - exists [e]. split; [exact Hw|]. apply Forall_cons_2; [exact He|constructor].
Qed.

Section QuietSteps.

Context (env : Environment).

Lemma getTsConfigPaths_from_Quiet (fuel : nat) (dir : string) :
  Quiet (getTsConfigPaths_from env fuel dir).
Proof.
  revert dir. induction fuel as [|fuel IH]; intros dir; simpl.
  all: intros w; destruct (String.eqb dir path_root);
    [exists []; by split|].
  all: destruct (tsConfigPathsCache w !! dir); [exists []; by split|].
  all: destruct (env_fs env !! path_join dir "tsconfig.json") as [entry|];
    [|first [apply IH | exists []; by split]].
  all: destruct (match entry with File d => file_json d | Directory => None end)
    as [[[paths|] b]|]; simpl.
  all: first [ exists []; by split
             | eexists [_]; split; [reflexivity|];
               apply Forall_cons_2; [benign_entry|constructor] ].
Qed.

Lemma getTsConfigPaths_Quiet (fromFilePath : string) :
  Quiet (getTsConfigPaths env fromFilePath).
Proof. apply getTsConfigPaths_from_Quiet. Qed.

Lemma resolveImport_Quiet (specifier fromFilePath : string) :
  Quiet (resolveImport env specifier fromFilePath).
Proof.
  unfold resolveImport. destruct (startsWith specifier "."); [apply Quiet_ret|].
  apply Quiet_bind; [apply getTsConfigPaths_Quiet|].
  intros [cfg|]; apply Quiet_ret.
Qed.

Lemma resolveIdentifierFull_Quiet (name : string) (sourceFile : SourceFile)
    (imports : gmap string ImportInfo) (filePath : string) :
  Quiet (resolveIdentifierFull env name sourceFile imports filePath).
Proof.
  unfold resolveIdentifierFull.
  destruct (findVariableInitializer sourceFile name) as [[|c t]|];
    try apply Quiet_ret.
  all: destruct (imports !! name) as [importInfo|]; [|apply Quiet_ret].
  all: apply Quiet_bind; [apply resolveImport_Quiet|].
  all: intros [[|c' p]|]; try apply Quiet_ret.
  all: destruct (readSourceFile env _); [|apply Quiet_ret].
  all: destruct (findVariableInitializer _ _) as [[|? ?]|]; apply Quiet_ret.
Qed.

Lemma resolveSchemaText_Quiet (schemaText : string) (sourceFile : SourceFile)
    (imports : gmap string ImportInfo) (filePath : string) (depth : nat) :
  Quiet (resolveSchemaText env schemaText sourceFile imports filePath depth).
Proof.
  remember (6 - depth) as n eqn:Hn.
  revert schemaText sourceFile imports filePath depth Hn.
  induction n as [|n IH]; intros schemaText sourceFile imports filePath depth Hn;
    rewrite resolveSchemaText_equation_1;
    destruct (decide (5 < depth)); simpl; try apply Quiet_ret; try lia.
  destruct (startsWith (trim schemaText) "z." || startsWith (trim schemaText) "{");
    [apply Quiet_ret|].
  destruct (matchIdentifier (trim schemaText)) as [[identifier suffix]|];
    [|apply Quiet_ret].
  apply Quiet_bind; [apply resolveIdentifierFull_Quiet|].
  intros [resolved|]; [|apply Quiet_ret].
  destruct (startsWith _ "z."); [apply Quiet_ret|].
  apply IH. lia.
Qed.

Lemma findNearestTsConfigFile_from_Quiet (fuel : nat) (dir : string) :
  Quiet (findNearestTsConfigFile_from env fuel dir).
Proof.
  apply Quiet_silent. revert dir. induction fuel as [|fuel IH]; intros dir w; simpl.
  all: destruct (nearestTsConfigPathCache w !! dir); [reflexivity|].
  all: destruct (existsSync env _); [reflexivity|].
  all: destruct (String.eqb dir path_root); [reflexivity|].
  - reflexivity.
  - apply IH.
Qed.

Lemma findNearestTsConfigFile_Quiet (fromFilePath : string) :
  Quiet (findNearestTsConfigFile env fromFilePath).
Proof.
  unfold findNearestTsConfigFile.
  apply Quiet_bind; [apply findNearestTsConfigFile_from_Quiet|].
  intros [result|]; [apply Quiet_ret|]. by apply Quiet_silent.
Qed.

Lemma getTypeCheckerContext_Quiet (filePath : string) :
  Quiet (getTypeCheckerContext env filePath).
Proof.
  unfold getTypeCheckerContext.
  apply Quiet_bind; [apply findNearestTsConfigFile_Quiet|].
  intros [[|c tsConfigPath]|].
  - apply Quiet_bind; [|intros; apply Quiet_ret].
    apply Quiet_one. intros w. right. eexists. split; [|reflexivity]. benign_entry.
  - apply Quiet_one. intros w.
    destruct (typeCheckerContextCache w !! String c tsConfigPath); [by left|].
    right. destruct (env_createTypeCheckerContext env _ _);
      (eexists; split; [|reflexivity]; benign_entry).
  - apply Quiet_bind; [|intros; apply Quiet_ret].
    apply Quiet_one. intros w. right. eexists. split; [|reflexivity]. benign_entry.
Qed.

Lemma resolveEnumAlias_Quiet (ctx : TypeCheckerContext) (fullMatch : string)
    (enumName : option string) :
  Quiet (resolveEnumAlias ctx fullMatch enumName).
Proof.
  unfold resolveEnumAlias. destruct enumName as [[|c t]|]; try apply Quiet_ret.
  destruct (isBuiltinTypeName _); [apply Quiet_ret|].
  apply Quiet_silent. intros w. by destruct (enumResolutionCache w !! _).
Qed.

Lemma resolveEnumAliasesInText_Quiet (text : string) (ctx : TypeCheckerContext) :
  Quiet (resolveEnumAliasesInText env text ctx).
Proof.
  unfold resolveEnumAliasesInText.
  destruct (env_matchEnumAliases env text) as [matches after].
  apply Quiet_bind; [|intros; apply Quiet_ret].
  induction matches as [|[[before fullMatch] enumName] matches IH]; simpl;
    [apply Quiet_ret|].
  apply Quiet_bind; [apply resolveEnumAlias_Quiet|]. intros replacement.
  apply Quiet_bind; [exact IH|]. intros; apply Quiet_ret.
Qed.

Lemma inferTypeFromTypeChecker_Quiet (expr : Node) (sourceFile : SourceFile)
    (filePath : string) :
  Quiet (inferTypeFromTypeChecker env expr sourceFile filePath).
Proof.
  unfold inferTypeFromTypeChecker.
  apply Quiet_bind; [apply getTypeCheckerContext_Quiet|].
  intros [ctx|]; [|apply Quiet_ret].
  destruct (displayTextAt ctx _ _ _); [|apply Quiet_ret].
  destruct (env_sanitizeTypeText env _) as [[|c t]|]; try apply Quiet_ret.
  apply Quiet_bind; [apply resolveEnumAliasesInText_Quiet|]. intros; apply Quiet_ret.
Qed.

Lemma inferOutputSchemaFromResolver_types_Quiet (returnExpressions : list Node)
    (sourceFile : SourceFile) (filePath : string) (inputSchema : option string) :
  Quiet (inferOutputSchemaFromResolver_types env returnExpressions sourceFile
           filePath inputSchema).
Proof.
  induction returnExpressions as [|expr l IH]; simpl; [apply Quiet_ret|].
  apply Quiet_bind.
  { destruct (_ || _); [apply inferTypeFromTypeChecker_Quiet|apply Quiet_ret]. }
  intros inferred. apply Quiet_bind; [exact IH|]. intros inferredTypes.
  destruct inferred as [[|c t]|]; try apply Quiet_ret.
  destruct (negb _); apply Quiet_ret.
Qed.

Lemma inferOutputSchemaFromResolver_Quiet (node : Node) (sourceFile : SourceFile)
    (filePath : string) (inputSchema : option string) :
  Quiet (inferOutputSchemaFromResolver env node sourceFile filePath inputSchema).
Proof.
  assert (Hbody : ∀ resolver,
    Quiet (match collectReturnExpressions resolver with
           | [] => St_ret None
           | returnExpressions =>
               St_bind (inferOutputSchemaFromResolver_types env returnExpressions
                          sourceFile filePath inputSchema)
                 (λ inferredTypes,
                    match inferredTypes with
                    | [] => St_ret None
                    | _ =>
                        let unique := uniqueStrings inferredTypes in
                        St_bind
                          (logDebug ("Inferred output schema(s) from resolver: "
                                     +:+ join " | " unique))
                          (λ _, St_ret (Some (joinUnion unique)))
                    end)
           end)).
  { intros resolver. destruct (collectReturnExpressions resolver) as [|e l];
      [apply Quiet_ret|].
    apply Quiet_bind; [apply inferOutputSchemaFromResolver_types_Quiet|].
    intros [|t ts]; [apply Quiet_ret|].
    apply Quiet_bind; [|intros; apply Quiet_ret].
    apply Quiet_one. intros w. right. eexists. split; [|reflexivity]. benign_entry. }
  unfold inferOutputSchemaFromResolver.
  destruct node; try apply Quiet_ret.
  destruct arguments as [|resolver arguments]; [apply Quiet_ret|].
  destruct resolver; first [apply Quiet_ret | apply Hbody].
Qed.

Lemma inferSchemasFromProcedureType_Quiet (node : Node) (sourceFile : SourceFile)
    (filePath : string) :
  Quiet (inferSchemasFromProcedureType env node sourceFile filePath).
Proof.
  unfold inferSchemasFromProcedureType.
  apply Quiet_bind; [apply getTypeCheckerContext_Quiet|].
  intros [ctx|]; [|apply Quiet_ret].
  destruct (typeTextAt ctx _ _ _); [|apply Quiet_ret].
  destruct (extractTopLevelGenericArg _) as [[|c t]|]; try apply Quiet_ret.
  destruct (_ && _); [apply Quiet_ret|].
  destruct (env_sanitizeTypeText env (env_extractTopLevelObjectFieldType env _ "output"))
    as [[|c' t']|]; try apply Quiet_ret.
  apply Quiet_bind; [apply resolveEnumAliasesInText_Quiet|]. intros; apply Quiet_ret.
Qed.

Lemma resolveExplicitSchema_Quiet
    (resolve : string → SourceFile → gmap string ImportInfo → string → St string)
    (schema : option string) (sourceFile : SourceFile)
    (imports : gmap string ImportInfo) (filePath : string) :
  (∀ text sf im fp, Quiet (resolve text sf im fp)) →
  Quiet (resolveExplicitSchema resolve schema sourceFile imports filePath).
Proof.
  intros Hresolve. unfold resolveExplicitSchema.
  destruct schema as [[|c t]|]; try apply Quiet_ret.
  apply Quiet_bind; [apply Hresolve|]. intros; apply Quiet_ret.
Qed.

Lemma analyzeProcedureChain_Quiet (node : Node) (sourceFile : SourceFile)
    (imports : gmap string ImportInfo) (filePath : string)
    (resolve : string → SourceFile → gmap string ImportInfo → string → St string) :
  (∀ text sf im fp, Quiet (resolve text sf im fp)) →
  Quiet (analyzeProcedureChain env node sourceFile imports filePath resolve).
Proof.
  intros Hresolve. unfold analyzeProcedureChain.
  destruct node; try apply Quiet_ret.
  destruct node; try apply Quiet_ret.
  destruct (procedureTypeOfMethod _); [|apply Quiet_ret].
  apply Quiet_bind; [by apply resolveExplicitSchema_Quiet|]. intros inputSchema.
  apply Quiet_bind; [by apply resolveExplicitSchema_Quiet|]. intros outputSchema.
  apply Quiet_bind.
  { destruct (negb _); [apply inferOutputSchemaFromResolver_Quiet|apply Quiet_ret]. }
  intros outputSchema'.
  apply Quiet_bind; [apply inferSchemasFromProcedureType_Quiet|].
  intros; apply Quiet_ret.
Qed.

Lemma resolveSchemaText0_Quiet (text : string) (sourceFile : SourceFile)
    (imports : gmap string ImportInfo) (filePath : string) :
  Quiet (resolveSchemaText0 env text sourceFile imports filePath).
Proof. apply resolveSchemaText_Quiet. Qed.

Lemma resolveIdentifierAsProcedure_imported_Quiet (varName currentFilePath : string)
    (currentImports : gmap string ImportInfo) :
  Quiet (resolveIdentifierAsProcedure_imported env varName currentFilePath
           currentImports).
Proof.
  unfold resolveIdentifierAsProcedure_imported.
  destruct (currentImports !! varName) as [importInfo|]; [|apply Quiet_ret].
  apply Quiet_bind; [apply resolveImport_Quiet|].
  intros [[|c p]|]; try apply Quiet_ret.
  destruct (readSourceFile env _) as [importSf|]; [|apply Quiet_ret].
  destruct (findVariableDeclarationInfo _ _) as [[initializer line]|];
    [|apply Quiet_ret].
  apply Quiet_bind.
  { apply analyzeProcedureChain_Quiet. apply resolveSchemaText0_Quiet. }
  intros [p'|]; apply Quiet_ret.
Qed.

Lemma resolveIdentifierAsProcedure_Quiet (varName currentFilePath : string)
    (currentSourceFile : SourceFile) (currentImports : gmap string ImportInfo) :
  Quiet (resolveIdentifierAsProcedure env varName currentFilePath currentSourceFile
           currentImports).
Proof.
  unfold resolveIdentifierAsProcedure.
  destruct (findVariableDeclarationInfo _ _) as [[initializer line]|];
    [|apply resolveIdentifierAsProcedure_imported_Quiet].
  apply Quiet_bind.
  { apply analyzeProcedureChain_Quiet. apply resolveSchemaText0_Quiet. }
  intros [p'|]; [apply Quiet_ret|apply resolveIdentifierAsProcedure_imported_Quiet].
Qed.

End QuietSteps.

(** ** What the steps of the analysis keep in the caches *)

Lemma cachesKept_refl (w : World) : cachesKept w w.
Proof. by repeat split. Qed.

Lemma cachesKept_trans (w w1 w2 : World) :
  cachesKept w w1 → cachesKept w1 w2 → cachesKept w w2.
Proof.
  intros (H1 & H2 & H3 & H4) (H1' & H2' & H3' & H4').
  repeat split; by etrans.
Qed.

Lemma cachesKept_log (level : LogLevel) (msg : string) (w : World) :
  cachesKept w (log level msg w).
Proof. by repeat split. Qed.

(** A step that reads the caches and writes the log only, and the writes of
    the code to each cache: an entry for a key that has none, or, in the
    path-mapping cache, for any key. *)
Ltac kept_write :=
  unfold cachesKept; cbn;
  repeat split;
  first [ reflexivity
        | apply insert_subseteq; assumption
        | rewrite dom_insert_L; apply union_subseteq_r ].

Lemma Keeps_ret {A : Type} (a : A) : Keeps (St_ret a).
Proof. intros w. apply cachesKept_refl. Qed.

Lemma Keeps_bind {A B : Type} (m : St A) (k : A → St B) :
  Keeps m → (∀ a, Keeps (k a)) → Keeps (St_bind m k).
Proof.
  intros Hm Hk w. unfold St_bind. specialize (Hm w).
  destruct (m w) as [a w1]. simpl in Hm.
  eapply cachesKept_trans; [exact Hm|apply Hk].
Qed.

Lemma Keeps_logDebug (msg : string) : Keeps (logDebug msg).
Proof. intros w. apply cachesKept_log. Qed.

Section KeptSteps.

Context (env : Environment).

Lemma getTsConfigPaths_from_Keeps (fuel : nat) (dir : string) :
  Keeps (getTsConfigPaths_from env fuel dir).
Proof.
  revert dir. induction fuel as [|fuel IH]; intros dir; simpl.
  all: intros w; destruct (String.eqb dir path_root); [kept_write|].
  all: destruct (tsConfigPathsCache w !! dir); [apply cachesKept_refl|].
  all: destruct (env_fs env !! path_join dir "tsconfig.json") as [entry|];
    [|first [apply IH | kept_write]].
  all: destruct (match entry with File d => file_json d | Directory => None end)
    as [[[paths|] b]|]; kept_write.
Qed.

Lemma getTsConfigPaths_Keeps (fromFilePath : string) :
  Keeps (getTsConfigPaths env fromFilePath).
Proof. apply getTsConfigPaths_from_Keeps. Qed.

Lemma resolveImport_Keeps (specifier fromFilePath : string) :
  Keeps (resolveImport env specifier fromFilePath).
Proof.
  unfold resolveImport. destruct (startsWith specifier "."); [apply Keeps_ret|].
  apply Keeps_bind; [apply getTsConfigPaths_Keeps|].
  intros [cfg|]; apply Keeps_ret.
Qed.

Lemma resolveIdentifierFull_Keeps (name : string) (sourceFile : SourceFile)
    (imports : gmap string ImportInfo) (filePath : string) :
  Keeps (resolveIdentifierFull env name sourceFile imports filePath).
Proof.
  unfold resolveIdentifierFull.
  destruct (findVariableInitializer sourceFile name) as [[|c t]|];
    try apply Keeps_ret.
  all: destruct (imports !! name) as [importInfo|]; [|apply Keeps_ret].
  all: apply Keeps_bind; [apply resolveImport_Keeps|].
  all: intros [[|c' p]|]; try apply Keeps_ret.
  all: destruct (readSourceFile env _); [|apply Keeps_ret].
  all: destruct (findVariableInitializer _ _) as [[|? ?]|]; apply Keeps_ret.
Qed.

Lemma resolveSchemaText_Keeps (schemaText : string) (sourceFile : SourceFile)
    (imports : gmap string ImportInfo) (filePath : string) (depth : nat) :
  Keeps (resolveSchemaText env schemaText sourceFile imports filePath depth).
Proof.
  remember (6 - depth) as n eqn:Hn.
  revert schemaText sourceFile imports filePath depth Hn.
  induction n as [|n IH]; intros schemaText sourceFile imports filePath depth Hn;
    rewrite resolveSchemaText_equation_1;
    destruct (decide (5 < depth)); simpl; try apply Keeps_ret; try lia.
  destruct (startsWith (trim schemaText) "z." || startsWith (trim schemaText) "{");
    [apply Keeps_ret|].
  destruct (matchIdentifier (trim schemaText)) as [[identifier suffix]|];
    [|apply Keeps_ret].
  apply Keeps_bind; [apply resolveIdentifierFull_Keeps|].
  intros [resolved|]; [|apply Keeps_ret].
  destruct (startsWith _ "z."); [apply Keeps_ret|].
  apply IH. lia.
Qed.

(** The walk of [findNearestTsConfigFile] writes an entry for a directory
    that has none, and ends without a result only from a directory without
    entry, with the state as it was. *)
Lemma findNearestTsConfigFile_from_Keeps (fuel : nat) (dir : string) (w : World) :
  cachesKept w (snd (findNearestTsConfigFile_from env fuel dir w))
  ∧ (fst (findNearestTsConfigFile_from env fuel dir w) = None →
     snd (findNearestTsConfigFile_from env fuel dir w) = w).
Proof.
  revert dir. induction fuel as [|fuel IH]; intros dir; simpl.
  all: destruct (nearestTsConfigPathCache w !! dir) eqn:Hcache;
    [split; [apply cachesKept_refl|discriminate]|].
  all: destruct (existsSync env _); [split; [kept_write|discriminate]|].
  all: destruct (String.eqb dir path_root); [split; [apply cachesKept_refl|done]|].
  - split; [apply cachesKept_refl|done].
  - apply IH.
Qed.

Lemma findNearestTsConfigFile_from_absent (fuel : nat) (dir : string) (w : World) :
  fst (findNearestTsConfigFile_from env fuel dir w) = None →
  nearestTsConfigPathCache w !! dir = None.
Proof.
  destruct fuel; simpl.
  all: by destruct (nearestTsConfigPathCache w !! dir).
Qed.

Lemma findNearestTsConfigFile_Keeps (fromFilePath : string) :
  Keeps (findNearestTsConfigFile env fromFilePath).
Proof.
  intros w. unfold findNearestTsConfigFile, St_bind, St_ret.
  set (dir := path_dirname fromFilePath).
  destruct (findNearestTsConfigFile_from_Keeps (String.length dir) dir w)
    as [Hkept Hnone].
  pose proof (findNearestTsConfigFile_from_absent (String.length dir) dir w)
    as Habsent.
  destruct (findNearestTsConfigFile_from env (String.length dir) dir w)
    as [[result|] w1]; [exact Hkept|].
  cbn [fst snd] in *. rewrite (Hnone eq_refl).
  specialize (Habsent eq_refl). kept_write.
Qed.

Lemma getTypeCheckerContext_Keeps (filePath : string) :
  Keeps (getTypeCheckerContext env filePath).
Proof.
  unfold getTypeCheckerContext.
  apply Keeps_bind; [apply findNearestTsConfigFile_Keeps|].
  intros [[|c tsConfigPath]|].
  - apply Keeps_bind; [apply Keeps_logDebug|intros; apply Keeps_ret].
  - intros w.
    destruct (typeCheckerContextCache w !! String c tsConfigPath) eqn:Hcache;
      [apply cachesKept_refl|].
    destruct (env_createTypeCheckerContext env _ _); kept_write.
  - apply Keeps_bind; [apply Keeps_logDebug|intros; apply Keeps_ret].
Qed.

Lemma resolveEnumAlias_Keeps (ctx : TypeCheckerContext) (fullMatch : string)
    (enumName : option string) :
  Keeps (resolveEnumAlias ctx fullMatch enumName).
Proof.
  unfold resolveEnumAlias. destruct enumName as [[|c t]|]; try apply Keeps_ret.
  destruct (isBuiltinTypeName _); [apply Keeps_ret|].
  intros w. destruct (enumResolutionCache w !! _) eqn:Hcache;
    [apply cachesKept_refl|kept_write].
Qed.

Lemma resolveEnumAliasesInText_Keeps (text : string) (ctx : TypeCheckerContext) :
  Keeps (resolveEnumAliasesInText env text ctx).
Proof.
  unfold resolveEnumAliasesInText.
  destruct (env_matchEnumAliases env text) as [matches after].
  apply Keeps_bind; [|intros; apply Keeps_ret].
  induction matches as [|[[before fullMatch] enumName] matches IH]; simpl;
    [apply Keeps_ret|].
  apply Keeps_bind; [apply resolveEnumAlias_Keeps|]. intros replacement.
  apply Keeps_bind; [exact IH|]. intros; apply Keeps_ret.
Qed.

Lemma inferTypeFromTypeChecker_Keeps (expr : Node) (sourceFile : SourceFile)
    (filePath : string) :
  Keeps (inferTypeFromTypeChecker env expr sourceFile filePath).
Proof.
  unfold inferTypeFromTypeChecker.
  apply Keeps_bind; [apply getTypeCheckerContext_Keeps|].
  intros [ctx|]; [|apply Keeps_ret].
  destruct (displayTextAt ctx _ _ _); [|apply Keeps_ret].
  destruct (env_sanitizeTypeText env _) as [[|c t]|]; try apply Keeps_ret.
  apply Keeps_bind; [apply resolveEnumAliasesInText_Keeps|]. intros; apply Keeps_ret.
Qed.

Lemma inferOutputSchemaFromResolver_types_Keeps (returnExpressions : list Node)
    (sourceFile : SourceFile) (filePath : string) (inputSchema : option string) :
  Keeps (inferOutputSchemaFromResolver_types env returnExpressions sourceFile
           filePath inputSchema).
Proof.
  induction returnExpressions as [|expr l IH]; simpl; [apply Keeps_ret|].
  apply Keeps_bind.
  { destruct (_ || _); [apply inferTypeFromTypeChecker_Keeps|apply Keeps_ret]. }
  intros inferred. apply Keeps_bind; [exact IH|]. intros inferredTypes.
  destruct inferred as [[|c t]|]; try apply Keeps_ret.
  destruct (negb _); apply Keeps_ret.
Qed.

Lemma inferOutputSchemaFromResolver_Keeps (node : Node) (sourceFile : SourceFile)
    (filePath : string) (inputSchema : option string) :
  Keeps (inferOutputSchemaFromResolver env node sourceFile filePath inputSchema).
Proof.
  assert (Hbody : ∀ resolver,
    Keeps (match collectReturnExpressions resolver with
           | [] => St_ret None
           | returnExpressions =>
               St_bind (inferOutputSchemaFromResolver_types env returnExpressions
                          sourceFile filePath inputSchema)
                 (λ inferredTypes,
                    match inferredTypes with
                    | [] => St_ret None
                    | _ =>
                        let unique := uniqueStrings inferredTypes in
                        St_bind
                          (logDebug ("Inferred output schema(s) from resolver: "
                                     +:+ join " | " unique))
                          (λ _, St_ret (Some (joinUnion unique)))
                    end)
           end)).
  { intros resolver. destruct (collectReturnExpressions resolver) as [|e l];
      [apply Keeps_ret|].
    apply Keeps_bind; [apply inferOutputSchemaFromResolver_types_Keeps|].
    intros [|t ts]; [apply Keeps_ret|].
    apply Keeps_bind; [apply Keeps_logDebug|intros; apply Keeps_ret]. }
  unfold inferOutputSchemaFromResolver.
  destruct node; try apply Keeps_ret.
  destruct arguments as [|resolver arguments]; [apply Keeps_ret|].
  destruct resolver; first [apply Keeps_ret | apply Hbody].
Qed.

Lemma inferSchemasFromProcedureType_Keeps (node : Node) (sourceFile : SourceFile)
    (filePath : string) :
  Keeps (inferSchemasFromProcedureType env node sourceFile filePath).
Proof.
  unfold inferSchemasFromProcedureType.
  apply Keeps_bind; [apply getTypeCheckerContext_Keeps|].
  intros [ctx|]; [|apply Keeps_ret].
  destruct (typeTextAt ctx _ _ _); [|apply Keeps_ret].
  destruct (extractTopLevelGenericArg _) as [[|c t]|]; try apply Keeps_ret.
  destruct (_ && _); [apply Keeps_ret|].
  destruct (env_sanitizeTypeText env (env_extractTopLevelObjectFieldType env _ "output"))
    as [[|c' t']|]; try apply Keeps_ret.
  apply Keeps_bind; [apply resolveEnumAliasesInText_Keeps|]. intros; apply Keeps_ret.
Qed.

Lemma resolveExplicitSchema_Keeps
    (resolve : string → SourceFile → gmap string ImportInfo → string → St string)
    (schema : option string) (sourceFile : SourceFile)
    (imports : gmap string ImportInfo) (filePath : string) :
  (∀ text sf im fp, Keeps (resolve text sf im fp)) →
  Keeps (resolveExplicitSchema resolve schema sourceFile imports filePath).
Proof.
  intros Hresolve. unfold resolveExplicitSchema.
  destruct schema as [[|c t]|]; try apply Keeps_ret.
  apply Keeps_bind; [apply Hresolve|]. intros; apply Keeps_ret.
Qed.

Lemma analyzeProcedureChain_Keeps (node : Node) (sourceFile : SourceFile)
    (imports : gmap string ImportInfo) (filePath : string)
    (resolve : string → SourceFile → gmap string ImportInfo → string → St string) :
  (∀ text sf im fp, Keeps (resolve text sf im fp)) →
  Keeps (analyzeProcedureChain env node sourceFile imports filePath resolve).
Proof.
  intros Hresolve. unfold analyzeProcedureChain.
  destruct node; try apply Keeps_ret.
  destruct node; try apply Keeps_ret.
  destruct (procedureTypeOfMethod _); [|apply Keeps_ret].
  apply Keeps_bind; [by apply resolveExplicitSchema_Keeps|]. intros inputSchema.
  apply Keeps_bind; [by apply resolveExplicitSchema_Keeps|]. intros outputSchema.
  apply Keeps_bind.
  { destruct (negb _); [apply inferOutputSchemaFromResolver_Keeps|apply Keeps_ret]. }
  intros outputSchema'.
  apply Keeps_bind; [apply inferSchemasFromProcedureType_Keeps|].
  intros; apply Keeps_ret.
Qed.

Lemma resolveSchemaText0_Keeps (text : string) (sourceFile : SourceFile)
    (imports : gmap string ImportInfo) (filePath : string) :
  Keeps (resolveSchemaText0 env text sourceFile imports filePath).
Proof. apply resolveSchemaText_Keeps. Qed.

Lemma resolveIdentifierAsProcedure_imported_Keeps (varName currentFilePath : string)
    (currentImports : gmap string ImportInfo) :
  Keeps (resolveIdentifierAsProcedure_imported env varName currentFilePath
           currentImports).
Proof.
  unfold resolveIdentifierAsProcedure_imported.
  destruct (currentImports !! varName) as [importInfo|]; [|apply Keeps_ret].
  apply Keeps_bind; [apply resolveImport_Keeps|].
  intros [[|c p]|]; try apply Keeps_ret.
  destruct (readSourceFile env _) as [importSf|]; [|apply Keeps_ret].
  destruct (findVariableDeclarationInfo _ _) as [[initializer line]|];
    [|apply Keeps_ret].
  apply Keeps_bind.
  { apply analyzeProcedureChain_Keeps. apply resolveSchemaText0_Keeps. }
  intros [p'|]; apply Keeps_ret.
Qed.

Lemma resolveIdentifierAsProcedure_Keeps (varName currentFilePath : string)
    (currentSourceFile : SourceFile) (currentImports : gmap string ImportInfo) :
  Keeps (resolveIdentifierAsProcedure env varName currentFilePath currentSourceFile
           currentImports).
Proof.
  unfold resolveIdentifierAsProcedure.
  destruct (findVariableDeclarationInfo _ _) as [[initializer line]|];
    [|apply resolveIdentifierAsProcedure_imported_Keeps].
  apply Keeps_bind.
  { apply analyzeProcedureChain_Keeps. apply resolveSchemaText0_Keeps. }
  intros [p'|]; [apply Keeps_ret|apply resolveIdentifierAsProcedure_imported_Keeps].
Qed.

End KeptSteps.

(** ** Router tree builder: the trace of a build *)

Lemma parsingEntry_inj (k1 k2 : string) : parsingEntry k1 = parsingEntry k2 → k1 = k2.
Proof.
  unfold parsingEntry. intros H. injection H as H. by apply String.app_inj in H.
Qed.

Lemma parsingEntry_not_cleared (key : string) : parsingEntry key ≠ clearedEntry.
Proof.
  unfold parsingEntry, clearedEntry. intros H. vm_compute in H. discriminate H.
Qed.

Lemma expansions_one (key key' : string) :
  expansions key [parsingEntry key'] = if decide (key' = key) then 1 else 0.
Proof.
  unfold expansions. rewrite filter_cons, filter_nil.
  destruct (decide (parsingEntry key' = parsingEntry key)) as [Heq|Hne].
  - apply parsingEntry_inj in Heq. by rewrite decide_True.
  - rewrite decide_False; [reflexivity|]. by intros ->.
Qed.

Lemma Trace_quiet (visited : gset string) (w w' : World)
    (new : list (LogLevel * string)) :
  loggedSince w w' new → Forall benign new → Trace visited visited w w'.
Proof.
  intros Hlog Hnew. exists new. split; [exact Hlog|].
  split; [intros key; rewrite benign_expansions by done; lia|].
  split; [intros key; rewrite benign_expansions by done; lia|].
  intros _. by apply benign_clearings.
Qed.

Lemma Trace_refl (visited : gset string) (w : World) : Trace visited visited w w.
Proof. apply (Trace_quiet visited w w []); [reflexivity|constructor]. Qed.

Lemma Trace_trans (v0 v1 v2 : gset string) (w0 w1 w2 : World) :
  v0 ⊆ v1 → v1 ⊆ v2 →
  Trace v0 v1 w0 w1 → Trace v1 v2 w1 w2 → Trace v0 v2 w0 w2.
Proof.
  intros H01 H12 (new1 & Hlog1 & Hone1 & Hkeys1 & Hclear1)
    (new2 & Hlog2 & Hone2 & Hkeys2 & Hclear2).
  exists (new2 ++ new1). split; [by eapply loggedSince_trans|].
  split; [|split].
  - intros key. rewrite expansions_app.
    destruct (decide (0 < expansions key new1)) as [H1|H1];
      destruct (decide (0 < expansions key new2)) as [H2|H2].
    + exfalso. apply Hkeys1 in H1 as [H1 _]. apply Hkeys2 in H2 as [_ H2]. done.
    + specialize (Hone1 key). lia.
    + specialize (Hone2 key). lia.
    + lia.
  - intros key. rewrite expansions_app. intros Hkey.
    destruct (decide (0 < expansions key new1)) as [H1|H1].
    + apply Hkeys1 in H1 as [H1 H1']. split; [set_solver|done].
    + assert (H2 : 0 < expansions key new2) by lia.
      apply Hkeys2 in H2 as [H2 H2']. split; [done|set_solver].
  - intros Hne. rewrite clearings_app, Hclear1 by done.
    rewrite Hclear2; [reflexivity|]. set_solver.
Qed.

Lemma BuildOk_quiet_before {A : Type} (visited : gset string) (w w1 : World)
    (new : list (LogLevel * string)) (o : Outcome (A * gset string)) :
  loggedSince w w1 new → Forall benign new →
  BuildOk visited w1 o → BuildOk visited w o.
Proof.
  intros Hlog Hnew (a & visited' & w' & -> & Hsub & Htrace).
  exists a, visited', w'. split; [reflexivity|]. split; [exact Hsub|].
  eapply (Trace_trans visited visited visited'); [done|done| |exact Htrace].
  by eapply Trace_quiet.
Qed.

Lemma BuildOk_ret_quiet {A : Type} (visited : gset string) (w w1 : World)
    (new : list (LogLevel * string)) (a : A) :
  loggedSince w w1 new → Forall benign new →
  BuildOk visited w (Done (a, visited) w1).
Proof.
  intros Hlog Hnew. exists a, visited, w1. split; [reflexivity|].
  split; [done|]. by eapply Trace_quiet.
Qed.

(** ** Router tree builder: the keys of a build *)

Section Keys.

Context (env : Environment).

Lemma isFile_lookup (p : string) :
  isFile env p = true ↔ ∃ d, env_fs env !! p = Some (File d).
Proof.
  unfold isFile. destruct (env_fs env !! p) as [[d|]|]; split;
    try discriminate; eauto; intros [d' H]; discriminate.
Qed.

Lemma filePaths_elem (p : string) (d : FileData) :
  env_fs env !! p = Some (File d) → p ∈ filePaths env.
Proof.
  intros Hp. unfold filePaths. apply list_elem_of_omap.
  exists (p, File d). split; [by apply elem_of_map_to_list|reflexivity].
Qed.

Lemma allNames_fileNames (p : string) (d : FileData) (v : string) :
  env_fs env !! p = Some (File d) → v ∈ fileNames (file_source d) → v ∈ allNames env.
Proof.
  intros Hp Hv. unfold allNames. apply list_elem_of_In, in_flat_map.
  exists (p, File d). split; [|by apply list_elem_of_In].
  by apply list_elem_of_In, elem_of_map_to_list.
Qed.

Lemma allNames_node (p : string) (d : FileData) (n : Node) :
  env_fs env !! p = Some (File d) → n ∈ allNodes (file_source d) →
  getText n ∈ allNames env.
Proof.
  intros Hp Hn. apply (allNames_fileNames p d); [done|].
  unfold fileNames. apply elem_of_app. left. by apply list_elem_of_fmap_2.
Qed.

Lemma allNames_import (p : string) (d : FileData) (x : string) (i : ImportInfo) :
  env_fs env !! p = Some (File d) → getImports (file_source d) !! x = Some i →
  importName i ∈ allNames env.
Proof.
  intros Hp Hi. apply (allNames_fileNames p d); [done|].
  unfold fileNames. apply elem_of_app. right.
  apply list_elem_of_fmap. exists i. split; [reflexivity|].
  apply list_elem_of_fmap. exists (x, i). split; [reflexivity|].
  by apply elem_of_map_to_list.
Qed.

Lemma reachableKeys_elem (p v : string) :
  isFile env p = true → v ∈ allNames env → visitedKey p v ∈ reachableKeys env.
Proof.
  intros [d Hp]%isFile_lookup Hv. unfold reachableKeys.
  apply elem_of_list_to_set, list_elem_of_In, in_flat_map. exists p.
  split; [by eapply list_elem_of_In, filePaths_elem|].
  by apply list_elem_of_In, list_elem_of_fmap_2.
Qed.

End Keys.

(** ** Router tree builder: the loop of [parseRouterObject] *)

Lemma parseRouterObject_nil (env : Environment)
    (recur : string → string → Build (option TrpcNode)) (i : NodeInfo)
    (filePath : string) (imports : gmap string ImportInfo) (sourceFile : SourceFile)
    (visited : gset string) (w : World) :
  parseRouterObject env recur (ObjectLiteralExpression i []) filePath imports
    sourceFile visited w
  = Done ([], visited) w.
Proof. reflexivity. Qed.

Lemma parseRouterObject_cons (env : Environment)
    (recur : string → string → Build (option TrpcNode)) (i : NodeInfo)
    (prop : Node) (properties : list Node)
    (filePath : string) (imports : gmap string ImportInfo) (sourceFile : SourceFile)
    (visited : gset string) (w : World) :
  parseRouterObject env recur (ObjectLiteralExpression i (prop :: properties))
    filePath imports sourceFile visited w
  = match parseRouterProperty env recur (parseRouterObject env recur) prop filePath
            imports sourceFile visited w with
    | Done (pushed, visited1) w1 =>
        match parseRouterObject env recur (ObjectLiteralExpression i properties)
                filePath imports sourceFile visited1 w1 with
        | Done (rest, visited2) w2 => Done (pushed ++ rest, visited2) w2
        | Throw w2 => Throw w2
        | OutOfFuel => OutOfFuel
        end
    | Throw w1 => Throw w1
    | OutOfFuel => OutOfFuel
    end.
Proof. reflexivity. Qed.

Lemma procedureTypeOfMethod_analyze_None (env : Environment) (value : Node)
    (sourceFile : SourceFile) (imports : gmap string ImportInfo) (filePath : string)
    (resolve : string → SourceFile → gmap string ImportInfo → string → St string)
    (w : World) (p : ProcedureAnalysisResult) :
  fst (analyzeProcedureChain env value sourceFile imports filePath resolve w) = Some p →
  recognizedShape value = true.
Proof.
  unfold analyzeProcedureChain, recognizedShape.
  destruct value; try discriminate.
  destruct value; try discriminate.
  destruct (procedureTypeOfMethod _); [reflexivity|discriminate].
Qed.

(** ** Router tree builder: every part of a build ends *)

Section BuildInvariant.

Context (env : Environment) (U : gset string).
Context (Hclosed : reachableKeys env ⊆ U).
Context (recur : string → string → Build (option TrpcNode)) (n : nat).
Context (Hrec : CallOk env U recur n).
Context (filePath : string) (d : FileData).
Context (Hfile : env_fs env !! filePath = Some (File d)).

#[warnings="-notation-for-abbreviation"] Local Notation sourceFile := (file_source d).
#[warnings="-notation-for-abbreviation"] Local Notation imports :=
  (getImports (file_source d)).

Lemma recur_here (varName : string) (visited : gset string) (w : World) :
  varName ∈ allNames env → size (U ∖ visited) < n →
  BuildOk visited w (recur filePath varName visited w).
Proof.
  intros Hname Hsize. apply Hrec; [by rewrite Hfile| |exact Hsize].
  intros Hisfile. apply Hclosed. by apply reachableKeys_elem.
Qed.

Lemma resolveIdentifierAsRouter_ok (varName : string) (visited : gset string)
    (w : World) :
  varName ∈ allNames env → size (U ∖ visited) < n →
  BuildOk visited w
    (resolveIdentifierAsRouter env recur varName filePath imports visited w).
Proof.
  intros Hname Hsize. unfold resolveIdentifierAsRouter.
  destruct (imports !! varName) as [importInfo|] eqn:Himport;
    [|by apply recur_here].
  destruct (resolveImport_Quiet env (moduleSpecifier importInfo) filePath w)
    as (new & Hlog & Hnew).
  destruct (resolveImport env (moduleSpecifier importInfo) filePath w)
    as [resolved w1] eqn:Hresolve.
  simpl in Hlog. apply (BuildOk_quiet_before visited w w1 new); [done|done|].
  destruct resolved as [[|c p]|]; try by apply recur_here.
  assert (Hisfile : isFile env (String c p) = true).
  { apply (resolveImport_isFile env (moduleSpecifier importInfo) filePath _ w).
    by rewrite Hresolve. }
  apply Hrec; [|intros _|exact Hsize].
  - apply isFile_lookup in Hisfile as [d' Hd']. by rewrite Hd'.
  - apply Hclosed, reachableKeys_elem; [exact Hisfile|].
    destruct (isDefault importInfo); [exact Hname|].
    by eapply allNames_import.
Qed.

(** A property of an object literal of the file, when the object literals
    below it are parsed with a result. *)
Lemma parseRouterProperty_ok (prop : Node) (visited : gset string) (w : World) :
  prop ∈ allNodes sourceFile →
  (∀ arg visited' w',
     arg ∈ preorder prop → size (U ∖ visited') < n →
     BuildOk visited' w'
       (parseRouterObject env recur arg filePath imports sourceFile visited' w')) →
  size (U ∖ visited) < n →
  BuildOk visited w
    (parseRouterProperty env recur (parseRouterObject env recur) prop filePath
       imports sourceFile visited w).
Proof.
  intros Hprop Hnested Hsize.
  destruct prop; try (apply (BuildOk_ret_quiet _ _ _ []); [reflexivity|constructor]).
  - (* a property assignment *)
    rename prop1 into name, prop2 into value.
    unfold parseRouterProperty.
    destruct (analyzeProcedureChain_Quiet env value sourceFile imports filePath
                (resolveSchemaText0 env) (resolveSchemaText0_Quiet env) w)
      as (new1 & Hlog1 & Hnew1).
    destruct (analyzeProcedureChain env value sourceFile imports filePath
                (resolveSchemaText0 env) w) as [procInfo w1].
    simpl in Hlog1.
    destruct procInfo as [p|]; [by eapply BuildOk_ret_quiet|].
    assert (Hvalue : value ∈ allNodes sourceFile).
    { apply (allNodes_child _ (PropertyAssignment i name value)); [done|].
      simpl. set_solver. }
    destruct value; try by eapply BuildOk_ret_quiet.
    + (* an identifier *)
      destruct (resolveIdentifierAsProcedure_Quiet env
                  (getText (Identifier i0 text)) filePath sourceFile imports w1)
        as (new2 & Hlog2 & Hnew2).
      destruct (resolveIdentifierAsProcedure env (getText (Identifier i0 text))
                  filePath sourceFile imports w1) as [proc w2].
      simpl in Hlog2.
      apply (BuildOk_quiet_before visited w w1 new1); [done|done|].
      destruct proc as [p|]; [by eapply BuildOk_ret_quiet|].
      apply (BuildOk_quiet_before visited w1 w2 new2); [done|done|].
      destruct (resolveIdentifierAsRouter_ok (getText (Identifier i0 text))
                  visited w2) as (child & visited' & w3 & Hrun & Hsub & Htrace);
        [by eapply allNames_node|exact Hsize|].
      rewrite Hrun. destruct child; by eexists _, visited', w3.
    + (* a call *)
      destruct (isRouterCall _); [|by eapply BuildOk_ret_quiet].
      destruct arguments as [|argument arguments]; [by eapply BuildOk_ret_quiet|].
      destruct argument; try by eapply BuildOk_ret_quiet.
      apply (BuildOk_quiet_before visited w w1 new1); [done|done|].
      match goal with
      | |- context [parseRouterObject env recur ?arg _ _ _ _ _] =>
          destruct (Hnested arg visited w1)
            as (children & visited' & w2 & Hrun & Hsub & Htrace)
      end.
      * rewrite preorder_unfold. apply elem_of_cons. right.
        apply list_elem_of_In, in_flat_map. eexists. split; [right; left; reflexivity|].
        apply list_elem_of_In. rewrite preorder_unfold. apply elem_of_cons. right.
        apply list_elem_of_In, in_flat_map. eexists.
        split; [right; left; reflexivity|]. apply list_elem_of_In, preorder_self.
      * exact Hsize.
      * rewrite Hrun. by eexists _, visited', w2.
  - (* a shorthand property *)
    rename prop into name. unfold parseRouterProperty.
    destruct (resolveIdentifierAsRouter_ok (getText name) visited w)
      as (child & visited' & w' & Hrun & Hsub & Htrace); [|exact Hsize|].
    { apply (allNames_node env filePath d); [done|].
      apply (allNodes_child _ (ShorthandPropertyAssignment i name)); [done|].
      simpl. set_solver. }
    rewrite Hrun. destruct child; by eexists _, visited', w'.
Qed.


Lemma BuildOk_trans {A B : Type} (v0 v1 : gset string) (w0 w1 : World) (a : A)
    (o : Outcome (B * gset string)) :
  v0 ⊆ v1 → Trace v0 v1 w0 w1 → BuildOk v1 w1 o → BuildOk v0 w0 o.
Proof.
  intros Hsub Htrace (b & v2 & w2 & -> & Hsub' & Htrace').
  exists b, v2, w2. split; [reflexivity|]. split; [set_solver|].
  by eapply (Trace_trans v0 v1 v2).
Qed.

Lemma size_unvisited_mono (visited visited' : gset string) :
  visited ⊆ visited' → size (U ∖ visited') ≤ size (U ∖ visited).
Proof. intros Hsub. apply subseteq_size. set_solver. Qed.

(** An object literal of the file, and the object literals below it. *)
Lemma parseRouterObject_ok (obj : Node) :
  obj ∈ allNodes sourceFile →
  ∀ arg visited w,
    arg ∈ preorder obj → size (U ∖ visited) < n →
    BuildOk visited w
      (parseRouterObject env recur arg filePath imports sourceFile visited w).
Proof.
  induction obj as [obj IH] using Node_children_ind.
  intros Hobj arg visited w Harg Hsize.
  rewrite preorder_unfold in Harg. apply elem_of_cons in Harg as [->|Harg].
  2: { apply list_elem_of_In, in_flat_map in Harg as (c & Hc & Harg).
       apply list_elem_of_In in Hc, Harg. rewrite Forall_forall in IH.
       apply (IH c Hc); [by eapply allNodes_child|exact Harg|exact Hsize]. }
  destruct obj;
    try (apply (BuildOk_ret_quiet _ _ _ []); [reflexivity|constructor]).
  simpl in IH.
  assert (Hprops : ∀ prop, prop ∈ properties →
    prop ∈ allNodes sourceFile
    ∧ ∀ arg visited' w',
        arg ∈ preorder prop → size (U ∖ visited') < n →
        BuildOk visited' w'
          (parseRouterObject env recur arg filePath imports sourceFile visited' w')).
  { intros prop Hprop. rewrite Forall_forall in IH.
    assert (Hnode : prop ∈ allNodes sourceFile).
    { by apply (allNodes_child _ (ObjectLiteralExpression i properties)). }
    split; [exact Hnode|]. intros arg visited' w' Harg Hsize'.
    by apply (IH prop Hprop). }
  clear IH Hobj. revert visited w Hsize.
  induction properties as [|prop properties IHprops]; intros visited w Hsize.
  - rewrite parseRouterObject_nil.
    apply (BuildOk_ret_quiet _ _ _ []); [reflexivity|constructor].
  - rewrite parseRouterObject_cons.
    destruct (Hprops prop) as [Hnode Hnested]; [by left|].
    destruct (parseRouterProperty_ok prop visited w Hnode Hnested Hsize)
      as (pushed & visited1 & w1 & -> & Hsub1 & Htrace1).
    destruct (IHprops (λ p Hp, Hprops p (list_elem_of_further _ _ _ Hp)) visited1 w1)
      as (rest & visited2 & w2 & -> & Hsub2 & Htrace2).
    { pose proof (size_unvisited_mono _ _ Hsub1). lia. }
    exists (pushed ++ rest), visited2, w2. split; [reflexivity|].
    split; [set_solver|]. by eapply (Trace_trans visited visited1 visited2).
Qed.

(** The visitor of [parseRouterFromFile], from the object literal that it
    reads at a node. *)
Lemma parseRouterFromFile_visit_routerObjectOf (routerVarName : string) (node : Node)
    (children : list TrpcNode) (visited : gset string) (w : World) :
  parseRouterFromFile_visit env recur routerVarName filePath imports sourceFile node
    (Done (children, visited) w)
  = (match routerObjectOf routerVarName node with
     | Some arg =>
         match parseRouterObject env recur arg filePath imports sourceFile visited w with
         | Done (pushed, visited') w' => Done (children ++ pushed, visited') w'
         | Throw w' => Throw w'
         | OutOfFuel => OutOfFuel
         end
     | None => Done (children, visited) w
     end, true).
Proof.
  unfold parseRouterFromFile_visit, routerObjectOf.
  destruct node; try reflexivity.
  destruct initializer as [init|]; [|reflexivity].
  destruct init; try reflexivity.
  destruct (_ && _); [|reflexivity].
  destruct arguments as [|arg arguments]; [reflexivity|].
  destruct arg; try reflexivity.
  destruct (parseRouterObject _ _ _ _ _ _ _ _) as [[pushed visited'] w'|w'|];
    reflexivity.
Qed.

Lemma parseRouterFromFile_visit_descends (routerVarName : string) (node : Node)
    (state : Outcome (list TrpcNode * gset string)) :
  snd (parseRouterFromFile_visit env recur routerVarName filePath imports sourceFile
         node state) = true.
Proof.
  destruct state as [[children visited] w|w|]; [|reflexivity..].
  by rewrite parseRouterFromFile_visit_routerObjectOf.
Qed.

Lemma routerObjectOf_preorder (routerVarName : string) (node arg : Node) :
  routerObjectOf routerVarName node = Some arg → arg ∈ preorder node.
Proof.
  unfold routerObjectOf. destruct node; try discriminate.
  destruct initializer as [init|]; [|discriminate].
  destruct init; try discriminate.
  destruct (_ && _); [|discriminate].
  destruct arguments as [|a arguments]; [discriminate|].
  destruct a; try discriminate. intros [= <-].
  rewrite preorder_unfold. apply elem_of_cons. right.
  apply list_elem_of_In, in_flat_map. eexists. split; [right; left; reflexivity|].
  apply list_elem_of_In. rewrite preorder_unfold. apply elem_of_cons. right.
  apply list_elem_of_In, in_flat_map. eexists.
  split; [right; left; reflexivity|]. apply list_elem_of_In, preorder_self.
Qed.

(** The visitor over nodes of the file. *)
Lemma parseRouterFromFile_nodes_ok (routerVarName : string) (nodes : list Node)
    (children : list TrpcNode) (visited : gset string) (w : World) :
  (∀ node, node ∈ nodes → node ∈ allNodes sourceFile) →
  size (U ∖ visited) < n →
  BuildOk visited w
    (fold_left
       (λ state node,
          fst (parseRouterFromFile_visit env recur routerVarName filePath imports
                 sourceFile node state))
       nodes (Done (children, visited) w)).
Proof.
  revert children visited w.
  induction nodes as [|node nodes IH]; intros children visited w Hnodes Hsize;
    cbn [fold_left].
  - apply (BuildOk_ret_quiet _ _ _ []); [reflexivity|constructor].
  - rewrite parseRouterFromFile_visit_routerObjectOf. cbn [fst].
    assert (Hrest : ∀ node', node' ∈ nodes → node' ∈ allNodes sourceFile).
    { intros node' H. apply Hnodes. by right. }
    destruct (routerObjectOf routerVarName node) as [arg|] eqn:Harg;
      [|by apply IH].
    destruct (parseRouterObject_ok node (Hnodes node ltac:(by left)) arg visited w)
      as (pushed & visited1 & w1 & -> & Hsub1 & Htrace1);
      [by eapply routerObjectOf_preorder|exact Hsize|].
    apply (BuildOk_trans visited visited1 w w1 pushed); [done|done|].
    apply IH; [exact Hrest|].
    pose proof (size_unvisited_mono _ _ Hsub1). lia.
Qed.

End BuildInvariant.

(** ** Router tree builder: a call of [parseRouterFromFile] *)

Section Calls.

Context (env : Environment).

Lemma parseRouterFromFile_visited (fuel : nat) (filePath routerVarName : string)
    (visited : gset string) (w : World) :
  visitedKey filePath routerVarName ∈ visited →
  parseRouterFromFile env (S fuel) filePath routerVarName visited w
  = Done (None, visited)
      (log DEBUG ("parseRouterFromFile: already visited "
                  +:+ visitedKey filePath routerVarName) w).
Proof.
  intros Hkey. simpl. rewrite (bool_decide_eq_true_2 _ Hkey).
  rewrite bool_decide_eq_false_2; [reflexivity|].
  intros Hsize. apply size_empty_iff in Hsize. set_solver.
Qed.

Lemma parseRouterFromFile_missing (fuel : nat) (filePath routerVarName : string)
    (visited : gset string) (w : World) :
  visitedKey filePath routerVarName ∉ visited →
  env_fs env !! filePath = None →
  parseRouterFromFile env (S fuel) filePath routerVarName visited w
  = Done (None, visited)
      (log WARN ("parseRouterFromFile: file not found " +:+ filePath)
         (entryWorld visited w)).
Proof.
  intros Hkey Hfile. simpl. rewrite (bool_decide_eq_false_2 _ Hkey), Hfile.
  reflexivity.
Qed.

Lemma parseRouterFromFile_directory (fuel : nat)
    (filePath routerVarName : string) (visited : gset string) (w : World) :
  visitedKey filePath routerVarName ∉ visited →
  env_fs env !! filePath = Some Directory →
  parseRouterFromFile env (S fuel) filePath routerVarName visited w
  = Throw (log DEBUG ("parseRouterFromFile: parsing "
                      +:+ visitedKey filePath routerVarName)
             (entryWorld visited w)).
Proof.
  intros Hkey Hfile. simpl. rewrite (bool_decide_eq_false_2 _ Hkey), Hfile.
  reflexivity.
Qed.

Lemma parseRouterFromFile_expand (fuel : nat) (filePath routerVarName : string)
    (visited : gset string) (w : World) (d : FileData) :
  visitedKey filePath routerVarName ∉ visited →
  env_fs env !! filePath = Some (File d) →
  parseRouterFromFile env (S fuel) filePath routerVarName visited w
  = match
      fold_left
        (λ state node,
           fst (parseRouterFromFile_visit env (parseRouterFromFile env fuel)
                  routerVarName filePath (getImports (file_source d))
                  (file_source d) node state))
        (allNodes (file_source d))
        (Done ([], {[visitedKey filePath routerVarName]} ∪ visited)
           (log DEBUG ("parseRouterFromFile: parsing "
                       +:+ visitedKey filePath routerVarName)
              (entryWorld visited w)))
    with
    | Done (children, visited') w' =>
        Done (Some (mkTrpcNode routerVarName router children (Some filePath)
                      None None None), visited') w'
    | Throw w' => Throw w'
    | OutOfFuel => OutOfFuel
    end.
Proof.
  intros Hkey Hfile. simpl. rewrite (bool_decide_eq_false_2 _ Hkey), Hfile.
  rewrite visitAll_preorder; [reflexivity|].
  intros node state. apply parseRouterFromFile_visit_descends.
Qed.

(** The first step of a call logs the clearing of the caches when the
    visited set is empty, and nothing else. *)
Lemma entryWorld_logged (visited : gset string) (w : World) :
  logged (entryWorld visited w)
  = (if bool_decide (size visited = 0) then [clearedEntry] else []) ++ logged w.
Proof. unfold entryWorld. by destruct (bool_decide _). Qed.

Lemma Trace_entry (visited : gset string) (w : World) (e : LogLevel * string) :
  benign e → Trace visited visited w (log (fst e) (snd e) (entryWorld visited w)).
Proof.
  intros He.
  exists (e :: (if bool_decide (size visited = 0) then [clearedEntry] else [])).
  split; [|split; [|split]].
  - unfold loggedSince. simpl. rewrite entryWorld_logged. by destruct e.
  - intros key. unfold expansions. rewrite filter_cons.
    destruct He as [_ He]. rewrite decide_False by apply He.
    destruct (bool_decide _); [|simpl; lia].
    rewrite filter_cons, decide_False; [simpl; lia|].
    intros H. symmetry in H. by apply parsingEntry_not_cleared in H.
  - intros key. unfold expansions. rewrite filter_cons.
    destruct He as [_ He]. rewrite decide_False by apply He.
    destruct (bool_decide _); [|simpl; lia].
    rewrite filter_cons, decide_False; [simpl; lia|].
    intros H. symmetry in H. by apply parsingEntry_not_cleared in H.
  - intros Hne. unfold clearings. rewrite filter_cons.
    destruct He as [He _]. rewrite decide_False by apply He.
    rewrite bool_decide_eq_false_2; [reflexivity|].
    intros Hsize. by apply size_empty_iff, leibniz_equiv in Hsize.
Qed.

Lemma Trace_expand (visited : gset string) (w : World) (key : string) :
  key ∉ visited →
  Trace visited ({[key]} ∪ visited) w
    (log DEBUG ("parseRouterFromFile: parsing " +:+ key) (entryWorld visited w)).
Proof.
  intros Hkey.
  exists (parsingEntry key
          :: (if bool_decide (size visited = 0) then [clearedEntry] else [])).
  assert (Hcleared : ∀ k,
    expansions k (if bool_decide (size visited = 0) then [clearedEntry] else []) = 0).
  { intros k. unfold expansions. destruct (bool_decide _); [|reflexivity].
    rewrite filter_cons, decide_False; [reflexivity|].
    intros H. symmetry in H. by apply parsingEntry_not_cleared in H. }
  split; [|split; [|split]].
  - unfold loggedSince. simpl. by rewrite entryWorld_logged.
  - intros k. change (parsingEntry key :: ?l) with ([parsingEntry key] ++ l).
    rewrite expansions_app, expansions_one, Hcleared.
    destruct (decide (key = k)); lia.
  - intros k. change (parsingEntry key :: ?l) with ([parsingEntry key] ++ l).
    rewrite expansions_app, expansions_one, Hcleared.
    destruct (decide (key = k)) as [Hk|Hk]; [|lia].
    subst k. intros _. split; [set_solver|done].
  - intros Hne. unfold clearings. rewrite filter_cons.
    rewrite decide_False by apply parsingEntry_not_cleared.
    rewrite bool_decide_eq_false_2; [reflexivity|].
    intros Hsize. by apply size_empty_iff, leibniz_equiv in Hsize.
Qed.

(** With a bound on its depth above the number of keys that are not visited
    yet, the recursion of [parseRouterFromFile] ends with a result. *)
Lemma parseRouterFromFile_CallOk (U : gset string) (n : nat) :
  reachableKeys env ⊆ U → CallOk env U (parseRouterFromFile env n) n.
Proof.
  intros Hclosed. induction n as [|n IH];
    intros filePath routerVarName visited w Hnotdir Hkey Hsize; [lia|].
  destruct (decide (visitedKey filePath routerVarName ∈ visited)) as [Hin|Hnotin].
  { rewrite parseRouterFromFile_visited by done.
    eapply (BuildOk_ret_quiet _ _ _ [_]); [reflexivity|].
    apply Forall_cons_2; [benign_entry|constructor]. }
  destruct (env_fs env !! filePath) as [[d|]|] eqn:Hfile; [|done|].
  - rewrite (parseRouterFromFile_expand _ _ _ _ _ d) by done.
    assert (HinU : visitedKey filePath routerVarName ∈ U).
    { apply Hkey. apply isFile_lookup. by exists d. }
    destruct (parseRouterFromFile_nodes_ok env U Hclosed (parseRouterFromFile env n)
                n IH filePath d Hfile routerVarName (allNodes (file_source d)) []
                ({[visitedKey filePath routerVarName]} ∪ visited)
                (log DEBUG ("parseRouterFromFile: parsing "
                            +:+ visitedKey filePath routerVarName)
                   (entryWorld visited w)))
      as (children & visited' & w' & Hrun & Hsub & Htrace); [done| |].
    { assert (Hlt : size (U ∖ ({[visitedKey filePath routerVarName]} ∪ visited))
                    < size (U ∖ visited)); [|lia].
      apply subset_size. set_solver. }
    rewrite Hrun. eexists _, visited', w'. split; [reflexivity|].
    split; [set_solver|].
    eapply (Trace_trans visited _ visited'); [| |by apply Trace_expand|exact Htrace];
      set_solver.
  - rewrite parseRouterFromFile_missing by done.
    eexists None, visited, _. split; [reflexivity|]. split; [done|].
    apply (Trace_entry visited w (WARN, _)). benign_entry.
Qed.

End Calls.

(** ** Router tree builder: the caches during a build *)

Lemma entryWorld_nonempty (visited : gset string) (w : World) :
  visited ≠ ∅ → entryWorld visited w = w.
Proof.
  intros Hne. unfold entryWorld. rewrite bool_decide_eq_false_2; [reflexivity|].
  intros Hsize. by apply size_empty_iff, leibniz_equiv in Hsize.
Qed.

Section VisitObject.

Context (env : Environment).
Context (recur : string → string → Build (option TrpcNode)).

(** The visitor of [parseRouterFromFile] at a node. *)
Lemma parseRouterFromFile_visit_object (routerVarName filePath : string)
    (imports : gmap string ImportInfo) (sourceFile : SourceFile) (node : Node)
    (children : list TrpcNode) (visited : gset string) (w : World) :
  fst (parseRouterFromFile_visit env recur routerVarName filePath imports sourceFile
         node (Done (children, visited) w))
  = match routerObjectOf routerVarName node with
    | Some arg =>
        match parseRouterObject env recur arg filePath imports sourceFile visited w with
        | Done (pushed, visited') w' => Done (children ++ pushed, visited') w'
        | Throw w' => Throw w'
        | OutOfFuel => OutOfFuel
        end
    | None => Done (children, visited) w
    end.
Proof.
  unfold parseRouterFromFile_visit, routerObjectOf.
  destruct node; try reflexivity.
  destruct initializer as [init|]; [|reflexivity].
  destruct init; try reflexivity.
  destruct (_ && _); [|reflexivity].
  destruct arguments as [|arg arguments]; [reflexivity|].
  destruct arg; try reflexivity.
  destruct (parseRouterObject _ _ _ _ _ _ _ _) as [[pushed visited'] w'|w'|];
    reflexivity.
Qed.

End VisitObject.

Section KeptBuild.

Context (env : Environment).
Context (recur : string → string → Build (option TrpcNode)).
Context (Hrecur : ∀ filePath varName visited w result visited' w',
           visited ≠ ∅ →
           recur filePath varName visited w = Done (result, visited') w' →
           visited ⊆ visited' ∧ cachesKept w w').

Lemma resolveIdentifierAsRouter_kept (varName currentFilePath : string)
    (imports : gmap string ImportInfo) (visited visited' : gset string)
    (w w' : World) (result : option TrpcNode) :
  visited ≠ ∅ →
  resolveIdentifierAsRouter env recur varName currentFilePath imports visited w
  = Done (result, visited') w' →
  visited ⊆ visited' ∧ cachesKept w w'.
Proof.
  intros Hne. unfold resolveIdentifierAsRouter.
  destruct (imports !! varName) as [importInfo|]; [|by apply Hrecur].
  pose proof (resolveImport_Keeps env (moduleSpecifier importInfo) currentFilePath w)
    as Hkept.
  destruct (resolveImport env _ _ w) as [[[|c resolved]|] w1]; simpl in Hkept.
  all: intros Hrun; apply Hrecur in Hrun as [Hsub Hrun]; [|exact Hne].
  all: split; [exact Hsub|by eapply cachesKept_trans].
Qed.

(** One turn of the loop of [parseRouterObject], when the object literals
    below the property clear no cache. *)
Lemma parseRouterProperty_kept
    (nested : Node → string → gmap string ImportInfo → SourceFile → Build (list TrpcNode))
    (prop : Node) (filePath : string) (imports : gmap string ImportInfo)
    (sourceFile : SourceFile) (visited visited' : gset string) (w w' : World)
    (pushed : list TrpcNode) :
  visited ≠ ∅ →
  (∀ arg visited0 w0 children visited1 w1,
     arg ∈ preorder prop →
     visited0 ≠ ∅ →
     nested arg filePath imports sourceFile visited0 w0 = Done (children, visited1) w1 →
     visited0 ⊆ visited1 ∧ cachesKept w0 w1) →
  parseRouterProperty env recur nested prop filePath imports sourceFile visited w
  = Done (pushed, visited') w' →
  visited ⊆ visited' ∧ cachesKept w w'.
Proof.
  intros Hne Hnested. unfold parseRouterProperty.
  destruct prop; try (intros [= _ <- <-]; split; [done|apply cachesKept_refl]).
  - rename prop1 into name, prop2 into value.
    pose proof (analyzeProcedureChain_Keeps env value sourceFile imports filePath
                  (resolveSchemaText0 env) (resolveSchemaText0_Keeps env) w) as Hw1.
    destruct (analyzeProcedureChain env value sourceFile imports filePath
                (resolveSchemaText0 env) w) as [[p|] w1]; simpl in Hw1.
    { by intros [= _ <- <-]. }
    destruct value; try by intros [= _ <- <-].
    + pose proof (resolveIdentifierAsProcedure_Keeps env
                    (getText (Identifier i0 text)) filePath sourceFile imports w1)
        as Hw2.
      destruct (resolveIdentifierAsProcedure env _ _ _ _ w1) as [[p|] w2];
        simpl in Hw2.
      { intros [= _ <- <-]. split; [done|by eapply cachesKept_trans]. }
      destruct (resolveIdentifierAsRouter env recur _ _ _ visited w2)
        as [[[child|] v3] w3|w3|] eqn:Hrouter; try discriminate.
      all: apply resolveIdentifierAsRouter_kept in Hrouter as [Hsub Hw3]; [|exact Hne].
      all: intros [= _ <- <-]; split; [exact Hsub|].
      all: eapply cachesKept_trans; [exact Hw1|by eapply cachesKept_trans].
    + destruct (isRouterCall _); [|by intros [= _ <- <-]].
      destruct arguments as [|argument arguments]; [by intros [= _ <- <-]|].
      destruct argument; try by intros [= _ <- <-].
      destruct (nested _ _ _ _ _ _) as [[children v2] w2|w2|] eqn:Hrun;
        try discriminate.
      apply Hnested in Hrun as [Hsub Hw2]; [| |exact Hne].
      * intros [= _ <- <-]. split; [exact Hsub|by eapply cachesKept_trans].
      * rewrite preorder_unfold. apply elem_of_cons. right.
        apply list_elem_of_In, in_flat_map. eexists. split; [right; left; reflexivity|].
        apply list_elem_of_In. rewrite preorder_unfold. apply elem_of_cons. right.
        apply list_elem_of_In, in_flat_map. eexists.
        split; [right; left; reflexivity|]. apply list_elem_of_In, preorder_self.
  - rename prop into name.
    destruct (resolveIdentifierAsRouter env recur _ _ _ visited w)
      as [[[child|] v3] w3|w3|] eqn:Hrouter; try discriminate.
    all: apply resolveIdentifierAsRouter_kept in Hrouter as [Hsub Hw3]; [|exact Hne].
    all: by intros [= _ <- <-].
Qed.

(** An object literal, or an object literal below it. *)
Lemma parseRouterObject_kept (filePath : string) (imports : gmap string ImportInfo)
    (sourceFile : SourceFile) (obj : Node) :
  ∀ arg visited w children visited' w',
    arg ∈ preorder obj →
    visited ≠ ∅ →
    parseRouterObject env recur arg filePath imports sourceFile visited w
    = Done (children, visited') w' →
    visited ⊆ visited' ∧ cachesKept w w'.
Proof.
  induction obj as [obj IH] using Node_children_ind.
  intros arg visited w children visited' w' Harg.
  rewrite preorder_unfold in Harg. apply elem_of_cons in Harg as [->|Harg].
  2: { apply list_elem_of_In, in_flat_map in Harg as (c & Hc & Harg).
       apply list_elem_of_In in Hc, Harg. rewrite Forall_forall in IH.
       by apply (IH c Hc). }
  destruct obj; try (intros _ [= _ <- <-]; split; [done|apply cachesKept_refl]).
  simpl in IH. revert visited w children visited' w'.
  induction properties as [|prop properties IHprops];
    intros visited w children visited' w' Hne.
  - rewrite parseRouterObject_nil. intros [= _ <- <-].
    split; [done|apply cachesKept_refl].
  - rewrite parseRouterObject_cons.
    apply Forall_cons in IH as [IHprop IH].
    destruct (parseRouterProperty env recur _ prop _ _ _ visited w)
      as [[pushed visited1] w1|w1|] eqn:Hprop; try discriminate.
    destruct (parseRouterObject env recur _ _ _ _ visited1 w1)
      as [[rest visited2] w2|w2|] eqn:Hrest; try discriminate.
    intros [= _ <- <-].
    apply parseRouterProperty_kept in Hprop as [Hsub1 Hw1]; [|exact Hne|].
    2: { intros arg visited0 w0 children0 visited3 w3 Harg. by apply IHprop. }
    apply IHprops in Hrest as [Hsub2 Hw2]; [|exact IH|].
    + split; [by etrans|by eapply cachesKept_trans].
    + intros ->. apply Hne. apply leibniz_equiv. set_solver.
Qed.

(** The visitor of [parseRouterFromFile] over nodes of the file. *)
Lemma parseRouterFromFile_nodes_kept (routerVarName filePath : string)
    (imports : gmap string ImportInfo) (sourceFile : SourceFile) (nodes : list Node)
    (children children' : list TrpcNode) (visited visited' : gset string)
    (w w' : World) :
  visited ≠ ∅ →
  fold_left
    (λ state node,
       fst (parseRouterFromFile_visit env recur routerVarName filePath imports
              sourceFile node state))
    nodes (Done (children, visited) w)
  = Done (children', visited') w' →
  visited ⊆ visited' ∧ cachesKept w w'.
Proof.
  revert children visited w.
  induction nodes as [|node nodes IH]; intros children visited w Hne;
    cbn [fold_left].
  - intros [= _ <- <-]. split; [done|apply cachesKept_refl].
  - rewrite parseRouterFromFile_visit_object.
    destruct (routerObjectOf routerVarName node) as [arg|]; [|by apply IH].
    destruct (parseRouterObject env recur arg _ _ _ visited w)
      as [[pushed visited1] w1|w1|] eqn:Hrun.
    + apply (parseRouterObject_kept _ _ _ arg) in Hrun as [Hsub1 Hw1];
        [|apply preorder_self|exact Hne].
      intros Hrest. apply IH in Hrest as [Hsub2 Hw2].
      * split; [by etrans|by eapply cachesKept_trans].
      * intros ->. apply Hne. apply leibniz_equiv. set_solver.
    + clear. induction nodes as [|n nodes IHn]; [discriminate|exact IHn].
    + clear. induction nodes as [|n nodes IHn]; [discriminate|exact IHn].
Qed.

End KeptBuild.

(** A call of the builder clears no cache after its first step: what the
    caches hold when the call goes on after that step, they hold when the
    call ends. *)
Lemma parseRouterFromFile_kept (env : Environment) (fuel : nat)
    (filePath routerVarName : string) (visited visited' : gset string)
    (w w' : World) (result : option TrpcNode) :
  parseRouterFromFile env fuel filePath routerVarName visited w
  = Done (result, visited') w' →
  visited ⊆ visited' ∧ cachesKept (entryWorld visited w) w'.
Proof.
  revert filePath routerVarName visited visited' w w' result.
  induction fuel as [|fuel IH];
    intros filePath routerVarName visited visited' w w' result; [discriminate|].
  destruct (decide (visitedKey filePath routerVarName ∈ visited)) as [Hin|Hnotin].
  { rewrite parseRouterFromFile_visited by done. intros [= _ <- <-].
    split; [done|]. rewrite entryWorld_nonempty by set_solver.
    apply cachesKept_log. }
  destruct (env_fs env !! filePath) as [[d|]|] eqn:Hfile.
  - rewrite (parseRouterFromFile_expand env fuel filePath routerVarName visited w d)
      by done.
    destruct (fold_left _ _ _) as [[children visited1] w1|w1|] eqn:Hrun;
      try discriminate.
    intros [= _ <- <-].
    apply (parseRouterFromFile_nodes_kept env (parseRouterFromFile env fuel))
      in Hrun as [Hsub Hw1].
    + split; [set_solver|]. eapply cachesKept_trans; [apply cachesKept_log|exact Hw1].
    + intros f v visited0 w0 r visited2 w2 Hne Hcall.
      apply IH in Hcall as [Hsub Hw2]. split; [exact Hsub|].
      by rewrite entryWorld_nonempty in Hw2.
    + set_solver.
  - by rewrite parseRouterFromFile_directory.
  - rewrite parseRouterFromFile_missing by done. intros [= _ <- <-].
    split; [done|apply cachesKept_log].
Qed.

(** ** Router tree builder: termination, children and caches *)

Section TreeBuilder.

Context (env : Environment).

Lemma size_reachable_unvisited (visited : gset string) :
  size (reachableKeys env ∖ visited) ≤ size (reachableKeys env).
Proof. apply subseteq_size. set_solver. Qed.

(** A call with any key, on a path that is not a directory, ends with a
    result when the bound on the depth is above the number of keys. *)
Lemma parseRouterFromFile_ends (fuel : nat) (filePath routerVarName : string)
    (visited : gset string) (w : World) :
  env_fs env !! filePath ≠ Some Directory →
  size (reachableKeys env) + 1 < fuel →
  BuildOk visited w (parseRouterFromFile env fuel filePath routerVarName visited w).
Proof.
  intros Hnotdir Hfuel.
  apply (parseRouterFromFile_CallOk env
           (reachableKeys env ∪ {[visitedKey filePath routerVarName]}) fuel);
    [set_solver|exact Hnotdir|set_solver|].
  set (key := visitedKey filePath routerVarName).
  assert (H1 : size ((reachableKeys env ∪ {[key]}) ∖ visited)
               ≤ size (reachableKeys env ∪ {[key]}))
    by (apply subseteq_size; set_solver).
  assert (H2 : size (reachableKeys env ∪ {[key]})
               = size (reachableKeys env) + size ({[key]} ∖ reachableKeys env))
    by apply size_union_alt.
  assert (H3 : size ({[key]} ∖ reachableKeys env) ≤ size ({[key]} : gset string))
    by (apply subseteq_size; set_solver).
  assert (H4 : size ({[key]} : gset string) = 1) by apply size_singleton.
  lia.
Qed.

(** The visitor leaves its state as it is where it reads no router object. *)
Lemma parseRouterFromFile_nodes_none
    (recur : string → string → Build (option TrpcNode))
    (routerVarName filePath : string) (imports : gmap string ImportInfo)
    (sourceFile : SourceFile) (nodes : list Node)
    (state : Outcome (list TrpcNode * gset string)) :
  (∀ node, node ∈ nodes → routerObjectOf routerVarName node = None) →
  fold_left
    (λ state node,
       fst (parseRouterFromFile_visit env recur routerVarName filePath imports
              sourceFile node state))
    nodes state
  = state.
Proof.
  revert state. induction nodes as [|node nodes IH]; intros state Hnone;
    [reflexivity|].
  cbn [fold_left]. rewrite IH by (intros node' H; apply Hnone; by right).
  specialize (Hnone node ltac:(by left)).
  unfold parseRouterFromFile_visit, routerObjectOf in *.
  destruct state as [[children visited] w|w|]; [|reflexivity..].
  destruct node; try reflexivity.
  destruct initializer as [init|]; [|reflexivity].
  destruct init; try reflexivity.
  destruct (_ && _); [|reflexivity].
  destruct arguments as [|arg arguments]; [reflexivity|].
  destruct arg; try reflexivity. discriminate.
Qed.

(** C10.  When the target is a file and its key is not in the visited set,
    the builder returns a node, never nothing: a collection node with the
    name of the variable and the path of the file.  When the file declares no
    variable of that name, or no declaration of it is initialized by a router
    call on an object literal, the children of the node are empty. *)
Theorem parseRouterFromFile_returns_node
    (fuel : nat) (filePath routerVarName : string) (visited : gset string)
    (w : World) (d : FileData)
    (Hfile : env_fs env !! filePath = Some (File d))
    (Hfresh : visitedKey filePath routerVarName ∉ visited)
    (Hfuel : size (reachableKeys env) + 1 < fuel) :
  ∃ children visited' w',
    parseRouterFromFile env fuel filePath routerVarName visited w
    = Done (Some (mkTrpcNode routerVarName router children (Some filePath)
                    None None None), visited') w'
    ∧ ((∀ node, node ∈ allNodes (file_source d) →
               routerObjectOf routerVarName node = None) →
       children = [])
    ∧ ((∀ node i name initializer,
          node ∈ allNodes (file_source d) →
          node = VariableDeclaration i name initializer →
          getText name ≠ routerVarName) →
       children = []).
Proof.
  destruct fuel as [|n]; [lia|].
  rewrite (parseRouterFromFile_expand env n filePath routerVarName visited w d)
    by done.
  assert (Hnone : (∀ node, node ∈ allNodes (file_source d) →
                           routerObjectOf routerVarName node = None) →
    fold_left
      (λ state node,
         fst (parseRouterFromFile_visit env (parseRouterFromFile env n)
                routerVarName filePath (getImports (file_source d))
                (file_source d) node state))
      (allNodes (file_source d))
      (Done ([], {[visitedKey filePath routerVarName]} ∪ visited)
         (log DEBUG ("parseRouterFromFile: parsing "
                     +:+ visitedKey filePath routerVarName)
            (entryWorld visited w)))
    = Done ([], {[visitedKey filePath routerVarName]} ∪ visited)
        (log DEBUG ("parseRouterFromFile: parsing "
                    +:+ visitedKey filePath routerVarName)
           (entryWorld visited w))).
  { apply parseRouterFromFile_nodes_none. }
  destruct (parseRouterFromFile_nodes_ok env (reachableKeys env) (reflexivity _)
              (parseRouterFromFile env n) n
              (parseRouterFromFile_CallOk env (reachableKeys env) n (reflexivity _))
              filePath d Hfile routerVarName (allNodes (file_source d)) []
              ({[visitedKey filePath routerVarName]} ∪ visited)
              (log DEBUG ("parseRouterFromFile: parsing "
                          +:+ visitedKey filePath routerVarName)
                 (entryWorld visited w)))
    as (children & visited' & w' & Hrun & _ & _); [done| |].
  { pose proof (size_reachable_unvisited
                  ({[visitedKey filePath routerVarName]} ∪ visited)). lia. }
  rewrite Hrun. exists children, visited', w'. split; [reflexivity|].
  assert (Hempty : (∀ node, node ∈ allNodes (file_source d) →
                            routerObjectOf routerVarName node = None) →
                   children = []).
  { intros H. rewrite (Hnone H) in Hrun. by injection Hrun as <- _ _. }
  split; [exact Hempty|].
  intros Hname. apply Hempty. intros node Hnode.
  destruct node; try reflexivity. simpl.
  destruct initializer as [init|]; [|reflexivity].
  destruct init; try reflexivity.
  destruct (String.eqb_spec (getText node) routerVarName) as [Heq|_]; [|reflexivity].
  by destruct (Hname _ _ _ _ Hnode eq_refl).
Qed.

(** What a call of the builder returns, when it ends with a result: nothing
    for a pair that is not expanded, and otherwise a collection node with
    the name of the variable and the path of the file. *)
Lemma parseRouterFromFile_result (fuel : nat) (filePath routerVarName : string)
    (visited visited' : gset string) (w w' : World) (result : option TrpcNode) :
  parseRouterFromFile env fuel filePath routerVarName visited w
  = Done (result, visited') w' →
  if notExpanded env visited (filePath, routerVarName)
  then result = None ∧ visited' = visited
  else
    ∃ children,
      result = Some (mkTrpcNode routerVarName router children (Some filePath)
                       None None None).
Proof.
  destruct fuel as [|fuel]; [discriminate|].
  unfold notExpanded, existsSync. cbn [fst snd].
  case_bool_decide as Hkey.
  { rewrite parseRouterFromFile_visited by done. by intros [= <- <- _]. }
  destruct (env_fs env !! filePath) as [[d|]|] eqn:Hfile; cbn [orb negb].
  - rewrite (parseRouterFromFile_expand env fuel filePath routerVarName visited w d)
      by done.
    destruct (fold_left _ _ _) as [[children visited1] w1|w1|]; try discriminate.
    intros [= <- _ _]. by eexists.
  - by rewrite parseRouterFromFile_directory.
  - rewrite parseRouterFromFile_missing by done. by intros [= <- <- _].
Qed.

(** The call of the builder that [resolveIdentifierAsRouter] makes. *)
Lemma resolveIdentifierAsRouter_target
    (recur : string → string → Build (option TrpcNode))
    (varName currentFilePath : string) (imports : gmap string ImportInfo)
    (visited : gset string) (w : World) :
  ∃ w1,
    resolveIdentifierAsRouter env recur varName currentFilePath imports visited w
    = recur (fst (routerTarget env varName currentFilePath imports w))
        (snd (routerTarget env varName currentFilePath imports w)) visited w1.
Proof.
  unfold resolveIdentifierAsRouter, routerTarget.
  destruct (imports !! varName) as [importInfo|]; [|by eexists].
  destruct (resolveImport env (moduleSpecifier importInfo) currentFilePath w)
    as [[[|c resolved]|] w1]; by eexists.
Qed.

(** What a property pushes, when its turn of the loop ends with a result. *)
Lemma parseRouterProperty_pushed (fuel : nat)
    (nested : Node → string → gmap string ImportInfo → SourceFile → Build (list TrpcNode))
    (prop : Node) (filePath : string) (imports : gmap string ImportInfo)
    (sourceFile : SourceFile) (visited visited' : gset string) (w w' : World)
    (pushed : list TrpcNode) :
  parseRouterProperty env (parseRouterFromFile env fuel) nested prop filePath imports
    sourceFile visited w
  = Done (pushed, visited') w' →
  pushedBy env filePath imports visited w prop pushed.
Proof.
  unfold parseRouterProperty, pushedBy. destruct prop; try by intros [= <- _ _].
  - rename prop1 into name, prop2 into value.
    destruct (analyzeProcedureChain env value sourceFile imports filePath
                (resolveSchemaText0 env) w) as [procInfo w1] eqn:Hanalyze.
    destruct procInfo as [p|].
    { intros [= <- _ _]. eexists. split; [reflexivity|]. split; [reflexivity|].
      intros Hshape.
      rewrite (procedureTypeOfMethod_analyze_None env value sourceFile imports
                 filePath (resolveSchemaText0 env) w p) in Hshape;
        [discriminate|by rewrite Hanalyze]. }
    destruct value;
      try (intros [= <- _ _]; eexists; split; [reflexivity|];
           split; [reflexivity|]; intros _; reflexivity).
    + destruct (resolveIdentifierAsProcedure env _ _ _ _ w1) as [[p|] w2].
      { intros [= <- _ _]. eexists. split; [reflexivity|]. split; [reflexivity|].
        discriminate. }
      destruct (resolveIdentifierAsRouter env _ _ _ _ visited w2)
        as [[[child|] v3] w3|w3|]; try discriminate.
      * intros [= <- _ _]. eexists. split; [reflexivity|].
        split; [by destruct child|]. discriminate.
      * intros [= <- _ _]. eexists. split; [reflexivity|]. split; [reflexivity|].
        discriminate.
    + destruct (isRouterCall (CallExpression i0 value arguments)) eqn:Hrouter.
      2: { intros [= <- _ _]. eexists. split; [reflexivity|]. split; [reflexivity|].
           intros _; reflexivity. }
      assert (Hshape : recognizedShape (CallExpression i0 value arguments) = true).
      { unfold recognizedShape. destruct value; try exact Hrouter.
        destruct (procedureTypeOfMethod _); [reflexivity|exact Hrouter]. }
      destruct arguments as [|argument arguments].
      { intros [= <- _ _]. eexists. split; [reflexivity|]. split; [reflexivity|].
        by rewrite Hshape. }
      destruct argument;
        try (intros [= <- _ _]; eexists; split; [reflexivity|];
             split; [reflexivity|]; by rewrite Hshape).
      destruct (nested _ _ _ _ _ _) as [[children v2] w2|w2|]; try discriminate.
      intros [= <- _ _]. eexists. split; [reflexivity|]. split; [reflexivity|].
      by rewrite Hshape.
  - rename prop into name.
    destruct (resolveIdentifierAsRouter_target (parseRouterFromFile env fuel)
                (getText name) filePath imports visited w) as [w1 ->].
    set (target := routerTarget env (getText name) filePath imports w).
    destruct (parseRouterFromFile env fuel (fst target) (snd target) visited w1)
      as [[result v3] w3|w3|] eqn:Hrun; try discriminate.
    apply parseRouterFromFile_result in Hrun.
    replace (fst target, snd target) with target in Hrun by (by destruct target).
    destruct (notExpanded env visited target).
    + destruct Hrun as [-> _]. by intros [= <- _ _].
    + destruct Hrun as [children ->]. intros [= <- _ _]. by eexists.
Qed.

(** The children that an object literal pushes: those of its properties, in
    their order. *)
Lemma parseRouterObject_pushed (fuel : nat) (i : NodeInfo)
    (properties : list Node) (filePath : string) (imports : gmap string ImportInfo)
    (sourceFile : SourceFile) (visited visited' : gset string) (w w' : World)
    (children : list TrpcNode) :
  parseRouterObject env (parseRouterFromFile env fuel)
    (ObjectLiteralExpression i properties) filePath imports sourceFile visited w
  = Done (children, visited') w' →
  ∃ groups,
    children = concat groups
    ∧ pushedInOrder env fuel filePath imports sourceFile properties visited w groups
        visited' w'.
Proof.
  revert visited w children.
  induction properties as [|prop properties IH]; intros visited w children.
  - rewrite parseRouterObject_nil. intros [= <- <- <-]. exists [].
    split; [reflexivity|constructor].
  - rewrite parseRouterObject_cons.
    destruct (parseRouterProperty env _ _ prop _ _ _ visited w)
      as [[pushed visited1] w1|w1|] eqn:Hprop; try discriminate.
    destruct (parseRouterObject env _ _ _ _ _ visited1 w1)
      as [[rest visited2] w2|w2|] eqn:Hrest; try discriminate.
    intros [= <- <- <-]. apply IH in Hrest as (groups & -> & Hgroups).
    exists (pushed :: groups). split; [reflexivity|].
    econstructor; [exact Hprop| |exact Hgroups].
    by eapply parseRouterProperty_pushed.
Qed.

(** C7, as the code has it.  Every property assignment of the object literal
    of a router call pushes exactly one child, named by its key, and in the
    order of the properties; when its value has none of the recognized shapes
    (a call of a procedure method, an identifier, a router call) the child is
    an empty collection node.  A shorthand property pushes the collection
    node of the pair that its name leads to, under its name, and pushes
    nothing exactly when that pair is not expanded: its key is in the
    visited set at the turn of the property, as on a cycle, or its file does
    not exist.  Any other property pushes nothing. *)
Theorem parseRouterObject_property_nodes
    (fuel : nat) (filePath : string) (d : FileData) (i : NodeInfo)
    (properties : list Node) (visited : gset string) (w : World)
    (Hfile : env_fs env !! filePath = Some (File d))
    (Hobject : ObjectLiteralExpression i properties ∈ allNodes (file_source d))
    (Hfuel : size (reachableKeys env) < fuel) :
  ∃ children visited' w' groups,
    parseRouterObject env (parseRouterFromFile env fuel)
      (ObjectLiteralExpression i properties) filePath (getImports (file_source d))
      (file_source d) visited w
    = Done (children, visited') w'
    ∧ children = concat groups
    ∧ pushedInOrder env fuel filePath (getImports (file_source d)) (file_source d)
        properties visited w groups visited' w'.
Proof.
  destruct (parseRouterObject_ok env (reachableKeys env) (reflexivity _)
              (parseRouterFromFile env fuel) fuel
              (parseRouterFromFile_CallOk env (reachableKeys env) fuel (reflexivity _))
              filePath d Hfile (ObjectLiteralExpression i properties) Hobject
              (ObjectLiteralExpression i properties) visited w)
    as (children & visited' & w' & Hrun & _ & _); [apply preorder_self| |].
  { pose proof (size_reachable_unvisited visited). lia. }
  destruct (parseRouterObject_pushed _ _ _ _ _ _ _ _ _ _ _ Hrun)
    as (groups & Hchildren & Hgroups).
  by exists children, visited', w', groups.
Qed.

(** C2, as the code has it.  A pair whose key is in the visited set is not
    expanded: the builder returns nothing and leaves the visited set as it
    is.  A build from the empty visited set ends with a result, and expands
    every key at most once.  A property that leads back to a visited pair,
    of the same file or through an import of another file, is not expanded
    either: a shorthand property pushes no node, a property assignment
    pushes an empty collection node in its place. *)
Theorem parseRouterFromFile_cycle_safe
    (fuel : nat) (filePath routerVarName : string) (w : World)
    (Hnotdir : env_fs env !! filePath ≠ Some Directory)
    (Hfuel : size (reachableKeys env) + 1 < fuel) :
  (∀ visited w0 fuel0,
     visitedKey filePath routerVarName ∈ visited →
     parseRouterFromFile env (S fuel0) filePath routerVarName visited w0
     = Done (None, visited)
         (log DEBUG ("parseRouterFromFile: already visited "
                     +:+ visitedKey filePath routerVarName) w0))
  ∧ (∃ result visited' w' new,
       parseRouterFromFile env fuel filePath routerVarName ∅ w
       = Done (result, visited') w'
       ∧ loggedSince w w' new
       ∧ (∀ key, expansions key new ≤ 1)
       ∧ (∀ key, 0 < expansions key new → key ∈ visited'))
  ∧ (∀ i name currentFilePath imports sourceFile nested visited w0 fuel0,
       let target := routerTarget env (getText name) currentFilePath imports w0 in
       visitedKey (fst target) (snd target) ∈ visited →
       ∃ w1,
         parseRouterProperty env (parseRouterFromFile env (S fuel0)) nested
           (ShorthandPropertyAssignment i name) currentFilePath imports sourceFile
           visited w0
         = Done ([], visited) w1)
  ∧ (∀ i name j text currentFilePath imports sourceFile nested visited w0 fuel0,
       let resolved :=
         resolveIdentifierAsProcedure env (info_text j) currentFilePath sourceFile
           imports w0 in
       let target :=
         routerTarget env (info_text j) currentFilePath imports (snd resolved) in
       visitedKey (fst target) (snd target) ∈ visited →
       fst resolved = None →
       ∃ w1,
         parseRouterProperty env (parseRouterFromFile env (S fuel0)) nested
           (PropertyAssignment i name (Identifier j text)) currentFilePath imports
           sourceFile visited w0
         = Done ([placeholderNode (getText name) currentFilePath
                    (lineOf (PropertyAssignment i name (Identifier j text)))],
                 visited) w1).
Proof.
  split; [|split; [|split]].
  - intros visited w0 fuel0 Hin. by apply parseRouterFromFile_visited.
  - destruct (parseRouterFromFile_ends fuel filePath routerVarName ∅ w Hnotdir Hfuel)
      as (result & visited' & w' & Hrun & _ & new & Hlog & Hone & Hkeys & _).
    exists result, visited', w', new. split; [exact Hrun|]. split; [exact Hlog|].
    split; [exact Hone|]. intros key Hkey. by apply Hkeys.
  - intros i name currentFilePath imports sourceFile nested visited w0 fuel0
      target Hin.
    unfold parseRouterProperty.
    destruct (resolveIdentifierAsRouter_target (parseRouterFromFile env (S fuel0))
                (getText name) currentFilePath imports visited w0) as [w1 ->].
    fold target. rewrite parseRouterFromFile_visited by done. by eexists.
  - intros i name j text currentFilePath imports sourceFile nested visited w0 fuel0
      resolved target Hin Hproc.
    unfold parseRouterProperty. cbn [analyzeProcedureChain St_ret].
    change (getText (Identifier j text)) with (info_text j).
    fold resolved. destruct resolved as [proc w2] eqn:Hresolved.
    cbn [fst snd] in *. subst proc.
    destruct (resolveIdentifierAsRouter_target (parseRouterFromFile env (S fuel0))
                (info_text j) currentFilePath imports visited w2) as [w1 ->].
    fold target. rewrite parseRouterFromFile_visited by done. by eexists.
Qed.

Lemma clearProcedureAnalysisCaches_agree (w1 w2 : World) :
  tsConfigPathsCache w1 = tsConfigPathsCache w2 → logged w1 = logged w2 →
  snd (clearProcedureAnalysisCaches w1) = snd (clearProcedureAnalysisCaches w2).
Proof.
  intros Hcache Hlog. unfold clearProcedureAnalysisCaches, log,
    set_typeCheckerContextCache, set_nearestTsConfigPathCache,
    set_enumResolutionCache.
  simpl. by rewrite Hcache, Hlog.
Qed.

(** C9, as the code has it.  A call of the builder with an empty visited set
    clears the caches of the procedure analyzer (the enum resolutions, the
    nearest configuration files, the type checker contexts) before anything
    else, so that the build does not depend on what they held; it leaves the
    path-mapping cache as it is.  The build clears the caches once, as the
    first thing it does, and no directory of the path-mapping cache loses its
    entry in the build.  A call with a visited set that is not empty, as
    every nested call has, clears nothing: when it ends, every entry of the
    caches of the procedure analyzer is as it was, and every directory of
    the path-mapping cache still has an entry. *)
Theorem parseRouterFromFile_clears_analysis_caches
    (fuel : nat) (filePath routerVarName : string) (w : World)
    (Hnotdir : env_fs env !! filePath ≠ Some Directory)
    (Hfuel : size (reachableKeys env) + 1 < fuel) :
  (enumResolutionCache (entryWorld ∅ w) = ∅
   ∧ nearestTsConfigPathCache (entryWorld ∅ w) = ∅
   ∧ typeCheckerContextCache (entryWorld ∅ w) = ∅
   ∧ tsConfigPathsCache (entryWorld ∅ w) = tsConfigPathsCache w)
  ∧ (∀ w2,
       tsConfigPathsCache w2 = tsConfigPathsCache w → logged w2 = logged w →
       parseRouterFromFile env fuel filePath routerVarName ∅ w2
       = parseRouterFromFile env fuel filePath routerVarName ∅ w)
  ∧ (∃ result visited' w' new,
       parseRouterFromFile env fuel filePath routerVarName ∅ w
       = Done (result, visited') w'
       ∧ loggedSince w w' new
       ∧ clearings new = 1
       ∧ last new = Some clearedEntry
       ∧ cachesKept (entryWorld ∅ w) w'
       ∧ dom (tsConfigPathsCache w) ⊆ dom (tsConfigPathsCache w'))
  ∧ (∀ visited w0,
       visited ≠ ∅ →
       entryWorld visited w0 = w0
       ∧ ∃ result visited' w' new,
           parseRouterFromFile env fuel filePath routerVarName visited w0
           = Done (result, visited') w'
           ∧ loggedSince w0 w' new
           ∧ clearings new = 0
           ∧ cachesKept w0 w').
Proof.
  assert (Hempty : bool_decide (size (∅ : gset string) = 0) = true)
    by (apply bool_decide_eq_true_2, (size_empty (C:=gset string))).
  split; [by repeat split|]. split; [|split].
  - intros w2 Hcache Hlog. destruct fuel as [|n]; [reflexivity|].
    assert (Hentry : entryWorld ∅ w2 = entryWorld ∅ w).
    { unfold entryWorld. rewrite Hempty.
      by apply clearProcedureAnalysisCaches_agree. }
    destruct (env_fs env !! filePath) as [[d|]|] eqn:Hfile; [|done|].
    + rewrite !(parseRouterFromFile_expand env n filePath routerVarName ∅ _ d)
        by (done || set_solver).
      by rewrite Hentry.
    + rewrite !parseRouterFromFile_missing by (done || set_solver).
      by rewrite Hentry.
  - assert (Hrun : ∃ result visited' w' new,
      parseRouterFromFile env fuel filePath routerVarName ∅ w
      = Done (result, visited') w'
      ∧ loggedSince w w' new
      ∧ clearings new = 1
      ∧ last new = Some clearedEntry).
    { destruct fuel as [|n]; [lia|].
      destruct (env_fs env !! filePath) as [[d|]|] eqn:Hfile; [|done|].
      + rewrite (parseRouterFromFile_expand env n filePath routerVarName ∅ w d)
          by (done || set_solver).
        destruct (parseRouterFromFile_nodes_ok env (reachableKeys env) (reflexivity _)
                    (parseRouterFromFile env n) n
                    (parseRouterFromFile_CallOk env (reachableKeys env) n
                       (reflexivity _))
                    filePath d Hfile routerVarName (allNodes (file_source d)) []
                    ({[visitedKey filePath routerVarName]} ∪ ∅)
                    (log DEBUG ("parseRouterFromFile: parsing "
                                +:+ visitedKey filePath routerVarName)
                       (entryWorld ∅ w)))
          as (children & visited' & w' & Hrun & _ & new & Hlog & _ & _ & Hclear);
          [done| |].
        { pose proof (size_reachable_unvisited
                        ({[visitedKey filePath routerVarName]} ∪ ∅)). lia. }
        rewrite Hrun. eexists _, visited', w', (new ++ [_; _]).
        split; [reflexivity|]. split; [|split].
        * unfold loggedSince in *. rewrite Hlog. simpl. rewrite entryWorld_logged.
          rewrite Hempty. by rewrite <- app_assoc.
        * rewrite clearings_app, Hclear by set_solver.
          unfold clearings. rewrite filter_cons.
          rewrite decide_False by apply parsingEntry_not_cleared.
          rewrite filter_cons, decide_True by reflexivity. reflexivity.
        * by rewrite last_app.
      + rewrite parseRouterFromFile_missing by (done || set_solver).
        eexists None, ∅, _, [_; _]. split; [reflexivity|]. split; [|split].
        * unfold loggedSince. simpl. rewrite entryWorld_logged.
          by rewrite Hempty.
        * unfold clearings. rewrite filter_cons, decide_False.
          -- rewrite filter_cons, decide_True by reflexivity. reflexivity.
          -- intros H. vm_compute in H. discriminate H.
        * reflexivity. }
    destruct Hrun as (result & visited' & w' & new & Hrun & Hlog & Hclear & Hfirst).
    exists result, visited', w', new. repeat (split; [done|]).
    apply parseRouterFromFile_kept in Hrun as [_ Hkept].
    split; [exact Hkept|]. destruct Hkept as [Hpaths _].
    unfold entryWorld in Hpaths. by rewrite Hempty in Hpaths.
  - intros visited w0 Hne. split; [by apply entryWorld_nonempty|].
    destruct (parseRouterFromFile_ends fuel filePath routerVarName visited w0
                Hnotdir Hfuel)
      as (result & visited' & w' & Hrun & _ & new & Hlog & _ & _ & Hclear).
    exists result, visited', w', new. split; [exact Hrun|]. split; [exact Hlog|].
    split; [by apply Hclear|].
    apply parseRouterFromFile_kept in Hrun as [_ Hkept].
    by rewrite entryWorld_nonempty in Hkept.
Qed.

End TreeBuilder.

(** *** The builder on the example projects *)

(** The scenario of the specification: the root collection with its two
    procedures, in the order of the source. *)
Lemma parseRouterFromFile_scenario :
  ∃ visited' w',
    parseRouterFromFile (Examples.envOfFiles Examples.scenarioProject) 3
      "/p/root.ts" "appRouter" ∅ Examples.emptyWorld
    = Done
        (Some (mkTrpcNode "appRouter" router
                 [ mkTrpcNode "list" (procedure query) [] (Some "/p/root.ts")
                     (Some 3) None (Some "number");
                   mkTrpcNode "byId" (procedure query) [] (Some "/p/root.ts")
                     (Some 4) (Some "z.string()") (Some "number") ]
                 (Some "/p/root.ts") None None None),
         visited') w'.
Proof. do 2 eexists. vm_compute. reflexivity. Qed.

(** C10, on the scenario of the specification. *)
Lemma parseRouterFromFile_returns_node_witness :
  ∃ children visited' w',
    parseRouterFromFile (Examples.envOfFiles Examples.scenarioProject) 29
      "/p/root.ts" "appRouter" ∅ Examples.emptyWorld
    = Done (Some (mkTrpcNode "appRouter" router children (Some "/p/root.ts")
                    None None None), visited') w'.
Proof.
  destruct (parseRouterFromFile_returns_node
              (Examples.envOfFiles Examples.scenarioProject) 29 "/p/root.ts"
              "appRouter" ∅ Examples.emptyWorld
              (mkFileData Examples.scenarioFile None))
    as (children & visited' & w' & Hrun & _).
  - vm_compute. reflexivity.
  - vm_compute. intros H. discriminate H.
  - vm_compute. lia.
  - exists children, visited', w'. exact Hrun.
Defined.

(** A variable that the file does not declare, a variable that is not
    initialized by a router call, and an empty collection give the same
    node. *)
Lemma parseRouterFromFile_empty_collection :
  let node := mkTrpcNode "api" router [] (Some "/p/api.ts") None None None in
  let built (sourceFile : SourceFile) :=
    parseRouterFromFile
      (Examples.envOfFiles {[ "/p/api.ts" := Examples.sourceEntry sourceFile ]})
      3 "/p/api.ts" "api" ∅ Examples.emptyWorld in
  (∃ visited' w', built (mkSourceFile []) = Done (Some node, visited') w')
  ∧ (∃ visited' w',
       built (mkSourceFile [Examples.constDecl "api" Examples.zString])
       = Done (Some node, visited') w')
  ∧ (∃ visited' w',
       built (mkSourceFile [Examples.constDecl "api" (Examples.routerCall [])])
       = Done (Some node, visited') w').
Proof. repeat split; do 2 eexists; vm_compute; reflexivity. Qed.

(** C7, on the object literal of the scenario of the specification. *)
Lemma parseRouterObject_property_nodes_witness :
  ∃ children visited' w' groups,
    parseRouterObject (Examples.envOfFiles Examples.scenarioProject)
      (parseRouterFromFile (Examples.envOfFiles Examples.scenarioProject) 28)
      (ObjectLiteralExpression (Examples.info "{ ... }")
         [ Examples.propertyAt 2 "list" Examples.listProcedure;
           Examples.propertyAt 3 "byId" Examples.byIdProcedure ])
      "/p/root.ts" (getImports Examples.scenarioFile) Examples.scenarioFile
      ∅ Examples.emptyWorld
    = Done (children, visited') w'
    ∧ children = concat groups
    ∧ pushedInOrder (Examples.envOfFiles Examples.scenarioProject) 28 "/p/root.ts"
        (getImports Examples.scenarioFile) Examples.scenarioFile
        [ Examples.propertyAt 2 "list" Examples.listProcedure;
          Examples.propertyAt 3 "byId" Examples.byIdProcedure ]
        ∅ Examples.emptyWorld groups visited' w'.
Proof.
  apply (parseRouterObject_property_nodes
           (Examples.envOfFiles Examples.scenarioProject) 28 "/p/root.ts"
           (mkFileData Examples.scenarioFile None)).
  - vm_compute. reflexivity.
  - apply list_elem_of_In. vm_compute.
    repeat (first [left; reflexivity | right]).
  - vm_compute. lia.
Defined.

(** The shorthand properties of two files that import each other: built
    from [a], the property [b] of [a] has the collection of [/p/b.ts] and
    the property [a] of [b], which leads back to [a], has no node. *)
Lemma parseRouterFromFile_cross_files :
  ∃ w',
    parseRouterFromFile (Examples.envOfFiles Examples.crossProject) 3
      "/p/a.ts" "a" ∅ Examples.emptyWorld
    = Done
        (Some (mkTrpcNode "a" router
                 [mkTrpcNode "b" router [] (Some "/p/b.ts") None None None]
                 (Some "/p/a.ts") None None None),
         {[ "/p/a.ts:a"; "/p/b.ts:b" ]}) w'.
Proof. eexists. vm_compute. reflexivity. Qed.

(** The same with property assignments: the property [a: a] of [b] has an
    empty collection node, of the file of [b]. *)
Lemma parseRouterFromFile_cross_files_assigned :
  ∃ w',
    parseRouterFromFile (Examples.envOfFiles Examples.crossAssignedProject) 3
      "/p/a.ts" "a" ∅ Examples.emptyWorld
    = Done
        (Some (mkTrpcNode "a" router
                 [mkTrpcNode "b" router
                    [mkTrpcNode "a" router [] (Some "/p/b.ts") (Some 2) None None]
                    (Some "/p/b.ts") None None None]
                 (Some "/p/a.ts") None None None),
         {[ "/p/a.ts:a"; "/p/b.ts:b" ]}) w'.
Proof. eexists. vm_compute. reflexivity. Qed.

(** C7, as the specification has it, fails: the spread property of
    [router({ ...others })] produces no child. *)
Lemma parseRouterObject_spread_dropped :
  ¬ (∀ (env : Environment) (fuel : nat) (i : NodeInfo) (properties : list Node)
       (filePath : string) (imports : gmap string ImportInfo)
       (sourceFile : SourceFile) (visited visited' : gset string) (w w' : World)
       (children : list TrpcNode),
       parseRouterObject env (parseRouterFromFile env fuel)
         (ObjectLiteralExpression i properties) filePath imports sourceFile
         visited w
       = Done (children, visited') w' →
       length children = length properties).
Proof.
  intros H.
  specialize (H (Examples.envOfFiles Examples.spreadProject) 3
                (Examples.info "{ ... }")
                [SpreadAssignment (Examples.info "...others")
                   (Examples.ident "others")]
                "/p/root.ts" ∅ Examples.spreadFile ∅ ∅ Examples.emptyWorld
                Examples.emptyWorld [] eq_refl).
  discriminate H.
Qed.

(** The tree of [const appRouter = router({ ...others });] has no child. *)
Lemma parseRouterFromFile_spread :
  ∃ visited' w',
    parseRouterFromFile (Examples.envOfFiles Examples.spreadProject) 3
      "/p/root.ts" "appRouter" ∅ Examples.emptyWorld
    = Done (Some (mkTrpcNode "appRouter" router [] (Some "/p/root.ts")
                    None None None), visited') w'.
Proof. do 2 eexists. vm_compute. reflexivity. Qed.

(** C2, on two collections of two files that import each other. *)
Lemma parseRouterFromFile_cycle_safe_witness :
  ∃ result visited' w' new,
    parseRouterFromFile (Examples.envOfFiles Examples.crossProject) 40
      "/p/a.ts" "a" ∅ Examples.emptyWorld
    = Done (result, visited') w'
    ∧ loggedSince Examples.emptyWorld w' new
    ∧ (∀ key, expansions key new ≤ 1)
    ∧ (∀ key, 0 < expansions key new → key ∈ visited').
Proof.
  refine (proj1 (proj2 (parseRouterFromFile_cycle_safe
            (Examples.envOfFiles Examples.crossProject) 40 "/p/a.ts" "a"
            Examples.emptyWorld _ _))).
  - vm_compute. intros H. discriminate H.
  - vm_compute. lia.
Defined.

(** The tree of [const a = router({ b }); const b = router({ a });] built
    from [a]: the property of [b] that leads back to [a] has no node. *)
Lemma parseRouterFromFile_mutual :
  ∃ w',
    parseRouterFromFile (Examples.envOfFiles Examples.mutualProject) 3
      "/p/mutual.ts" "a" ∅ Examples.emptyWorld
    = Done
        (Some (mkTrpcNode "a" router
                 [mkTrpcNode "b" router [] (Some "/p/mutual.ts") None None None]
                 (Some "/p/mutual.ts") None None None),
         {[ "/p/mutual.ts:a"; "/p/mutual.ts:b" ]}) w'.
Proof. eexists. vm_compute. reflexivity. Qed.

(** C2, as the specification has it, fails: in
    [const a = router({ b: b }); const b = router({ a: a });] the property
    [a: a] of [b], met while [a] is being built, is not left out of the tree:
    it has an empty collection node. *)
Lemma parseRouterObject_back_edge_kept :
  ¬ (∀ (env : Environment) (fuel : nat) (i : NodeInfo) (prop : Node)
       (target filePath : string) (imports : gmap string ImportInfo)
       (sourceFile : SourceFile) (visited visited' : gset string) (w w' : World)
       (children : list TrpcNode),
       spec_refersTo prop target →
       imports !! target = None →
       visitedKey filePath target ∈ visited →
       parseRouterObject env (parseRouterFromFile env fuel)
         (ObjectLiteralExpression i [prop]) filePath imports sourceFile visited w
       = Done (children, visited') w' →
       children = []).
Proof.
  intros H.
  assert (Hkey : visitedKey "/p/mutual.ts" "a"
                 ∈ ({[ "/p/mutual.ts:a"; "/p/mutual.ts:b" ]} : gset string))
    by (vm_compute; reflexivity).
  specialize (H (Examples.envOfFiles Examples.mutualAssignedProject) 3
                (Examples.info "{ ... }")
                (Examples.propertyAt 1 "a" (Examples.ident "a"))
                "a" "/p/mutual.ts" ∅ Examples.mutualAssignedFile
                {[ "/p/mutual.ts:a"; "/p/mutual.ts:b" ]} _ Examples.emptyWorld _ _
                ltac:(right; by eexists _, _, _) eq_refl Hkey
                ltac:(vm_compute; reflexivity)).
  discriminate H.
Qed.

(** The tree of [const a = router({ b: b }); const b = router({ a: a });]
    built from [a]. *)
Lemma parseRouterFromFile_mutual_assigned :
  ∃ w',
    parseRouterFromFile (Examples.envOfFiles Examples.mutualAssignedProject) 3
      "/p/mutual.ts" "a" ∅ Examples.emptyWorld
    = Done
        (Some (mkTrpcNode "a" router
                 [mkTrpcNode "b" router
                    [mkTrpcNode "a" router [] (Some "/p/mutual.ts") (Some 2)
                       None None]
                    (Some "/p/mutual.ts") None None None]
                 (Some "/p/mutual.ts") None None None),
         {[ "/p/mutual.ts:a"; "/p/mutual.ts:b" ]}) w'.
Proof. eexists. vm_compute. reflexivity. Qed.

(** C9, on the scenario of the specification. *)
Lemma parseRouterFromFile_clears_analysis_caches_witness :
  ∃ result visited' w' new,
    parseRouterFromFile (Examples.envOfFiles Examples.scenarioProject) 29
      "/p/root.ts" "appRouter" ∅ Examples.emptyWorld
    = Done (result, visited') w'
    ∧ loggedSince Examples.emptyWorld w' new
    ∧ clearings new = 1
    ∧ last new = Some clearedEntry
    ∧ cachesKept (entryWorld ∅ Examples.emptyWorld) w'
    ∧ dom (tsConfigPathsCache Examples.emptyWorld) ⊆ dom (tsConfigPathsCache w').
Proof.
  refine (proj1 (proj2 (proj2 (parseRouterFromFile_clears_analysis_caches
            (Examples.envOfFiles Examples.scenarioProject) 29 "/p/root.ts"
            "appRouter" Examples.emptyWorld _ _)))).
  - vm_compute. intros H. discriminate H.
  - vm_compute. lia.
Defined.

(** C9, as the specification has it, fails: the path-mapping cache is not
    cleared, so that two builds from the empty visited set, on the same
    files, differ when the cache holds the table of a configuration file
    that is gone. *)
Lemma parseRouterFromFile_stale_path_mappings :
  ¬ (∀ (env : Environment) (fuel : nat) (filePath routerVarName : string)
       (w w2 : World),
       logged w2 = logged w →
       parseRouterFromFile env fuel filePath routerVarName ∅ w2
       = parseRouterFromFile env fuel filePath routerVarName ∅ w).
Proof.
  intros H.
  specialize (H (Examples.envOfFiles Examples.staleProject) 4 "/p/app/root.ts" "a"
                Examples.emptyWorld Examples.staleWorld eq_refl).
  vm_compute in H. discriminate H.
Qed.

(** The two trees: without the stale table the import of [@x/b] does not
    resolve and [b] is looked up, and not found, in the importing file; with
    it, [b] is the collection of [/p/lib/b.ts]. *)
Lemma parseRouterFromFile_stale_trees :
  (∃ visited' w',
     parseRouterFromFile (Examples.envOfFiles Examples.staleProject) 4
       "/p/app/root.ts" "a" ∅ Examples.emptyWorld
     = Done
         (Some (mkTrpcNode "a" router
                  [mkTrpcNode "b" router [] (Some "/p/app/root.ts") None None None]
                  (Some "/p/app/root.ts") None None None),
          visited') w')
  ∧ (∃ visited' w',
       parseRouterFromFile (Examples.envOfFiles Examples.staleProject) 4
         "/p/app/root.ts" "a" ∅ Examples.staleWorld
       = Done
           (Some (mkTrpcNode "a" router
                    [mkTrpcNode "b" router
                       [mkTrpcNode "hello" (procedure query) [] (Some "/p/lib/b.ts")
                          (Some 1) None (Some "number")]
                       (Some "/p/lib/b.ts") None None None]
                    (Some "/p/app/root.ts") None None None),
            visited') w').
Proof. split; do 2 eexists; vm_compute; reflexivity. Qed.

(** ** Counting procedures *)

(** Induction on a tree from its children. *)
Lemma TrpcNode_children_ind (P : TrpcNode → Prop) :
  (∀ n, Forall P (node_children n) → P n) → ∀ n, P n.
Proof.
  intros H. fix IH 1. intros n. apply H. destruct n as [? ? children ? ? ? ?].
  simpl. induction children as [|c l IHl]; constructor; [apply IH|exact IHl].
Qed.

Lemma countOf_addCounts (p : ProcedureType) (a b : ProcedureCounts) :
  countOf p (addCounts a b) = countOf p a + countOf p b.
Proof. by destruct p. Qed.

Lemma countOf_incrementCount (p q : ProcedureType) (a : ProcedureCounts) :
  countOf p (incrementCount q a) = countOf p a + (if decide (q = p) then 1 else 0).
Proof. destruct p, q; simpl; lia. Qed.

Lemma countProcedures_fold (p : ProcedureType) (children : list TrpcNode)
    (counts : ProcedureCounts) :
  Forall (λ child, countOf p (countProcedures child)
                   = length (filter (λ q, q = p) (countedProcedures child)))
    children →
  countOf p
    (fold_left
       (λ counts child,
          match node_type child with
          | router | file => addCounts counts (countProcedures child)
          | procedure q => incrementCount q counts
          end)
       children counts)
  = countOf p counts
    + length (filter (λ q, q = p)
                (flat_map
                   (λ child,
                      match node_type child with
                      | procedure q => [q]
                      | _ => countedProcedures child
                      end)
                   children)).
Proof.
  intros Hall. revert counts.
  induction Hall as [|child children Hchild _ IH]; intros counts; simpl; [lia|].
  rewrite IH, filter_app, length_app.
  destruct (node_type child) as [| |q].
  - rewrite countOf_addCounts, Hchild. lia.
  - rewrite countOf_addCounts, Hchild. lia.
  - rewrite countOf_incrementCount, filter_cons. destruct (decide (q = p)); simpl; lia.
Qed.

Lemma countProcedures_countOf (node : TrpcNode) (p : ProcedureType) :
  countOf p (countProcedures node)
  = length (filter (λ q, q = p) (countedProcedures node)).
Proof.
  induction node as [node IH] using TrpcNode_children_ind.
  destruct node as [? ? children ? ? ? ?]. simpl in IH.
  cbn [countProcedures countedProcedures].
  by rewrite (countProcedures_fold p children noCounts IH); destruct p.
Qed.

(** [countProcedures] counts, for each kind, the procedures that are
    children of the node or of a router or file below it; the children of a
    procedure are not looked at, and neither is the type of the node
    itself. *)
Theorem countProcedures_counted (node : TrpcNode) (p : ProcedureType) :
  countOf p (countProcedures node)
  = length (filter (λ q, q = p) (countedProcedures node))
  ∧ count_query (countProcedures node) + count_mutation (countProcedures node)
    + count_subscription (countProcedures node)
    = length (countedProcedures node).
Proof.
  split; [apply countProcedures_countOf|].
  pose proof (countProcedures_countOf node query) as Hq.
  pose proof (countProcedures_countOf node mutation) as Hm.
  pose proof (countProcedures_countOf node subscription) as Hs. simpl in Hq, Hm, Hs.
  rewrite Hq, Hm, Hs. generalize (countedProcedures node). clear.
  induction l as [|[] l IH]; simpl; [done|..];
    rewrite ?filter_cons; repeat case_decide; try done; simpl; lia.
Qed.

Lemma countsRecord_addCounts (a c : ProcedureCounts) :
  addKey "subscription" (countsRecord c)
    (addKey "mutation" (countsRecord c) (addKey "query" (countsRecord c) (countsRecord a)))
  = countsRecord (addCounts a c).
Proof.
  unfold addKey, countsRecord, addCounts. simpl. apply map_eq. intros k.
  destruct (decide (k = "subscription")) as [->|]; [by simplify_map_eq|].
  destruct (decide (k = "mutation")) as [->|]; [by simplify_map_eq|].
  destruct (decide (k = "query")) as [->|]; [by simplify_map_eq|].
  by simplify_map_eq.
Qed.

Lemma countsRecord_incrementCount (q : ProcedureType) (a : ProcedureCounts) :
  incrementKey (procedureTypeName q) (countsRecord a)
  = countsRecord (incrementCount q a).
Proof.
  unfold incrementKey, countsRecord. apply map_eq. intros k.
  destruct q; simpl;
    (destruct (decide (k = "subscription")) as [->|]; [by simplify_map_eq|]);
    (destruct (decide (k = "mutation")) as [->|]; [by simplify_map_eq|]);
    (destruct (decide (k = "query")) as [->|]; [by simplify_map_eq|]);
    by simplify_map_eq.
Qed.

Section WebviewProperties.

Context (zodExpressionToReadableType : string → string).

#[warnings="-notation-for-abbreviation"] Local Notation toWebview :=
  (mapNodeToWebviewNode zodExpressionToReadableType).

Lemma mapNodeToWebviewNode_type (node : TrpcNode) :
  webview_type (toWebview node) = node_type node.
Proof. by destruct node. Qed.

(** The counts that the web view shows on a router agree with the counts of
    the tree view, on the tree that the extension sends to the web view,
    when no node below the root of the tree is a file node. *)
Theorem webview_countProcedures_agrees (node : TrpcNode)
    (Hnofile : Forall (λ n, node_type n ≠ file)
                 (flat_map treeNodes (node_children node))) :
  webview_countProcedures (toWebview node) = countsRecord (countProcedures node).
Proof.
  induction node as [node IH] using TrpcNode_children_ind.
  destruct node as [? ? children ? ? ? ?]. simpl in IH, Hnofile.
  cbn [mapNodeToWebviewNode webview_countProcedures countProcedures].
  change (<["subscription":=0]> (<["mutation":=0]> (<["query":=0]> ∅)))
    with (countsRecord noCounts).
  generalize noCounts as counts.
  induction children as [|child children IHchildren]; intros counts; [reflexivity|].
  cbn [map fold_left]. rewrite mapNodeToWebviewNode_type.
  apply Forall_cons in IH as [IHchild IH].
  cbn [flat_map] in Hnofile. apply Forall_app in Hnofile as [Hchild Hnofile].
  assert (Hhere : node_type child ≠ file).
  { destruct child. by apply Forall_cons in Hchild as [? _]. }
  assert (Hbelow : Forall (λ n, node_type n ≠ file)
                     (flat_map treeNodes (node_children child))).
  { destruct child. by apply Forall_cons in Hchild as [_ ?]. }
  destruct (node_type child) as [| |q] eqn:Htype; [|done|].
  - rewrite (IHchild Hbelow), countsRecord_addCounts. by apply IHchildren.
  - cbn [nodeTypeName]. rewrite countsRecord_incrementCount. by apply IHchildren.
Qed.


End WebviewProperties.

(** ** Escaping of attribute values *)

Lemma replaceAllChar_app (c : ascii) (replacement s1 s2 : string) :
  replaceAllChar c replacement (s1 +:+ s2)
  = replaceAllChar c replacement s1 +:+ replaceAllChar c replacement s2.
Proof.
  induction s1 as [|c1 s1 IH]; [reflexivity|]. rewrite append_cons. simpl.
  rewrite IH. destruct (Ascii.eqb c1 c); [by rewrite append_assoc|by rewrite append_cons].
Qed.

(** The three replacements of [escapeAttr], one after the other, are one
    pass over the text. *)
Lemma escapeAttr_cons (c : ascii) (text : string) :
  escapeAttr (String c text) = escapeAttrChar c +:+ escapeAttr text.
Proof.
  unfold escapeAttr, escapeAttrChar. cbn [replaceAllChar].
  destruct (Ascii.eqb_spec c "&") as [->|Hamp].
  - rewrite !replaceAllChar_app. reflexivity.
  - cbn [replaceAllChar]. destruct (Ascii.eqb_spec c "034") as [->|Hquote].
    + rewrite !replaceAllChar_app. reflexivity.
    + cbn [replaceAllChar]. destruct (Ascii.eqb_spec c "<") as [->|Hlt]; reflexivity.
Qed.

(** The text that [escapeAttr] returns holds no double quote and no [<], so
    that it stays inside the attribute it is written to; and it holds all of
    the text: two texts with the same escaped text are equal. *)
Theorem escapeAttr_safe (text : string) :
  (∀ c, c ∈ list_ascii_of_string (escapeAttr text) → c ≠ "034"%char ∧ c ≠ "<"%char)
  ∧ (∀ text', escapeAttr text = escapeAttr text' → text = text').
Proof.
  split.
  - induction text as [|c0 text IH]; intros c Hc; [by inversion Hc|].
    rewrite escapeAttr_cons in Hc. unfold escapeAttrChar in Hc.
    destruct (Ascii.eqb_spec c0 "&") as [->|Hamp];
      [|destruct (Ascii.eqb_spec c0 "034") as [->|Hquote];
        [|destruct (Ascii.eqb_spec c0 "<") as [->|Hlt]]];
      rewrite ?append_cons, append_empty_l in Hc; simpl in Hc;
      repeat (apply elem_of_cons in Hc as [->|Hc]; [by split|]);
      try by apply IH.
  - induction text as [|c text IH]; intros [|c' text'] Heq.
    + reflexivity.
    + rewrite escapeAttr_cons in Heq. unfold escapeAttrChar in Heq.
      by repeat destruct (Ascii.eqb _ _).
    + rewrite escapeAttr_cons in Heq. unfold escapeAttrChar in Heq.
      by repeat destruct (Ascii.eqb _ _).
    + rewrite !escapeAttr_cons in Heq. unfold escapeAttrChar in Heq.
      destruct (Ascii.eqb_spec c "&") as [->|Hamp];
        [|destruct (Ascii.eqb_spec c "034") as [->|Hquote];
          [|destruct (Ascii.eqb_spec c "<") as [->|Hlt]]];
        (destruct (Ascii.eqb_spec c' "&") as [->|Hamp'];
          [|destruct (Ascii.eqb_spec c' "034") as [->|Hquote'];
            [|destruct (Ascii.eqb_spec c' "<") as [->|Hlt']]]);
        rewrite ?append_cons, ?append_empty_l in Heq;
        try (injection Heq as Heq; subst; try done);
        try (f_equal; by apply IH).
Qed.

(** ** Router tree builder: the shape of the trees *)

(** A property of the state that the callback keeps is kept by the
    visitor. *)
Lemma visit_invariant {State : Type} (f : Node → State → State * bool)
    (P : State → Prop) :
  (∀ n s, P s → P (fst (f n s))) → ∀ n s, P s → P (visit f n s).
Proof.
  intros Hf n. induction n as [n IH] using Node_children_ind. intros s Hs.
  rewrite visit_unfold. pose proof (Hf n s Hs) as Hs1.
  destruct (f n s) as [s1 [|]]; [|exact Hs1]. simpl in Hs1.
  revert s1 Hs1. induction IH as [|c l Hc _ IHl]; intros s1 Hs1; [exact Hs1|].
  rewrite visitAll_cons. apply IHl, Hc, Hs1.
Qed.

Lemma visitAll_invariant {State : Type} (f : Node → State → State * bool)
    (P : State → Prop) :
  (∀ n s, P s → P (fst (f n s))) → ∀ l s, P s → P (visitAll f l s).
Proof.
  intros Hf l. induction l as [|c l IH]; intros s Hs; [exact Hs|].
  rewrite visitAll_cons. by apply IH, visit_invariant.
Qed.

Lemma findVariableDeclarationInfo_line (sourceFile : SourceFile) (varName : string)
    (initializer : Node) (line : nat) :
  findVariableDeclarationInfo sourceFile varName = Some (initializer, line) →
  0 < line.
Proof.
  unfold findVariableDeclarationInfo.
  assert (H : (λ r : option (Node * nat), ∀ i l, r = Some (i, l) → 0 < l)
                (visitAll (findVariableDeclarationInfo_visit varName)
                   (statements sourceFile) None)); [|by apply H].
  apply visitAll_invariant; [|done].
  intros n s Hs i l. unfold findVariableDeclarationInfo_visit.
  destruct s as [[i0 l0]|]; [apply Hs|].
  destruct n; try done. destruct initializer0; [|done].
  destruct (String.eqb _ _); [|done]. simpl. intros [= _ <-]. unfold lineOf. lia.
Qed.

Section TreeShape.

Context (env : Environment).
Context (recur : string → string → Build (option TrpcNode)).
Context (Hrecur : ∀ filePath varName visited w root visited' w',
           recur filePath varName visited w = Done (Some root, visited') w' →
           builtTree env root).

Lemma builtTree_set_name (key : string) (node : TrpcNode) :
  builtTree env node → builtTree env (set_name key node).
Proof.
  destruct node. unfold builtTree. simpl. intros H.
  apply Forall_cons in H as [Hhere Hbelow]. by constructor.
Qed.

Lemma builtTree_leaf (name : string) (type : TrpcNodeType) (filePath : string)
    (line : option nat) (i o : option string) :
  builtShape env (mkTrpcNode name type [] (Some filePath) line i o) = true →
  builtTree env (mkTrpcNode name type [] (Some filePath) line i o).
Proof. intros H. by constructor. Qed.

Lemma resolveIdentifierAsProcedure_imported_shape (varName currentFilePath : string)
    (imports : gmap string ImportInfo) (w : World) (p : ProcedureResolution) :
  fst (resolveIdentifierAsProcedure_imported env varName currentFilePath imports w)
  = Some p →
  isFile env (proc_filePath p) = true ∧ 0 < proc_line p.
Proof.
  unfold resolveIdentifierAsProcedure_imported, St_bind, St_ret.
  destruct (imports !! varName) as [importInfo|]; [|discriminate].
  destruct (resolveImport env (moduleSpecifier importInfo) currentFilePath w)
    as [resolved w1] eqn:Hresolve.
  destruct resolved as [[|c resolved]|]; try discriminate.
  destruct (readSourceFile env _) as [importSf|]; [|discriminate].
  destruct (findVariableDeclarationInfo importSf _) as [[initializer line]|] eqn:Hfind;
    [|discriminate].
  destruct (analyzeProcedureChain _ _ _ _ _ _ w1) as [[importedProc|] w2];
    [|discriminate].
  simpl. intros [= <-]. simpl. split.
  - apply (resolveImport_isFile env (moduleSpecifier importInfo) currentFilePath _ w).
    by rewrite Hresolve.
  - by eapply findVariableDeclarationInfo_line.
Qed.

Lemma resolveIdentifierAsProcedure_shape (varName currentFilePath : string)
    (sourceFile : SourceFile) (imports : gmap string ImportInfo) (w : World)
    (p : ProcedureResolution) :
  isFile env currentFilePath = true →
  fst (resolveIdentifierAsProcedure env varName currentFilePath sourceFile imports w)
  = Some p →
  isFile env (proc_filePath p) = true ∧ 0 < proc_line p.
Proof.
  intros Hfile. unfold resolveIdentifierAsProcedure, St_bind, St_ret.
  destruct (findVariableDeclarationInfo sourceFile varName)
    as [[initializer line]|] eqn:Hfind;
    [|apply resolveIdentifierAsProcedure_imported_shape].
  destruct (analyzeProcedureChain _ _ _ _ _ _ w) as [[localProc|] w1].
  - simpl. intros [= <-]. simpl. split; [exact Hfile|].
    by eapply findVariableDeclarationInfo_line.
  - apply resolveIdentifierAsProcedure_imported_shape.
Qed.

Lemma resolveIdentifierAsRouter_shape (varName currentFilePath : string)
    (imports : gmap string ImportInfo) (visited visited' : gset string)
    (w w' : World) (child : TrpcNode) :
  resolveIdentifierAsRouter env recur varName currentFilePath imports visited w
  = Done (Some child, visited') w' →
  builtTree env child.
Proof.
  unfold resolveIdentifierAsRouter.
  destruct (imports !! varName) as [importInfo|]; [|apply Hrecur].
  destruct (resolveImport env _ _ w) as [[[|c resolved]|] w1]; apply Hrecur.
Qed.

Lemma lineOf_positive (node : Node) : 0 < lineOf node.
Proof. unfold lineOf. lia. Qed.

(** The nodes that a property pushes, when the object literals below it push
    nodes of the shape. *)
Lemma parseRouterProperty_shape
    (nested : Node → string → gmap string ImportInfo → SourceFile → Build (list TrpcNode))
    (prop : Node) (filePath : string) (imports : gmap string ImportInfo)
    (sourceFile : SourceFile) (visited visited' : gset string) (w w' : World)
    (pushed : list TrpcNode) :
  isFile env filePath = true →
  (∀ arg visited0 w0 children visited1 w1,
     arg ∈ preorder prop →
     nested arg filePath imports sourceFile visited0 w0 = Done (children, visited1) w1 →
     Forall (builtTree env) children) →
  parseRouterProperty env recur nested prop filePath imports sourceFile visited w
  = Done (pushed, visited') w' →
  Forall (builtTree env) pushed.
Proof.
  intros Hfile Hnested. unfold parseRouterProperty.
  assert (Hleaf : ∀ name type line i o,
    builtShape env (mkTrpcNode name type [] (Some filePath) (Some line) i o) = true →
    Forall (builtTree env) [mkTrpcNode name type [] (Some filePath) (Some line) i o]).
  { intros. constructor; [by apply builtTree_leaf|constructor]. }
  assert (Hplaceholder : ∀ key,
    Forall (builtTree env)
      [mkTrpcNode key router [] (Some filePath) (Some (lineOf prop)) None None]).
  { intros key. apply Hleaf. unfold builtShape. simpl. rewrite Hfile. simpl.
    apply bool_decide_eq_true_2, lineOf_positive. }
  destruct prop; try (intros [= <- _ _]; constructor).
  - rename prop1 into name, prop2 into value.
    destruct (analyzeProcedureChain env value sourceFile imports filePath
                (resolveSchemaText0 env) w) as [[p|] w1].
    { intros [= <- _ _]. apply Hleaf. unfold builtShape. simpl. rewrite Hfile. simpl.
      apply bool_decide_eq_true_2, lineOf_positive. }
    destruct value; try (intros [= <- _ _]; apply Hplaceholder).
    + destruct (resolveIdentifierAsProcedure env _ _ _ _ w1) as [[p|] w2] eqn:Hproc.
      { intros [= <- _ _].
        destruct (resolveIdentifierAsProcedure_shape (getText (Identifier i0 text))
                    filePath sourceFile imports w1 p Hfile) as [Hp Hline];
          [by rewrite Hproc|].
        constructor; [|constructor]. constructor; [|constructor].
        unfold builtShape. simpl. rewrite Hp. simpl. by apply bool_decide_eq_true_2. }
      destruct (resolveIdentifierAsRouter env recur _ _ _ visited w2)
        as [[[child|] v3] w3|w3|] eqn:Hrouter; try discriminate.
      * intros [= <- _ _]. constructor; [|constructor].
        apply builtTree_set_name. by eapply resolveIdentifierAsRouter_shape.
      * intros [= <- _ _]. apply Hplaceholder.
    + destruct (isRouterCall _); [|intros [= <- _ _]; apply Hplaceholder].
      destruct arguments as [|argument arguments];
        [intros [= <- _ _]; apply Hplaceholder|].
      destruct argument; try (intros [= <- _ _]; apply Hplaceholder).
      destruct (nested _ _ _ _ _ _) as [[children v2] w2|w2|] eqn:Hrun;
        try discriminate.
      intros [= <- _ _]. constructor; [|constructor].
      apply Hnested in Hrun.
      * unfold builtTree. cbn [treeNodes]. constructor.
        -- unfold builtShape. simpl. rewrite Hfile. simpl.
           apply bool_decide_eq_true_2, lineOf_positive.
        -- apply Forall_forall. intros n Hn.
           apply list_elem_of_In, in_flat_map in Hn as (child & Hchild & Hn).
           apply list_elem_of_In in Hchild, Hn. rewrite Forall_forall in Hrun.
           specialize (Hrun child Hchild). unfold builtTree in Hrun.
           rewrite Forall_forall in Hrun. by apply Hrun.
      * rewrite preorder_unfold. apply elem_of_cons. right.
        apply list_elem_of_In, in_flat_map. eexists. split; [right; left; reflexivity|].
        apply list_elem_of_In. rewrite preorder_unfold. apply elem_of_cons. right.
        apply list_elem_of_In, in_flat_map. eexists.
        split; [right; left; reflexivity|]. apply list_elem_of_In, preorder_self.
  - rename prop into name.
    destruct (resolveIdentifierAsRouter env recur _ _ _ visited w)
      as [[[child|] v3] w3|w3|] eqn:Hrouter; try discriminate.
    + intros [= <- _ _]. constructor; [|constructor].
      apply builtTree_set_name. by eapply resolveIdentifierAsRouter_shape.
    + intros [= <- _ _]. constructor.
Qed.

(** The children that an object literal, or an object literal below it,
    pushes. *)
Lemma parseRouterObject_shape (filePath : string) (imports : gmap string ImportInfo)
    (sourceFile : SourceFile) (obj : Node) :
  isFile env filePath = true →
  ∀ arg visited w children visited' w',
    arg ∈ preorder obj →
    parseRouterObject env recur arg filePath imports sourceFile visited w
    = Done (children, visited') w' →
    Forall (builtTree env) children.
Proof.
  intros Hfile. induction obj as [obj IH] using Node_children_ind.
  intros arg visited w children visited' w' Harg.
  rewrite preorder_unfold in Harg. apply elem_of_cons in Harg as [->|Harg].
  2: { apply list_elem_of_In, in_flat_map in Harg as (c & Hc & Harg).
       apply list_elem_of_In in Hc, Harg. rewrite Forall_forall in IH.
       by apply (IH c Hc). }
  destruct obj; try (intros [= <- _ _]; constructor).
  simpl in IH. revert visited w children visited' w'.
  induction properties as [|prop properties IHprops];
    intros visited w children visited' w'.
  - rewrite parseRouterObject_nil. intros [= <- _ _]. constructor.
  - rewrite parseRouterObject_cons.
    apply Forall_cons in IH as [IHprop IH].
    destruct (parseRouterProperty env recur _ prop _ _ _ visited w)
      as [[pushed visited1] w1|w1|] eqn:Hprop; try discriminate.
    destruct (parseRouterObject env recur _ _ _ _ visited1 w1)
      as [[rest visited2] w2|w2|] eqn:Hrest; try discriminate.
    intros [= <- _ _]. apply Forall_app. split.
    + eapply parseRouterProperty_shape; [exact Hfile| |exact Hprop].
      intros arg visited0 w0 children0 visited3 w3 Harg. by apply IHprop.
    + eapply IHprops; eauto.
Qed.

(** The children that the visitor of [parseRouterFromFile] adds. *)
Lemma parseRouterFromFile_nodes_shape (routerVarName filePath : string)
    (imports : gmap string ImportInfo) (sourceFile : SourceFile) (nodes : list Node)
    (children children' : list TrpcNode) (visited visited' : gset string)
    (w w' : World) :
  isFile env filePath = true →
  Forall (builtTree env) children →
  fold_left
    (λ state node,
       fst (parseRouterFromFile_visit env recur routerVarName filePath imports
              sourceFile node state))
    nodes (Done (children, visited) w)
  = Done (children', visited') w' →
  Forall (builtTree env) children'.
Proof.
  intros Hfile. revert children visited w.
  induction nodes as [|node nodes IH]; intros children visited w Hchildren;
    cbn [fold_left].
  - by intros [= <- _ _].
  - rewrite parseRouterFromFile_visit_object.
    destruct (routerObjectOf routerVarName node) as [arg|]; [|by apply IH].
    destruct (parseRouterObject env recur arg _ _ _ visited w)
      as [[pushed visited1] w1|w1|] eqn:Hrun.
    + apply IH. apply Forall_app. split; [exact Hchildren|].
      eapply (parseRouterObject_shape _ _ _ arg Hfile arg); [apply preorder_self|].
      exact Hrun.
    + clear. induction nodes as [|n nodes IHn]; [discriminate|exact IHn].
    + clear. induction nodes as [|n nodes IHn]; [discriminate|exact IHn].
Qed.

End TreeShape.

(** The root that a call of the builder returns, and its tree. *)
Lemma parseRouterFromFile_built (env : Environment) (fuel : nat)
    (filePath routerVarName : string) (visited visited' : gset string)
    (w w' : World) (root : TrpcNode) :
  parseRouterFromFile env fuel filePath routerVarName visited w
  = Done (Some root, visited') w' →
  (∃ children,
     root = mkTrpcNode routerVarName router children (Some filePath) None None None)
  ∧ builtTree env root.
Proof.
  revert filePath routerVarName visited visited' w w' root.
  induction fuel as [|fuel IH];
    intros filePath routerVarName visited visited' w w' root; [discriminate|].
  destruct (decide (visitedKey filePath routerVarName ∈ visited)) as [Hin|Hnotin].
  { by rewrite parseRouterFromFile_visited. }
  destruct (env_fs env !! filePath) as [[d|]|] eqn:Hfile.
  - rewrite (parseRouterFromFile_expand env fuel filePath routerVarName visited w d)
      by done.
    destruct (fold_left _ _ _) as [[children visited1] w1|w1|] eqn:Hrun;
      try discriminate.
    intros [= <- _ _]. split; [by eexists|].
    assert (Hisfile : isFile env filePath = true) by (unfold isFile; by rewrite Hfile).
    apply (parseRouterFromFile_nodes_shape env (parseRouterFromFile env fuel))
      in Hrun; [|intros; by eapply IH|exact Hisfile|constructor].
    unfold builtTree. cbn [treeNodes]. constructor.
    + unfold builtShape. simpl. by rewrite Hisfile.
    + apply Forall_forall. intros n Hn.
      apply list_elem_of_In, in_flat_map in Hn as (child & Hchild & Hn).
      apply list_elem_of_In in Hchild, Hn. rewrite Forall_forall in Hrun.
      specialize (Hrun child Hchild). unfold builtTree in Hrun.
      rewrite Forall_forall in Hrun. by apply Hrun.
  - by rewrite parseRouterFromFile_directory.
  - by rewrite parseRouterFromFile_missing.
Qed.

(** On a tree whose nodes have the shape, the procedures counted below a
    node that is not a procedure are all the procedures below it. *)
Lemma countedProcedures_built (env : Environment) (node : TrpcNode) :
  builtTree env node →
  countedProcedures node
  = omap procedureKind (flat_map treeNodes (node_children node)).
Proof.
  induction node as [node IH] using TrpcNode_children_ind.
  destruct node as [? ? children ? ? ? ?]. simpl in IH. unfold builtTree.
  cbn [treeNodes countedProcedures node_children]. intros Hbuilt.
  apply Forall_cons in Hbuilt as [_ Hbuilt].
  induction children as [|child children IHchildren]; [reflexivity|].
  cbn [flat_map] in *. apply Forall_app in Hbuilt as [Hchild Hbuilt].
  apply Forall_cons in IH as [IHchild IH].
  rewrite omap_app, (IHchildren IH Hbuilt). f_equal.
  rewrite (IHchild Hchild). clear IHchildren IHchild.
  destruct child as [? type grandchildren ? ? ? ?]. cbn [treeNodes] in *.
  apply Forall_cons in Hchild as [Hshape _]. cbn [node_type omap node_children].
  unfold procedureKind at 2. cbn [node_type]. destruct type as [| |p]; try reflexivity.
  unfold builtShape in Hshape. cbn in Hshape.
  destruct grandchildren; [reflexivity|].
  by rewrite andb_false_r in Hshape.
Qed.

(** The shape of the trees of the builder.  The root that
    [parseRouterFromFile] returns is a collection with the name of the
    variable and the path of the file, without line and schemas; every node
    of its tree is a collection or a procedure, never a file node, and is in
    a file that exists; the procedures are the leaves of the tree that have
    a kind, each with a line counted from 1. *)
Theorem parseRouterFromFile_tree_shape (env : Environment) (fuel : nat)
    (filePath routerVarName : string) (visited visited' : gset string)
    (w w' : World) (root : TrpcNode)
    (Hrun : parseRouterFromFile env fuel filePath routerVarName visited w
            = Done (Some root, visited') w') :
  node_name root = routerVarName
  ∧ node_type root = router
  ∧ node_filePath root = Some filePath
  ∧ node_line root = None
  ∧ ∀ node, node ∈ treeNodes root →
      node_type node ≠ file
      ∧ (∃ p, node_filePath node = Some p ∧ isFile env p = true)
      ∧ (∀ kind, node_type node = procedure kind →
           node_children node = [] ∧ ∃ line, node_line node = Some line ∧ 0 < line)
      ∧ (node_type node = router →
           node_inputSchema node = None ∧ node_outputSchema node = None).
Proof.
  apply parseRouterFromFile_built in Hrun as [[children ->] Hbuilt].
  repeat (split; [reflexivity|]). intros node Hnode.
  unfold builtTree in Hbuilt. rewrite Forall_forall in Hbuilt.
  specialize (Hbuilt node Hnode). unfold builtShape in Hbuilt.
  destruct node as [name type grandchildren [p|] line i o]; [|done].
  cbn in Hbuilt. apply andb_true_iff in Hbuilt as [Hfile Hbuilt].
  destruct type as [| |kind]; [|done|].
  - apply andb_true_iff in Hbuilt as [Hbuilt _].
    apply andb_true_iff in Hbuilt as [Hi Ho].
    apply bool_decide_eq_true_1 in Hi, Ho. cbn.
    split; [done|]. split; [by eexists|]. split; [done|]. by intros _.
  - apply andb_true_iff in Hbuilt as [Hleaf Hline]. cbn.
    split; [done|]. split; [by eexists|]. split; [|done].
    intros kind' _. destruct grandchildren; [|done]. split; [reflexivity|].
    destruct line as [line|]; [|done]. apply bool_decide_eq_true_1 in Hline.
    by exists line.
Qed.

(** On a tree that the builder returns, [countProcedures] counts every
    procedure of the tree, whatever its depth: the count of a kind is the
    number of nodes of the tree of that kind. *)
Theorem countProcedures_built_tree (env : Environment) (fuel : nat)
    (filePath routerVarName : string) (visited visited' : gset string)
    (w w' : World) (root : TrpcNode) (p : ProcedureType)
    (Hrun : parseRouterFromFile env fuel filePath routerVarName visited w
            = Done (Some root, visited') w') :
  countOf p (countProcedures root)
  = length (filter (λ node, node_type node = procedure p) (treeNodes root)).
Proof.
  apply parseRouterFromFile_built in Hrun as [[children ->] Hbuilt].
  rewrite countProcedures_countOf.
  rewrite (countedProcedures_built env _ Hbuilt).
  cbn [node_children treeNodes]. rewrite filter_cons, decide_False by done.
  generalize (flat_map treeNodes children). clear.
  induction l as [|node l IH]; [reflexivity|].
  change (omap procedureKind (node :: l))
    with (match procedureKind node with
          | Some kind => kind :: omap procedureKind l
          | None => omap procedureKind l
          end).
  rewrite (filter_cons _ node). unfold procedureKind at 1.
  destruct (node_type node) as [| |q];
    rewrite ?decide_False by done; try exact IH.
  rewrite filter_cons.
  destruct (decide (q = p)) as [->|Hne].
  - rewrite decide_True by done. simpl. by rewrite IH.
  - rewrite decide_False by congruence. exact IH.
Qed.

(** ** Router discovery *)

Lemma uniqueStrings_go_ext (seen seen' l : list string) :
  (∀ x, x ∈ seen ↔ x ∈ seen') →
  uniqueStrings_go seen l = uniqueStrings_go seen' l.
Proof.
  revert seen seen'. induction l as [|y l IH]; intros seen seen' Hseen; [done|].
  simpl. rewrite (bool_decide_ext _ _ (Hseen y)).
  case_bool_decide; [by apply IH|]. f_equal. apply IH. intros x.
  rewrite !elem_of_cons, Hseen. tauto.
Qed.

(** The first loop of a discovery keeps the first occurrence of a file. *)
Lemma addCandidate_fold (l acc : list string) :
  fold_left addCandidate l (list_to_set acc, acc)
  = (list_to_set (acc ++ l), acc ++ uniqueStrings_go acc l).
Proof.
  revert acc. induction l as [|x l IH]; intros acc; simpl.
  - by rewrite !app_nil_r.
  - rewrite (bool_decide_ext (x ∈ (list_to_set acc : gset string)) (x ∈ acc))
      by apply elem_of_list_to_set.
    case_bool_decide as Hx.
    + rewrite IH. f_equal. apply leibniz_equiv. set_solver.
    + replace ({[x]} ∪ list_to_set acc : gset string)
        with (list_to_set (acc ++ [x]) : gset string)
        by (apply leibniz_equiv; set_solver).
      rewrite IH, <- !app_assoc. simpl. f_equal. f_equal. f_equal.
      apply uniqueStrings_go_ext. set_solver.
Qed.

Lemma addCandidate_patterns (findFiles : string → string → list string)
    (patterns : list string) (state : gset string * list string) :
  fold_left
    (λ state pattern, fold_left addCandidate (findFiles pattern NODE_MODULES_GLOB) state)
    patterns state
  = fold_left addCandidate
      (flat_map (λ pattern, findFiles pattern NODE_MODULES_GLOB) patterns) state.
Proof.
  revert state. induction patterns as [|pattern patterns IH]; intros state; [done|].
  simpl. by rewrite fold_left_app, IH.
Qed.

Lemma freshTargets_app (seen : gset string) (l1 l2 : list (string * string)) :
  freshTargets seen (l1 ++ l2)
  = freshTargets seen l1
    ++ freshTargets
         (list_to_set ((λ t, fst t +:+ ":" +:+ snd t) <$> l1) ∪ seen) l2.
Proof.
  revert seen. induction l1 as [|[f v] l1 IH]; intros seen.
  - simpl. f_equal. apply leibniz_equiv. set_solver.
  - cbn [app freshTargets fmap list_fmap fst snd].
    case_bool_decide as Hkey; rewrite IH.
    + f_equal. f_equal. apply leibniz_equiv. set_solver.
    + simpl. f_equal. f_equal. f_equal. apply leibniz_equiv. set_solver.
Qed.

(** A call of the builder on a file that exists, for a key that is not
    visited, does not return nothing. *)
Lemma parseRouterFromFile_some (env : Environment) (fuel : nat)
    (filePath routerVarName : string) (visited visited' : gset string)
    (w w' : World) (result : option TrpcNode) :
  isFile env filePath = true →
  visitedKey filePath routerVarName ∉ visited →
  parseRouterFromFile env fuel filePath routerVarName visited w
  = Done (result, visited') w' →
  ∃ root, result = Some root.
Proof.
  intros Hfile Hkey. apply isFile_lookup in Hfile as [d Hd].
  destruct fuel as [|fuel]; [discriminate|].
  rewrite (parseRouterFromFile_expand env fuel filePath routerVarName visited w d)
    by done.
  destruct (fold_left _ _ _) as [[children visited1] w1|w1|]; try discriminate.
  intros [= <- _ _]. by eexists.
Qed.


Lemma onlyLogged_refl (w : World) : onlyLogged w w.
Proof. repeat split. by exists []. Qed.

Lemma onlyLogged_trans (w w1 w2 : World) :
  onlyLogged w w1 → onlyLogged w1 w2 → onlyLogged w w2.
Proof.
  intros (H1 & H2 & H3 & H4 & new1 & H5) (H1' & H2' & H3' & H4' & new2 & H5').
  repeat split; try congruence. exists (new2 ++ new1).
  by rewrite H5', H5, app_assoc.
Qed.

Lemma onlyLogged_log (level : LogLevel) (msg : string) (w : World) :
  onlyLogged w (log level msg w).
Proof. repeat split. by exists [(level, msg)]. Qed.

Lemma builtInOrder_logged_l (env : Environment) (fuel : nat) (w w1 w2 : World)
    (targets : list (string * string)) (trees : list TrpcNode) :
  onlyLogged w w1 → builtInOrder env fuel w1 targets trees w2 →
  builtInOrder env fuel w targets trees w2.
Proof.
  intros Hlog Hbuilt. destruct Hbuilt as [w1 w2 Hlog'|w1 w0 w3 w2 f v root visited'
                                            targets trees Hlog' Hrun Hrest].
  - constructor. by eapply onlyLogged_trans.
  - econstructor; [by eapply onlyLogged_trans|exact Hrun|exact Hrest].
Qed.

Lemma builtInOrder_logged_r (env : Environment) (fuel : nat) (w w1 w2 : World)
    (targets : list (string * string)) (trees : list TrpcNode) :
  builtInOrder env fuel w targets trees w1 → onlyLogged w1 w2 →
  builtInOrder env fuel w targets trees w2.
Proof.
  intros Hbuilt Hlog. induction Hbuilt as [w w1 Hlog'|w w0 w3 w1 f v root visited'
                                             targets trees Hlog' Hrun Hrest IH].
  - constructor. by eapply onlyLogged_trans.
  - econstructor; [exact Hlog'|exact Hrun|by apply IH].
Qed.

Lemma builtInOrder_app (env : Environment) (fuel : nat) (w w1 w2 : World)
    (targets1 targets2 : list (string * string)) (trees1 trees2 : list TrpcNode) :
  builtInOrder env fuel w targets1 trees1 w1 →
  builtInOrder env fuel w1 targets2 trees2 w2 →
  builtInOrder env fuel w (targets1 ++ targets2) (trees1 ++ trees2) w2.
Proof.
  intros H1 H2. induction H1 as [w w1 Hlog|w w0 w3 w1 f v root visited'
                                   targets trees Hlog Hrun Hrest IH].
  - by eapply builtInOrder_logged_l.
  - simpl. econstructor; [exact Hlog|exact Hrun|by apply IH].
Qed.

(** The roots of the builds of a discovery are trees of the builder for
    their files. *)
Lemma builtInOrder_discoveredFrom (env : Environment) (fuel : nat) (w w' : World)
    (targets : list (string * string)) (trees : list TrpcNode) :
  builtInOrder env fuel w targets trees w' →
  Forall2 (λ tree target, discoveredFrom env (fst target) tree) trees targets.
Proof.
  induction 1 as [w w1 Hlog|w w0 w3 w1 f v root visited' targets trees Hlog Hrun
                    Hrest IH]; constructor; [|exact IH].
  apply parseRouterFromFile_built in Hrun as [[children ->] Hbuilt].
  repeat (split; [reflexivity|]). by apply (builtTree_set_name env).
Qed.

Section DiscoveryProperties.

Context (env : Environment) (findFiles : string → string → list string).
Context (fuel : nat) (Hfuel : size (reachableKeys env) + 1 < fuel).

Ltac solve_keys :=
  apply leibniz_equiv;
  repeat match goal with
    | |- context [list_to_set ?l] =>
        let X := fresh "X" in set (X := list_to_set l); clearbody X
    end;
  clear; set_solver.

#[warnings="-notation-for-abbreviation"] Local Notation keyOf :=
  (λ t : string * string, fst t +:+ ":" +:+ snd t).

(** The probe of a path that is not a directory. *)
Lemma findAppRoutersInFile_aliasTargets (filePath : string) (w : World) :
  env_fs env !! filePath ≠ Some Directory →
  ∃ w',
    findAppRoutersInFile env filePath w = Done (aliasTargets env filePath) w'
    ∧ onlyLogged w w'.
Proof.
  intros Hnotdir. unfold findAppRoutersInFile, aliasTargets.
  destruct (env_fs env !! filePath) as [[d|]|]; [|done|].
  - eexists. rewrite findAppRoutersInFile_visit_fold.
    rewrite (fold_addResult _ [] []) by done. split; [reflexivity|].
    apply onlyLogged_refl.
  - eexists. split; [reflexivity|apply onlyLogged_log].
Qed.

(** One name of a file that exists. *)
Lemma addTreesFromFile_name_step (filePath varName : string)
    (routerTrees : list TrpcNode) (parsedRouterKeys : gset string) (w : World) :
  isFile env filePath = true →
  ∃ new w',
    addTreesFromFile_name env fuel filePath (Done (routerTrees, parsedRouterKeys) w)
      varName
    = Done (routerTrees ++ new,
            {[filePath +:+ ":" +:+ varName]} ∪ parsedRouterKeys) w'
    ∧ builtInOrder env fuel w (freshTargets parsedRouterKeys [(filePath, varName)])
        new w'.
Proof.
  intros Hfile. unfold addTreesFromFile_name. cbn [freshTargets].
  case_bool_decide as Hkey.
  { exists [], w. rewrite app_nil_r. split; [|constructor; apply onlyLogged_refl].
    f_equal. f_equal. apply leibniz_equiv. clear -Hkey. set_solver. }
  destruct (parseRouterFromFile_ends env fuel filePath varName ∅ w)
    as (result & visited' & w' & Hrun & _); [|exact Hfuel|].
  { apply isFile_lookup in Hfile as [d Hd]. by rewrite Hd. }
  rewrite Hrun. pose proof Hrun as Hsome.
  apply parseRouterFromFile_some in Hsome as [root ->]; [|exact Hfile|set_solver].
  exists [set_name APP_ROUTER_DISPLAY_NAME root], w'. split; [reflexivity|].
  econstructor; [apply onlyLogged_refl|exact Hrun|].
  constructor. apply onlyLogged_refl.
Qed.

(** The names of a file that exists. *)
Lemma addTreesFromFile_names (filePath : string) (varNames : list string)
    (routerTrees : list TrpcNode) (parsedRouterKeys : gset string) (w : World) :
  isFile env filePath = true →
  ∃ new w',
    fold_left (addTreesFromFile_name env fuel filePath) varNames
      (Done (routerTrees, parsedRouterKeys) w)
    = Done (routerTrees ++ new,
            list_to_set (keyOf <$> ((λ v, (filePath, v)) <$> varNames))
            ∪ parsedRouterKeys) w'
    ∧ builtInOrder env fuel w
        (freshTargets parsedRouterKeys ((λ v, (filePath, v)) <$> varNames)) new w'.
Proof.
  intros Hfile. revert routerTrees parsedRouterKeys w.
  induction varNames as [|varName varNames IH]; intros routerTrees parsedRouterKeys w.
  - exists [], w. simpl. rewrite app_nil_r.
    split; [|constructor; apply onlyLogged_refl].
    f_equal. f_equal. solve_keys.
  - cbn [fold_left].
    destruct (addTreesFromFile_name_step filePath varName routerTrees
                parsedRouterKeys w Hfile) as (new1 & w1 & -> & Hnew1).
    destruct (IH (routerTrees ++ new1)
                ({[filePath +:+ ":" +:+ varName]} ∪ parsedRouterKeys) w1)
      as (new2 & w2 & -> & Hnew2).
    exists (new1 ++ new2), w2. split.
    + rewrite <- app_assoc. f_equal. f_equal. rewrite !fmap_cons, list_to_set_cons.
      cbn [fst snd]. solve_keys.
    + change ((λ v, (filePath, v)) <$> varName :: varNames)
        with ([(filePath, varName)] ++ ((λ v, (filePath, v)) <$> varNames)).
      rewrite freshTargets_app. eapply builtInOrder_app; [exact Hnew1|].
      replace (list_to_set (keyOf <$> [(filePath, varName)]) ∪ parsedRouterKeys)
        with ({[filePath +:+ ":" +:+ varName]} ∪ parsedRouterKeys);
        [exact Hnew2|].
      simpl. solve_keys.
Qed.

#[warnings="-notation-for-abbreviation"] Local Notation targetsOf :=
  (flat_map (λ filePath, (λ v, (filePath, v)) <$> aliasTargets env filePath)).

(** One file that is not a directory. *)
Lemma addTreesFromFile_step (filePath : string) (routerTrees : list TrpcNode)
    (parsedRouterKeys : gset string) (w : World) :
  env_fs env !! filePath ≠ Some Directory →
  ∃ new w',
    addTreesFromFile env fuel (Done (routerTrees, parsedRouterKeys) w) filePath
    = Done (routerTrees ++ new,
            list_to_set (keyOf <$> targetsOf [filePath]) ∪ parsedRouterKeys) w'
    ∧ builtInOrder env fuel w (freshTargets parsedRouterKeys (targetsOf [filePath]))
        new w'.
Proof.
  intros Hnotdir. unfold addTreesFromFile.
  destruct (findAppRoutersInFile_aliasTargets filePath w Hnotdir)
    as (w1 & -> & Hlog).
  cbn [flat_map]. rewrite app_nil_r.
  destruct (isFile env filePath) eqn:Hfile.
  { destruct (addTreesFromFile_names filePath (aliasTargets env filePath)
                routerTrees parsedRouterKeys w1 Hfile) as (new & w' & Hrun & Hnew).
    exists new, w'. split; [exact Hrun|]. by eapply builtInOrder_logged_l. }
  assert (Hnone : aliasTargets env filePath = []).
  { unfold aliasTargets. unfold isFile in Hfile.
    by destruct (env_fs env !! filePath) as [[d|]|]. }
  rewrite Hnone. exists [], w1. simpl. rewrite app_nil_r.
  split; [|by constructor].
  f_equal. f_equal. solve_keys.
Qed.

(** The files of a loop of a discovery, none of them a directory. *)
Lemma addTreesFromFile_files (files : list string) (routerTrees : list TrpcNode)
    (parsedRouterKeys : gset string) (w : World) :
  Forall (λ filePath, env_fs env !! filePath ≠ Some Directory) files →
  ∃ new w',
    fold_left (addTreesFromFile env fuel) files
      (Done (routerTrees, parsedRouterKeys) w)
    = Done (routerTrees ++ new,
            list_to_set (keyOf <$> targetsOf files) ∪ parsedRouterKeys) w'
    ∧ builtInOrder env fuel w (freshTargets parsedRouterKeys (targetsOf files))
        new w'.
Proof.
  intros Hfiles. revert routerTrees parsedRouterKeys w.
  induction Hfiles as [|filePath files Hnotdir _ IH];
    intros routerTrees parsedRouterKeys w.
  - exists [], w. simpl. rewrite app_nil_r.
    split; [|constructor; apply onlyLogged_refl].
    f_equal. f_equal. solve_keys.
  - cbn [fold_left].
    destruct (addTreesFromFile_step filePath routerTrees parsedRouterKeys w Hnotdir)
      as (new1 & w1 & -> & Hnew1).
    destruct (IH (routerTrees ++ new1)
                (list_to_set (keyOf <$> targetsOf [filePath]) ∪ parsedRouterKeys) w1)
      as (new2 & w2 & -> & Hnew2).
    exists (new1 ++ new2), w2.
    change (targetsOf (filePath :: files))
      with (((λ v, (filePath, v)) <$> aliasTargets env filePath) ++ targetsOf files).
    cbn [flat_map] in *. rewrite app_nil_r in *. split.
    + rewrite <- app_assoc. f_equal. f_equal. rewrite fmap_app, list_to_set_app_L.
      solve_keys.
    + rewrite freshTargets_app. by eapply builtInOrder_app.
Qed.

Lemma addTreesFromOtherFile_filter (prioritized files : list string)
    (state : Discovery) :
  fold_left (addTreesFromOtherFile env fuel (list_to_set prioritized)) files state
  = fold_left (addTreesFromFile env fuel)
      (filter (λ fsPath, fsPath ∉ prioritized) files) state.
Proof.
  revert state. induction files as [|fsPath files IH]; intros state; [done|].
  cbn [fold_left]. unfold addTreesFromOtherFile at 2. rewrite filter_cons.
  rewrite (bool_decide_ext (fsPath ∈ (list_to_set prioritized : gset string))
             (fsPath ∈ prioritized)) by apply elem_of_list_to_set.
  case_bool_decide as Hin.
  - rewrite decide_False by tauto. apply IH.
  - rewrite decide_True by done. apply IH.
Qed.

(** The two loops of a discovery, one after the other. *)
Lemma discoverAppRouterTrees_runs (w : World)
    (Hfiles : ∀ pattern fsPath,
       fsPath ∈ findFiles pattern NODE_MODULES_GLOB →
       env_fs env !! fsPath ≠ Some Directory) :
  ∃ trees w',
    discoverAppRouterTrees env findFiles fuel w = Done trees w'
    ∧ builtInOrder env fuel w (freshTargets ∅ (discoveryTargets env findFiles))
        trees w'.
Proof.
  unfold discoverAppRouterTrees, discoveryTargets, discoveryFiles.
  rewrite addCandidate_patterns.
  change (∅, []) with (list_to_set (C:=gset string) (@nil string), @nil string).
  rewrite addCandidate_fold. cbn [app]. fold (uniqueStrings
    (flat_map (λ pattern, findFiles pattern NODE_MODULES_GLOB)
       ROUTER_DISCOVERY_PATTERNS)).
  set (prioritized := uniqueStrings _).
  set (found := flat_map _ ROUTER_DISCOVERY_PATTERNS).
  assert (Hset : (list_to_set found : gset string) = list_to_set prioritized).
  { apply leibniz_equiv. intros x. rewrite !elem_of_list_to_set.
    unfold prioritized, uniqueStrings. rewrite uniqueStrings_go_elem.
    split; [|tauto]. intros Hx. split; [exact Hx|apply not_elem_of_nil]. }
  rewrite Hset. clear Hset.
  assert (Hprioritized : Forall (λ p, env_fs env !! p ≠ Some Directory) prioritized).
  { apply Forall_forall. intros p Hp. unfold prioritized, uniqueStrings in Hp.
    apply uniqueStrings_go_elem in Hp as [Hp _].
    apply list_elem_of_In, in_flat_map in Hp as (pattern & _ & Hp).
    by apply (Hfiles pattern), list_elem_of_In. }
  destruct (addTreesFromFile_files prioritized [] ∅
              (log INFO "Starting discovery of AppRouter trees" w) Hprioritized)
    as (new1 & w1 & -> & Hnew1).
  rewrite addTreesFromOtherFile_filter.
  destruct (addTreesFromFile_files
              (filter (λ fsPath, fsPath ∉ prioritized)
                 (findFiles "**/*.ts" NODE_MODULES_GLOB))
              ([] ++ new1) (list_to_set (keyOf <$> targetsOf prioritized) ∪ ∅) w1)
    as (new2 & w2 & -> & Hnew2).
  { apply Forall_forall. intros p Hp. apply list_elem_of_filter in Hp as [_ Hp].
    by apply (Hfiles "**/*.ts"). }
  eexists _, _. split; [reflexivity|]. rewrite flat_map_app, freshTargets_app.
  simpl. eapply builtInOrder_logged_l; [apply onlyLogged_log|].
  eapply builtInOrder_app; [exact Hnew1|].
  eapply builtInOrder_logged_r; [exact Hnew2|apply onlyLogged_log].
Qed.

Lemma discoverAppRouterTrees_ok (w : World)
    (Hfiles : ∀ pattern fsPath,
       fsPath ∈ findFiles pattern NODE_MODULES_GLOB →
       env_fs env !! fsPath ≠ Some Directory) :
  ∃ trees w',
    discoverAppRouterTrees env findFiles fuel w = Done trees w'
    ∧ Forall2 (λ tree target, discoveredFrom env (fst target) tree) trees
        (freshTargets ∅ (discoveryTargets env findFiles)).
Proof.
  destruct (discoverAppRouterTrees_runs w Hfiles) as (trees & w' & Hrun & Hbuilt).
  exists trees, w'. split; [exact Hrun|]. by eapply builtInOrder_discoveredFrom.
Qed.

(** A discovery ends with its trees, one for each pair of a probed file and
    a name found in it, in the order of the files (those of the priority
    patterns first) and of the names, a pair whose key was met before being
    left out.  The tree of a pair is the root that the builder returns for
    the file and the name of the pair, from an empty visited set and in the
    state of the process that the builds before it left, under the display
    name [AppRouter]; so that each tree has the shape of the trees of the
    builder. *)
Theorem discoverAppRouterTrees_trees (w : World)
    (Hfiles : ∀ pattern fsPath,
       fsPath ∈ findFiles pattern NODE_MODULES_GLOB →
       env_fs env !! fsPath ≠ Some Directory) :
  ∃ trees w',
    discoverAppRouterTrees env findFiles fuel w = Done trees w'
    ∧ builtInOrder env fuel w (freshTargets ∅ (discoveryTargets env findFiles))
        trees w'
    ∧ Forall2 (λ tree target, discoveredFrom env (fst target) tree) trees
        (freshTargets ∅ (discoveryTargets env findFiles)).
Proof.
  destruct (discoverAppRouterTrees_runs w Hfiles) as (trees & w' & Hrun & Hbuilt).
  exists trees, w'. split; [exact Hrun|]. split; [exact Hbuilt|].
  by eapply builtInOrder_discoveredFrom.
Qed.

End DiscoveryProperties.

(** The discovery of the scenario of the specification. *)
Lemma discoverAppRouterTrees_scenario :
  ∃ w',
    discoverAppRouterTrees (Examples.envOfFiles Examples.scenarioProject)
      Examples.scenarioFindFiles 3 Examples.emptyWorld
    = Done
        [ mkTrpcNode "AppRouter" router
            [ mkTrpcNode "list" (procedure query) [] (Some "/p/root.ts")
                (Some 3) None (Some "number");
              mkTrpcNode "byId" (procedure query) [] (Some "/p/root.ts")
                (Some 4) (Some "z.string()") (Some "number") ]
            (Some "/p/root.ts") None None None ] w'.
Proof. eexists. vm_compute. reflexivity. Qed.

Lemma discoverAppRouterTrees_trees_witness :
  ∃ trees w',
    discoverAppRouterTrees (Examples.envOfFiles Examples.scenarioProject)
      Examples.scenarioFindFiles 29 Examples.emptyWorld
    = Done trees w'
    ∧ builtInOrder (Examples.envOfFiles Examples.scenarioProject) 29
        Examples.emptyWorld
        (freshTargets ∅
           (discoveryTargets (Examples.envOfFiles Examples.scenarioProject)
              Examples.scenarioFindFiles))
        trees w'
    ∧ Forall2
        (λ tree target,
           discoveredFrom (Examples.envOfFiles Examples.scenarioProject)
             (fst target) tree)
        trees
        (freshTargets ∅
           (discoveryTargets (Examples.envOfFiles Examples.scenarioProject)
              Examples.scenarioFindFiles)).
Proof.
  apply (discoverAppRouterTrees_trees (Examples.envOfFiles Examples.scenarioProject)
           Examples.scenarioFindFiles 29).
  - vm_compute. lia.
  - intros pattern fsPath H. unfold Examples.scenarioFindFiles in H.
    case_bool_decide; [|by apply elem_of_nil in H].
    apply list_elem_of_singleton in H as ->. vm_compute. discriminate.
Defined.

(** ** The tree view: grouping by file *)

Lemma uniqueStrings_go_snoc (seen l : list string) (x : string) :
  uniqueStrings_go seen (l ++ [x])
  = uniqueStrings_go seen l
    ++ (if bool_decide (x ∈ seen ∨ x ∈ l) then [] else [x]).
Proof.
  revert seen. induction l as [|y l IH]; intros seen; simpl.
  - rewrite (bool_decide_ext (x ∈ seen ∨ x ∈ []) (x ∈ seen)) by set_solver.
    by case_bool_decide.
  - case_bool_decide as Hy; rewrite IH; simpl.
    + f_equal. rewrite (bool_decide_ext (x ∈ seen ∨ x ∈ y :: l) (x ∈ seen ∨ x ∈ l));
        [done|set_solver].
    + f_equal. f_equal.
      rewrite (bool_decide_ext (x ∈ seen ∨ x ∈ y :: l) (x ∈ y :: seen ∨ x ∈ l));
        [done|set_solver].
Qed.

Lemma mapGet_fmap {V : Type} (h : string → V) (keys : list string) (key : string) :
  mapGet key ((λ k, (k, h k)) <$> keys)
  = if bool_decide (key ∈ keys) then Some (h key) else None.
Proof.
  unfold mapGet. induction keys as [|k keys IH]; [reflexivity|].
  cbn [fmap list_fmap find fst]. destruct (String.eqb_spec k key) as [->|Hne].
  - by rewrite bool_decide_eq_true_2 by (by left).
  - cbn [fmap list_fmap] in IH. rewrite IH.
    by rewrite (bool_decide_ext (key ∈ k :: keys) (key ∈ keys)) by set_solver.
Qed.

Lemma mapSet_fmap {V : Type} (h : string → V) (keys : list string) (key : string)
    (value : V) :
  NoDup keys →
  mapSet key value ((λ k, (k, h k)) <$> keys)
  = if bool_decide (key ∈ keys)
    then (λ k, (k, if bool_decide (k = key) then value else h k)) <$> keys
    else ((λ k, (k, h k)) <$> keys) ++ [(key, value)].
Proof.
  induction 1 as [|k keys Hk _ IH]; [reflexivity|].
  cbn [fmap list_fmap mapSet]. destruct (String.eqb_spec k key) as [->|Hne].
  - rewrite bool_decide_eq_true_2 by (by left).
    rewrite (bool_decide_eq_true_2 (key = key)) by done. f_equal.
    apply map_ext_in. intros k Hin. apply list_elem_of_In in Hin.
    rewrite bool_decide_eq_false_2; [done|]. by intros ->.
  - cbn [fmap list_fmap] in IH. rewrite IH.
    rewrite (bool_decide_ext (key ∈ k :: keys) (key ∈ keys)) by set_solver.
    rewrite (bool_decide_eq_false_2 (k = key)) by done.
    by case_bool_decide.
Qed.

#[warnings="-notation-for-abbreviation"] Local Notation fileKey :=
  (λ tree : TrpcNode, default EmptyString (node_filePath tree)).

(** The groups of the loop of [getChildren]: one group for each file, in
    the order of the first trees of the files, each with the trees of its
    file in their order. *)
Lemma groupByFile_groups (trees : list TrpcNode) :
  groupByFile trees
  = (λ key, (key, filter (λ tree, fileKey tree = key) trees))
    <$> uniqueStrings (fileKey <$> trees).
Proof.
  induction trees as [|tree trees IH] using rev_ind; [reflexivity|].
  unfold groupByFile in *. rewrite fold_left_app. cbn [fold_left]. rewrite IH.
  clear IH. set (key := fileKey tree).
  rewrite mapGet_fmap, mapSet_fmap by apply uniqueStrings_go_NoDup.
  rewrite fmap_app. cbn [fmap list_fmap]. fold key.
  unfold uniqueStrings. rewrite uniqueStrings_go_snoc.
  rewrite (bool_decide_ext (key ∈ [] ∨ key ∈ fileKey <$> trees)
             (key ∈ fileKey <$> trees)) by set_solver.
  rewrite (bool_decide_ext (key ∈ uniqueStrings_go [] (fileKey <$> trees))
             (key ∈ fileKey <$> trees)).
  2: { rewrite uniqueStrings_go_elem. split; [tauto|].
       intros H. split; [exact H|apply not_elem_of_nil]. }
  case_bool_decide as Hkey.
  - rewrite app_nil_r. cbn [default]. apply map_ext_in. intros k _.
    rewrite filter_app, filter_cons, filter_nil. fold key.
    case_bool_decide as Hk.
    + subst k. by rewrite decide_True.
    + rewrite decide_False by done. by rewrite app_nil_r.
  - cbn [default]. rewrite fmap_app. cbn [fmap list_fmap]. f_equal.
    + apply map_ext_in. intros k Hk. apply list_elem_of_In in Hk.
      apply uniqueStrings_go_elem in Hk as [Hk _].
      rewrite filter_app, filter_cons, filter_nil. fold key.
      rewrite decide_False by (by intros <-). by rewrite app_nil_r.
    + rewrite filter_app, filter_cons, filter_nil, decide_True by done.
      f_equal. f_equal. symmetry.
      replace (filter (λ tree0, fileKey tree0 = key) trees) with (@nil TrpcNode);
        [reflexivity|].
      symmetry. clear -Hkey. induction trees as [|t trees IH]; [reflexivity|].
      rewrite filter_cons, decide_False by set_solver. apply IH. set_solver.
Qed.

Lemma filter_fileKey_none (key : string) (trees : list TrpcNode) :
  key ∉ fileKey <$> trees → filter (λ tree, fileKey tree = key) trees = [].
Proof.
  induction trees as [|t trees IH]; [reflexivity|]. intros Hkey.
  rewrite filter_cons, decide_False by set_solver. apply IH. set_solver.
Qed.

Lemma flat_map_ext_elem {A B : Type} (f g : A → list B) (l : list A) :
  (∀ x, x ∈ l → f x = g x) → flat_map f l = flat_map g l.
Proof.
  induction l as [|x l IH]; intros H; [reflexivity|]. simpl.
  rewrite (H x) by (by left). rewrite IH; [done|]. intros y Hy. apply H. by right.
Qed.

(** The groups of distinct keys that cover the trees hold each tree once. *)
Lemma grouped_permutation (trees : list TrpcNode) (keys : list string) :
  NoDup keys →
  (∀ tree, tree ∈ trees → fileKey tree ∈ keys) →
  flat_map (λ key, filter (λ tree, fileKey tree = key) trees) keys ≡ₚ trees.
Proof.
  intros Hnodup. induction trees as [|tree trees IH]; intros Hkeys.
  - induction keys as [|k keys IHk]; [reflexivity|]. simpl. apply IHk.
    + by apply NoDup_cons in Hnodup as [_ ?].
    + intros tree Htree. by apply elem_of_nil in Htree.
  - transitivity
      (tree :: flat_map (λ key, filter (λ t, fileKey t = key) trees) keys);
      [|constructor; apply IH; intros t Ht; apply Hkeys; by right].
    specialize (Hkeys tree ltac:(by left)). clear IH.
    induction Hnodup as [|k keys Hk Hnodup IHk]; [by apply elem_of_nil in Hkeys|].
    cbn [flat_map]. rewrite filter_cons.
    destruct (decide (fileKey tree = k)) as [Heq|Hne].
    + simpl. constructor. apply Permutation_app; [reflexivity|].
      erewrite flat_map_ext_elem; [reflexivity|]. intros k' Hk'.
      rewrite filter_cons, decide_False; [done|].
      intros Hk''. apply Hk. by rewrite <- Heq, Hk''.
    + rewrite IHk by set_solver. by rewrite Permutation_middle.
Qed.

Section GroupItems.

Context (trees : list TrpcNode) (Htrees : Forall viewable trees).

Lemma groupByFile_group (key : string) :
  key ∈ uniqueStrings (fileKey <$> trees) →
  ∃ first rest,
    filter (λ tree, fileKey tree = key) trees = first :: rest
    ∧ truthy key = true
    ∧ Forall (λ tree, node_type tree = router) (first :: rest).
Proof.
  intros Hkey. apply uniqueStrings_go_elem in Hkey as [Hkey _].
  apply list_elem_of_fmap in Hkey as (tree & -> & Htree).
  assert (Hin : tree ∈ filter (λ t, fileKey t = fileKey tree) trees)
    by (by apply list_elem_of_filter).
  rewrite Forall_forall in Htrees.
  destruct (Htrees tree Htree) as (_ & filePath & Hpath & Hne).
  destruct (filter _ trees) as [|first rest] eqn:Hgroup; [by apply elem_of_nil in Hin|].
  exists first, rest. split; [reflexivity|]. split.
  - rewrite Hpath. simpl. by destruct filePath.
  - apply Forall_forall. intros t Ht. rewrite <- Hgroup in Ht.
    apply list_elem_of_filter in Ht as [_ Ht]. by apply Htrees.
Qed.

(** The items of the groups show every tree once. *)
Lemma groupItem_shown :
  flat_map shownTrees (flat_map groupItem (groupByFile trees)) ≡ₚ trees.
Proof.
  rewrite groupByFile_groups.
  etrans; [|apply (grouped_permutation trees (uniqueStrings (fileKey <$> trees)))].
  2: apply uniqueStrings_go_NoDup.
  2: { intros tree Htree. apply uniqueStrings_go_elem. split; [|apply not_elem_of_nil].
       apply list_elem_of_fmap. by exists tree. }
  pose proof groupByFile_group as Hitem.
  revert Hitem. generalize (uniqueStrings (fileKey <$> trees)). intros keys Hitem.
  induction keys as [|key keys IH]; [reflexivity|].
  cbn [fmap list_fmap flat_map]. rewrite flat_map_app.
  rewrite IH by (intros k Hk; apply Hitem; by right).
  apply Permutation_app; [|reflexivity].
  destruct (Hitem key ltac:(by left)) as (first & rest & -> & Htruthy & Hrouters).
  unfold groupItem. rewrite Htruthy. cbn [negb orb].
  apply Forall_cons in Hrouters as [Hfirst _].
  case_bool_decide as Hone.
  - destruct rest; [|done]. simpl. unfold shownTrees. simpl. by rewrite Hfirst.
  - simpl. by rewrite app_nil_r.
Qed.

(** The nodes of the items: for each file, its tree or a file node. *)
Lemma groupItem_nodes :
  item_node <$> flat_map groupItem (groupByFile trees)
  = (λ filePath,
       let group := filter (λ tree, fileKey tree = filePath) trees in
       match group with
       | [tree] => tree
       | _ => mkTrpcNode (path_basename filePath) file group (Some filePath)
                None None None
       end) <$> uniqueStrings (fileKey <$> trees).
Proof.
  rewrite groupByFile_groups. pose proof groupByFile_group as Hitem.
  revert Hitem. generalize (uniqueStrings (fileKey <$> trees)). intros keys Hitem.
  induction keys as [|key keys IH]; [reflexivity|].
  cbn [fmap list_fmap flat_map]. rewrite fmap_app.
  rewrite IH by (intros k Hk; apply Hitem; by right). clear IH.
  destruct (Hitem key ltac:(by left)) as (first & rest & -> & Htruthy & Hrouters).
  unfold groupItem. rewrite Htruthy. cbn [negb orb].
  case_bool_decide as Hone.
  - by destruct rest.
  - destruct rest; [done|]. reflexivity.
Qed.

(** Every item can be unfolded and has the icon of its type. *)
Lemma groupItem_flags :
  Forall (λ item, item_collapsible item = true ∧ item_warning item = false)
    (flat_map groupItem (groupByFile trees)).
Proof.
  rewrite groupByFile_groups. apply Forall_forall. intros item Hitems.
  apply list_elem_of_In, in_flat_map in Hitems as ([key group] & Hgroup & Hitems).
  apply list_elem_of_In in Hgroup, Hitems.
  apply list_elem_of_fmap in Hgroup as (key' & [= -> ->] & Hkey).
  destruct (groupByFile_group key' Hkey) as (first & rest & Hfilter & Htruthy & Hrouters).
  unfold groupItem in Hitems. rewrite Hfilter, Htruthy in Hitems.
  cbn [negb orb] in Hitems. apply Forall_cons in Hrouters as [Hfirst _].
  case_bool_decide; apply list_elem_of_singleton in Hitems as ->;
    unfold newTrpcTreeItem; simpl; [by rewrite Hfirst|done].
Qed.

End GroupItems.

Section TreeView.

Context (env : Environment) (findFiles : string → string → list string).
Context (fuel : nat).

(** The items of the root of the tree view, when the trees are cached.
    Without trees there is one item, the warning that no router was found.
    Otherwise there is one item for each file of the trees, in the order of
    the first trees of the files: the tree of the file when it is alone, a
    file node over the trees of the file when they are more; so that the
    items show every tree once. *)
Theorem getChildren_root (trees : list TrpcNode) (w : World)
    (Htrees : Forall viewable trees) :
  ∃ items w',
    getChildren env findFiles fuel true None (Some trees) w
    = Done (items, Some trees) w'
    ∧ (trees = [] →
       items = [createNoResultItem
                  "No AppRouter found. Export type AppRouter = typeof appRouter"])
    ∧ (trees ≠ [] →
       flat_map shownTrees items ≡ₚ trees
       ∧ (item_node <$> items)
         = (λ filePath,
              let group := filter (λ tree, fileKey tree = filePath) trees in
              match group with
              | [tree] => tree
              | _ => mkTrpcNode (path_basename filePath) file group (Some filePath)
                       None None None
              end) <$> uniqueStrings (fileKey <$> trees)
       ∧ Forall (λ item, item_collapsible item = true ∧ item_warning item = false)
           items).
Proof.
  unfold getChildren, resolveTrees. cbn [negb].
  destruct trees as [|tree0 trees0] eqn:Htrees0; [by eexists _, _|].
  rewrite <- Htrees0 in *. eexists _, _. split; [by rewrite Htrees0|].
  split; [by rewrite Htrees0|]. intros _.
  split; [by apply groupItem_shown|].
  split; [by apply groupItem_nodes|by apply groupItem_flags].
Qed.

End TreeView.

(** A tree of a discovery can be shown, when no file has the empty path. *)
Lemma discoveredFrom_viewable (env : Environment) (filePath : string)
    (tree : TrpcNode) :
  env_fs env !! EmptyString = None →
  discoveredFrom env filePath tree → viewable tree.
Proof.
  intros Hempty (_ & Htype & Hpath & _ & Hbuilt). split; [exact Htype|].
  exists filePath. split; [exact Hpath|]. intros ->.
  destruct tree. apply Forall_cons in Hbuilt as [Hshape _].
  simpl in Hpath. subst. unfold builtShape, isFile in Hshape. simpl in Hshape.
  by rewrite Hempty in Hshape.
Qed.

(** The root of the tree view of a provider without cached trees: the
    provider runs a discovery, keeps its trees, and shows each of them
    once, alone or below the node of its file; or the warning that no
    router was found when the discovery has no tree. *)
Theorem getChildren_discovery (env : Environment)
    (findFiles : string → string → list string) (fuel : nat) (w : World)
    (Hfuel : size (reachableKeys env) + 1 < fuel)
    (Hfiles : ∀ pattern fsPath,
       fsPath ∈ findFiles pattern NODE_MODULES_GLOB →
       env_fs env !! fsPath ≠ Some Directory)
    (Hempty : env_fs env !! EmptyString = None) :
  ∃ trees items w0 w',
    discoverAppRouterTrees env findFiles fuel w = Done trees w0
    ∧ getChildren env findFiles fuel true None None w = Done (items, Some trees) w'
    ∧ (trees = [] →
       items = [createNoResultItem
                  "No AppRouter found. Export type AppRouter = typeof appRouter"])
    ∧ (trees ≠ [] → flat_map shownTrees items ≡ₚ trees).
Proof.
  destruct (discoverAppRouterTrees_ok env findFiles fuel Hfuel w Hfiles)
    as (trees & w0 & Hrun & Htrees).
  assert (Hviewable : Forall viewable trees).
  { clear Hrun. induction Htrees as [|tree target trees targets Hfrom _ IH];
      constructor; [by eapply discoveredFrom_viewable|exact IH]. }
  unfold getChildren, resolveTrees. cbn [negb]. rewrite Hrun.
  destruct trees as [|tree0 trees0] eqn:Htrees0; [by eexists _, _, _, _|].
  rewrite <- Htrees0 in *. eexists trees, _, _, _. split; [reflexivity|].
  split; [by rewrite Htrees0|]. split; [by rewrite Htrees0|]. intros _.
  by apply groupItem_shown.
Qed.

(** ** Informative types *)

Lemma rev_app_append (s1 s2 : string) :
  String.rev_app s1 s2 = String.rev s1 +:+ s2.
Proof.
  unfold String.rev. revert s2. induction s1 as [|c s1 IH]; intros s2; [reflexivity|].
  simpl. rewrite (IH (String c s2)), (IH (String c EmptyString)).
  by rewrite append_assoc.
Qed.

Lemma list_ascii_of_string_append (s1 s2 : string) :
  list_ascii_of_string (s1 +:+ s2)
  = list_ascii_of_string s1 ++ list_ascii_of_string s2.
Proof. induction s1 as [|c s1 IH]; [reflexivity|]. simpl. by rewrite <- IH. Qed.

Lemma list_ascii_of_string_rev (s : string) :
  list_ascii_of_string (String.rev s) = rev (list_ascii_of_string s).
Proof.
  induction s as [|c s IH]; [reflexivity|].
  unfold String.rev. simpl. rewrite rev_app_append, list_ascii_of_string_append.
  by rewrite IH.
Qed.

Lemma string_rev_involutive (s : string) : String.rev (String.rev s) = s.
Proof.
  rewrite <- (string_of_list_ascii_of_string (String.rev (String.rev s))).
  rewrite !list_ascii_of_string_rev, rev_involutive.
  apply string_of_list_ascii_of_string.
Qed.

Lemma dropWhile_none (f : ascii → bool) (s : string) :
  Forall (λ c, f c = false) (list_ascii_of_string s) → dropWhile f s = s.
Proof.
  destruct s as [|c s]; [done|]. simpl. intros H.
  apply Forall_cons in H as [Hc _]. by rewrite Hc.
Qed.

Lemma removeWhitespace_spaces (s : string) :
  Forall (λ c, Ascii.is_space c = false) (list_ascii_of_string (removeWhitespace s)).
Proof.
  induction s as [|c s IH]; [constructor|]. simpl.
  destruct (Ascii.is_space c) eqn:Hc; [exact IH|]. by constructor.
Qed.

(** Without white space there is nothing to trim. *)
Lemma trim_removeWhitespace (s : string) :
  trim (removeWhitespace s) = removeWhitespace s.
Proof.
  unfold trim. rewrite (dropWhile_none _ (removeWhitespace s))
    by apply removeWhitespace_spaces.
  rewrite dropWhile_none; [apply string_rev_involutive|].
  rewrite list_ascii_of_string_rev. apply Forall_rev, removeWhitespace_spaces.
Qed.

Lemma removeWhitespace_append (s1 s2 : string) :
  removeWhitespace (s1 +:+ s2) = removeWhitespace s1 +:+ removeWhitespace s2.
Proof.
  induction s1 as [|c s1 IH]; [reflexivity|]. rewrite append_cons. simpl.
  rewrite IH. by destruct (Ascii.is_space c).
Qed.

Lemma removeWhitespace_idemp (s : string) :
  removeWhitespace (removeWhitespace s) = removeWhitespace s.
Proof.
  induction s as [|c s IH]; [reflexivity|]. simpl.
  destruct (Ascii.is_space c) eqn:Hc; [exact IH|]. simpl. by rewrite Hc, IH.
Qed.

(** A type is not informative when it is empty once its white space is
    removed, or when all the members of the union are not informative. *)
Lemma isNonInformativeInferredType_parts (typeText : string) :
  isNonInformativeInferredType typeText
  = negb (truthy (removeWhitespace typeText))
    || forallb isNonInformativePart (split_on "|" (removeWhitespace typeText)).
Proof.
  unfold isNonInformativeInferredType. rewrite trim_removeWhitespace.
  destruct (truthy (removeWhitespace typeText)); [|reflexivity]. simpl.
  pose proof (split_on_nonempty "|" (removeWhitespace typeText)).
  by destruct (split_on _ _).
Qed.

Lemma isNonInformativeInferredType_members (typeText : string) :
  isNonInformativeInferredType typeText = false →
  forallb isNonInformativePart (split_on "|" (removeWhitespace typeText)) = false.
Proof.
  rewrite isNonInformativeInferredType_parts. by intros [_ ?]%orb_false_iff.
Qed.

Lemma isNonInformativeInferredType_union_parts (a b : string) :
  isNonInformativeInferredType (a +:+ " | " +:+ b)
  = forallb isNonInformativePart (split_on "|" (removeWhitespace a))
    && forallb isNonInformativePart (split_on "|" (removeWhitespace b)).
Proof.
  rewrite isNonInformativeInferredType_parts, !removeWhitespace_append.
  change (removeWhitespace " | ") with "|".
  change ("|" +:+ removeWhitespace b) with (String "|" (removeWhitespace b)).
  rewrite split_on_app, forallb_app.
  replace (truthy (removeWhitespace a +:+ String "|" (removeWhitespace b))) with true;
    [reflexivity|].
  by destruct (removeWhitespace a).
Qed.

(** The union of two types is informative as soon as one of the two is;
    the union of two types that are not informative, and not empty, is not
    informative; and white space does not count. *)
Theorem isNonInformativeInferredType_union (a b : string) :
  (isNonInformativeInferredType a = false ∨ isNonInformativeInferredType b = false →
   isNonInformativeInferredType (a +:+ " | " +:+ b) = false)
  ∧ (truthy (removeWhitespace a) = true → truthy (removeWhitespace b) = true →
     isNonInformativeInferredType (a +:+ " | " +:+ b)
     = isNonInformativeInferredType a && isNonInformativeInferredType b)
  ∧ isNonInformativeInferredType (removeWhitespace a) = isNonInformativeInferredType a.
Proof.
  split; [|split].
  - rewrite isNonInformativeInferredType_union_parts.
    intros [H|H]; apply isNonInformativeInferredType_members in H; rewrite H;
      [reflexivity|apply andb_false_r].
  - intros Ha Hb. rewrite isNonInformativeInferredType_union_parts.
    rewrite !isNonInformativeInferredType_parts, Ha, Hb. reflexivity.
  - by rewrite !isNonInformativeInferredType_parts, removeWhitespace_idemp.
Qed.

Lemma isNonInformativeInferredType_join (types : list string) :
  types ≠ [] →
  Forall (λ t, isNonInformativeInferredType t = false) types →
  isNonInformativeInferredType (join " | " types) = false.
Proof.
  intros Hne Hall. induction Hall as [|t types Ht Hall IH]; [done|].
  destruct types as [|t' types]; [exact Ht|].
  change (join " | " (t :: t' :: types)) with (t +:+ " | " +:+ join " | " (t' :: types)).
  rewrite isNonInformativeInferredType_union_parts.
  by rewrite (isNonInformativeInferredType_members t Ht).
Qed.

Lemma joinUnion_informative (types : list string) :
  types ≠ [] →
  Forall (λ t, isNonInformativeInferredType t = false) types →
  isNonInformativeInferredType (joinUnion types) = false.
Proof.
  intros Hne Hall. unfold joinUnion. destruct types as [|single [|second types]].
  - done.
  - by apply Forall_cons in Hall as [? _].
  - by apply isNonInformativeInferredType_join.
Qed.

Section Inference.

Context (env : Environment).

Lemma inferOutputSchemaFromResolver_types_informative
    (returnExpressions : list Node) (sourceFile : SourceFile) (filePath : string)
    (inputSchema : option string) (w : World) :
  Forall (λ t, isNonInformativeInferredType t = false)
    (fst (inferOutputSchemaFromResolver_types env returnExpressions sourceFile
            filePath inputSchema w)).
Proof.
  revert w. induction returnExpressions as [|expr returnExpressions IH]; intros w;
    [constructor|].
  cbn [inferOutputSchemaFromResolver_types]. unfold St_bind, St_ret.
  match goal with
  | |- context [let '(a, w') := ?m w in _] => destruct (m w) as [inferred w1]
  end.
  specialize (IH w1).
  destruct (inferOutputSchemaFromResolver_types env returnExpressions sourceFile
              filePath inputSchema w1) as [inferredTypes w2].
  simpl in IH. destruct inferred as [[|c inferred]|]; try exact IH.
  destruct (isNonInformativeInferredType (String c inferred)) eqn:Hinformative;
    simpl; [exact IH|by constructor].
Qed.

Lemma inferOutputSchemaFromResolver_result (node : Node)
    (sourceFile : SourceFile) (filePath : string) (inputSchema : option string)
    (w : World) (inferred : string)
    (Hinferred : fst (inferOutputSchemaFromResolver env node sourceFile filePath
                        inputSchema w) = Some inferred) :
  isNonInformativeInferredType inferred = false ∧ truthy inferred = true.
Proof.
  assert (Hinformative : isNonInformativeInferredType inferred = false).
  { revert Hinferred. unfold inferOutputSchemaFromResolver, St_bind, St_ret.
    destruct node; try discriminate.
    destruct arguments as [|resolver arguments]; [discriminate|].
    destruct resolver; try discriminate.
    all: destruct (collectReturnExpressions _) as [|expr returnExpressions];
      [discriminate|].
    all: pose proof (inferOutputSchemaFromResolver_types_informative
                       (expr :: returnExpressions) sourceFile filePath inputSchema w)
      as Htypes.
    all: destruct (inferOutputSchemaFromResolver_types env (expr :: returnExpressions)
                     sourceFile filePath inputSchema w) as [inferredTypes w1].
    all: simpl in Htypes; destruct inferredTypes as [|t inferredTypes];
      [discriminate|].
    all: unfold logDebug; cbn [fst]; intros [= <-].
    all: change (isNonInformativeInferredType
                   (joinUnion (uniqueStrings (t :: inferredTypes))) = false).
    all: apply joinUnion_informative; [done|].
    all: apply Forall_forall; intros x Hx; apply uniqueStrings_go_elem in Hx as [Hx _].
    all: rewrite Forall_forall in Htypes; by apply Htypes. }
  split; [exact Hinformative|]. by destruct inferred.
Qed.

(** The output that [inferOutputSchemaFromResolver] infers from the return
    expressions of a handler is informative, and not empty: when the
    expressions give nothing informative, it infers nothing. *)
Theorem inferOutputSchemaFromResolver_informative (node : Node)
    (sourceFile : SourceFile) (filePath : string) (inputSchema : option string)
    (w : World) (inferred : string)
    (Hinferred : fst (inferOutputSchemaFromResolver env node sourceFile filePath
                        inputSchema w) = Some inferred) :
  isNonInformativeInferredType inferred = false ∧ truthy inferred = true.
Proof. by eapply inferOutputSchemaFromResolver_result. Qed.

End Inference.

Section InferredOutput.

Context (env : Environment).

(** The output of a procedure without an explicit output schema is
    inferred: it is absent, or informative and not empty, whether it comes
    from the return expressions of the handler or from the type of the
    procedure. *)
Theorem analyzeProcedureChain_inferred_output
    (i j : NodeInfo) (receiver name : Node) (arguments : list Node)
    (sourceFile : SourceFile) (imports : gmap string ImportInfo) (filePath : string)
    (resolve : string → SourceFile → gmap string ImportInfo → string → St string)
    (w : World) (result : ProcedureAnalysisResult)
    (Hexplicit : truthy_opt (findMethodInChain receiver "output") = false)
    (Hresult : fst (analyzeProcedureChain env
                      (CallExpression i (PropertyAccessExpression j receiver name)
                         arguments)
                      sourceFile imports filePath resolve w) = Some result) :
  match outputSchema result with
  | None => True
  | Some output =>
      isNonInformativeInferredType output = false ∧ truthy output = true
  end.
Proof.
  destruct (procedureTypeOfMethod (getText name)) as [method|] eqn:Hmethod.
  2: { unfold analyzeProcedureChain in Hresult. by rewrite Hmethod in Hresult. }
  pose proof (analyzeProcedureChain_steps env i j receiver name arguments sourceFile
                imports filePath resolve w method Hmethod) as Hsteps.
  cbv zeta in Hsteps.
  destruct (resolveExplicitSchema resolve (findMethodInChain receiver "input") _ _ _ w)
    as [resolvedInput w1].
  assert (Hresolved :
    resolveExplicitSchema resolve (findMethodInChain receiver "output") sourceFile
      imports filePath w1
    = (findMethodInChain receiver "output", w1)).
  { unfold resolveExplicitSchema.
    by destruct (findMethodInChain receiver "output") as [[|]|]. }
  rewrite Hresolved, Hexplicit in Hsteps. cbn [negb] in Hsteps.
  destruct (inferOutputSchemaFromResolver env _ _ _ _ w1) as [output w3] eqn:Houtput.
  destruct (inferSchemasFromProcedureType env _ _ _ w3) as [fromType w4].
  rewrite Hsteps in Hresult. injection Hresult as <-. cbn [outputSchema].
  assert (Hstructural : match output with
                        | None => True
                        | Some t => isNonInformativeInferredType t = false
                                    ∧ truthy t = true
                        end).
  { destruct output as [t|]; [|done].
    eapply (inferOutputSchemaFromResolver_result env). by rewrite Houtput. }
  unfold preferProcedureType. destruct (fromType ≫= snd) as [[|c inferred]|];
    try exact Hstructural.
  cbn [negb andb]. destruct (isNonInformativeInferredType (String c inferred)) eqn:Hi;
    [exact Hstructural|]. by split.
Qed.

End InferredOutput.

(** ** The views on the example projects *)

Lemma webview_countProcedures_agrees_witness :
  webview_countProcedures (mapNodeToWebviewNode (λ text, text) Examples.scenarioTree)
  = countsRecord (countProcedures Examples.scenarioTree).
Proof.
  apply (webview_countProcedures_agrees (λ text, text) Examples.scenarioTree).
  vm_compute. repeat constructor; discriminate.
Defined.

Lemma parseRouterFromFile_tree_shape_witness :
  node_name Examples.scenarioTree = "appRouter"
  ∧ node_type Examples.scenarioTree = router
  ∧ node_filePath Examples.scenarioTree = Some "/p/root.ts"
  ∧ node_line Examples.scenarioTree = None.
Proof.
  assert (Hrun : ∃ visited' w',
    parseRouterFromFile (Examples.envOfFiles Examples.scenarioProject) 3
      "/p/root.ts" "appRouter" ∅ Examples.emptyWorld
    = Done (Some Examples.scenarioTree, visited') w')
    by (do 2 eexists; vm_compute; reflexivity).
  destruct Hrun as (visited' & w' & Hrun).
  destruct (parseRouterFromFile_tree_shape _ _ _ _ _ _ _ _ _ Hrun)
    as (Hname & Htype & Hpath & Hline & _).
  by repeat split.
Defined.

Lemma countProcedures_built_tree_witness :
  countOf query (countProcedures Examples.scenarioTree)
  = length (filter (λ node, node_type node = procedure query)
              (treeNodes Examples.scenarioTree)).
Proof.
  assert (Hrun : ∃ visited' w',
    parseRouterFromFile (Examples.envOfFiles Examples.scenarioProject) 3
      "/p/root.ts" "appRouter" ∅ Examples.emptyWorld
    = Done (Some Examples.scenarioTree, visited') w')
    by (do 2 eexists; vm_compute; reflexivity).
  destruct Hrun as (visited' & w' & Hrun).
  exact (countProcedures_built_tree _ _ _ _ _ _ _ _ _ query Hrun).
Defined.

(** The counts of the scenario: two queries. *)
Lemma countProcedures_scenario :
  countProcedures Examples.scenarioTree = mkProcedureCounts 2 0 0.
Proof. reflexivity. Qed.

(** Three routers, two of them of one file: the tree view shows a file node
    over the two, then the third. *)
Lemma getChildren_three_routers :
  ∃ w',
    getChildren (Examples.envOfFiles Examples.scenarioProject)
      Examples.scenarioFindFiles 3 true None (Some Examples.threeRouters)
      Examples.emptyWorld
    = Done
        ([ newTrpcTreeItem
             (mkTrpcNode "root.ts" file
                [Examples.scenarioAppRouter; Examples.emptyRouter "/p/root.ts"]
                (Some "/p/root.ts") None None None);
           newTrpcTreeItem (Examples.emptyRouter "/p/admin.ts") ],
         Some Examples.threeRouters) w'.
Proof. eexists. vm_compute. reflexivity. Qed.

Lemma getChildren_root_witness :
  ∃ items w',
    getChildren (Examples.envOfFiles Examples.scenarioProject)
      Examples.scenarioFindFiles 3 true None (Some Examples.threeRouters)
      Examples.emptyWorld
    = Done (items, Some Examples.threeRouters) w'
    ∧ flat_map shownTrees items ≡ₚ Examples.threeRouters.
Proof.
  destruct (getChildren_root (Examples.envOfFiles Examples.scenarioProject)
              Examples.scenarioFindFiles 3 Examples.threeRouters Examples.emptyWorld)
    as (items & w' & Hrun & _ & Hshown).
  - repeat constructor; eexists; (split; [reflexivity|discriminate]).
  - exists items, w'. split; [exact Hrun|]. apply Hshown. discriminate.
Defined.

Lemma getChildren_discovery_witness :
  ∃ trees items w0 w',
    discoverAppRouterTrees (Examples.envOfFiles Examples.scenarioProject)
      Examples.scenarioFindFiles 29 Examples.emptyWorld
    = Done trees w0
    ∧ getChildren (Examples.envOfFiles Examples.scenarioProject)
        Examples.scenarioFindFiles 29 true None None Examples.emptyWorld
      = Done (items, Some trees) w'.
Proof.
  destruct (getChildren_discovery (Examples.envOfFiles Examples.scenarioProject)
              Examples.scenarioFindFiles 29 Examples.emptyWorld)
    as (trees & items & w0 & w' & Hdiscovery & Hrun & _).
  - vm_compute. lia.
  - intros pattern fsPath H. unfold Examples.scenarioFindFiles in H.
    case_bool_decide; [|by apply elem_of_nil in H].
    apply list_elem_of_singleton in H as ->. vm_compute. discriminate.
  - vm_compute. reflexivity.
  - exists trees, items, w0, w'. split; [exact Hdiscovery|exact Hrun].
Defined.
Lemma inferOutputSchemaFromResolver_informative_witness :
  isNonInformativeInferredType "number | string[]" = false
  ∧ truthy "number | string[]" = true.
Proof.
  apply (inferOutputSchemaFromResolver_informative Examples.mixedEnv Examples.mixedCall
           Examples.mixedFile "/p/router.ts" None Examples.emptyWorld).
  vm_compute. reflexivity.
Defined.

Lemma analyzeProcedureChain_inferred_output_witness :
  isNonInformativeInferredType "(string | number)[]" = false
  ∧ truthy "(string | number)[]" = true.
Proof.
  assert (Hrun : ∃ result,
    fst (analyzeProcedureChain Examples.mixedEnv Examples.mixedCall Examples.mixedFile
           ∅ "/p/router.ts" (resolveSchemaText0 Examples.mixedEnv) Examples.emptyWorld)
    = Some result ∧ outputSchema result = Some "(string | number)[]")
    by (eexists; split; vm_compute; reflexivity).
  destruct Hrun as (result & Hrun & Houtput).
  pose proof (analyzeProcedureChain_inferred_output Examples.mixedEnv
                (mkInfo "publicProcedure.query(() => [1, 'a'])" 30 67 0)
                (Examples.info "publicProcedure.query")
                (Examples.ident "publicProcedure") (Examples.ident "query")
                [Examples.mixedHandler] Examples.mixedFile ∅ "/p/router.ts"
                (resolveSchemaText0 Examples.mixedEnv) Examples.emptyWorld result
                eq_refl Hrun) as H.
  by rewrite Houtput in H.
Defined.

(** ** Import bindings *)

Lemma insert_bindings_fold {V : Type} (bindings : list (string * V))
    (result : gmap string V) (name : string) :
  fold_left (λ result binding, <[fst binding := snd binding]> result) bindings result
  !! name
  = match last (filter (λ binding, fst binding = name) bindings) with
    | Some binding => Some (snd binding)
    | None => result !! name
    end.
Proof.
  revert result. induction bindings as [|[k v] bindings IH] using rev_ind;
    intros result; [reflexivity|].
  rewrite fold_left_app, filter_app, filter_cons, filter_nil. cbn [fold_left fst snd].
  destruct (decide (k = name)) as [->|Hne].
  - by rewrite lookup_insert_eq, last_snoc.
  - rewrite lookup_insert_ne by done. rewrite app_nil_r. apply IH.
Qed.

Lemma getImports_elements_bindings (specifier : string)
    (elements : list ImportSpecifier) (result : gmap string ImportInfo) :
  getImports_elements specifier elements result
  = fold_left (λ result binding, <[fst binding := snd binding]> result)
      ((λ spec,
          (spec_name spec,
           mkImportInfo specifier
             (default (spec_name spec) (spec_propertyName spec)) false))
       <$> elements)
      result.
Proof.
  unfold getImports_elements. revert result.
  induction elements as [|spec elements IH]; intros result; [reflexivity|].
  cbn [fold_left fmap list_fmap fst snd]. apply IH.
Qed.

Lemma getImports_statement_bindings (result : gmap string ImportInfo) (stmt : Node) :
  getImports_statement result stmt
  = fold_left (λ result binding, <[fst binding := snd binding]> result)
      (match stmt with
       | ImportDeclaration _ (Some clause) moduleSpecifier =>
           clauseBindings moduleSpecifier clause
       | _ => []
       end)
      result.
Proof.
  unfold getImports_statement. destruct stmt; try reflexivity.
  destruct importClause as [clause|]; [|reflexivity].
  unfold clauseBindings. rewrite fold_left_app.
  destruct (clause_name clause) as [name|];
    (destruct (clause_namedBindings clause) as [[elements|]|]; try reflexivity);
    apply getImports_elements_bindings.
Qed.

(** [getImports] maps a local name to its last binding among the import
    declarations at the top of the file: the default import of a
    declaration under the name [default], a named import under its name in
    the module; a name without binding, such as the name of a namespace
    import, is not in the map. *)
Theorem getImports_last_binding (sourceFile : SourceFile) (name : string) :
  getImports sourceFile !! name
  = snd <$> last (filter (λ binding, fst binding = name) (importBindings sourceFile)).
Proof.
  unfold getImports, importBindings.
  assert (Hfold : ∀ stmts result,
    fold_left getImports_statement stmts result
    = fold_left (λ result binding, <[fst binding := snd binding]> result)
        (flat_map
           (λ stmt,
              match stmt with
              | ImportDeclaration _ (Some clause) moduleSpecifier =>
                  clauseBindings moduleSpecifier clause
              | _ => []
              end) stmts) result).
  { induction stmts as [|stmt stmts IH]; intros result; [reflexivity|].
    cbn [fold_left flat_map]. rewrite fold_left_app, IH.
    by rewrite getImports_statement_bindings. }
  rewrite Hfold, insert_bindings_fold.
  by destruct (last _).
Qed.

(** ** The walk up the directories *)

Lemma string_length_list (s : string) :
  String.length s = length (list_ascii_of_string s).
Proof. induction s as [|c s IH]; [reflexivity|]. simpl. by rewrite IH. Qed.

Lemma string_length_rev (s : string) : String.length (String.rev s) = String.length s.
Proof. by rewrite !string_length_list, list_ascii_of_string_rev, length_rev. Qed.

Lemma dropWhile_length (f : ascii → bool) (s : string) :
  String.length (dropWhile f s) ≤ String.length s.
Proof.
  induction s as [|c s IH]; [done|]. simpl. destruct (f c); simpl; lia.
Qed.

Lemma dropWhile_head (f : ascii → bool) (s : string) (c : ascii) (t : string) :
  dropWhile f s = String c t → f c = false.
Proof.
  induction s as [|c' s IH]; [discriminate|]. simpl.
  destruct (f c') eqn:Hc'; [exact IH|]. by intros [= <- _].
Qed.

(** The directory of a path is the root or a shorter path. *)
Lemma path_dirname_shorter (p : string) :
  path_dirname p = path_root ∨ String.length (path_dirname p) < String.length p.
Proof.
  unfold path_dirname.
  destruct (dropWhile isSlash (String.rev p)) as [|c t] eqn:Hr; [by left|].
  pose proof (dropWhile_head _ _ _ _ Hr) as Hc.
  pose proof (dropWhile_length isSlash (String.rev p)) as Hlen.
  rewrite Hr, string_length_rev in Hlen. simpl in Hlen.
  cbn [dropWhile]. rewrite Hc. cbn [negb].
  destruct (dropWhile isSlash (dropWhile (λ c, negb (isSlash c)) t)) as [|c' t'] eqn:Hr';
    [by left|].
  right. rewrite string_length_rev, <- Hr'.
  pose proof (dropWhile_length isSlash (dropWhile (λ c, negb (isSlash c)) t)).
  pose proof (dropWhile_length (λ c, negb (isSlash c)) t). lia.
Qed.

Lemma path_dirname_nonempty (p : string) : path_dirname p ≠ EmptyString.
Proof.
  unfold path_dirname.
  destruct (dropWhile isSlash (dropWhile _ _)) as [|c t] eqn:Hr; [done|].
  intros Hrev. apply (f_equal String.length) in Hrev.
  by rewrite string_length_rev in Hrev.
Qed.

Lemma set_tsConfigPathsCache_same (w : World) :
  set_tsConfigPathsCache (tsConfigPathsCache w) w = w.
Proof. by destruct w. Qed.

Section ConfigCache.

Context (env : Environment).

Lemma getTsConfigPaths_from_root (fuel : nat) (w : World) :
  getTsConfigPaths_from env fuel path_root w
  = (None, set_tsConfigPathsCache (<[path_root := None]> (tsConfigPathsCache w)) w).
Proof. by destruct fuel. Qed.

(** One turn of the loop of [getTsConfigPaths] below the root. *)
Lemma getTsConfigPaths_from_turn (fuel : nat) (dir : string) (w : World) :
  dir ≠ path_root →
  getTsConfigPaths_from env fuel dir w
  = match tsConfigPathsCache w !! dir with
    | Some cached => (cached, w)
    | None =>
        match env_fs env !! path_join dir "tsconfig.json" with
        | Some entry =>
            match match entry with File d => file_json d | Directory => None end with
            | Some {| json_paths := Some paths; json_baseUrl := b |} =>
                let result := mkTsConfigPaths paths (path_resolve dir (default "." b)) in
                (Some result,
                 log DEBUG ("Found tsconfig with paths at "
                            +:+ path_join dir "tsconfig.json")
                   (set_tsConfigPathsCache
                      (<[dir := Some result]> (tsConfigPathsCache w)) w))
            | Some {| json_paths := None |} =>
                (None,
                 set_tsConfigPathsCache (<[dir := None]> (tsConfigPathsCache w)) w)
            | None =>
                (None,
                 set_tsConfigPathsCache
                   (<[dir := None]> (tsConfigPathsCache w))
                   (log WARN ("Invalid tsconfig.json at "
                              +:+ path_join dir "tsconfig.json") w))
            end
        | None =>
            match fuel with
            | S fuel' => getTsConfigPaths_from env fuel' (path_dirname dir) w
            | 0 =>
                (None,
                 set_tsConfigPathsCache (<[dir := None]> (tsConfigPathsCache w)) w)
            end
        end
    end.
Proof.
  intros Hroot. apply String.eqb_neq in Hroot.
  destruct fuel; simpl; rewrite Hroot; reflexivity.
Qed.

(** The keys of the cache that a walk from a directory can write: the
    directory and what is above it. *)
Lemma getTsConfigPaths_from_frame (fuel : nat) (dir : string) (w : World)
    (key : string) :
  key ≠ path_root →
  dir = path_root ∨ String.length dir < String.length key →
  tsConfigPathsCache (snd (getTsConfigPaths_from env fuel dir w)) !! key
  = tsConfigPathsCache w !! key.
Proof.
  intros Hkey. revert dir. induction fuel as [|fuel IH]; intros dir Hdir.
  all: destruct (decide (dir = path_root)) as [->|Hroot];
    [rewrite getTsConfigPaths_from_root; simpl; by rewrite lookup_insert_ne|].
  all: destruct Hdir as [?|Hdir]; [done|].
  all: assert (Hne : dir ≠ key) by (intros ->; lia).
  all: rewrite getTsConfigPaths_from_turn by done.
  all: destruct (tsConfigPathsCache w !! dir) as [cached|]; [reflexivity|].
  all: destruct (env_fs env !! path_join dir "tsconfig.json") as [entry|].
  1,3: destruct (match entry with File d => file_json d | Directory => None end)
    as [[[paths|] b]|]; simpl; by rewrite lookup_insert_ne.
  - simpl. by rewrite lookup_insert_ne.
  - apply IH. destruct (path_dirname_shorter dir) as [?|?]; [by left|right; lia].
Qed.

Lemma getTsConfigPaths_from_idempotent (fuel : nat) (dir : string) (w : World) :
  getTsConfigPaths_from env fuel dir (snd (getTsConfigPaths_from env fuel dir w))
  = getTsConfigPaths_from env fuel dir w.
Proof.
  revert dir. induction fuel as [|fuel IH]; intros dir.
  all: destruct (decide (dir = path_root)) as [->|Hroot].
  1,3: rewrite !getTsConfigPaths_from_root; f_equal;
    destruct w; unfold set_tsConfigPathsCache; simpl; f_equal; apply insert_insert_eq.
  all: rewrite (getTsConfigPaths_from_turn _ dir w) by done.
  all: destruct (tsConfigPathsCache w !! dir) as [cached|] eqn:Hcache.
  1,3: cbn [snd]; rewrite getTsConfigPaths_from_turn by done; by rewrite Hcache.
  all: destruct (env_fs env !! path_join dir "tsconfig.json") as [entry|] eqn:Hfs.
  1,3: destruct (match entry with File d => file_json d | Directory => None end)
    as [[[paths|] b]|]; cbn [snd];
    rewrite getTsConfigPaths_from_turn by done; simpl; by rewrite lookup_insert_eq.
  - cbn [snd]. rewrite getTsConfigPaths_from_turn by done. simpl.
    by rewrite lookup_insert_eq.
  - rewrite <- (IH (path_dirname dir)) at 2.
    set (w1 := snd (getTsConfigPaths_from env fuel (path_dirname dir) w)).
    rewrite getTsConfigPaths_from_turn by done.
    assert (Hsame : tsConfigPathsCache w1 !! dir = None).
    { unfold w1. rewrite getTsConfigPaths_from_frame; [exact Hcache|exact Hroot|].
      destruct (path_dirname_shorter dir); [by left|by right]. }
    by rewrite Hsame, Hfs.
Qed.

(** The bound on the walk is not reached: a walk ends at the root within
    as many turns as the directory has characters. *)
Lemma getTsConfigPaths_from_fuel (fuel1 fuel2 : nat) (dir : string) (w : World) :
  dir ≠ EmptyString → String.length dir ≤ fuel1 → String.length dir ≤ fuel2 →
  getTsConfigPaths_from env fuel1 dir w = getTsConfigPaths_from env fuel2 dir w.
Proof.
  revert fuel2 dir. induction fuel1 as [|fuel1 IH]; intros fuel2 dir Hne H1 H2.
  { destruct dir; [done|simpl in H1; lia]. }
  destruct (decide (dir = path_root)) as [->|Hroot];
    [by rewrite !getTsConfigPaths_from_root|].
  rewrite (getTsConfigPaths_from_turn (S fuel1)), (getTsConfigPaths_from_turn fuel2)
    by done.
  destruct (tsConfigPathsCache w !! dir); [reflexivity|].
  destruct (env_fs env !! path_join dir "tsconfig.json"); [reflexivity|].
  destruct fuel2 as [|fuel2]; [destruct dir; [done|simpl in H2; lia]|].
  destruct (path_dirname_shorter dir) as [Hparent|Hshorter].
  - rewrite Hparent. by rewrite (getTsConfigPaths_from_root fuel1),
      (getTsConfigPaths_from_root fuel2).
  - apply IH; [apply path_dirname_nonempty|lia..].
Qed.

(** [getTsConfigPaths] caches what it finds: a second call for the same
    file returns the result of the first and leaves the caches and the log
    as the first call left them.  And its loop ends: the result does not
    depend on the bound on the number of directories, once the bound is the
    length of the directory of the file. *)
Theorem getTsConfigPaths_idempotent (fromFilePath : string) (w : World) :
  getTsConfigPaths env fromFilePath (snd (getTsConfigPaths env fromFilePath w))
  = getTsConfigPaths env fromFilePath w
  ∧ ∀ fuel,
      String.length (path_dirname fromFilePath) ≤ fuel →
      getTsConfigPaths_from env fuel (path_dirname fromFilePath) w
      = getTsConfigPaths env fromFilePath w.
Proof.
  split; [apply getTsConfigPaths_from_idempotent|].
  intros fuel Hfuel. unfold getTsConfigPaths.
  by apply getTsConfigPaths_from_fuel; [apply path_dirname_nonempty|..].
Qed.

End ConfigCache.
Lemma set_nearestTsConfigPathCache_same (w : World) :
  set_nearestTsConfigPathCache (nearestTsConfigPathCache w) w = w.
Proof. by destruct w. Qed.

Section CheckerCache.

Context (env : Environment).

(** One turn of the loop of [findNearestTsConfigFile]. *)
Lemma findNearestTsConfigFile_from_turn (fuel : nat) (dir : string) (w : World) :
  findNearestTsConfigFile_from env fuel dir w
  = match nearestTsConfigPathCache w !! dir with
    | Some cached => (Some cached, w)
    | None =>
        if existsSync env (path_join dir "tsconfig.json")
        then
          (Some (Some (path_join dir "tsconfig.json")),
           set_nearestTsConfigPathCache
             (<[dir := Some (path_join dir "tsconfig.json")]>
                (nearestTsConfigPathCache w)) w)
        else if String.eqb dir path_root then (None, w)
        else
          match fuel with
          | S fuel' => findNearestTsConfigFile_from env fuel' (path_dirname dir) w
          | 0 => (None, w)
          end
    end.
Proof. by destruct fuel. Qed.

(** The walk reads the cache of the nearest configuration files only, and
    writes there: with the same cache it gives the same result and the same
    cache. *)
Lemma findNearestTsConfigFile_from_frame (fuel : nat) (dir : string) (w w' : World) :
  nearestTsConfigPathCache w' = nearestTsConfigPathCache w →
  findNearestTsConfigFile_from env fuel dir w'
  = (fst (findNearestTsConfigFile_from env fuel dir w),
     set_nearestTsConfigPathCache
       (nearestTsConfigPathCache (snd (findNearestTsConfigFile_from env fuel dir w)))
       w').
Proof.
  intros Hcache. revert dir. induction fuel as [|fuel IH]; intros dir.
  all: rewrite (findNearestTsConfigFile_from_turn _ dir w),
         (findNearestTsConfigFile_from_turn _ dir w'), Hcache.
  all: destruct (nearestTsConfigPathCache w !! dir);
    [cbn [fst snd]; by rewrite <- Hcache, set_nearestTsConfigPathCache_same|].
  all: destruct (existsSync env _); [by destruct w, w'|].
  all: destruct (String.eqb dir path_root);
    [cbn [fst snd]; by rewrite <- Hcache, set_nearestTsConfigPathCache_same|].
  - cbn [fst snd]. by rewrite <- Hcache, set_nearestTsConfigPathCache_same.
  - apply IH.
Qed.

(** A walk that ends without a result leaves the state as it is. *)
Lemma findNearestTsConfigFile_from_none (fuel : nat) (dir : string) (w : World) :
  fst (findNearestTsConfigFile_from env fuel dir w) = None →
  snd (findNearestTsConfigFile_from env fuel dir w) = w.
Proof.
  revert dir. induction fuel as [|fuel IH]; intros dir.
  all: rewrite findNearestTsConfigFile_from_turn.
  all: destruct (nearestTsConfigPathCache w !! dir); [discriminate|].
  all: destruct (existsSync env _); [discriminate|].
  all: destruct (String.eqb dir path_root); [reflexivity|].
  - reflexivity.
  - apply IH.
Qed.

Lemma findNearestTsConfigFile_from_keys (fuel : nat) (dir : string) (w : World)
    (key : string) :
  key ≠ path_root →
  dir = path_root ∨ String.length dir < String.length key →
  nearestTsConfigPathCache (snd (findNearestTsConfigFile_from env fuel dir w)) !! key
  = nearestTsConfigPathCache w !! key.
Proof.
  intros Hkey. revert dir. induction fuel as [|fuel IH]; intros dir Hdir.
  all: rewrite findNearestTsConfigFile_from_turn.
  all: destruct (nearestTsConfigPathCache w !! dir); [reflexivity|].
  all: assert (Hne : dir ≠ key) by (intros ->; destruct Hdir; [done|lia]).
  all: destruct (existsSync env _); [simpl; by rewrite lookup_insert_ne|].
  all: destruct (String.eqb_spec dir path_root) as [Hroot|Hroot]; [reflexivity|].
  - reflexivity.
  - apply IH. destruct Hdir as [?|Hdir]; [done|].
    destruct (path_dirname_shorter dir) as [?|?]; [by left|right; lia].
Qed.

Lemma findNearestTsConfigFile_from_idempotent (fuel : nat) (dir : string) (w : World) :
  findNearestTsConfigFile_from env fuel dir
    (snd (findNearestTsConfigFile_from env fuel dir w))
  = findNearestTsConfigFile_from env fuel dir w.
Proof.
  revert dir. induction fuel as [|fuel IH]; intros dir.
  all: rewrite (findNearestTsConfigFile_from_turn _ dir w).
  all: destruct (nearestTsConfigPathCache w !! dir) as [cached|] eqn:Hcache;
    [cbn [snd]; rewrite findNearestTsConfigFile_from_turn; by rewrite Hcache|].
  all: destruct (existsSync env (path_join dir "tsconfig.json")) eqn:Hexists;
    [cbn [snd]; rewrite findNearestTsConfigFile_from_turn; simpl;
     by rewrite lookup_insert_eq|].
  all: destruct (String.eqb_spec dir path_root) as [Hroot|Hroot];
    [cbn [snd]; rewrite findNearestTsConfigFile_from_turn, Hcache, Hexists;
     by rewrite (proj2 (String.eqb_eq _ _) Hroot)|].
  - cbn [snd]. rewrite findNearestTsConfigFile_from_turn, Hcache, Hexists.
    by rewrite (proj2 (String.eqb_neq _ _) Hroot).
  - rewrite <- (IH (path_dirname dir)) at 2.
    set (w1 := snd (findNearestTsConfigFile_from env fuel (path_dirname dir) w)).
    rewrite findNearestTsConfigFile_from_turn.
    assert (Hsame : nearestTsConfigPathCache w1 !! dir = None).
    { unfold w1. rewrite findNearestTsConfigFile_from_keys; [exact Hcache|exact Hroot|].
      destruct (path_dirname_shorter dir); [by left|by right]. }
    rewrite Hsame, Hexists. by rewrite (proj2 (String.eqb_neq _ _) Hroot).
Qed.

Lemma findNearestTsConfigFile_idempotent (fromFilePath : string) (w : World) :
  findNearestTsConfigFile env fromFilePath
    (snd (findNearestTsConfigFile env fromFilePath w))
  = findNearestTsConfigFile env fromFilePath w.
Proof.
  unfold findNearestTsConfigFile, St_bind, St_ret.
  set (dir := path_dirname fromFilePath).
  pose proof (findNearestTsConfigFile_from_idempotent (String.length dir) dir w) as Hidem.
  pose proof (findNearestTsConfigFile_from_none (String.length dir) dir w) as Hnone.
  destruct (findNearestTsConfigFile_from env (String.length dir) dir w)
    as [[result|] w1]; cbn [fst snd] in *.
  - by rewrite Hidem.
  - rewrite (Hnone eq_refl). rewrite findNearestTsConfigFile_from_turn. simpl.
    rewrite lookup_insert_eq. f_equal.
Qed.

Lemma findNearestTsConfigFile_frame (fromFilePath : string) (w w' : World) :
  nearestTsConfigPathCache w' = nearestTsConfigPathCache w →
  findNearestTsConfigFile env fromFilePath w'
  = (fst (findNearestTsConfigFile env fromFilePath w),
     set_nearestTsConfigPathCache
       (nearestTsConfigPathCache (snd (findNearestTsConfigFile env fromFilePath w)))
       w').
Proof.
  intros Hcache. unfold findNearestTsConfigFile, St_bind, St_ret.
  set (dir := path_dirname fromFilePath).
  rewrite (findNearestTsConfigFile_from_frame (String.length dir) dir w w' Hcache).
  destruct (findNearestTsConfigFile_from env (String.length dir) dir w)
    as [[result|] w1]; reflexivity.
Qed.

(** [getTypeCheckerContext] caches the context of a configuration file, and
    the failure to create one: a second call for the same file returns the
    result of the first and leaves the state as the first call left it, so
    that it logs no creation and no failure again; when no configuration
    file was found, and only then, it logs once more that there is none. *)
Theorem getTypeCheckerContext_idempotent (filePath : string) (w : World) :
  let '(context, w1) := getTypeCheckerContext env filePath w in
  getTypeCheckerContext env filePath w1
  = (context,
     if truthy_opt (fst (findNearestTsConfigFile env filePath w)) then w1
     else log DEBUG ("No tsconfig found for " +:+ filePath) w1).
Proof.
  unfold getTypeCheckerContext, St_bind, St_ret.
  pose proof (findNearestTsConfigFile_idempotent filePath w) as Hidem.
  destruct (findNearestTsConfigFile env filePath w) as [tsConfigPath w1] eqn:Hfind.
  cbn [fst snd] in *.
  assert (Hframe : ∀ w', nearestTsConfigPathCache w' = nearestTsConfigPathCache w1 →
    findNearestTsConfigFile env filePath w' = (tsConfigPath, w')).
  { intros w' Hcache. rewrite (findNearestTsConfigFile_frame filePath w1 w' Hcache).
    rewrite Hidem. cbn [fst snd]. rewrite <- Hcache.
    by rewrite set_nearestTsConfigPathCache_same. }
  destruct tsConfigPath as [[|c tsConfigPath]|].
  - unfold logDebug. cbn [fst snd truthy_opt truthy]. by rewrite Hframe.
  - cbn [truthy_opt truthy].
    destruct (typeCheckerContextCache w1 !! String c tsConfigPath)
      as [cached|] eqn:Hcache.
    + rewrite Hidem. by rewrite Hcache.
    + rewrite Hframe by (by destruct (env_createTypeCheckerContext env _ _)).
      destruct (env_createTypeCheckerContext env _ _); simpl;
        by rewrite lookup_insert_eq.
  - unfold logDebug. cbn [fst snd truthy_opt]. by rewrite Hframe.
Qed.

End CheckerCache.

(** ** The first declaration of a name *)

Lemma firstResult_cons {A : Type} (g : Node → option A) (c : Node) (l : list Node)
    (s : option A) :
  firstResult g (c :: l) s = firstResult g l (firstResult g [c] s).
Proof.
  destruct s as [a|]; [reflexivity|]. unfold firstResult. cbn [flat_map].
  rewrite app_nil_r, omap_app. by destruct (omap g (preorder c)).
Qed.

Lemma firstResult_where {A : Type} (P : A → Prop) (g : Node → option A)
    (l : list Node) (s : option A) (a : A) :
  (∀ n a, n ∈ flat_map preorder l → g n = Some a → P a) →
  (∀ a, s = Some a → P a) →
  firstResult g l s = Some a → P a.
Proof.
  intros Hl Hs. destruct s as [a'|]; simpl; [by apply Hs|].
  intros H. apply head_Some_elem_of, list_elem_of_omap in H as (n & Hn & Ha).
  by apply (Hl n).
Qed.

(** A visitor that looks for the first node with a result and stops there
    returns the first result in [preorder]; the results may be such that
    the visitor takes them for one, as the texts that are not empty. *)
Lemma visitAll_first {A : Type} (P : A → Prop)
    (f : Node → option A → option A * bool) (g : Node → option A) :
  (∀ n a, P a → f n (Some a) = (Some a, false)) →
  (∀ n, f n None = match g n with Some a => (Some a, false) | None => (None, true) end) →
  ∀ l s,
    (∀ n a, n ∈ flat_map preorder l → g n = Some a → P a) →
    (∀ a, s = Some a → P a) →
    visitAll f l s = firstResult g l s.
Proof.
  intros Hsome Hnone.
  assert (Hlist : ∀ l,
    Forall (λ c, ∀ s,
      (∀ n a, n ∈ preorder c → g n = Some a → P a) →
      (∀ a, s = Some a → P a) →
      visit f c s = firstResult g [c] s) l →
    ∀ s,
      (∀ n a, n ∈ flat_map preorder l → g n = Some a → P a) →
      (∀ a, s = Some a → P a) →
      visitAll f l s = firstResult g l s).
  { induction 1 as [|c l Hc _ IHl]; intros s Hl Hs; [by destruct s|].
    assert (Hhere : ∀ n a, n ∈ preorder c → g n = Some a → P a).
    { intros n a Hn. apply Hl. cbn [flat_map]. apply elem_of_app. by left. }
    rewrite visitAll_cons, firstResult_cons, Hc by done. apply IHl.
    - intros n a Hn. apply Hl. cbn [flat_map]. apply elem_of_app. by right.
    - intros a. apply (firstResult_where P); [|exact Hs].
      intros n a'. cbn [flat_map]. rewrite app_nil_r. apply Hhere. }
  intros l. apply Hlist. apply Forall_forall. intros c _. clear l.
  induction c as [c IH] using Node_children_ind. intros s Hc Hs.
  rewrite visit_unfold. destruct s as [a|].
  - by rewrite Hsome by (by apply Hs).
  - rewrite Hnone. unfold firstResult. cbn [flat_map]. rewrite app_nil_r.
    rewrite preorder_unfold. cbn [omap list_omap].
    destruct (g c) as [a|]; [reflexivity|].
    rewrite (Hlist _ IH); [reflexivity| |discriminate].
    intros n a Hn. apply Hc. rewrite preorder_unfold. apply elem_of_cons. by right.
Qed.

Lemma declarationInfo_visit (varName : string) (n : Node) :
  findVariableDeclarationInfo_visit varName n None
  = match declarationInfo varName n with
    | Some a => (Some a, false)
    | None => (None, true)
    end.
Proof.
  unfold findVariableDeclarationInfo_visit, declarationInfo.
  destruct n; try reflexivity.
  all: repeat match goal with o : option Node |- _ => destruct o end; try reflexivity.
  all: by destruct (String.eqb _ _).
Qed.

Lemma findVariableDeclarationInfo_head (sourceFile : SourceFile) (varName : string) :
  findVariableDeclarationInfo sourceFile varName
  = head (omap (declarationInfo varName) (allNodes sourceFile)).
Proof.
  unfold findVariableDeclarationInfo.
  rewrite (visitAll_first (λ _, True) _ (declarationInfo varName)); try done.
  apply declarationInfo_visit.
Qed.

(** [findVariableDeclarationInfo] returns the initializer, and the line, of
    the first declaration of the name with an initializer, in the order of
    the text of the file; the declarations inside functions and blocks
    count as those of the top level do. *)
Theorem findVariableDeclarationInfo_first (sourceFile : SourceFile) (varName : string) :
  findVariableDeclarationInfo sourceFile varName
  = head (omap (declarationInfo varName) (allNodes sourceFile)).
Proof. apply findVariableDeclarationInfo_head. Qed.

(** The two searches for a declaration agree: when no declaration of the
    name has an initializer of empty text, [findVariableInitializer] returns
    the text of the initializer that [findVariableDeclarationInfo]
    returns. *)
Theorem findVariableInitializer_agrees (sourceFile : SourceFile) (varName : string)
    (Htexts : ∀ node initializer line,
       node ∈ allNodes sourceFile →
       declarationInfo varName node = Some (initializer, line) →
       truthy (getText initializer) = true) :
  findVariableInitializer sourceFile varName
  = (λ found, getText (fst found)) <$> findVariableDeclarationInfo sourceFile varName.
Proof.
  rewrite findVariableDeclarationInfo_head. unfold findVariableInitializer.
  rewrite (visitAll_first (λ text, truthy text = true) _
             (λ n, (λ found, getText (fst found)) <$> declarationInfo varName n)).
  - unfold firstResult, allNodes.
    generalize (flat_map preorder (statements sourceFile)). intros l.
    induction l as [|n l IH]; [reflexivity|]. cbn [omap list_omap].
    destruct (declarationInfo varName n); [reflexivity|exact IH].
  - intros n text Htext. unfold findVariableInitializer_visit. cbn [truthy_opt].
    by rewrite Htext.
  - intros n. unfold findVariableInitializer_visit, declarationInfo. cbn [truthy_opt].
    destruct n; try reflexivity.
    all: repeat match goal with o : option Node |- _ => destruct o end; try reflexivity.
    all: by destruct (String.eqb _ _).
  - intros n text Hn. destruct (declarationInfo varName n) as [[initializer line]|] eqn:Hd;
      [|discriminate].
    intros [= <-]. by apply (Htexts n initializer line).
  - discriminate.
Qed.

Lemma findVariableInitializer_agrees_witness :
  findVariableInitializer Examples.aliasChainFile "s6"
  = (λ found, getText (fst found))
    <$> findVariableDeclarationInfo Examples.aliasChainFile "s6".
Proof.
  apply findVariableInitializer_agrees.
  intros node initializer line Hnode Hinfo.
  vm_compute in Hnode.
  repeat (apply elem_of_cons in Hnode as [->|Hnode];
          [vm_compute in Hinfo; first [discriminate|by injection Hinfo as <- _]|]).
  by apply not_elem_of_nil in Hnode.
Defined.

(** ** The first alias of the root *)

Lemma uniqueStrings_head (l : list string) : head (uniqueStrings l) = head l.
Proof.
  by destruct l.
Qed.

(** [findAppRouterInFile] returns the target of the first alias of
    [AppRouter] to a type query, in the order of the text of the file, and
    nothing when the file has none or does not exist; it throws on a
    directory. *)
Theorem findAppRouterInFile_first (env : Environment) (filePath : string) (w : World) :
  match env_fs env !! filePath with
  | None => ∃ w', findAppRouterInFile env filePath w = Done None w'
  | Some Directory => findAppRouterInFile env filePath w = Throw w
  | Some (File d) =>
      findAppRouterInFile env filePath w
      = Done (head (omap appRouterTarget (allNodes (file_source d)))) w
  end.
Proof.
  unfold findAppRouterInFile, findAppRoutersInFile.
  destruct (env_fs env !! filePath) as [[d|]|]; [|reflexivity|by eexists].
  rewrite findAppRoutersInFile_visit_fold.
  rewrite (fold_addResult _ [] []) by done. cbn [app].
  fold (allNodes (file_source d)).
  fold (uniqueStrings (omap appRouterTarget (allNodes (file_source d)))).
  by rewrite uniqueStrings_head.
Qed.

(** ** The type of an expression, from its syntax *)

Lemma truthy_append_l (a b : string) : truthy a = true → truthy (a +:+ b) = true.
Proof. by destruct a. Qed.

Lemma truthy_append_r (a b : string) : truthy b = true → truthy (a +:+ b) = true.
Proof. by destruct a. Qed.

(** [inferTypeFromExpression] gives a type for every expression, never the
    empty text: the type [unknown] stands for what it does not recognise. *)
Theorem inferTypeFromExpression_nonempty (env : Environment)
    (inputSchema : option string) (expr : Node) :
  truthy (inferTypeFromExpression env inputSchema expr) = true.
Proof.
  induction expr as [expr IH] using Node_children_ind.
  destruct expr; try reflexivity; simpl in IH.
  all: repeat match goal with
         | H : Forall _ (_ :: _) |- _ => apply Forall_cons in H as [? H]
         end.
  all: try (simpl; assumption).
  all: simpl.
  all: repeat match goal with
         | |- context [match ?x with _ => _ end] => destruct x eqn:?; try reflexivity
         end.
  all: try assumption.
  all: try (apply truthy_append_r; reflexivity).
  all: try (apply truthy_append_l; assumption).
Qed.

(** ** The argument of a generic type *)

Lemma string_rev_cons (c : ascii) (s : string) :
  String.rev (String c s) = String.rev s +:+ String c EmptyString.
Proof. unfold String.rev at 1. simpl. apply rev_app_append. Qed.

Lemma extractTopLevelGenericArg_scan_nested (arg : string) :
  ∀ (depth depth' : nat) (acc rest : string),
    angleDepth depth arg = Some depth' →
    extractTopLevelGenericArg_scan (S depth) acc (arg +:+ rest)
    = extractTopLevelGenericArg_scan (S depth') (String.rev arg +:+ acc) rest.
Proof.
  induction arg as [|ch arg IH]; intros depth depth' acc rest Hdepth.
  - injection Hdepth as <-. reflexivity.
  - assert (Hacc : String.rev (String ch arg) +:+ acc
                   = String.rev arg +:+ String ch acc)
      by (by rewrite string_rev_cons, append_assoc).
    rewrite Hacc, append_cons. cbn [extractTopLevelGenericArg_scan].
    cbn [angleDepth] in Hdepth.
    destruct (Ascii.eqb ch "<"); [by apply IH|].
    destruct (Ascii.eqb ch ">"); [|by apply IH].
    destruct depth as [|depth]; [discriminate|]. by apply IH.
Qed.

Lemma dropWhile_prefix (f : ascii → bool) (prefix : string) (c : ascii) (s : string) :
  Forall (λ c, f c = true) (list_ascii_of_string prefix) →
  f c = false →
  dropWhile f (prefix +:+ String c s) = String c s.
Proof.
  intros Hprefix Hc. induction prefix as [|c' prefix IH]; simpl.
  - by rewrite Hc.
  - simpl in Hprefix. apply Forall_cons in Hprefix as [-> Hprefix]. by apply IH.
Qed.

(** [extractTopLevelGenericArg] returns the text between the first opening
    angle bracket and the bracket that closes it, trimmed: the brackets
    nested in between are skipped with what they enclose. *)
Theorem extractTopLevelGenericArg_nested (prefix arg rest : string)
    (Hprefix : Forall (λ c, c ≠ "<"%char) (list_ascii_of_string prefix))
    (Hnested : angleDepth 0 arg = Some 0) :
  extractTopLevelGenericArg (prefix +:+ "<" +:+ arg +:+ ">" +:+ rest)
  = Some (trim arg).
Proof.
  unfold extractTopLevelGenericArg.
  change (prefix +:+ "<" +:+ arg +:+ ">" +:+ rest)
    with (prefix +:+ String "<" (arg +:+ String ">" rest)).
  rewrite dropWhile_prefix; [|eapply Forall_impl; [exact Hprefix|]|reflexivity].
  - rewrite (extractTopLevelGenericArg_scan_nested arg 0 0) by done.
    cbn [extractTopLevelGenericArg_scan Ascii.eqb]. simpl.
    by rewrite append_empty_r, string_rev_involutive.
  - intros c Hc. simpl. by destruct (Ascii.eqb_spec c "<").
Qed.

Lemma extractTopLevelGenericArg_nested_witness :
  extractTopLevelGenericArg "Promise<Map<string, number> >" = Some "Map<string, number>".
Proof.
  apply (extractTopLevelGenericArg_nested "Promise" "Map<string, number> " "").
  - repeat constructor; discriminate.
  - reflexivity.
Defined.

(** ** What the module resolver returns *)

(** [resolveImport] returns paths of files only: what it returns exists and
    can be read. *)
Theorem resolveImport_existing_file (env : Environment)
    (specifier fromFilePath resolvedPath : string) (w : World)
    (Hresolved : fst (resolveImport env specifier fromFilePath w) = Some resolvedPath) :
  isFile env resolvedPath = true
  ∧ existsSync env resolvedPath = true
  ∧ truthy resolvedPath = true
  ∧ is_Some (readSourceFile env resolvedPath).
Proof.
  pose proof (resolveImport_isFile env _ _ _ _ Hresolved) as Hfile.
  split; [exact Hfile|].
  unfold isFile, existsSync, readSourceFile in *.
  destruct (env_fs env !! resolvedPath) as [[d|]|] eqn:Hentry; try discriminate.
  split; [reflexivity|]. split; [|by eexists].
  destruct resolvedPath; [|reflexivity].
  revert Hresolved. unfold resolveImport.
  destruct (startsWith specifier ".").
  - simpl. apply resolveFile_truthy.
  - unfold St_bind, St_ret.
    destruct (getTsConfigPaths env fromFilePath w) as [[cfg|] w']; simpl; [|discriminate].
    rewrite resolveImport_paths_first. unfold declaredOrderCandidates.
    intros H. apply head_Some_elem_of in H. apply list_elem_of_In in H.
    apply in_flat_map in H as ([pattern mappings] & _ & H).
    destruct (startsWith specifier (stripTrailingStar pattern)); [|destruct H].
    apply list_elem_of_In, list_elem_of_omap in H as (mapping & _ & H).
    by apply resolveFile_truthy in H.
Qed.

Lemma resolveImport_existing_file_witness :
  isFile (Examples.envOfFiles Examples.appProject) "/root/src/db.ts" = true
  ∧ existsSync (Examples.envOfFiles Examples.appProject) "/root/src/db.ts" = true
  ∧ truthy "/root/src/db.ts" = true
  ∧ is_Some (readSourceFile (Examples.envOfFiles Examples.appProject) "/root/src/db.ts").
Proof.
  apply (resolveImport_existing_file (Examples.envOfFiles Examples.appProject)
           "@app/db" "/root/server/x.ts" "/root/src/db.ts" Examples.emptyWorld).
  vm_compute. reflexivity.
Defined.

(** ** The search of the web view *)

Lemma WebviewTrpcNode_children_ind (P : WebviewTrpcNode → Prop) :
  (∀ node, Forall P (webview_children node) → P node) → ∀ node, P node.
Proof.
  intros H. fix IH 1. intros node. apply H. destruct node as [? ? ? ? ? ? ? ? children].
  simpl. induction children as [|child children IHc]; constructor; [apply IH|exact IHc].
Qed.

Lemma includes_empty (text : string) : includes text EmptyString = true.
Proof. unfold includes. by destruct text. Qed.

Lemma existsb_flat_map {A B : Type} (f : B → bool) (g : A → list B) (l : list A) :
  existsb f (flat_map g l) = existsb (λ a, existsb f (g a)) l.
Proof.
  induction l as [|a l IH]; [reflexivity|]. simpl. by rewrite existsb_app, IH.
Qed.

(** A node matches the search exactly when the node, or a node below it at
    any depth, matches the term by itself: a match deep in the tree keeps
    all the nodes above it in the view.  With the empty term every node
    matches. *)
Theorem matchesSearch_descendants (toLowerCase : string → string)
    (searchTerm : string) (node : WebviewTrpcNode) :
  matchesSearch toLowerCase searchTerm node
  = existsb (matchesItself toLowerCase searchTerm) (webviewNodes node)
  ∧ (searchTerm = EmptyString → matchesSearch toLowerCase searchTerm node = true).
Proof.
  split.
  - induction node as [node IH] using WebviewTrpcNode_children_ind.
    destruct node as [name type filePath line inputSchema outputSchema prettyInput
                        prettyOutput children].
    cbn [webview_children] in IH.
    cbn [matchesSearch webviewNodes existsb matchesItself].
    rewrite existsb_flat_map.
    assert (Hchildren : existsb (matchesSearch toLowerCase searchTerm) children
      = existsb (λ child, existsb (matchesItself toLowerCase searchTerm)
                            (webviewNodes child)) children).
    { induction IH as [|child children Hchild _ IHc]; [reflexivity|].
      simpl. by rewrite Hchild, IHc. }
    rewrite <- Hchildren.
    destruct (includes (toLowerCase name) searchTerm); [reflexivity|].
    destruct (includes (toLowerCase (nodeTypeName type)) searchTerm); [reflexivity|].
    destruct (includesTerm _ _ (displaySchema prettyInput inputSchema)); [reflexivity|].
    by destruct (includesTerm _ _ (displaySchema prettyOutput outputSchema)).
  - intros ->. destruct node. cbn [matchesSearch]. by rewrite includes_empty.
Qed.
